(** * Parallel execution core of Roo-Code: a shallow embedding

    The development follows the TypeScript sources of [core/parallel]:
    [OrchestrationScheduler.ts] (TaskGraph, the three scheduling
    strategies, the scheduler loop), [ReviewCoordinator],
    [WorkspaceAnalyzer], [ParallelInstanceManager], [RateLimiter] and
    [IPCChannel.ts].

    Conventions.
    - A JavaScript [Map] or [Set] whose iteration order is observed by the
      code is an insertion-ordered list ([JsMap], [JsSet]); a [Map] that is
      only looked up by key is a [gmap].
    - Times, counts and requests-per-minute figures are integers, and
      integer-valued JavaScript numbers are [Z]; the places where the code
      can leave the integers (a division by zero) use [number], which adds
      the two infinities and NaN.
    - [await]ed collaborators (session creation racing its timeout, the
      message send, [uuidv4], [Date.now]) are explicit arguments of the
      operation that consults them.
    - An [async] method runs up to its [await], and other calls run before
      it goes on.  Where the statements are about calls that overlap
      ([spawnWorker], [terminateWorker], [cleanup],
      [ensureReviewerAvailable]) the calls are followed from [await] to
      [await] ([PoolRun], [ReviewCoordinator.run_step]); a method written
      as one step stands for a call during whose awaits nothing else runs.
    - A thrown exception is the [Throw] outcome of the operation. *)

From Stdlib Require Import ZArith Lia List String Ascii Bool Sorted.
From stdpp Require Import base option list strings pretty gmap.

Local Open Scope string_scope.
Local Open Scope list_scope.

(** ** Outcomes of operations that may throw *)

Inductive outcome (E A : Type) : Type :=
| Ok (a : A)
| Throw (e : E)
| OutOfFuel.
Arguments Ok {E A} a.
Arguments Throw {E A} e.
Arguments OutOfFuel {E A}.

(** [for (const x of xs) body(x)] over a threaded state, stopping at the
    first exception. *)
Fixpoint for_each {E A S : Type} (body : A -> S -> outcome E S)
    (xs : list A) (s : S) : outcome E S :=
  match xs with
  | [] => Ok s
  | x :: xs' =>
      match body x s with
      | Ok s' => for_each body xs' s'
      | Throw e => Throw e
      | OutOfFuel => OutOfFuel
      end
  end.

(** ** JavaScript numbers, [Math.min], [Array.prototype.slice] *)

Inductive number : Type :=
| Num (z : Z)
| PosInf
| NegInf
| NaN.

(** [Math.floor(a / b)] for integers [a] and [b]. *)
Definition floor_div (a b : Z) : number :=
  if (b =? 0)%Z then
    if (a =? 0)%Z then NaN else if (0 <? a)%Z then PosInf else NegInf
  else Num (a / b)%Z.

Definition number_min (x y : number) : number :=
  match x, y with
  | NaN, _ | _, NaN => NaN
  | NegInf, _ | _, NegInf => NegInf
  | PosInf, n | n, PosInf => n
  | Num a, Num b => Num (Z.min a b)
  end.

(** [Math.min(a, b, c)]. *)
Definition Math_min3 (a b c : number) : number :=
  number_min (number_min a b) c.

(** [xs.slice(0, end)]: the end index goes through ToIntegerOrInfinity (NaN
    becomes 0), a negative end counts from the back of the array, and the
    result is clamped to the array. *)
Definition slice0 {A : Type} (xs : list A) (stop : number) : list A :=
  let len := Z.of_nat (length xs) in
  let final :=
    match stop with
    | NaN => 0%Z
    | NegInf => 0%Z
    | PosInf => len
    | Num k => if (k <? 0)%Z then Z.max (len + k) 0 else Z.min k len
    end in
  firstn (Z.to_nat final) xs.

(** ** Insertion-ordered [Set<string>] and [Map<string, V>] *)

Module JsSet.
Definition t := list string.

Definition has (x : string) (s : t) : bool := existsb (String.eqb x) s.

Definition add (x : string) (s : t) : t := if has x s then s else s ++ [x].

Definition delete (x : string) (s : t) : t :=
  List.filter (fun y => negb (String.eqb x y)) s.

(** [new Set(xs)] *)
Definition of_list (xs : list string) : t :=
  fold_left (fun s x => add x s) xs [].
End JsSet.

Module JsMap.
Section defs.
Context {V : Type}.

Definition t := list (string * V).

Fixpoint get (k : string) (m : t) : option V :=
  match m with
  | [] => None
  | (k', v) :: m' => if String.eqb k k' then Some v else get k m'
  end.

Definition has (k : string) (m : t) : bool :=
  match get k m with Some _ => true | None => false end.

(** [m.set(k, v)]: an existing key keeps its position. *)
Fixpoint set (k : string) (v : V) (m : t) : t :=
  match m with
  | [] => [(k, v)]
  | (k', v') :: m' =>
      if String.eqb k k' then (k', v) :: m' else (k', v') :: set k v m'
  end.

Definition keys (m : t) : list string := map fst m.
Definition values (m : t) : list V := map snd m.
End defs.
Arguments t : clear implicits.
End JsMap.

(** ** TaskGraph *)

Record TaskWithDependencies : Type := {
  task_id : string;
  task_dependencies : list string;
  task_instructions : string;
  task_workspacePath : string;
  task_workerType : option string;
  task_estimatedRPM : option Z;
}.

Record TaskNode : Type := {
  node_id : string;
  dependencies : JsSet.t;
  dependents : JsSet.t;
  completed : bool;
  instructions : string;
  workspacePath : string;
  workerType : option string;
  estimatedRPM : option Z;
}.

Definition with_dependents (n : TaskNode) (ds : JsSet.t) : TaskNode :=
  {| node_id := node_id n; dependencies := dependencies n; dependents := ds;
     completed := completed n; instructions := instructions n;
     workspacePath := workspacePath n; workerType := workerType n;
     estimatedRPM := estimatedRPM n |}.

Definition with_completed (n : TaskNode) (c : bool) : TaskNode :=
  {| node_id := node_id n; dependencies := dependencies n;
     dependents := dependents n; completed := c;
     instructions := instructions n; workspacePath := workspacePath n;
     workerType := workerType n; estimatedRPM := estimatedRPM n |}.

(** The errors the constructor can raise.  The first two are the ones the
    code throws itself; [TypeError] is what dereferencing a missing node
    ([this.nodes.get(nodeId)!]) would raise. *)
Inductive GraphError : Type :=
| MissingDependency (task dep : string)
| CircularDependency (cycle : list string)
| TypeError.

Definition InvalidGraphError (e : GraphError) : Prop :=
  match e with
  | MissingDependency _ _ | CircularDependency _ => True
  | TypeError => False
  end.

Module TaskGraph.

(** The class has the single field [nodes]. *)
Definition t := JsMap.t TaskNode.

Definition mk_node (task : TaskWithDependencies) : TaskNode :=
  {| node_id := task_id task;
     dependencies := JsSet.of_list (task_dependencies task);
     dependents := [];
     completed := false;
     instructions := task_instructions task;
     workspacePath := task_workspacePath task;
     workerType := task_workerType task;
     estimatedRPM := task_estimatedRPM task |}.

(** First pass of [buildGraph]: create all nodes. *)
Definition create_nodes (tasks : list TaskWithDependencies) : t :=
  fold_left (fun nodes task => JsMap.set (task_id task) (mk_node task) nodes)
            tasks [].

(** Body of the inner loop of the second pass. *)
Definition add_dependent (nodeId depId : string) (nodes : t)
  : outcome GraphError t :=
  match JsMap.get depId nodes with
  | None => Throw (MissingDependency nodeId depId)
  | Some depNode =>
      Ok (JsMap.set depId
            (with_dependents depNode (JsSet.add nodeId (dependents depNode)))
            nodes)
  end.

(** Second pass of [buildGraph].  The loop runs over the live map, but it
    only ever rewrites [dependents] fields, so the ids and dependency sets
    it reads are those of the nodes created by the first pass. *)
Definition link_dependents (nodes : t) : outcome GraphError t :=
  for_each
    (fun node => for_each (add_dependent (node_id node)) (dependencies node))
    (JsMap.values nodes) nodes.

Definition buildGraph (tasks : list TaskWithDependencies)
  : outcome GraphError t :=
  link_dependents (create_nodes tasks).

(** The two sets of [validateNoCycles]. *)
Record dfs_state : Type := {
  visited : JsSet.t;
  visiting : JsSet.t;
}.

(** The closure [dfs] of [validateNoCycles]; [fuel] bounds the depth of
    the recursion. *)
Fixpoint dfs (fuel : nat) (nodes : t) (nodeId : string) (path : list string)
    (st : dfs_state) : outcome GraphError dfs_state :=
  match fuel with
  | O => OutOfFuel
  | S fuel' =>
      if JsSet.has nodeId (visiting st) then
        Throw (CircularDependency (path ++ [nodeId]))
      else if JsSet.has nodeId (visited st) then Ok st
      else
        let st1 := {| visited := visited st;
                      visiting := JsSet.add nodeId (visiting st) |} in
        match JsMap.get nodeId nodes with
        | None => Throw TypeError
        | Some node =>
            match for_each
                    (fun depId => dfs fuel' nodes depId (path ++ [nodeId]))
                    (dependencies node) st1 with
            | Ok st2 =>
                Ok {| visited := JsSet.add nodeId (visited st2);
                      visiting := JsSet.delete nodeId (visiting st2) |}
            | Throw e => Throw e
            | OutOfFuel => OutOfFuel
            end
        end
  end.

(** The recursion never nests deeper than one call per node plus the call
    that finds the cycle. *)
Definition dfs_fuel (nodes : t) : nat := S (length nodes).

Definition validateNoCycles (nodes : t) : outcome GraphError dfs_state :=
  for_each
    (fun nodeId st =>
       if JsSet.has nodeId (visited st) then Ok st
       else dfs (dfs_fuel nodes) nodes nodeId [] st)
    (JsMap.keys nodes)
    {| visited := []; visiting := [] |}.

(** [new TaskGraph(tasks)] *)
Definition new (tasks : list TaskWithDependencies) : outcome GraphError t :=
  match buildGraph tasks with
  | Ok nodes =>
      match validateNoCycles nodes with
      | Ok _ => Ok nodes
      | Throw e => Throw e
      | OutOfFuel => OutOfFuel
      end
  | Throw e => Throw e
  | OutOfFuel => OutOfFuel
  end.

Definition node_completed (nodes : t) (id : string) : bool :=
  match JsMap.get id nodes with
  | Some n => completed n
  | None => false
  end.

(** [!this.nodes.get(depId)?.completed] *)
Definition incomplete (nodes : t) (depId : string) : bool :=
  negb (node_completed nodes depId).

Definition getIndependentTasks (nodes : t) : list string :=
  map node_id
    (List.filter
       (fun node =>
          negb (completed node)
          && negb (existsb (incomplete nodes) (dependencies node)))
       (JsMap.values nodes)).

Definition markCompleted (taskId : string) (nodes : t) : t :=
  match JsMap.get taskId nodes with
  | Some node => JsMap.set taskId (with_completed node true) nodes
  | None => nodes
  end.

Definition getTaskDetails (taskId : string) (nodes : t) : option TaskNode :=
  JsMap.get taskId nodes.

Definition allTasksComplete (nodes : t) : bool :=
  forallb completed (JsMap.values nodes).

Definition getTaskCount (nodes : t) : nat := length nodes.

Definition getCompletedCount (nodes : t) : nat :=
  length (List.filter completed (JsMap.values nodes)).

(** *** Critical path *)

(** The local maps and arrays of [getCriticalPath].  [distances] and
    [predecessors] are filled in the key order of [nodes] and afterwards
    only updated at existing keys, so iterating their entries is
    iterating the keys of [nodes]. *)
Record kahn_state : Type := {
  inDegree : gmap string Z;
  distances : gmap string Z;
  predecessors : gmap string (option string);
  queue : list string;
  sorted : list string;
}.

Definition dist_of (st : kahn_state) (id : string) : Z :=
  default 0%Z (distances st !! id).

Definition incompleteDeps (nodes : t) (node : TaskNode) : list string :=
  List.filter (incomplete nodes) (dependencies node).

(** Initialisation of the in-degrees, the queue, the distances and the
    predecessors. *)
Definition kahn_init (nodes : t) : kahn_state :=
  let live := List.filter (fun node => negb (completed node))
                          (JsMap.values nodes) in
  {| inDegree :=
       fold_left
         (fun m node =>
            <[node_id node := Z.of_nat (length (incompleteDeps nodes node))]> m)
         live ∅;
     distances :=
       fold_left (fun m k => <[k := 0%Z]> m) (JsMap.keys nodes) ∅;
     predecessors :=
       fold_left (fun m k => <[k := None]> m) (JsMap.keys nodes) ∅;
     queue :=
       map node_id
         (List.filter
            (fun node => (length (incompleteDeps nodes node) =? 0)%nat) live);
     sorted := [] |}.

(** Body of [for (const dependentId of node.dependents)]. *)
Definition relax (nodes : t) (nodeId dependentId : string) (st : kahn_state)
  : outcome GraphError kahn_state :=
  match JsMap.get dependentId nodes with
  | None => Throw TypeError
  | Some dependent =>
      if completed dependent then Ok st
      else
        let newDist := (dist_of st nodeId + 1)%Z in
        let improved := (dist_of st dependentId <? newDist)%Z in
        let distances' :=
          if improved then <[dependentId := newDist]> (distances st)
          else distances st in
        let predecessors' :=
          if improved then <[dependentId := Some nodeId]> (predecessors st)
          else predecessors st in
        let degree := (default 0%Z (inDegree st !! dependentId) - 1)%Z in
        Ok {| inDegree := <[dependentId := degree]> (inDegree st);
              distances := distances';
              predecessors := predecessors';
              queue := if (degree =? 0)%Z then queue st ++ [dependentId]
                       else queue st;
              sorted := sorted st |}
  end.

(** [while (queue.length > 0)] *)
Fixpoint kahn (fuel : nat) (nodes : t) (st : kahn_state)
  : outcome GraphError kahn_state :=
  match queue st with
  | [] => Ok st
  | nodeId :: rest =>
      match fuel with
      | O => OutOfFuel
      | S fuel' =>
          let st1 := {| inDegree := inDegree st; distances := distances st;
                        predecessors := predecessors st; queue := rest;
                        sorted := sorted st ++ [nodeId] |} in
          match JsMap.get nodeId nodes with
          | None => Throw TypeError
          | Some node =>
              match for_each (relax nodes nodeId) (dependents node) st1 with
              | Ok st2 => kahn fuel' nodes st2
              | Throw e => Throw e
              | OutOfFuel => OutOfFuel
              end
          end
      end
  end.

(** The scan for the end of the critical path: [(maxDist, endNode)]. *)
Definition find_end (nodes : t) (st : kahn_state) : Z * option string :=
  fold_left
    (fun '(maxDist, endNode) nodeId =>
       if negb (node_completed nodes nodeId)
          && (maxDist <? dist_of st nodeId)%Z
       then (dist_of st nodeId, Some nodeId)
       else (maxDist, endNode))
    (JsMap.keys nodes) ((-1)%Z, None).

(** [while (current !== null) { path.unshift(current); ... }] *)
Fixpoint reconstruct (fuel : nat) (preds : gmap string (option string))
    (current : option string) (path : list string)
  : outcome GraphError (list string) :=
  match current with
  | None => Ok path
  | Some c =>
      match fuel with
      | O => OutOfFuel
      | S fuel' =>
          match preds !! c with
          | Some next => reconstruct fuel' preds next (c :: path)
          | None => OutOfFuel
          end
      end
  end.

Definition getCriticalPath (nodes : t) : outcome GraphError (list string) :=
  match kahn (S (length nodes)) nodes (kahn_init nodes) with
  | Ok st =>
      match snd (find_end nodes st) with
      | None => Ok []
      | Some endNode =>
          if String.eqb endNode EmptyString then Ok []
          else reconstruct (S (length nodes)) (predecessors st)
                           (Some endNode) []
      end
  | Throw e => Throw e
  | OutOfFuel => OutOfFuel
  end.

End TaskGraph.

Definition mkTask (id : string) (deps : list string) (ws : string)
  : TaskWithDependencies :=
  {| task_id := id; task_dependencies := deps; task_instructions := EmptyString;
     task_workspacePath := ws; task_workerType := None;
     task_estimatedRPM := None |}.

(** ** Scheduling strategies *)

(** What a call of [selectTasks] leaves behind: the array it returns and the
    contents of the caller's [availableTasks] array and graph after the
    call. *)
Record selection : Type := {
  selected : list string;
  availableTasks_after : list string;
  graph_after : option TaskGraph.t;
}.

(** [Array.prototype.sort(cmp)].  The sort is stable, and for a consistent
    comparator its result is the stable insertion sort. *)
Fixpoint sort_insert {A : Type} (cmp : A -> A -> Z) (x : A) (l : list A)
  : list A :=
  match l with
  | [] => [x]
  | y :: l' => if (cmp x y <=? 0)%Z then x :: l else y :: sort_insert cmp x l'
  end.

Definition Array_sort {A : Type} (cmp : A -> A -> Z) (l : list A) : list A :=
  fold_right (sort_insert cmp) [] l.

Definition includes (x : string) (l : list string) : bool :=
  existsb (String.eqb x) l.

Fixpoint indexOf (x : string) (l : list string) : Z :=
  match l with
  | [] => (-1)%Z
  | y :: l' =>
      if String.eqb x y then 0%Z
      else let i := indexOf x l' in if (i <? 0)%Z then (-1)%Z else (i + 1)%Z
  end.

Module MaxParallelStrategy.
Definition selectTasks (availableTasks : list string) (availableWorkers : Z)
    (graph : option TaskGraph.t) : selection :=
  {| selected := slice0 availableTasks (Num availableWorkers);
     availableTasks_after := availableTasks;
     graph_after := graph |}.
End MaxParallelStrategy.

Module RateAwareStrategy.
Record t : Type := {
  maxRPM : Z;
  estimatedRPMPerTask : Z;
}.

(** [constructor(maxRPM = 3800, estimatedRPMPerTask = 15)] *)
Definition new (maxRPM estimatedRPMPerTask : option Z) : t :=
  {| maxRPM := default 3800%Z maxRPM;
     estimatedRPMPerTask := default 15%Z estimatedRPMPerTask |}.

Definition headroom (self : t) (currentRPM : Z) : Z :=
  Z.max 0 (maxRPM self - currentRPM).

Definition tasksToSpawn (self : t) (availableTasks : list string)
    (availableWorkers : Z) (currentRPM : Z) : number :=
  Math_min3 (Num (Z.of_nat (length availableTasks)))
            (Num availableWorkers)
            (floor_div (headroom self currentRPM) (estimatedRPMPerTask self)).

(** [selectTasks(availableTasks, availableWorkers, currentRPM = 0)] *)
Definition selectTasks (self : t) (availableTasks : list string)
    (availableWorkers : Z) (currentRPM : option Z)
    (graph : option TaskGraph.t) : selection :=
  let currentRPM := default 0%Z currentRPM in
  {| selected :=
       slice0 availableTasks
              (tasksToSpawn self availableTasks availableWorkers currentRPM);
     availableTasks_after := availableTasks;
     graph_after := graph |}.
End RateAwareStrategy.

Module CriticalPathStrategy.
(** The comparator handed to [sort]. *)
Definition compare (criticalPath : list string) (a b : string) : Z :=
  let aOnPath := includes a criticalPath in
  let bOnPath := includes b criticalPath in
  if aOnPath && negb bOnPath then (-1)%Z
  else if negb aOnPath && bOnPath then 1%Z
  else if aOnPath && bOnPath then
    (indexOf a criticalPath - indexOf b criticalPath)%Z
  else 0%Z.

(** [availableTasks.sort(...)] sorts the caller's array in place and
    returns that same array, so [prioritized] and [availableTasks] are one
    object. *)
Definition selectTasks (availableTasks : list string) (availableWorkers : Z)
    (graph : option TaskGraph.t) : outcome GraphError selection :=
  match graph with
  | None =>
      Ok {| selected := slice0 availableTasks (Num availableWorkers);
            availableTasks_after := availableTasks;
            graph_after := None |}
  | Some g =>
      match TaskGraph.getCriticalPath g with
      | Ok criticalPath =>
          let prioritized := Array_sort (compare criticalPath) availableTasks in
          Ok {| selected := slice0 prioritized (Num availableWorkers);
                availableTasks_after := prioritized;
                graph_after := Some g |}
      | Throw e => Throw e
      | OutOfFuel => OutOfFuel
      end
  end.
End CriticalPathStrategy.

Inductive SchedulingStrategy : Type :=
| MaxParallel
| RateAware (self : RateAwareStrategy.t)
| CriticalPath.

(** Dynamic dispatch of [strategy.selectTasks(...)]. *)
Definition selectTasks (strategy : SchedulingStrategy)
    (availableTasks : list string) (availableWorkers : Z)
    (currentRPM : option Z) (graph : option TaskGraph.t)
  : outcome GraphError selection :=
  match strategy with
  | MaxParallel =>
      Ok (MaxParallelStrategy.selectTasks availableTasks availableWorkers graph)
  | RateAware self =>
      Ok (RateAwareStrategy.selectTasks self availableTasks availableWorkers
            currentRPM graph)
  | CriticalPath =>
      CriticalPathStrategy.selectTasks availableTasks availableWorkers graph
  end.

(** ** ParallelInstanceManager *)

Inductive WorkerStatus : Type := idle | busy | error | terminated.

(** The backing [Task] session, as far as the pool touches it: the options
    [createTask] builds it from and the [abort] flag. *)
Record Task : Type := {
  task_prompt : string;
  task_workspace : string;
  task_parallelExecution : bool;
  task_startTask : bool;
  abort : bool;
}.

Record WorkerInstance : Type := {
  worker_id : string;
  worker_task : Task;
  workingDir : string;
  createdAt : Z;
  status : WorkerStatus;
}.

Record SpawnParams : Type := {
  taskId : string;
  param_workingDir : string;
  systemPrompt : string;
  mcpServers : option (list string);
}.

(** How [Promise.race([this.createTask(params), timeoutPromise])] settles. *)
Inductive race : Type :=
| TaskReady
| TimedOut
| CreateRejected.

Inductive SpawnError : Type :=
| LimitReached (maxWorkers : Z)
| DuplicateId (id : string)
| SpawnTimeout (ms : Z)
| CreateFailed.

(** The session events the pool listens to. *)
Inductive TaskEvent : Type :=
| TaskStarted
| TaskCompleted
| TaskAborted
| TaskToolFailed.

Module ParallelInstanceManager.

Record ParallelInstanceConfig : Type := {
  maxWorkers : Z;
  spawnTimeout : Z;
  autoCleanup : bool;
}.

Record t : Type := {
  workers : gmap string WorkerInstance;
  config : ParallelInstanceConfig;
}.

Definition with_workers (m : t) (ws : gmap string WorkerInstance) : t :=
  {| workers := ws; config := config m |}.

(** The constructor; [None] is the thrown
    "maxWorkers must be between 2 and 50". *)
Definition new (maxWorkers spawnTimeout : option Z) (autoCleanup : option bool)
  : option t :=
  let maxWorkers := default 10%Z maxWorkers in
  if (maxWorkers <? 2)%Z || (50 <? maxWorkers)%Z then None
  else Some {| workers := ∅;
               config := {| maxWorkers := maxWorkers;
                            spawnTimeout := default 3000%Z spawnTimeout;
                            autoCleanup := default true autoCleanup |} |}.

Definition createTask (params : SpawnParams) : Task :=
  {| task_prompt := systemPrompt params;
     task_workspace := param_workingDir params;
     task_parallelExecution := true;
     task_startTask := true;
     abort := false |}.

Definition terminate_instance (w : WorkerInstance) : WorkerInstance :=
  {| worker_id := worker_id w;
     worker_task := {| task_prompt := task_prompt (worker_task w);
                       task_workspace := task_workspace (worker_task w);
                       task_parallelExecution :=
                         task_parallelExecution (worker_task w);
                       task_startTask := task_startTask (worker_task w);
                       abort := true |};
     workingDir := workingDir w;
     createdAt := createdAt w;
     status := terminated |}.

(** [terminateWorker] when nothing else runs during its pause: mark the
    tracked instance terminated and aborted, then (in the [finally]) drop it
    from the map. *)
Definition terminateWorker (workerId : string) (m : t) : t :=
  match workers m !! workerId with
  | None => m
  | Some worker =>
      let marked := <[workerId := terminate_instance worker]> (workers m) in
      with_workers m (delete workerId marked)
  end.

(** [terminateWorker] in the two halves its [await] separates.  Up to the
    [await] the tracked instance is marked; [None] is the call that finds
    no such worker and returns at once. *)
Definition terminate_begin (workerId : string) (m : t) : option t :=
  match workers m !! workerId with
  | None => None
  | Some worker =>
      Some (with_workers m
              (<[workerId := terminate_instance worker]> (workers m)))
  end.

(** The [finally], 100 ms later: whatever is tracked under the id then is
    dropped. *)
Definition terminate_end (workerId : string) (m : t) : t :=
  with_workers m (delete workerId (workers m)).

(** The two checks [spawnWorker] makes before it creates the session. *)
Definition spawn_refused (params : SpawnParams) (m : t) : option SpawnError :=
  if (maxWorkers (config m) <=? Z.of_nat (size (workers m)))%Z then
    Some (LimitReached (maxWorkers (config m)))
  else if bool_decide (is_Some (workers m !! taskId params)) then
    Some (DuplicateId (taskId params))
  else None.

(** The part of [spawnWorker] after the [await]: the race has settled. *)
Definition spawn_settled (params : SpawnParams) (r : race) (now : Z) (m : t)
  : (SpawnError + WorkerInstance) * t :=
  match r with
  | TaskReady =>
      let worker := {| worker_id := taskId params;
                       worker_task := createTask params;
                       workingDir := param_workingDir params;
                       createdAt := now;
                       status := idle |} in
      (inr worker, with_workers m (<[taskId params := worker]> (workers m)))
  | TimedOut =>
      (inl (SpawnTimeout (spawnTimeout (config m))),
       if autoCleanup (config m) then terminateWorker (taskId params) m
       else m)
  | CreateRejected =>
      (inl CreateFailed,
       if autoCleanup (config m) then terminateWorker (taskId params) m
       else m)
  end.

(** [spawnWorker] for a call that runs alone: nothing else touches the pool
    while the call awaits the race.  Calls that overlap are followed step by
    step in [PoolRun]. *)
Definition spawnWorker (params : SpawnParams) (r : race) (now : Z) (m : t)
  : (SpawnError + WorkerInstance) * t :=
  match spawn_refused params m with
  | Some e => (inl e, m)
  | None => spawn_settled params r now m
  end.

(** The listeners of [setupTaskEventListeners]: a session event rewrites the
    status of the worker, if it is still tracked. *)
Definition on_task_event (id : string) (ev : TaskEvent) (m : t) : t :=
  match workers m !! id with
  | None => m
  | Some w =>
      let status' :=
        match ev with
        | TaskStarted => busy
        | TaskCompleted => idle
        | TaskAborted | TaskToolFailed => error
        end in
      with_workers m
        (<[id := {| worker_id := worker_id w; worker_task := worker_task w;
                    workingDir := workingDir w; createdAt := createdAt w;
                    status := status' |}]> (workers m))
  end.

Definition getWorker (id : string) (m : t) : option WorkerInstance :=
  workers m !! id.

Definition getWorkerStatus (id : string) (m : t) : option WorkerStatus :=
  status <$> workers m !! id.

(** [dispose] *)
Definition dispose (m : t) : t := with_workers m ∅.

End ParallelInstanceManager.

(** ** ParallelInstanceManager: calls that overlap *)

(** [spawnWorker], [terminateWorker] and [cleanup] are [async]: each runs up
    to its [await], and whatever else is scheduled runs on the same pool
    before the call goes on.  A call suspended on the pool is one of:
    [spawnWorker] at [await Promise.race(...)], after its two checks;
    [terminateWorker] in its 100 ms pause, after which a failed
    [spawnWorker] that called it rethrows its error; [cleanup] at
    [await Promise.all(...)], with the terminations that have not reached
    their [finally] yet. *)
Inductive pool_wait : Type :=
| race_awaited (params : SpawnParams)
| shutdown_awaited (workerId : string) (rethrow : option SpawnError)
| terminations_awaited (workerIds : list string)
| wait_over.

Definition is_race_awaited (w : pool_wait) : bool :=
  match w with race_awaited _ => true | _ => false end.

Module PoolRun.

(** The pool and the calls suspended on it; a call is known by its ticket,
    the position at which it was entered. *)
Record t : Type := {
  pool : ParallelInstanceManager.t;
  waits : list pool_wait;
}.

Definition fresh (m : ParallelInstanceManager.t) : t :=
  {| pool := m; waits := [] |}.

(** What can happen next: a call is made, a session emits an event, or the
    suspended call with the given ticket goes on ([r] and [now] are how its
    race has settled and the clock, read by a [spawnWorker] only). *)
Inductive step : Type :=
| call_spawnWorker (params : SpawnParams)
| call_terminateWorker (workerId : string)
| call_cleanup
| call_dispose
| session_event (workerId : string) (ev : TaskEvent)
| resume (ticket : nat) (r : race) (now : Z).

(** What the step hands to the caller of the call it belongs to. *)
Inductive result : Type :=
| suspended (ticket : nat)
| spawned (worker : WorkerInstance)
| spawn_failed (e : SpawnError)
| finished.

Definition suspend (w : pool_wait) (m : ParallelInstanceManager.t) (s : t)
  : result * t :=
  (suspended (length (waits s)), {| pool := m; waits := waits s ++ [w] |}).

Definition proceed (ticket : nat) (w : pool_wait)
    (m : ParallelInstanceManager.t) (s : t) : t :=
  {| pool := m; waits := <[ticket := w]> (waits s) |}.

(** The first half of every [terminateWorker] that [cleanup] starts. *)
Definition mark_all (workerIds : list string) (m : ParallelInstanceManager.t)
  : ParallelInstanceManager.t :=
  fold_left
    (fun m id => default m (ParallelInstanceManager.terminate_begin id m))
    workerIds m.

Definition run_step (s : t) (st : step) : result * t :=
  match st with
  | call_spawnWorker params =>
      match ParallelInstanceManager.spawn_refused params (pool s) with
      | Some e => (spawn_failed e, s)
      | None => suspend (race_awaited params) (pool s) s
      end
  | call_terminateWorker workerId =>
      match ParallelInstanceManager.terminate_begin workerId (pool s) with
      | None => (finished, s)
      | Some m => suspend (shutdown_awaited workerId None) m s
      end
  | call_cleanup =>
      let workerIds :=
        map fst (map_to_list (ParallelInstanceManager.workers (pool s))) in
      suspend (terminations_awaited workerIds) (mark_all workerIds (pool s)) s
  | call_dispose =>
      (finished,
       {| pool := ParallelInstanceManager.dispose (pool s); waits := waits s |})
  | session_event workerId ev =>
      (finished,
       {| pool := ParallelInstanceManager.on_task_event workerId ev (pool s);
          waits := waits s |})
  | resume ticket r now =>
      match waits s !! ticket with
      | Some (race_awaited params) =>
          match ParallelInstanceManager.spawn_settled params r now (pool s) with
          | (inr worker, m) => (spawned worker, proceed ticket wait_over m s)
          | (inl e, _) =>
              (* the [catch]: [terminateWorker] is entered, and awaited *)
              if ParallelInstanceManager.autoCleanup
                   (ParallelInstanceManager.config (pool s))
              then
                match ParallelInstanceManager.terminate_begin (taskId params)
                        (pool s) with
                | Some m =>
                    (suspended ticket,
                     proceed ticket (shutdown_awaited (taskId params) (Some e))
                       m s)
                | None => (spawn_failed e, proceed ticket wait_over (pool s) s)
                end
              else (spawn_failed e, proceed ticket wait_over (pool s) s)
          end
      | Some (shutdown_awaited workerId rethrow) =>
          (match rethrow with Some e => spawn_failed e | None => finished end,
           proceed ticket wait_over
             (ParallelInstanceManager.terminate_end workerId (pool s)) s)
      | Some (terminations_awaited (workerId :: workerIds)) =>
          (suspended ticket,
           proceed ticket (terminations_awaited workerIds)
             (ParallelInstanceManager.terminate_end workerId (pool s)) s)
      | Some (terminations_awaited []) =>
          (* [this.workers.clear()] *)
          (finished,
           proceed ticket wait_over
             (ParallelInstanceManager.dispose (pool s)) s)
      | Some wait_over | None => (finished, s)
      end
  end.

Definition run (steps : list step) (s : t) : t :=
  fold_left (fun s st => snd (run_step s st)) steps s.

(** The [spawnWorker] calls that have passed their checks and await their
    race. *)
Definition racing (s : t) : nat :=
  length (List.filter is_race_awaited (waits s)).

(** The largest number of [spawnWorker] calls awaiting their race at one
    time in the course of a run. *)
Fixpoint overlap (steps : list step) (s : t) : nat :=
  match steps with
  | [] => racing s
  | st :: steps' => Nat.max (racing s) (overlap steps' (snd (run_step s st)))
  end.

Definition resumes (ticket : nat) (st : step) : bool :=
  match st with
  | resume ticket' _ _ => (ticket' =? ticket)%nat
  | _ => false
  end.

End PoolRun.

(** ** OrchestrationScheduler *)

Inductive ExecutionState : Type := pending | running | done | failed.

Inductive SchedulingStrategyType : Type :=
| max_parallel
| rate_aware
| critical_path.

Inductive SchedulerError : Type :=
| TaskNotFound (taskId : string)
| SpawnFailed (e : SpawnError)
| SendFailed (dest : string)
| StrategyFailed (e : GraphError).

Inductive SchedulerEvent : Type :=
| ev_started
| ev_task_assigned (taskId workerId : string)
| ev_task_completed (taskId : string)
| ev_task_failed (taskId : string)
| ev_task_assign_failed (taskId : string) (e : SchedulerError)
| ev_completed
| ev_error (e : SchedulerError).

(** What the collaborators answer while a task is being assigned: how the
    spawn race for a task id settles, whether [ipcChannel.send] to a worker
    succeeds, and the clock. *)
Record Environment : Type := {
  spawn_race : string -> race;
  send_ok : string -> bool;
  clock : Z;
}.

Module OrchestrationScheduler.

Record SchedulerOptions : Type := {
  strategy_type : SchedulingStrategyType;
  opt_maxRPM : option Z;
  opt_estimatedRPMPerTask : option Z;
}.

Record t : Type := {
  graph : TaskGraph.t;
  strategy : SchedulingStrategy;
  instanceManager : ParallelInstanceManager.t;
  executionState : gmap string ExecutionState;
  workerMapping : gmap string string;
  currentRPM : Z;
  options : SchedulerOptions;
  emitted : list SchedulerEvent;
}.

Definition selectStrategy (options : SchedulerOptions) : SchedulingStrategy :=
  match strategy_type options with
  | max_parallel => MaxParallel
  | rate_aware =>
      RateAware (RateAwareStrategy.new
                   (Some (default 3800%Z (opt_maxRPM options)))
                   (Some (default 15%Z (opt_estimatedRPMPerTask options))))
  | critical_path => CriticalPath
  end.

(** The constructor. *)
Definition new (tasks : list TaskWithDependencies) (options : SchedulerOptions)
    (manager : ParallelInstanceManager.t) : outcome GraphError t :=
  match TaskGraph.new tasks with
  | Ok g =>
      Ok {| graph := g;
            strategy := selectStrategy options;
            instanceManager := manager;
            executionState :=
              fold_left (fun m task => <[task_id task := pending]> m) tasks ∅;
            workerMapping := ∅;
            currentRPM := 0;
            options := options;
            emitted := [] |}
  | Throw e => Throw e
  | OutOfFuel => OutOfFuel
  end.

Definition emit (e : SchedulerEvent) (s : t) : t :=
  {| graph := graph s; strategy := strategy s;
     instanceManager := instanceManager s;
     executionState := executionState s; workerMapping := workerMapping s;
     currentRPM := currentRPM s; options := options s;
     emitted := emitted s ++ [e] |}.

Definition set_state (taskId : string) (st : ExecutionState) (s : t) : t :=
  {| graph := graph s; strategy := strategy s;
     instanceManager := instanceManager s;
     executionState := <[taskId := st]> (executionState s);
     workerMapping := workerMapping s;
     currentRPM := currentRPM s; options := options s;
     emitted := emitted s |}.

Definition set_manager (m : ParallelInstanceManager.t) (s : t) : t :=
  {| graph := graph s; strategy := strategy s; instanceManager := m;
     executionState := executionState s; workerMapping := workerMapping s;
     currentRPM := currentRPM s; options := options s;
     emitted := emitted s |}.

Definition set_mapping (taskId workerId : string) (s : t) : t :=
  {| graph := graph s; strategy := strategy s;
     instanceManager := instanceManager s;
     executionState := executionState s;
     workerMapping := <[taskId := workerId]> (workerMapping s);
     currentRPM := currentRPM s; options := options s;
     emitted := emitted s |}.

Definition set_rpm (rpm : Z) (s : t) : t :=
  {| graph := graph s; strategy := strategy s;
     instanceManager := instanceManager s;
     executionState := executionState s; workerMapping := workerMapping s;
     currentRPM := rpm; options := options s; emitted := emitted s |}.

Definition set_graph (g : TaskGraph.t) (s : t) : t :=
  {| graph := g; strategy := strategy s;
     instanceManager := instanceManager s;
     executionState := executionState s; workerMapping := workerMapping s;
     currentRPM := currentRPM s; options := options s;
     emitted := emitted s |}.

Definition is_running (st : ExecutionState) : bool :=
  match st with running => true | _ => false end.

Definition is_pending (st : ExecutionState) : bool :=
  match st with pending => true | _ => false end.

Definition runningCount (s : t) : nat :=
  length (List.filter (fun kv => is_running (snd kv))
                      (map_to_list (executionState s))).

(** "For now, return a conservative estimate": the bound is the literal 10,
    not the pool's [maxWorkers]. *)
Definition getAvailableWorkerCount (s : t) : Z :=
  Z.max 0 (10 - Z.of_nat (runningCount s)).

(** The RPM a task accounts for: its own [estimatedRPM] when that is
    truthy, else the configured estimate, else 15. *)
Definition task_rpm (s : t) (details : option TaskNode) : Z :=
  match details with
  | Some {| estimatedRPM := Some r |} =>
      if (r =? 0)%Z then default 15%Z (opt_estimatedRPMPerTask (options s))
      else r
  | _ => default 15%Z (opt_estimatedRPMPerTask (options s))
  end.

(** [assignTask].  The first component is the exception the call rejects
    with, if any. *)
Definition assignTask (env : Environment) (taskId : string) (s : t)
  : option SchedulerError * t :=
  match TaskGraph.getTaskDetails taskId (graph s) with
  | None => (Some (TaskNotFound taskId), s)
  | Some taskDetails =>
      let fail (e : SchedulerError) (s : t) :=
        (Some e,
         emit (ev_task_assign_failed taskId e) (set_state taskId failed s)) in
      let params := {| taskId := taskId;
                       param_workingDir := workspacePath taskDetails;
                       systemPrompt := instructions taskDetails;
                       mcpServers := None |} in
      match ParallelInstanceManager.spawnWorker params (spawn_race env taskId)
              (clock env) (instanceManager s) with
      | (inl e, m) => fail (SpawnFailed e) (set_manager m s)
      | (inr worker, m) =>
          let s1 := set_state taskId running
                      (set_mapping taskId (worker_id worker)
                         (set_manager m s)) in
          if send_ok env (worker_id worker) then
            let s2 := set_rpm (currentRPM s1 + task_rpm s1 (Some taskDetails)) s1 in
            (None, emit (ev_task_assigned taskId (worker_id worker)) s2)
          else fail (SendFailed (worker_id worker)) s1
      end
  end.

(** [for (const taskId of tasksToSpawn) await this.assignTask(taskId)]:
    the first rejection leaves the loop. *)
Fixpoint assign_each (env : Environment) (tasksToSpawn : list string) (s : t)
  : option SchedulerError * t :=
  match tasksToSpawn with
  | [] => (None, s)
  | taskId :: rest =>
      match assignTask env taskId s with
      | (None, s') => assign_each env rest s'
      | (Some e, s') => (Some e, s')
      end
  end.

Definition handleTaskCompleted (taskId : string) (s : t) : t :=
  let s1 := set_graph (TaskGraph.markCompleted taskId (graph s)) s in
  let s2 := set_state taskId done s1 in
  let rpm := task_rpm s2 (TaskGraph.getTaskDetails taskId (graph s2)) in
  emit (ev_task_completed taskId)
       (set_rpm (Z.max 0 (currentRPM s2 - rpm)) s2).

Definition handleTaskFailed (taskId : string) (s : t) : t :=
  let s1 := set_state taskId failed s in
  let rpm := task_rpm s1 (TaskGraph.getTaskDetails taskId (graph s1)) in
  emit (ev_task_failed taskId)
       (set_rpm (Z.max 0 (currentRPM s1 - rpm)) s1).

(** How a run of the loop of [start] ends: the promise resolves, it rejects,
    or the loop is parked in [waitForTaskCompletion] until the next
    completion or failure message. *)
Inductive run : Type :=
| Resolved (s : t)
| Rejected (e : SchedulerError) (s : t)
| Waiting (s : t)
| Diverged.

Definition availableTasks (s : t) : list string :=
  List.filter
    (fun taskId =>
       match executionState s !! taskId with
       | Some st => is_pending st
       | None => false
       end)
    (TaskGraph.getIndependentTasks (graph s)).

(** The [while] loop of [start] together with its [catch]. *)
Fixpoint loop (fuel : nat) (env : Environment) (s : t) : run :=
  match fuel with
  | O => Diverged
  | S fuel' =>
      if TaskGraph.allTasksComplete (graph s) then Resolved (emit ev_completed s)
      else
        let ready := availableTasks s in
        match ready with
        | [] => Waiting s
        | _ :: _ =>
            let availableWorkers := getAvailableWorkerCount s in
            if (availableWorkers =? 0)%Z then Waiting s
            else
              match selectTasks (strategy s) ready availableWorkers
                      (Some (currentRPM s)) (Some (graph s)) with
              | Ok sel =>
                  match assign_each env (selected sel) s with
                  | (Some e, s') => Rejected e (emit (ev_error e) s')
                  | (None, s') =>
                      match selected sel with
                      | [] => Waiting s'
                      | _ :: _ => loop fuel' env s'
                      end
                  end
              | Throw e =>
                  Rejected (StrategyFailed e) (emit (ev_error (StrategyFailed e)) s)
              | OutOfFuel => Diverged
              end
        end
  end.

(** [start()]: every pass through the loop that does not park or finish
    moves at least one pending task to running, which bounds the number of
    passes. *)
Definition start (env : Environment) (s : t) : run :=
  loop (S (length (graph s))) env (emit ev_started s).

End OrchestrationScheduler.

(** ** String helpers of the JavaScript standard library *)

Definition lower_ascii (c : ascii) : ascii :=
  let n := nat_of_ascii c in
  if (65 <=? n)%nat && (n <=? 90)%nat then ascii_of_nat (n + 32) else c.

(** [s.toLowerCase()] on ASCII text. *)
Fixpoint toLowerCase (s : string) : string :=
  match s with
  | EmptyString => EmptyString
  | String c s' => String (lower_ascii c) (toLowerCase s')
  end.

(** [hay.includes(needle)] *)
Definition str_includes (needle hay : string) : bool :=
  match String.index 0 needle hay with Some _ => true | None => false end.

(** [s.startsWith(p)] *)
Definition startsWith (p s : string) : bool := String.prefix p s.

(** ** ReviewCoordinator *)




Module ReviewCoordinator.

(** A call of [ensureReviewerAvailable] that is suspended: at
    [await this.instanceManager.spawnWorker(...)], on the pool's call with
    the given ticket; or handed the spawned worker, with
    [this.activeReviewers.set(...)] still to run. *)
Inductive ensure_wait : Type :=
| spawn_awaited (specialization : string) (ticket : nat)
| record_due (specialization : string) (worker : WorkerInstance)
| ensure_over.

(** The coordinator, the pool it shares with the scheduler, and the calls of
    [ensureReviewerAvailable] in flight. *)
Record t : Type := {
  activeReviewers : gmap string string;
  instanceManager : PoolRun.t;
  ensuring : list ensure_wait;
}.



(** The id of a fresh reviewer, from the result of [uuidv4()]. *)
Definition fresh_reviewerId (specialization uuid : string) : string :=
  ("reviewer-" ++ specialization ++ "-" ++ String.substring 0 8 uuid)%string.

Definition reviewer_params (specialization uuid : string) : SpawnParams :=
  {| taskId := fresh_reviewerId specialization uuid;
     param_workingDir := "./";
     systemPrompt :=
       ("You are a " ++ specialization
        ++ " code reviewer. Review code changes for quality and provide feedback.")%string;
     mcpServers := Some [] |}.

(** [if (existingReviewer)]: a recorded id counts when it is a non-empty
    string.  Whether the pool still tracks a worker under it is not
    looked at. *)
Definition existingReviewer (specialization : string) (c : t) : option string :=
  match activeReviewers c !! specialization with
  | Some id => if String.eqb id EmptyString then None else Some id
  | None => None
  end.

(** What can happen next: [ensureReviewerAvailable] is called, with the
    [uuidv4()] it will draw; the suspended call [k], handed its worker, goes
    on to write the record; [dispose] is called; or something happens on the
    shared pool, which may be the race of a reviewer's spawn settling. *)
Inductive step : Type :=
| call_ensureReviewerAvailable (specialization uuid : string)
| resume_ensureReviewerAvailable (k : nat)
| call_dispose
| on_pool (st : PoolRun.step).

(** What the step hands to the caller of [ensureReviewerAvailable]. *)
Inductive result : Type :=
| reviewer (id : string)
| ensure_failed (e : SpawnError)
| ensure_suspended (k : nat)
| no_result.

Definition with_pool (p : PoolRun.t) (c : t) : t :=
  {| activeReviewers := activeReviewers c; instanceManager := p;
     ensuring := ensuring c |}.

(** A [spawnWorker] call has resolved or rejected: the call of
    [ensureReviewerAvailable] that awaits it is handed the worker, or is
    left by the exception. *)
Definition hand_over (ticket : nat) (res : PoolRun.result) (w : ensure_wait)
  : ensure_wait :=
  match w with
  | spawn_awaited specialization ticket' =>
      if (ticket' =? ticket)%nat then
        match res with
        | PoolRun.spawned worker => record_due specialization worker
        | PoolRun.spawn_failed _ => ensure_over
        | _ => w
        end
      else w
  | _ => w
  end.

Definition run_step (c : t) (st : step) : result * t :=
  match st with
  | call_ensureReviewerAvailable specialization uuid =>
      match existingReviewer specialization c with
      | Some id => (reviewer id, c)
      | None =>
          match PoolRun.run_step (instanceManager c)
                  (PoolRun.call_spawnWorker
                     (reviewer_params specialization uuid)) with
          | (PoolRun.suspended ticket, p) =>
              (ensure_suspended (length (ensuring c)),
               {| activeReviewers := activeReviewers c;
                  instanceManager := p;
                  ensuring :=
                    ensuring c ++ [spawn_awaited specialization ticket] |})
          | (PoolRun.spawn_failed e, p) => (ensure_failed e, with_pool p c)
          | (_, p) => (no_result, with_pool p c)
          end
      end
  | resume_ensureReviewerAvailable k =>
      match ensuring c !! k with
      | Some (record_due specialization worker) =>
          (reviewer (worker_id worker),
           {| activeReviewers :=
                <[specialization := worker_id worker]> (activeReviewers c);
              instanceManager := instanceManager c;
              ensuring := <[k := ensure_over]> (ensuring c) |})
      | _ => (no_result, c)
      end
  | call_dispose =>
      (no_result,
       {| activeReviewers := ∅; instanceManager := instanceManager c;
          ensuring := ensuring c |})
  | on_pool st =>
      match PoolRun.run_step (instanceManager c) st with
      | (res, p) =>
          (no_result,
           {| activeReviewers := activeReviewers c;
              instanceManager := p;
              ensuring :=
                match st with
                | PoolRun.resume ticket _ _ =>
                    map (hand_over ticket res) (ensuring c)
                | _ => ensuring c
                end |})
      end
  end.

Definition run (steps : list step) (c : t) : t :=
  fold_left (fun c st => snd (run_step c st)) steps c.






End ReviewCoordinator.

(** ** RateLimiter *)

Record RequestRecord : Type := {
  timestamp : Z;
  count : Z;
}.

Module RateLimiter.

Record RateLimitConfig : Type := {
  provider : string;
  requestsPerMinute : Z;
}.

(** The request history per provider and the configured limits.  The
    warning flag and the emitted events are written by [checkThresholds]
    only and never read by the queries below. *)
Record t : Type := {
  requests : gmap string (list RequestRecord);
  config : gmap string RateLimitConfig;
}.

Definition new (configs : list RateLimitConfig) : t :=
  {| requests := fold_left (fun m c => <[provider c := []]> m) configs ∅;
     config := fold_left (fun m c => <[provider c := c]> m) configs ∅ |}.

(** [Math.floor(now / 1000) * 1000] *)
Definition currentSecond (now : Z) : Z := (now / 1000 * 1000)%Z.

(** [history.findIndex(...)] followed by the update in place or the
    [push]. *)
Fixpoint record_request (second requestCount : Z) (history : list RequestRecord)
  : list RequestRecord :=
  match history with
  | [] => [{| timestamp := second; count := requestCount |}]
  | r :: history' =>
      if (timestamp r =? second)%Z then
        {| timestamp := timestamp r; count := count r + requestCount |}
          :: history'
      else r :: record_request second requestCount history'
  end.

Definition track (provider : string) (requestCount : Z) (now : Z) (l : t) : t :=
  let history := default [] (requests l !! provider) in
  {| requests :=
       <[provider := record_request (currentSecond now) requestCount history]>
         (requests l);
     config := config l |}.

Definition getCurrentRPM (provider : string) (now : Z) (l : t) : Z :=
  match requests l !! provider with
  | None | Some [] => 0%Z
  | Some history =>
      let oneMinuteAgo := (now - 60000)%Z in
      fold_left (fun sum r => (sum + count r)%Z)
        (List.filter (fun r => (oneMinuteAgo <? timestamp r)%Z) history) 0%Z
  end.

Definition getHeadroom (provider : string) (now : Z) (l : t) : number :=
  match config l !! provider with
  | None => PosInf
  | Some c => Num (Z.max 0 (requestsPerMinute c - getCurrentRPM provider now l))
  end.

(** The periodic sweep. *)
Definition cleanup (now : Z) (l : t) : t :=
  let oneMinuteAgo := (now - 60000)%Z in
  {| requests :=
       (fun history =>
          List.filter (fun r => (oneMinuteAgo <? timestamp r)%Z) history)
         <$> requests l;
     config := config l |}.

Definition reset (provider : string) (l : t) : t :=
  {| requests := <[provider := []]> (requests l); config := config l |}.

End RateLimiter.

(** ** WorkspaceAnalyzer *)

Inductive Severity : Type := sev_error | sev_warning.

Record WorkspaceConflict : Type := {
  taskIds : string * string;
  conflictPath : string;
  severity : Severity;
  conflict_description : string;
}.

(** The part of a [TaskNode] the analyzer reads.  At run time the
    [workspacePath] may be [undefined] or [null], which is [None] here. *)
Record WorkspaceTask : Type := {
  ws_id : string;
  ws_path : option string;
}.

Definition workspace_task (n : TaskNode) : WorkspaceTask :=
  {| ws_id := node_id n; ws_path := Some (workspacePath n) |}.

(** A wildcard pattern as [toRegex] reads it: [**] becomes [.*], a single
    [*] becomes [[^/]*], every other character stands for itself. *)
Inductive glob : Type :=
| Lit (c : ascii)
| Star
| DoubleStar.

Module WorkspaceAnalyzer.

Record WorkspaceAnalyzerConfig : Type := {
  strictMode : bool;
  allowNestedDirs : bool;
  supportWildcards : bool;
}.

(** The analyzer: its configuration, and whether [process.platform] is
    ["win32"]. *)
Record t : Type := {
  config : WorkspaceAnalyzerConfig;
  win32 : bool;
}.

Definition new (strictMode allowNestedDirs supportWildcards : option bool)
    (win32 : bool) : t :=
  {| config := {| strictMode := default true strictMode;
                  allowNestedDirs := default false allowNestedDirs;
                  supportWildcards := default true supportWildcards |};
     win32 := win32 |}.

Definition is_slash (c : ascii) : bool := Ascii.eqb c "/".

(** [path.replace(/\\/g, "/")] *)
Fixpoint backslashes_to_slashes (s : string) : string :=
  match s with
  | EmptyString => EmptyString
  | String c s' =>
      String (if Ascii.eqb c "\" then "/"%char else c)
             (backslashes_to_slashes s')
  end.

(** [s.replace(/\/+$/, EMPTY)], the trailing run of slashes removed *)
Fixpoint strip_trailing_slashes (s : string) : string :=
  match s with
  | EmptyString => EmptyString
  | String c s' =>
      match strip_trailing_slashes s' with
      | EmptyString => if is_slash c then EmptyString else String c EmptyString
      | r => String c r
      end
  end.

(** [s.replace(/\/+/g, "/")] *)
Fixpoint collapse_slashes (s : string) : string :=
  match s with
  | EmptyString => EmptyString
  | String c s' =>
      match s' with
      | String c' _ =>
          if is_slash c && is_slash c' then collapse_slashes s'
          else String c (collapse_slashes s')
      | EmptyString => String c EmptyString
      end
  end.

Definition normalizePath (a : t) (path : string) : string :=
  if String.eqb path EmptyString then "/"
  else
    let n1 := backslashes_to_slashes path in
    let n2 := if (1 <? String.length n1)%nat then strip_trailing_slashes n1
              else n1 in
    let n3 := if startsWith "/" n2 then n2 else ("/" ++ n2)%string in
    let n4 := if win32 a then toLowerCase n3 else n3 in
    collapse_slashes n4.

Fixpoint tokens (pattern : string) : list glob :=
  match pattern with
  | EmptyString => []
  | String c rest =>
      if Ascii.eqb c "*" then
        match rest with
        | String c' rest' =>
            if Ascii.eqb c' "*" then DoubleStar :: tokens rest'
            else Star :: tokens rest
        | EmptyString => [Star]
        end
      else Lit c :: tokens rest
  end.

(** [.] in a regular expression matches everything but line
    terminators. *)
Definition is_line_terminator (c : ascii) : bool :=
  Ascii.eqb c "010" || Ascii.eqb c "013".

(** [new RegExp("^" + escaped + "$").test(s)] *)
Fixpoint regex_test (p : list glob) : string -> bool :=
  match p with
  | [] => fun s => match s with EmptyString => true | _ => false end
  | Lit c :: p' =>
      fun s =>
        match s with
        | String c' s' => Ascii.eqb c c' && regex_test p' s'
        | EmptyString => false
        end
  | Star :: p' =>
      fix star (s : string) : bool :=
        regex_test p' s
        || match s with
           | String c s' => negb (is_slash c) && star s'
           | EmptyString => false
           end
  | DoubleStar :: p' =>
      fix dstar (s : string) : bool :=
        regex_test p' s
        || match s with
           | String c s' => negb (is_line_terminator c) && dstar s'
           | EmptyString => false
           end
  end.

(** [path.split("*")[0]] *)
Fixpoint base_path (s : string) : string :=
  match s with
  | EmptyString => EmptyString
  | String c s' => if Ascii.eqb c "*" then EmptyString else String c (base_path s')
  end.

Definition wildcardConflict (path1 path2 : string) : bool :=
  let hasWildcard1 := str_includes "*" path1 in
  let hasWildcard2 := str_includes "*" path2 in
  if negb hasWildcard1 && negb hasWildcard2 then false
  else if hasWildcard1 && regex_test (tokens path1) path2 then true
  else if hasWildcard2 && regex_test (tokens path2) path1 then true
  else if hasWildcard1 && hasWildcard2 then
    startsWith (base_path path2) (base_path path1)
    || startsWith (base_path path1) (base_path path2)
  else false.

Definition nested (path1 path2 : string) : bool :=
  startsWith (path2 ++ "/")%string path1
  || startsWith (path1 ++ "/")%string path2.

Definition pathsConflict (a : t) (path1 path2 : string) : bool :=
  if String.eqb path1 path2 then true
  else if negb (allowNestedDirs (config a))
          && (String.eqb path1 "/" || String.eqb path2 "/"
              || nested path1 path2)
  then true
  else supportWildcards (config a) && wildcardConflict path1 path2.

Definition quoted (s : string) : string :=
  (String (ascii_of_nat 34) s ++ String (ascii_of_nat 34) EmptyString)%string.

Definition getConflictReason (path1 path2 : string) : string :=
  if String.eqb path1 path2 then
    ("Identical paths: both tasks assigned to " ++ quoted path1)%string
  else if startsWith (path2 ++ "/")%string path1 then
    (quoted path1 ++ " is nested under " ++ quoted path2)%string
  else if startsWith (path1 ++ "/")%string path2 then
    (quoted path2 ++ " is nested under " ++ quoted path1)%string
  else if str_includes "*" path1 || str_includes "*" path2 then
    ("Overlapping wildcard patterns: " ++ quoted path1 ++ " and "
     ++ quoted path2)%string
  else "Paths conflict".

Definition checkConflict (a : t) (task1 task2 : WorkspaceTask)
  : option WorkspaceConflict :=
  match ws_path task1, ws_path task2 with
  | Some p1, Some p2 =>
      let path1 := normalizePath a p1 in
      let path2 := normalizePath a p2 in
      if pathsConflict a path1 path2 then
        Some {| taskIds := (ws_id task1, ws_id task2);
                conflictPath := if String.eqb path1 path2 then path1
                                else (path1 ++ " / " ++ path2)%string;
                severity := sev_error;
                conflict_description := getConflictReason path1 path2 |}
      else None
  | _, _ => None
  end.

Record WorkspaceValidation : Type := {
  isValid : bool;
  conflicts : list WorkspaceConflict;
  assignments : JsMap.t string;
}.

(** The inner loop [for (let j = i + 1; ...)] for a fixed [task1]. *)
Definition conflicts_with (a : t) (task1 : WorkspaceTask)
    (later : list WorkspaceTask) : list WorkspaceConflict :=
  omap (fun task2 =>
          match ws_path task1, ws_path task2 with
          | Some _, Some _ => checkConflict a task1 task2
          | _, _ => None
          end) later.

(** The nested loops over all pairs [i < j]. *)
Fixpoint all_conflicts (a : t) (tasks : list WorkspaceTask)
  : list WorkspaceConflict :=
  match tasks with
  | [] => []
  | task1 :: later => conflicts_with a task1 later ++ all_conflicts a later
  end.

Definition is_error (c : WorkspaceConflict) : bool :=
  match severity c with sev_error => true | sev_warning => false end.

Definition validateAssignments (a : t) (tasks : list WorkspaceTask)
  : WorkspaceValidation :=
  let assignments :=
    fold_left
      (fun m task =>
         match ws_path task with
         | Some p => JsMap.set (ws_id task) p m
         | None => m
         end) tasks [] in
  let conflicts := all_conflicts a tasks in
  {| isValid :=
       if strictMode (config a) then (length conflicts =? 0)%nat
       else (length (List.filter is_error conflicts) =? 0)%nat;
     conflicts := conflicts;
     assignments := assignments |}.

Definition with_strictMode (a : t) (strict : bool) : t :=
  {| config := {| strictMode := strict;
                  allowNestedDirs := allowNestedDirs (config a);
                  supportWildcards := supportWildcards (config a) |};
     win32 := win32 a |}.

End WorkspaceAnalyzer.

(** ** IPCChannel *)

Inductive IPCMessageType : Type :=
| task_assignment
| task_completed
| task_failed
| review_request
| review_approved
| review_rejected
| escalation
| heartbeat.

Record IPCMessage : Type := {
  msg_id : string;
  msg_type : IPCMessageType;
  from : string;
  to : string;
  payload : string;
  msg_timestamp : Z;
  correlationId : option string;
}.

(** The promise returned by a suspended [waitForMessage]. *)
Inductive promise : Type :=
| Pending
| Fulfilled (message : IPCMessage)
| TimedOutWaiting.

(** The ["message"] listener a suspended [waitForMessage] registers: the
    promise it settles, the caller's filter, and the key under which the
    call is recorded in [pendingMessages]. *)
Record waiter : Type := {
  waiter_promise : nat;
  waiter_filter : IPCMessage -> bool;
  waiter_key : string;
}.

Inductive wait_result : Type :=
| Returned (message : IPCMessage)
| Suspended (p : nat).

Module IPCChannel.

Record t : Type := {
  maxQueueSize : Z;
  messageQueue : JsMap.t (list IPCMessage);
  pendingMessages : gmap string nat;
  listeners : list waiter;
  promises : list promise;
}.

Definition new (maxQueueSize : option Z) : t :=
  {| maxQueueSize := default 1000%Z maxQueueSize;
     messageQueue := [];
     pendingMessages := ∅;
     listeners := [];
     promises := [] |}.

(** [resolve]/[reject] of a promise: only a pending promise changes. *)
Definition settle (p : nat) (v : promise) (ps : list promise) : list promise :=
  match ps !! p with
  | Some Pending => <[p := v]> ps
  | _ => ps
  end.

(** The lookup at the head of [handleMessage]: the pending entry a truthy
    [correlationId] of the message names. *)
Definition pending_for (message : IPCMessage) (c : t) : option (string * nat) :=
  match correlationId message with
  | Some cid =>
      if String.eqb cid EmptyString then None
      else match pendingMessages c !! cid with
           | Some p => Some (cid, p)
           | None => None
           end
  | None => None
  end.

(** The queue of a destination after [shift] (when full) and [push]. *)
Definition enqueue (maxQueueSize : Z) (message : IPCMessage)
    (queue : list IPCMessage) : list IPCMessage :=
  (if (maxQueueSize <=? Z.of_nat (length queue))%Z then tail queue else queue)
  ++ [message].

(** The [handler] closure of [waitForMessage], called with a message. *)
Definition run_listener (message : IPCMessage) (w : waiter) (c : t) : t :=
  if waiter_filter w message then
    {| maxQueueSize := maxQueueSize c;
       messageQueue := messageQueue c;
       pendingMessages := delete (waiter_key w) (pendingMessages c);
       listeners :=
         List.filter (fun w' => negb (waiter_promise w' =? waiter_promise w)%nat)
                     (listeners c);
       promises := settle (waiter_promise w) (Fulfilled message) (promises c) |}
  else c.

(** [this.emit("message", message)]: the listeners registered at the time of
    the call are invoked in registration order. *)
Definition emit_message (message : IPCMessage) (c : t) : t :=
  fold_left (fun c w => run_listener message w c) (listeners c) c.

Definition handleMessage (message : IPCMessage) (c : t) : t :=
  match pending_for message c with
  | Some (cid, p) =>
      {| maxQueueSize := maxQueueSize c;
         messageQueue := messageQueue c;
         pendingMessages := delete cid (pendingMessages c);
         listeners := listeners c;
         promises := settle p (Fulfilled message) (promises c) |}
  | None =>
      let queue := default [] (JsMap.get (to message) (messageQueue c)) in
      emit_message message
        {| maxQueueSize := maxQueueSize c;
           messageQueue :=
             JsMap.set (to message) (enqueue (maxQueueSize c) message queue)
                       (messageQueue c);
           pendingMessages := pendingMessages c;
           listeners := listeners c;
           promises := promises c |}
  end.

(** [queue.findIndex(filter)] followed by [queue.splice(index, 1)]: the first
    match and the queue without it. *)
Fixpoint take_first (filter : IPCMessage -> bool) (queue : list IPCMessage)
  : option (IPCMessage * list IPCMessage) :=
  match queue with
  | [] => None
  | m :: queue' =>
      if filter m then Some (m, queue')
      else match take_first filter queue' with
           | Some (found, rest) => Some (found, m :: rest)
           | None => None
           end
  end.

(** The scan over [this.messageQueue.entries()]. *)
Fixpoint scan (filter : IPCMessage -> bool) (queues : JsMap.t (list IPCMessage))
  : option (IPCMessage * JsMap.t (list IPCMessage)) :=
  match queues with
  | [] => None
  | (destination, queue) :: queues' =>
      match take_first filter queue with
      | Some (found, rest) => Some (found, (destination, rest) :: queues')
      | None =>
          match scan filter queues' with
          | Some (found, rest) => Some (found, (destination, queue) :: rest)
          | None => None
          end
      end
  end.

(** [waitForMessage(filter, timeout)]; [key] is the generated
    [wait-<time>-<random>] string. *)
Definition waitForMessage (filter : IPCMessage -> bool) (key : string) (c : t)
  : wait_result * t :=
  match scan filter (messageQueue c) with
  | Some (message, queues) =>
      (Returned message,
       {| maxQueueSize := maxQueueSize c; messageQueue := queues;
          pendingMessages := pendingMessages c; listeners := listeners c;
          promises := promises c |})
  | None =>
      let p := length (promises c) in
      (Suspended p,
       {| maxQueueSize := maxQueueSize c; messageQueue := messageQueue c;
          pendingMessages := <[key := p]> (pendingMessages c);
          listeners := listeners c ++ [{| waiter_promise := p;
                                          waiter_filter := filter;
                                          waiter_key := key |}];
          promises := promises c ++ [Pending] |})
  end.

(** The timer of a suspended [waitForMessage] firing. *)
Definition wait_timeout (p : nat) (key : string) (c : t) : t :=
  {| maxQueueSize := maxQueueSize c; messageQueue := messageQueue c;
     pendingMessages := delete key (pendingMessages c);
     listeners := listeners c;
     promises := settle p TimedOutWaiting (promises c) |}.

(** All messages sitting in the queues, in scan order. *)
Definition queued (c : t) : list IPCMessage :=
  concat (JsMap.values (messageQueue c)).

Definition queue_of (destination : string) (c : t) : list IPCMessage :=
  default [] (JsMap.get destination (messageQueue c)).

End IPCChannel.

(** ** Scenarios *)

(** A pool as the constructor of [ParallelInstanceManager] leaves it. *)
Definition empty_pool (maxWorkers : Z) : ParallelInstanceManager.t :=
  {| ParallelInstanceManager.workers := ∅;
     ParallelInstanceManager.config :=
       {| ParallelInstanceManager.maxWorkers := maxWorkers;
          ParallelInstanceManager.spawnTimeout := 3000;
          ParallelInstanceManager.autoCleanup := true |} |}.

Definition options_for (strategy : SchedulingStrategyType)
  : OrchestrationScheduler.SchedulerOptions :=
  {| OrchestrationScheduler.strategy_type := strategy;
     OrchestrationScheduler.opt_maxRPM := None;
     OrchestrationScheduler.opt_estimatedRPMPerTask := None |}.

(** Three tasks without dependencies. *)
Definition independent_tasks : list TaskWithDependencies :=
  [mkTask "A" [] "/a"; mkTask "B" [] "/b"; mkTask "C" [] "/c"].

(** Every spawn and every send succeeds. *)
Definition calm : Environment :=
  {| spawn_race := fun _ => TaskReady; send_ok := fun _ => true; clock := 0 |}.

(** The session of task ["A"] is not created within the spawn timeout. *)
Definition slow_A : Environment :=
  {| spawn_race := fun id => if String.eqb id "A" then TimedOut else TaskReady;
     send_ok := fun _ => true;
     clock := 0 |}.

(** [A], then [D] and [B] depending on [A], then [C] depending on [B]. *)
Definition chain_tasks : list TaskWithDependencies :=
  [mkTask "A" [] "/a"; mkTask "D" ["A"] "/d"; mkTask "B" ["A"] "/b";
   mkTask "C" ["B"] "/c"].

(** The graph of [chain_tasks] once [A] has completed. *)
Definition chain_graph_after_A : TaskGraph.t :=
  match TaskGraph.new chain_tasks with
  | Ok g => TaskGraph.markCompleted "A" g
  | _ => []
  end.

(** ** Reference definitions for the statements *)

(** The sum of the request counts of a list of buckets. *)
Fixpoint sum_counts (rs : list RequestRecord) : Z :=
  match rs with
  | [] => 0%Z
  | r :: rs' => (count r + sum_counts rs')%Z
  end.

(** A bucket lies in the window read at [now] when its timestamp is strictly
    greater than [now - 60000]. *)
Definition in_window (now : Z) (r : RequestRecord) : Prop :=
  (now - 60000 < timestamp r)%Z.

#[global] Instance in_window_dec now r : Decision (in_window now r).
Proof. unfold in_window. apply _. Defined.

(** The buckets recorded for a provider. *)
Definition history_of (provider : string) (l : RateLimiter.t)
  : list RequestRecord :=
  default [] (RateLimiter.requests l !! provider).

(** A call of [track]: provider, request count, time of the call. *)
Record track_call : Type := {
  call_provider : string;
  call_count : Z;
  call_time : Z;
}.

Definition tracks (calls : list track_call) (l : RateLimiter.t) : RateLimiter.t :=
  fold_left
    (fun l c => RateLimiter.track (call_provider c) (call_count c) (call_time c) l)
    calls l.

(** What the calls contribute to the window of [provider] read at [now]. *)
Fixpoint contribution (provider : string) (now : Z) (calls : list track_call) : Z :=
  match calls with
  | [] => 0%Z
  | c :: calls' =>
      ((if bool_decide (call_provider c = provider)
           && bool_decide (now - 60000 < RateLimiter.currentSecond (call_time c))%Z
        then call_count c else 0)
       + contribution provider now calls')%Z
  end.



(** Two tasks whose workspaces are nested. *)
Definition nested_workspaces : list WorkspaceTask :=
  [{| ws_id := "A"; ws_path := Some "/src" |};
   {| ws_id := "B"; ws_path := Some "/src/auth" |}].


Definition spawn_of (id : string) : SpawnParams :=
  {| taskId := id; param_workingDir := "./src"; systemPrompt := "work";
     mcpServers := None |}.

(** [w1] is spawned alone; then [w2] and [w3] are started together and both
    registered. *)
Definition overlapping_spawns : list PoolRun.step :=
  [PoolRun.call_spawnWorker (spawn_of "w1");
   PoolRun.resume 0 TaskReady 0;
   PoolRun.call_spawnWorker (spawn_of "w2");
   PoolRun.call_spawnWorker (spawn_of "w3");
   PoolRun.resume 1 TaskReady 1;
   PoolRun.resume 2 TaskReady 1].




Definition heartbeat_message : IPCMessage :=
  {| msg_id := "msg-1-0"; msg_type := heartbeat; from := "worker-1";
     to := "orchestrator"; payload := EmptyString; msg_timestamp := 0;
     correlationId := None |}.

Definition completion_message : IPCMessage :=
  {| msg_id := "msg-2-5"; msg_type := task_completed; from := "worker-1";
     to := "orchestrator"; payload := "task-1"; msg_timestamp := 5;
     correlationId := None |}.

Definition is_task_completed (m : IPCMessage) : bool :=
  match msg_type m with task_completed => true | _ => false end.

Definition any_message (m : IPCMessage) : bool := true.

(** A channel whose queue for the orchestrator holds one heartbeat. *)
Definition channel_with_heartbeat : IPCChannel.t :=
  IPCChannel.handleMessage heartbeat_message (IPCChannel.new None).

(** *** Task lists and graphs as relations *)

(** [a] lists [b] as a dependency. *)
Definition depends_on (tasks : list TaskWithDependencies) (a b : string) : Prop :=
  exists task, task ∈ tasks /\ task_id task = a /\ b ∈ task_dependencies task.

(** Some task lists a dependency id that is absent from the task list. *)
Definition dangling (tasks : list TaskWithDependencies) : Prop :=
  exists task dep,
    task ∈ tasks /\ dep ∈ task_dependencies task /\ dep ∉ map task_id tasks.

(** The dependency relation contains a cycle; a self-loop is one. *)
Definition cyclic (tasks : list TaskWithDependencies) : Prop :=
  exists a, tc (depends_on tasks) a a.

(** The dependency set recorded for a node id. *)
Definition deps_of (nodes : TaskGraph.t) (a : string) : option JsSet.t :=
  dependencies <$> JsMap.get a nodes.

Definition edge (nodes : TaskGraph.t) (a b : string) : Prop :=
  exists ds, deps_of nodes a = Some ds /\ b ∈ ds.

(** Keys and dependency sets, which the second pass of [buildGraph] never
    changes. *)
Definition shape (nodes : TaskGraph.t) : list (string * JsSet.t) :=
  map (fun kv => (fst kv, dependencies (snd kv))) nodes.

(** Every dependency of a node is a node. *)
Definition closed_graph (nodes : TaskGraph.t) : Prop :=
  forall a b, edge nodes a b -> b ∈ JsMap.keys nodes.

(** A list of ids in which each one has an edge to the next. *)
Inductive walk (nodes : TaskGraph.t) : list string -> Prop :=
| walk_nil : walk nodes []
| walk_one x : walk nodes [x]
| walk_cons x y l : edge nodes x y -> walk nodes (y :: l) -> walk nodes (x :: y :: l).

(** The invariant of the [visited] set: it is closed under edges and none of
    its members lies on a cycle. *)
Definition settled (nodes : TaskGraph.t) (visited : JsSet.t) : Prop :=
  (forall v d, v ∈ visited -> edge nodes v d -> d ∈ visited)
  /\ (forall v, v ∈ visited -> ~ tc (edge nodes) v v).

(** What a call of [dfs], or a loop of such calls, guarantees about its
    result: the [visiting] set is restored, [visited] has grown, stays
    settled and covers the [targets]; an exception is a circular-dependency
    error and a cycle exists; the fuel is not exhausted. *)
Definition dfs_post (nodes : TaskGraph.t) (targets : list string)
    (st : TaskGraph.dfs_state) (r : outcome GraphError TaskGraph.dfs_state)
  : Prop :=
  match r with
  | Ok st' =>
      TaskGraph.visiting st' = TaskGraph.visiting st
      /\ settled nodes (TaskGraph.visited st')
      /\ (forall v, v ∈ TaskGraph.visited st -> v ∈ TaskGraph.visited st')
      /\ (forall d, d ∈ targets -> d ∈ TaskGraph.visited st')
  | Throw e =>
      (exists cycle, e = CircularDependency cycle)
      /\ exists a, tc (edge nodes) a a
  | OutOfFuel => False
  end.

(** Two entries for the id [A]: the first lists the absent [B], the second
    replaces it in the map. *)
Definition duplicate_id_tasks : list TaskWithDependencies :=
  [mkTask "A" ["B"] "/a"; mkTask "A" [] "/a"].

(** The dependents recorded for a node id. *)
Definition dependents_of (nodes : TaskGraph.t) (x : string) : JsSet.t :=
  match JsMap.get x nodes with
  | Some node => dependents node
  | None => []
  end.

(** What [link_dependents] leaves alone: every field of a node but its
    dependents. *)
Definition node_core (n : TaskNode) : TaskNode := with_dependents n [].

Definition cores (nodes : TaskGraph.t) : list (string * TaskNode) :=
  map (fun kv => (fst kv, node_core (snd kv))) nodes.

(** Keys are distinct and every node sits under its own id. *)
Definition well_keyed (nodes : TaskGraph.t) : Prop :=
  NoDup (JsMap.keys nodes)
  /\ Forall (fun kv => node_id (snd kv) = fst kv) nodes.

(** The task lists no dependency. *)
Definition has_no_dependencies (task : TaskWithDependencies) : bool :=
  match task_dependencies task with
  | [] => true
  | _ :: _ => false
  end.

(** The diamond [A], [B] and [C] on [A], [D] on [B] and [C]. *)
Definition diamond_tasks : list TaskWithDependencies :=
  [mkTask "A" [] "/a"; mkTask "B" ["A"] "/b"; mkTask "C" ["A"] "/c";
   mkTask "D" ["B"; "C"] "/d"].

(** The position of an id on the critical path, or the length of the path
    for an id that is not on it: the key [CriticalPathStrategy.compare]
    orders by. *)
Definition path_rank (criticalPath : list string) (a : string) : Z :=
  if includes a criticalPath then indexOf a criticalPath
  else Z.of_nat (length criticalPath).

Definition on_path (criticalPath : list string) (a : string) : bool :=
  includes a criticalPath.

Definition off_path (criticalPath : list string) (a : string) : bool :=
  negb (includes a criticalPath).

(** The strategy divides by a non-negative estimate. *)
Definition sensible_estimate (strategy : SchedulingStrategy) : Prop :=
  match strategy with
  | RateAware self => (0 <= RateAwareStrategy.estimatedRPMPerTask self)%Z
  | MaxParallel | CriticalPath => True
  end.

(** A scheduler over the diamond with the max-parallel strategy and a pool
    of five. *)
Definition diamond_scheduler : OrchestrationScheduler.t :=
  match OrchestrationScheduler.new diamond_tasks (options_for max_parallel)
          (empty_pool 5) with
  | Ok s => s
  | _ =>
      {| OrchestrationScheduler.graph := [];
         OrchestrationScheduler.strategy := MaxParallel;
         OrchestrationScheduler.instanceManager := empty_pool 5;
         OrchestrationScheduler.executionState := ∅;
         OrchestrationScheduler.workerMapping := ∅;
         OrchestrationScheduler.currentRPM := 0;
         OrchestrationScheduler.options := options_for max_parallel;
         OrchestrationScheduler.emitted := [] |}
  end.


(** The calls a rate limiter sees: [track], the periodic sweep, [reset]. *)
Inductive limiter_op : Type :=
| op_track (provider : string) (requestCount : Z) (now : Z)
| op_sweep (now : Z)
| op_reset (provider : string).

Definition run_limiter_op (l : RateLimiter.t) (op : limiter_op) : RateLimiter.t :=
  match op with
  | op_track provider requestCount now =>
      RateLimiter.track provider requestCount now l
  | op_sweep now => RateLimiter.cleanup now l
  | op_reset provider => RateLimiter.reset provider l
  end.

Definition run_limiter_ops (ops : list limiter_op) (l : RateLimiter.t)
  : RateLimiter.t :=
  fold_left run_limiter_op ops l.

(** Two tasks clash when both carry a workspace path and the normalized
    paths conflict. *)
Definition clash (a : WorkspaceAnalyzer.t) (task1 task2 : WorkspaceTask)
  : bool :=
  match ws_path task1, ws_path task2 with
  | Some p1, Some p2 =>
      WorkspaceAnalyzer.pathsConflict a
        (WorkspaceAnalyzer.normalizePath a p1)
        (WorkspaceAnalyzer.normalizePath a p2)
  | _, _ => false
  end.

(** Shape of a path: whether its last character is a slash, and whether it
    is free of backslashes. *)
Fixpoint ends_in_slash (s : string) : bool :=
  match s with
  | EmptyString => false
  | String c EmptyString => WorkspaceAnalyzer.is_slash c
  | String _ s' => ends_in_slash s'
  end.

Fixpoint backslash_free (s : string) : bool :=
  match s with
  | EmptyString => true
  | String c s' => negb (Ascii.eqb c "\") && backslash_free s'
  end.

(** What happens to a channel: a message arrives, a caller waits, the timer
    of a suspended wait fires. *)
Inductive channel_op : Type :=
| op_receive (message : IPCMessage)
| op_wait (filter : IPCMessage -> bool) (key : string)
| op_timeout (p : nat) (key : string).

Definition run_channel_op (c : IPCChannel.t) (op : channel_op) : IPCChannel.t :=
  match op with
  | op_receive message => IPCChannel.handleMessage message c
  | op_wait filter key => snd (IPCChannel.waitForMessage filter key c)
  | op_timeout p key => IPCChannel.wait_timeout p key c
  end.

Definition run_channel_ops (ops : list channel_op) (c : IPCChannel.t)
  : IPCChannel.t :=
  fold_left run_channel_op ops c.

(** A channel whose queues hold one message each at most. *)
Definition tiny_channel : IPCChannel.t :=
  IPCChannel.handleMessage heartbeat_message (IPCChannel.new (Some 1%Z)).

(** ** IPCServer and IPCClient *)

(** [s.split(LF)]: the segments between line feeds, never an empty list. *)
Fixpoint split_newline (s : string) : list string :=
  match s with
  | EmptyString => [EmptyString]
  | String c s' =>
      if Ascii.eqb c "010" then EmptyString :: split_newline s'
      else match split_newline s' with
           | line :: lines => String c line :: lines
           | [] => [String c EmptyString]
           end
  end.

(** The characters [trim] removes, among the ASCII ones. *)
Definition is_space (c : ascii) : bool :=
  let n := nat_of_ascii c in
  ((9 <=? n)%nat && (n <=? 13)%nat) || (n =? 32)%nat.

(** [line.trim()] is the empty string, which is falsy. *)
Fixpoint blank (line : string) : bool :=
  match line with
  | EmptyString => true
  | String c line' => is_space c && blank line'
  end.

(** What a server or client emits while it reads its socket. *)
Inductive LinkEvent : Type :=
| client_connected (clientId : string)
| client_disconnected (clientId : string)
| message_received (message : IPCMessage)
| parse_failed (line : string)
| connected
| disconnected
| reconnect_failed.

(** A [Buffer]: the bytes of one chunk read from a socket. *)
Definition Buffer : Type := list Byte.byte.

(** How a handler ends: it returns, or an exception leaves it.  Either way
    the state it has reached stays. *)
Inductive ended (S : Type) : Type :=
| Returns (s : S)
| Throws (s : S).

Arguments Returns {S} s.
Arguments Throws {S} s.

Definition reached {S : Type} (e : ended S) : S :=
  match e with
  | Returns s => s
  | Throws s => s
  end.

Definition ended_map {S : Type} (f : S -> S) (e : ended S) : ended S :=
  match e with
  | Returns s => Returns (f s)
  | Throws s => Throws (f s)
  end.

(** What [handleData] calls into.  [toString] is [data.toString()], the
    UTF-8 decoding of one chunk on its own: a chunk that ends inside a
    multi-byte character decodes to a replacement character, so decoding
    does not distribute over every cut.  [JSON_parse] returns [None] where
    [JSON.parse] throws; a line it accepts is taken to be an [IPCMessage],
    as the cast in the source says.  [message_returns] and [error_returns]
    say whether [emit] of the event returns: it does not when a listener
    throws, nor, for ["error"], when no listener is registered. *)
Record LinkEnv : Type := {
  toString : Buffer -> string;
  JSON_parse : string -> option IPCMessage;
  message_returns : IPCMessage -> bool;
  error_returns : string -> bool;
}.

(** The server side of the TCP link.  Sockets are numbered; [emitted] lists
    the calls of [emit], whether or not they returned. *)
Module IPCServer.

Record t : Type := {
  clients : gmap string nat;
  workerSockets : JsMap.t nat;
  messageBuffer : gmap nat string;
  emitted : list LinkEvent;
  written : list (nat * IPCMessage);
}.

Definition new : t :=
  {| clients := ∅; workerSockets := []; messageBuffer := ∅; emitted := [];
     written := [] |}.

Definition emit (e : LinkEvent) (s : t) : t :=
  {| clients := clients s; workerSockets := workerSockets s;
     messageBuffer := messageBuffer s; emitted := emitted s ++ [e];
     written := written s |}.

Definition handleConnection (socket : nat) (clientId : string) (s : t) : t :=
  emit (client_connected clientId)
    {| clients := <[clientId := socket]> (clients s);
       workerSockets := workerSockets s;
       messageBuffer := <[socket := EmptyString]> (messageBuffer s);
       emitted := emitted s; written := written s |}.

Section parsing.
Variable env : LinkEnv.

(** The [catch] of the loop body: [emit("error", { error, line })], which
    is not guarded. *)
Definition report (line : string) (s : t) : ended t :=
  let s' := emit (parse_failed line) s in
  if error_returns env line then Returns s' else Throws s'.

(** The body of the loop over the complete lines.  The [try] covers the
    parse, the registration of the worker and the ["message"] listeners. *)
Definition process_line (socket : nat) (s : t) (line : string) : ended t :=
  if blank line then Returns s
  else
    match JSON_parse env line with
    | Some message =>
        let s' :=
          emit (message_received message)
            {| clients := clients s;
               workerSockets :=
                 if JsMap.has (from message) (workerSockets s)
                 then workerSockets s
                 else JsMap.set (from message) socket (workerSockets s);
               messageBuffer := messageBuffer s; emitted := emitted s;
               written := written s |} in
        if message_returns env message then Returns s' else report line s'
    | None => report line s
    end.

(** [for (const line of lines)]: an exception leaves the loop, and the
    lines after it are not looked at. *)
Fixpoint process_lines (socket : nat) (lines : list string) (s : t)
  : ended t :=
  match lines with
  | [] => Returns s
  | line :: lines' =>
      match process_line socket s line with
      | Returns s' => process_lines socket lines' s'
      | Throws s' => Throws s'
      end
  end.

Definition handleData (socket : nat) (data : Buffer) (s : t) : ended t :=
  let buffer := default EmptyString (messageBuffer s !! socket) in
  let lines := split_newline (buffer ++ toString env data) in
  process_lines socket (removelast lines)
    {| clients := clients s; workerSockets := workerSockets s;
       messageBuffer := <[socket := default EmptyString (last lines)]> (messageBuffer s);
       emitted := emitted s; written := written s |}.

(** The ["data"] events of one socket, chunk after chunk, up to the first
    exception that leaves a handler, which nothing in the link catches. *)
Fixpoint deliver (socket : nat) (chunks : list Buffer) (s : t) : ended t :=
  match chunks with
  | [] => Returns s
  | data :: chunks' =>
      match handleData socket data s with
      | Returns s' => deliver socket chunks' s'
      | Throws s' => Throws s'
      end
  end.

End parsing.

(** The loop of the [close] handler over [workerSockets.entries()], which
    stops at the first entry of the socket. *)
Fixpoint unbind_first (socket : nat) (workers : JsMap.t nat) : JsMap.t nat :=
  match workers with
  | [] => []
  | (workerId, sock) :: workers' =>
      if (sock =? socket)%nat then workers'
      else (workerId, sock) :: unbind_first socket workers'
  end.

(** The [close] handler of a socket. *)
Definition close (socket : nat) (clientId : string) (s : t) : t :=
  emit (client_disconnected clientId)
    {| clients := delete clientId (clients s);
       workerSockets := unbind_first socket (workerSockets s);
       messageBuffer := delete socket (messageBuffer s);
       emitted := emitted s; written := written s |}.

Definition send (workerId : string) (message : IPCMessage) (s : t)
  : bool * t :=
  match JsMap.get workerId (workerSockets s) with
  | None => (false, s)
  | Some socket =>
      (true,
       {| clients := clients s; workerSockets := workerSockets s;
          messageBuffer := messageBuffer s; emitted := emitted s;
          written := written s ++ [(socket, message)] |})
  end.

(** The worker ids bound to a socket, in the order of their registration. *)
Definition bound_to (socket : nat) (s : t) : list string :=
  map fst (List.filter (fun kv => (snd kv =? socket)%nat) (workerSockets s)).

Definition with_buffer (socket : nat) (buffer : string) (s : t) : t :=
  {| clients := clients s; workerSockets := workerSockets s;
     messageBuffer := <[socket := buffer]> (messageBuffer s);
     emitted := emitted s; written := written s |}.


End IPCServer.

(** The client side of the TCP link: the receive buffer, the reconnection
    counter, and the timers [attemptReconnect] has set.  [emitted] lists the
    calls of [emit], whether or not they returned. *)
Module IPCClient.

Record t : Type := {
  maxReconnectAttempts : Z;
  reconnectDelay : Z;
  messageBuffer : string;
  reconnectAttempts : Z;
  isConnected : bool;
  emitted : list LinkEvent;
  timers : list Z;
  written : list IPCMessage;
}.

Definition new (maxReconnectAttempts reconnectDelay : option Z) : t :=
  {| maxReconnectAttempts := default 5%Z maxReconnectAttempts;
     reconnectDelay := default 1000%Z reconnectDelay;
     messageBuffer := EmptyString; reconnectAttempts := 0;
     isConnected := false; emitted := []; timers := [];
     written := [] |}.

Definition emit (e : LinkEvent) (c : t) : t :=
  {| maxReconnectAttempts := maxReconnectAttempts c;
     reconnectDelay := reconnectDelay c; messageBuffer := messageBuffer c;
     reconnectAttempts := reconnectAttempts c; isConnected := isConnected c;
     emitted := emitted c ++ [e]; timers := timers c;
     written := written c |}.

Section parsing.
Variable env : LinkEnv.

(** The [catch] of the loop body: [emit("error", { error, line })], which
    is not guarded. *)
Definition report (line : string) (c : t) : ended t :=
  let c' := emit (parse_failed line) c in
  if error_returns env line then Returns c' else Throws c'.

(** The body of the loop over the complete lines.  The [try] covers the
    parse and the ["message"] listeners. *)
Definition process_line (c : t) (line : string) : ended t :=
  if blank line then Returns c
  else
    match JSON_parse env line with
    | Some message =>
        let c' := emit (message_received message) c in
        if message_returns env message then Returns c' else report line c'
    | None => report line c
    end.

(** [for (const line of lines)]: an exception leaves the loop, and the
    lines after it are not looked at. *)
Fixpoint process_lines (lines : list string) (c : t) : ended t :=
  match lines with
  | [] => Returns c
  | line :: lines' =>
      match process_line c line with
      | Returns c' => process_lines lines' c'
      | Throws c' => Throws c'
      end
  end.

Definition handleData (data : Buffer) (c : t) : ended t :=
  let lines := split_newline (messageBuffer c ++ toString env data) in
  process_lines (removelast lines)
    {| maxReconnectAttempts := maxReconnectAttempts c;
       reconnectDelay := reconnectDelay c;
       messageBuffer := default EmptyString (last lines);
       reconnectAttempts := reconnectAttempts c;
       isConnected := isConnected c; emitted := emitted c;
       timers := timers c; written := written c |}.

(** The ["data"] events of the socket, chunk after chunk, up to the first
    exception that leaves a handler, which nothing in the link catches. *)
Fixpoint deliver (chunks : list Buffer) (c : t) : ended t :=
  match chunks with
  | [] => Returns c
  | data :: chunks' =>
      match handleData data c with
      | Returns c' => deliver chunks' c'
      | Throws c' => Throws c'
      end
  end.

End parsing.

(** The [connect] handler of the socket. *)
Definition on_connect (c : t) : t :=
  emit connected
    {| maxReconnectAttempts := maxReconnectAttempts c;
       reconnectDelay := reconnectDelay c; messageBuffer := messageBuffer c;
       reconnectAttempts := 0; isConnected := true; emitted := emitted c;
       timers := timers c; written := written c |}.



Definition with_buffer (buffer : string) (c : t) : t :=
  {| maxReconnectAttempts := maxReconnectAttempts c;
     reconnectDelay := reconnectDelay c; messageBuffer := buffer;
     reconnectAttempts := reconnectAttempts c; isConnected := isConnected c;
     emitted := emitted c; timers := timers c; written := written c |}.


(** [send(message)].  The socket is set whenever [isConnected] is, so the
    test of the source comes down to [isConnected]. *)
Definition send (message : IPCMessage) (c : t) : bool * t :=
  if isConnected c then
    (true,
     {| maxReconnectAttempts := maxReconnectAttempts c;
        reconnectDelay := reconnectDelay c; messageBuffer := messageBuffer c;
        reconnectAttempts := reconnectAttempts c; isConnected := true;
        emitted := emitted c; timers := timers c;
        written := written c ++ [message] |})
  else (false, c).

End IPCClient.

(** A heartbeat of a second worker. *)
Definition second_heartbeat : IPCMessage :=
  {| msg_id := "msg-1-7"; msg_type := heartbeat; from := "worker-2";
     to := "orchestrator"; payload := EmptyString; msg_timestamp := 7;
     correlationId := None |}.

(** A reader that accepts the three lines [hb], [done] and [hb2]. *)
Definition sample_parse (line : string) : option IPCMessage :=
  if String.eqb line "hb" then Some heartbeat_message
  else if String.eqb line "done" then Some completion_message
  else if String.eqb line "hb2" then Some second_heartbeat
  else None.

Definition LF : string := String "010" EmptyString.

(** The bytes of an ASCII text, and the decoding of ASCII bytes, on which
    UTF-8 maps every byte to its character. *)
Definition bytes (text : string) : Buffer := list_byte_of_string text.

Definition ascii_toString (data : Buffer) : string := string_of_list_byte data.

(** A link that carries ASCII text, with listeners for both events that
    return. *)
Definition sample_link : LinkEnv :=
  {| toString := ascii_toString; JSON_parse := sample_parse;
     message_returns := fun _ => true; error_returns := fun _ => true |}.

(** A stream is cut between characters when decoding its chunks one by one
    gives the decoded whole: at every cut, what comes before and what comes
    after decode on their own to the two parts of the text. *)
Fixpoint cut_between_characters (decode : Buffer -> string)
    (chunks : list Buffer) : Prop :=
  match chunks with
  | chunk :: (_ :: _) as chunks' =>
      decode (chunk ++ concat chunks')
      = (decode chunk ++ decode (concat chunks'))%string
      /\ cut_between_characters decode chunks'
  | _ => True
  end.

(** A server on which socket 1 has delivered a heartbeat of [worker-1]. *)
Definition server_with_worker : IPCServer.t :=
  reached
    (IPCServer.handleData sample_link 1 (bytes ("hb" ++ LF))
       (IPCServer.handleConnection 1 "127.0.0.1:5001" IPCServer.new)).

(** A server on which socket 1 is the socket of two workers. *)
Definition server_with_shared_socket : IPCServer.t :=
  reached
    (IPCServer.handleData sample_link 1 (bytes ("hb2" ++ LF))
       server_with_worker).



(** ** ReviewCoordinator: waiting for the verdict *)

Inductive IssueSeverity : Type := critical | major | minor.

Record ReviewIssue : Type := {
  issue_severity : IssueSeverity;
  issue_file : string;
  issue_line : option Z;
  issue_description : string;
  issue_suggestion : string;
}.

Record ReviewResult : Type := {
  approved : bool;
  res_reviewerId : string;
  feedback : string;
  issues : option (list ReviewIssue);
  suggestions : option (list string);
}.

(** The payload of a verdict message, every key of which may be missing. *)
Record ReviewVerdict : Type := {
  v_taskId : option string;
  v_approved : option bool;
  v_feedback : option string;
  v_issues : option (list ReviewIssue);
  v_suggestions : option (list string);
}.

(** The part of an [IPCMessage] with a verdict payload the coordinator
    reads. *)
Record ReviewMessage : Type := {
  rm_type : IPCMessageType;
  rm_from : string;
  rm_payload : ReviewVerdict;
}.

(** The promise returned by [waitForReviewApproval]. *)
Inductive review_promise : Type :=
| AwaitingVerdict
| Settled (result : ReviewResult)
| ReviewTimedOut.

(** The waiting half of the coordinator: [pendingReviews], each record
    reduced to the promise it settles, and the promises handed out so far.
    The timer of a wait is cleared exactly when its promise is resolved, so
    a timer can fire only while its promise is pending. *)
Module PendingReviews.

Record t : Type := {
  pendingReviews : gmap string nat;
  promises : list review_promise;
}.

Definition new : t := {| pendingReviews := ∅; promises := [] |}.

(** [waitForReviewApproval(taskId)]: the promise returned and the state
    left. *)
Definition waitForReviewApproval (taskId : string) (s : t) : nat * t :=
  let p := length (promises s) in
  (p, {| pendingReviews := <[taskId := p]> (pendingReviews s);
         promises := promises s ++ [AwaitingVerdict] |}).

(** [pending.resolve(result)]: only a pending promise changes. *)
Definition resolve (p : nat) (result : ReviewResult)
    (ps : list review_promise) : list review_promise :=
  match ps !! p with
  | Some AwaitingVerdict => <[p := Settled result]> ps
  | _ => ps
  end.

(** [feedback || fallback] *)
Definition feedback_or (fallback : string) (given : option string) : string :=
  match given with
  | Some text => if String.eqb text EmptyString then fallback else text
  | None => fallback
  end.

Definition settle_review (message : ReviewMessage) (result : ReviewResult)
    (s : t) : t :=
  match v_taskId (rm_payload message) with
  | None => s
  | Some taskId =>
      match pendingReviews s !! taskId with
      | None => s
      | Some p =>
          {| pendingReviews := delete taskId (pendingReviews s);
             promises := resolve p result (promises s) |}
      end
  end.

Definition handleReviewApproved (message : ReviewMessage) (s : t) : t :=
  settle_review message
    {| approved := true;
       res_reviewerId := rm_from message;
       feedback :=
         feedback_or "Review approved" (v_feedback (rm_payload message));
       issues := None;
       suggestions :=
         Some (default [] (v_suggestions (rm_payload message))) |}
    s.

Definition handleReviewRejected (message : ReviewMessage) (s : t) : t :=
  settle_review message
    {| approved := false;
       res_reviewerId := rm_from message;
       feedback :=
         feedback_or "Review rejected - see issues"
           (v_feedback (rm_payload message));
       issues := Some (default [] (v_issues (rm_payload message)));
       suggestions := None |}
    s.

(** The listener installed by [setupMessageHandlers]. *)
Definition on_message (message : ReviewMessage) (s : t) : t :=
  match rm_type message with
  | review_approved => handleReviewApproved message s
  | review_rejected => handleReviewRejected message s
  | _ => s
  end.

(** The timer of the wait with promise [p] for [taskId] fires. *)
Definition timeout_fires (p : nat) (taskId : string) (s : t) : t :=
  match promises s !! p with
  | Some AwaitingVerdict =>
      {| pendingReviews := delete taskId (pendingReviews s);
         promises := <[p := ReviewTimedOut]> (promises s) |}
  | _ => s
  end.

End PendingReviews.

(** What happens to the waiting half of a coordinator. *)
Inductive review_op : Type :=
| op_wait_review (taskId : string)
| op_verdict (message : ReviewMessage)
| op_review_timeout (p : nat) (taskId : string).

Definition run_review_op (s : PendingReviews.t) (op : review_op)
  : PendingReviews.t :=
  match op with
  | op_wait_review taskId => snd (PendingReviews.waitForReviewApproval taskId s)
  | op_verdict message => PendingReviews.on_message message s
  | op_review_timeout p taskId => PendingReviews.timeout_fires p taskId s
  end.

Definition run_review_ops (ops : list review_op) (s : PendingReviews.t)
  : PendingReviews.t :=
  fold_left run_review_op ops s.

Definition verdicts (messages : list ReviewMessage) (s : PendingReviews.t)
  : PendingReviews.t :=
  fold_left (fun s message => PendingReviews.on_message message s) messages s.

(** An approval of [task-1] sent by [reviewer-1] without any feedback. *)
Definition bare_approval : ReviewMessage :=
  {| rm_type := review_approved; rm_from := "reviewer-1";
     rm_payload := {| v_taskId := Some "task-1"; v_approved := None;
                      v_feedback := None; v_issues := None;
                      v_suggestions := None |} |}.

(** ** IPCChannel: sending *)

Inductive SendError : Type :=
| BridgeUnavailable
| SendFailedTo (destination : string).

(** The sending half of the channel: the fields [send] reads and writes.
    [remote_messages] collects the [remote-message] events. *)
Module IPCSender.

Record t : Type := {
  enableRemoteFallback : bool;
  isServer : bool;
  server : option IPCServer.t;
  client : option IPCClient.t;
  remoteWorkers : JsSet.t;
  bridgeOrchestrator : bool;
  messageCount : nat;
  remote_messages : list IPCMessage;
}.

Definition new (enableRemoteFallback : option bool) : t :=
  {| enableRemoteFallback := default true enableRemoteFallback;
     isServer := false; server := None; client := None; remoteWorkers := [];
     bridgeOrchestrator := false; messageCount := 0; remote_messages := [] |}.

Definition with_link (server : option IPCServer.t)
    (client : option IPCClient.t) (s : t) : t :=
  {| enableRemoteFallback := enableRemoteFallback s; isServer := isServer s;
     server := server; client := client; remoteWorkers := remoteWorkers s;
     bridgeOrchestrator := bridgeOrchestrator s;
     messageCount := messageCount s; remote_messages := remote_messages s |}.

Definition sendLocal (message : IPCMessage) (s : t) : bool * t :=
  match isServer s, server s, client s with
  | true, Some srv, _ =>
      let '(sent, srv') := IPCServer.send (to message) message srv in
      (sent, with_link (Some srv') (client s) s)
  | _, _, Some c =>
      let '(sent, c') := IPCClient.send message c in
      (sent, with_link (server s) (Some c') s)
  | _, _, None => (false, s)
  end.

(** [getInstance] is what [BridgeOrchestrator.getInstance()] returns when it
    is asked: an instance or [null]. *)
Definition sendViaBridge (getInstance : bool) (message : IPCMessage) (s : t)
  : outcome SendError unit * t :=
  let bridge := bridgeOrchestrator s || getInstance in
  if bridge then
    (Ok tt,
     {| enableRemoteFallback := enableRemoteFallback s; isServer := isServer s;
        server := server s; client := client s;
        remoteWorkers := remoteWorkers s; bridgeOrchestrator := true;
        messageCount := messageCount s;
        remote_messages := remote_messages s ++ [message] |})
  else (Throw BridgeUnavailable, s).

Definition markWorkerRemote (workerId : string) (s : t) : t :=
  {| enableRemoteFallback := enableRemoteFallback s; isServer := isServer s;
     server := server s; client := client s;
     remoteWorkers := JsSet.add workerId (remoteWorkers s);
     bridgeOrchestrator := bridgeOrchestrator s;
     messageCount := messageCount s; remote_messages := remote_messages s |}.

(** The message [send] completes: id and timestamp from the counter and the
    two readings of the clock. *)
Definition fullMessage (message : IPCMessage) (count : nat)
    (now_id now_timestamp : Z) : IPCMessage :=
  {| msg_id := ("msg-" ++ pretty count ++ "-" ++ pretty now_id)%string;
     msg_type := msg_type message; from := from message; to := to message;
     payload := payload message; msg_timestamp := now_timestamp;
     correlationId := correlationId message |}.

Definition send (message : IPCMessage) (now_id now_timestamp : Z)
    (getInstance : bool) (s : t) : outcome SendError unit * t :=
  let count := S (messageCount s) in
  let full := fullMessage message count now_id now_timestamp in
  let s0 :=
    {| enableRemoteFallback := enableRemoteFallback s; isServer := isServer s;
       server := server s; client := client s;
       remoteWorkers := remoteWorkers s;
       bridgeOrchestrator := bridgeOrchestrator s;
       messageCount := count; remote_messages := remote_messages s |} in
  if enableRemoteFallback s && JsSet.has (to message) (remoteWorkers s) then
    sendViaBridge getInstance full s0
  else
    let '(sent, s1) := sendLocal full s0 in
    if negb sent && enableRemoteFallback s then
      sendViaBridge getInstance full (markWorkerRemote (to message) s1)
    else if negb sent then (Throw (SendFailedTo (to message)), s1)
    else (Ok tt, s1).

End IPCSender.

(** What happens to the sending half: a message is sent, a worker is marked
    remote, the local link changes under it (workers connect, sockets
    close, data arrives). *)
Inductive sender_op : Type :=
| op_send (message : IPCMessage) (now_id now_timestamp : Z)
    (getInstance : bool)
| op_mark_remote (workerId : string)
| op_link (server : option IPCServer.t) (client : option IPCClient.t).

Definition run_sender_op (s : IPCSender.t) (op : sender_op) : IPCSender.t :=
  match op with
  | op_send message now_id now_timestamp getInstance =>
      snd (IPCSender.send message now_id now_timestamp getInstance s)
  | op_mark_remote workerId => IPCSender.markWorkerRemote workerId s
  | op_link server client => IPCSender.with_link server client s
  end.

Definition run_sender_ops (ops : list sender_op) (s : IPCSender.t)
  : IPCSender.t :=
  fold_left run_sender_op ops s.

(** ** The critical path: what the loops keep true *)

(** A graph as the constructor builds it and [markCompleted] keeps it: keys
    are ids, dependents mirror dependencies, and the sets hold no id
    twice. *)
Definition sound_graph (g : TaskGraph.t) : Prop :=
  well_keyed g
  /\ (forall x y, y ∈ dependents_of g x <-> edge g y x)
  /\ (forall x, NoDup (dependents_of g x))
  /\ (forall x node, JsMap.get x g = Some node -> NoDup (dependencies node)).

(** The graph after the tasks of [finished] have been marked completed. *)
Definition marked (finished : list string) (g : TaskGraph.t) : TaskGraph.t :=
  fold_left (fun g taskId => TaskGraph.markCompleted taskId g) finished g.

(** A node that is not completed. *)
Definition is_live (g : TaskGraph.t) (x : string) : Prop :=
  exists node, JsMap.get x g = Some node /\ completed node = false.

(** The in-degree [getCriticalPath] starts a node with. *)
Definition initial_degree (g : TaskGraph.t) (d : string) : Z :=
  match JsMap.get d g with
  | Some node => Z.of_nat (length (TaskGraph.incompleteDeps g node))
  | None => 0%Z
  end.

Definition degree_of (st : TaskGraph.kahn_state) (d : string) : Z :=
  default 0%Z (TaskGraph.inDegree st !! d).

(** Among the edges relaxed so far, the sources of those that lead to
    [d]. *)
Definition relaxed_into (relaxed : list (string * string)) (d : string)
  : list string :=
  map fst (List.filter (fun e : string * string => String.eqb (snd e) d)
             relaxed).

(** The invariant of the [while] loop of [getCriticalPath]; [relaxed] lists
    the edges (node, dependent) whose in-degree decrement has been done,
    [pending] those the inner loop has still to go through. *)
Record kahn_inv (g : TaskGraph.t) (relaxed pending : list (string * string))
    (st : TaskGraph.kahn_state) : Prop := {
  inv_once : NoDup (TaskGraph.sorted st ++ TaskGraph.queue st);
  inv_live : forall x,
    x ∈ TaskGraph.sorted st ++ TaskGraph.queue st -> is_live g x;
  inv_zero : forall x,
    x ∈ TaskGraph.sorted st ++ TaskGraph.queue st -> (degree_of st x <= 0)%Z;
  inv_relaxed_once : NoDup relaxed;
  inv_relaxed : forall m d,
    (m, d) ∈ relaxed -> m ∈ TaskGraph.sorted st /\ d ∈ dependents_of g m;
  inv_degree : forall d,
    is_live g d ->
    degree_of st d
    = (initial_degree g d - Z.of_nat (length (relaxed_into relaxed d)))%Z;
  inv_dist : forall x,
    (0 <= TaskGraph.dist_of st x <= Z.of_nat (length (TaskGraph.sorted st)))%Z;
  inv_pred : forall d n,
    TaskGraph.predecessors st !! d = Some (Some n) ->
    n ∈ TaskGraph.sorted st
    /\ TaskGraph.dist_of st d = (TaskGraph.dist_of st n + 1)%Z
    /\ d ∈ dependents_of g n
    /\ is_live g d;
  inv_pred_dom : forall x,
    x ∈ JsMap.keys g -> is_Some (TaskGraph.predecessors st !! x);
  inv_done : forall m d,
    m ∈ TaskGraph.sorted st -> d ∈ dependents_of g m -> is_live g d ->
    (m, d) ∈ relaxed \/ (m, d) ∈ pending;
  inv_edge : forall m d,
    (m, d) ∈ relaxed ->
    (TaskGraph.dist_of st m + 1 <= TaskGraph.dist_of st d)%Z;
  inv_wait : forall x,
    is_live g x -> x ∉ TaskGraph.sorted st ++ TaskGraph.queue st ->
    (1 <= degree_of st x)%Z;
  inv_root : forall x,
    TaskGraph.predecessors st !! x = Some None ->
    TaskGraph.dist_of st x = 0%Z;
}.

(** A list of ids in which each one depends on the one before it. *)
Inductive dependency_chain (g : TaskGraph.t) : list string -> Prop :=
| chain_nil : dependency_chain g []
| chain_one x : dependency_chain g [x]
| chain_cons x y l :
    edge g y x -> dependency_chain g (y :: l) ->
    dependency_chain g (x :: y :: l).

(** The graph of the diamond. *)
Definition diamond_graph : TaskGraph.t :=
  match TaskGraph.new diamond_tasks with
  | Ok g => g
  | _ => []
  end.

(** A graph as the scheduler holds it: returned by the constructor, with
    some tasks marked completed since. *)
Definition constructed (g : TaskGraph.t) : Prop :=
  exists tasks finished g0,
    TaskGraph.new tasks = Ok g0 /\ g = marked finished g0.



(** * Properties *)

(** ** Scheduler: available workers *)

(** C2 (code defect).  With a pool configured for two workers and three
    pending tasks, none of them running, [getAvailableWorkerCount] answers
    10, not [maxWorkers - runningCount = 2]; the strategy is handed all three
    tasks and the third spawn hits the pool limit. *)
Theorem getAvailableWorkerCount_is_ten_for_pool_of_two :
  exists s,
    OrchestrationScheduler.new independent_tasks (options_for max_parallel)
      (empty_pool 2) = Ok s
    /\ ParallelInstanceManager.maxWorkers
         (ParallelInstanceManager.config
            (OrchestrationScheduler.instanceManager s)) = 2%Z
    /\ OrchestrationScheduler.runningCount s = 0
    /\ OrchestrationScheduler.getAvailableWorkerCount s = 10%Z
    /\ exists s',
        OrchestrationScheduler.start calm s
        = OrchestrationScheduler.Rejected (SpawnFailed (LimitReached 2)) s'.
Proof.
  eexists. split; [vm_compute; reflexivity|].
  repeat split; try (vm_compute; reflexivity).
  eexists. vm_compute. reflexivity.
Qed.

(** The count never looks at the pool. *)
Lemma getAvailableWorkerCount_ignores_pool s m :
  OrchestrationScheduler.getAvailableWorkerCount
    (OrchestrationScheduler.set_manager m s)
  = OrchestrationScheduler.getAvailableWorkerCount s.
Proof. reflexivity. Qed.

(** ** Scheduler: a failed assignment *)

(** C1 (code defect).  Three independent tasks, a pool of five, and the
    session of [A] missing the spawn timeout: [assignTask] marks [A] failed
    and rethrows, the loop of [start] is left through its [catch], which
    emits [error] and rejects.  [B] and [C], picked in the same pass, are
    never assigned and stay pending. *)
Theorem start_rejects_when_an_assignment_fails :
  exists s s',
    OrchestrationScheduler.new independent_tasks (options_for max_parallel)
      (empty_pool 5) = Ok s
    /\ OrchestrationScheduler.start slow_A s
       = OrchestrationScheduler.Rejected (SpawnFailed (SpawnTimeout 3000)) s'
    /\ OrchestrationScheduler.executionState s' !! "A" = Some failed
    /\ OrchestrationScheduler.executionState s' !! "B" = Some pending
    /\ OrchestrationScheduler.executionState s' !! "C" = Some pending
    /\ OrchestrationScheduler.emitted s'
       = [ev_started;
          ev_task_assign_failed "A" (SpawnFailed (SpawnTimeout 3000));
          ev_error (SpawnFailed (SpawnTimeout 3000))].
Proof.
  eexists. eexists. split; [vm_compute; reflexivity|].
  split; [vm_compute; reflexivity|].
  repeat split; vm_compute; reflexivity.
Qed.

(** The [for] loop over the picked ids stops at the first rejection,
    whatever remains to be assigned. *)
Lemma assign_each_stops_at_failure env taskId rest s e s' :
  OrchestrationScheduler.assignTask env taskId s = (Some e, s') ->
  OrchestrationScheduler.assign_each env (taskId :: rest) s = (Some e, s').
Proof. intros H. simpl. rewrite H. reflexivity. Qed.

(** ** Strategies *)

Lemma slice0_firstn {A : Type} (xs : list A) (k : Z) :
  (0 <= k)%Z ->
  slice0 xs (Num k) = firstn (Z.to_nat (Z.min k (Z.of_nat (length xs)))) xs.
Proof.
  intros Hk. unfold slice0.
  destruct (Z.ltb_spec k 0); [lia | reflexivity].
Qed.

Lemma slice0_zero {A : Type} (xs : list A) : slice0 xs (Num 0) = [].
Proof.
  rewrite slice0_firstn by lia.
  replace (Z.min 0 (Z.of_nat (length xs))) with 0%Z by lia. reflexivity.
Qed.

Lemma slice0_NaN {A : Type} (xs : list A) : slice0 xs NaN = [].
Proof. reflexivity. Qed.

(** C3 (counterexample).  With [estimatedRPMPerTask = 0] and a headroom of
    100 the division yields [Infinity], which does not limit the count: both
    ready tasks are returned, not the empty list. *)
Lemma RateAware_zero_estimate_returns_tasks :
  let self := RateAwareStrategy.new (Some 100%Z) (Some 0%Z) in
  RateAwareStrategy.estimatedRPMPerTask self = 0%Z
  /\ RateAwareStrategy.headroom self 0 = 100%Z
  /\ selected (RateAwareStrategy.selectTasks self ["a"; "b"] 2 (Some 0%Z) None)
     = ["a"; "b"]
  /\ selected (RateAwareStrategy.selectTasks self ["a"; "b"] 2 (Some 0%Z) None)
     <> [].
Proof. repeat split; try reflexivity. discriminate. Qed.

(** C3 (amended).  For a non-negative worker count: with a positive
    [estimatedRPMPerTask] the result is the prefix of the ready list of
    length [min(len, availableWorkers, floor(headroom / estimate))]; with a
    headroom of 0 the result is empty; with an estimate of 0 and a positive
    headroom the result is the prefix of length [min(len, availableWorkers)]. *)
Theorem RateAware_selectTasks_prefix (self : RateAwareStrategy.t)
    (ready : list string) (availableWorkers : Z) (currentRPM : option Z)
    (graph : option TaskGraph.t) :
  (0 <= availableWorkers)%Z ->
  let len := Z.of_nat (length ready) in
  let headroom := RateAwareStrategy.headroom self (default 0%Z currentRPM) in
  let estimate := RateAwareStrategy.estimatedRPMPerTask self in
  let result :=
    selected (RateAwareStrategy.selectTasks self ready availableWorkers
                currentRPM graph) in
  ((0 < estimate)%Z ->
     let n := Z.min (Z.min len availableWorkers) (headroom / estimate) in
     result = firstn (Z.to_nat n) ready /\ Z.of_nat (length result) = n)
  /\ (headroom = 0%Z -> result = [])
  /\ (estimate = 0%Z -> (0 < headroom)%Z ->
        let n := Z.min len availableWorkers in
        result = firstn (Z.to_nat n) ready /\ Z.of_nat (length result) = n).
Proof.
  intros Haw len headroom estimate result.
  assert (Hh : (0 <= headroom)%Z)
    by (unfold headroom, RateAwareStrategy.headroom; lia).
  assert (Hres : result
                 = slice0 ready (Math_min3 (Num len) (Num availableWorkers)
                                   (floor_div headroom estimate)))
    by reflexivity.
  clearbody result headroom estimate. subst result.
  unfold floor_div. split; [|split].
  - intros Hest.
    destruct (Z.eqb_spec estimate 0); [lia|].
    cbn [Math_min3 number_min].
    assert (Hq : (0 <= headroom / estimate)%Z) by (apply Z.div_pos; lia).
    rewrite slice0_firstn by lia. cbv zeta.
    replace (Z.min (Z.min (Z.min len availableWorkers) (headroom / estimate))
                   (Z.of_nat (length ready)))
      with (Z.min (Z.min len availableWorkers) (headroom / estimate))
      by (unfold len; lia).
    split; [reflexivity|].
    rewrite length_firstn. unfold len in *. lia.
  - intros ->.
    destruct (Z.eqb_spec estimate 0) as [->|Hne].
    + reflexivity.
    + rewrite Z.div_0_l by assumption. cbn [Math_min3 number_min].
      rewrite slice0_firstn by lia.
      replace (Z.min (Z.min (Z.min len availableWorkers) 0)
                     (Z.of_nat (length ready))) with 0%Z by lia.
      reflexivity.
  - intros -> Hpos. cbn [Z.eqb].
    destruct (Z.eqb_spec headroom 0); [lia|].
    destruct (Z.ltb_spec 0 headroom); [|lia].
    cbn [Math_min3 number_min].
    rewrite slice0_firstn by lia. cbv zeta.
    replace (Z.min (Z.min len availableWorkers) (Z.of_nat (length ready)))
      with (Z.min len availableWorkers) by (unfold len; lia).
    split; [reflexivity|].
    rewrite length_firstn. unfold len in *. lia.
Qed.

(** The throttle of the rate-limit scenario: limit 100, 40 per task, ten
    ready tasks and ten workers give the first two tasks. *)
Lemma RateAware_selectTasks_prefix_witness :
  (0 <= 10)%Z
  /\ (0 < RateAwareStrategy.estimatedRPMPerTask
            (RateAwareStrategy.new (Some 100%Z) (Some 40%Z)))%Z
  /\ selected (RateAwareStrategy.selectTasks
                 (RateAwareStrategy.new (Some 100%Z) (Some 40%Z))
                 ["T1"; "T2"; "T3"] 10 (Some 0%Z) None)
     = ["T1"; "T2"].
Proof.
  split; [lia|]. split; [reflexivity|].
  pose proof (RateAware_selectTasks_prefix
                (RateAwareStrategy.new (Some 100%Z) (Some 40%Z))
                ["T1"; "T2"; "T3"] 10 (Some 0%Z) None ltac:(lia)) as [H _].
  destruct (H ltac:(reflexivity)) as [Hsel _].
  exact Hsel.
Defined.

(** C4 (code defect).  [MaxParallelStrategy] and [RateAwareStrategy] leave
    the caller's array and graph as they were, and so does
    [CriticalPathStrategy] without a graph.  With a graph it sorts the
    caller's array in place: for the graph of [chain_tasks] after [A]
    completed, whose ready list is [D; B] and whose critical path is [B; C],
    the call returns [B] and leaves the caller's array as [B; D]. *)
Theorem selectTasks_frame_and_in_place_sort :
  (forall availableTasks availableWorkers graph,
      let sel := MaxParallelStrategy.selectTasks availableTasks availableWorkers
                   graph in
      availableTasks_after sel = availableTasks /\ graph_after sel = graph)
  /\ (forall self availableTasks availableWorkers currentRPM graph,
        let sel := RateAwareStrategy.selectTasks self availableTasks
                     availableWorkers currentRPM graph in
        availableTasks_after sel = availableTasks /\ graph_after sel = graph)
  /\ (forall availableTasks availableWorkers,
        exists sel,
          CriticalPathStrategy.selectTasks availableTasks availableWorkers None
          = Ok sel
          /\ availableTasks_after sel = availableTasks)
  /\ TaskGraph.getIndependentTasks chain_graph_after_A = ["D"; "B"]
  /\ TaskGraph.getCriticalPath chain_graph_after_A = Ok ["B"; "C"]
  /\ CriticalPathStrategy.selectTasks ["D"; "B"] 1 (Some chain_graph_after_A)
     = Ok {| selected := ["B"];
             availableTasks_after := ["B"; "D"];
             graph_after := Some chain_graph_after_A |}.
Proof.
  split; [intros; split; reflexivity|].
  split; [intros; split; reflexivity|].
  split; [intros; eexists; split; reflexivity|].
  repeat split; vm_compute; reflexivity.
Qed.

(** ** RateLimiter *)

Lemma fold_sum_counts (rs : list RequestRecord) (acc : Z) :
  fold_left (fun sum r => (sum + count r)%Z) rs acc = (acc + sum_counts rs)%Z.
Proof.
  revert acc. induction rs as [|r rs IH]; intros acc; simpl.
  - lia.
  - rewrite IH. lia.
Qed.

Lemma window_filter (now : Z) (rs : list RequestRecord) :
  List.filter (fun r => (now - 60000 <? timestamp r)%Z) rs
  = filter (in_window now) rs.
Proof.
  induction rs as [|r rs IH]; [reflexivity|].
  simpl. rewrite filter_cons.
  destruct (decide (in_window now r)) as [Hin|Hin]; unfold in_window in Hin;
    destruct (Z.ltb_spec (now - 60000) (timestamp r)); try lia.
  - f_equal. exact IH.
  - exact IH.
Qed.

Lemma getCurrentRPM_sum provider now l :
  RateLimiter.getCurrentRPM provider now l
  = sum_counts (filter (in_window now) (history_of provider l)).
Proof.
  unfold RateLimiter.getCurrentRPM, history_of.
  destruct (RateLimiter.requests l !! provider) as [[|r rs]|]; try reflexivity.
  rewrite fold_sum_counts, window_filter. simpl default. lia.
Qed.

Lemma record_request_sum now second requestCount history :
  sum_counts (filter (in_window now)
                (RateLimiter.record_request second requestCount history))
  = ((if bool_decide (now - 60000 < second)%Z then requestCount else 0)
     + sum_counts (filter (in_window now) history))%Z.
Proof.
  induction history as [|r rs IH]; simpl.
  - rewrite filter_cons, filter_nil.
    destruct (decide (in_window now {| timestamp := second;
                                       count := requestCount |})) as [Hin|Hin];
      unfold in_window in Hin; simpl in Hin; case_bool_decide; try lia;
      simpl; lia.
  - destruct (Z.eqb_spec (timestamp r) second) as [<-|Hne].
    + rewrite !filter_cons.
      destruct (decide (in_window now r)) as [Hin|Hin];
        destruct (decide (in_window now _)) as [Hin'|Hin'];
        unfold in_window in Hin, Hin'; simpl in Hin';
        case_bool_decide; try lia; simpl; lia.
    + rewrite !filter_cons. destruct (decide (in_window now r)); simpl.
      * rewrite IH. lia.
      * exact IH.
Qed.

Lemma getCurrentRPM_track provider now p requestCount time l :
  RateLimiter.getCurrentRPM provider now
    (RateLimiter.track p requestCount time l)
  = ((if bool_decide (p = provider)
         && bool_decide (now - 60000 < RateLimiter.currentSecond time)%Z
      then requestCount else 0)
     + RateLimiter.getCurrentRPM provider now l)%Z.
Proof.
  rewrite !getCurrentRPM_sum. unfold history_of, RateLimiter.track. simpl.
  case_bool_decide as Hp.
  - subst p. rewrite lookup_insert_eq. simpl.
    rewrite record_request_sum. reflexivity.
  - rewrite lookup_insert_ne by assumption. simpl. lia.
Qed.

Lemma new_history provider configs :
  history_of provider (RateLimiter.new configs) = [].
Proof.
  unfold history_of, RateLimiter.new. simpl.
  assert (H : forall (m : gmap string (list RequestRecord)),
             default [] (m !! provider) = [] ->
             default []
               (fold_left (fun m c => <[RateLimiter.provider c := []]> m) configs m
                  !! provider) = []).
  { induction configs as [|c cs IH]; intros m Hm; simpl; [exact Hm|].
    apply IH.
    destruct (decide (RateLimiter.provider c = provider)) as [->|Hne].
    - rewrite lookup_insert_eq. reflexivity.
    - rewrite lookup_insert_ne by assumption. exact Hm. }
  apply H. rewrite lookup_empty. reflexivity.
Qed.

(** C7.  [getCurrentRPM] is the sum of the counts of the provider's buckets
    whose timestamp is strictly greater than [now - 60000]; after any
    sequence of [track] calls on a fresh limiter that is the sum of the
    counts tracked in a second that starts after [now - 60000]; and a single
    request tracked at time 0 reads as 0 at time 60000. *)
Theorem getCurrentRPM_rolling_window :
  (forall provider now l,
      RateLimiter.getCurrentRPM provider now l
      = sum_counts (filter (in_window now) (history_of provider l)))
  /\ (forall configs calls provider now,
        RateLimiter.getCurrentRPM provider now
          (tracks calls (RateLimiter.new configs))
        = contribution provider now calls)
  /\ (forall configs provider,
        RateLimiter.getCurrentRPM provider 60000
          (RateLimiter.track provider 1 0 (RateLimiter.new configs)) = 0%Z).
Proof.
  split; [exact getCurrentRPM_sum|].
  assert (Htracks : forall calls provider now l,
             RateLimiter.getCurrentRPM provider now (tracks calls l)
             = (RateLimiter.getCurrentRPM provider now l
                + contribution provider now calls)%Z).
  { induction calls as [|c cs IH]; intros provider now l; simpl.
    - lia.
    - unfold tracks in *. simpl. rewrite IH, getCurrentRPM_track. lia. }
  assert (Hnew : forall configs provider now,
             RateLimiter.getCurrentRPM provider now (RateLimiter.new configs) = 0%Z).
  { intros. rewrite getCurrentRPM_sum, new_history. reflexivity. }
  split.
  - intros. rewrite Htracks, Hnew. lia.
  - intros. rewrite getCurrentRPM_track, Hnew.
    rewrite bool_decide_true by reflexivity. reflexivity.
Qed.

(** ** WorkspaceAnalyzer *)

Lemma checkConflict_severity a task1 task2 c :
  WorkspaceAnalyzer.checkConflict a task1 task2 = Some c ->
  severity c = sev_error.
Proof.
  unfold WorkspaceAnalyzer.checkConflict.
  destruct (ws_path task1), (ws_path task2); try discriminate.
  destruct (WorkspaceAnalyzer.pathsConflict _ _ _); [|discriminate].
  intros [= <-]. reflexivity.
Qed.

Lemma conflicts_with_severity a task1 later :
  Forall (fun c => severity c = sev_error)
         (WorkspaceAnalyzer.conflicts_with a task1 later).
Proof.
  unfold WorkspaceAnalyzer.conflicts_with.
  apply Forall_forall. intros c Hc.
  apply list_elem_of_omap in Hc as (task2 & _ & Hc).
  destruct (ws_path task1), (ws_path task2); try discriminate.
  eapply checkConflict_severity. exact Hc.
Qed.

Lemma all_conflicts_severity a tasks :
  Forall (fun c => severity c = sev_error)
         (WorkspaceAnalyzer.all_conflicts a tasks).
Proof.
  induction tasks as [|task1 later IH]; simpl.
  - constructor.
  - apply Forall_app. split; [apply conflicts_with_severity | exact IH].
Qed.

Lemma filter_is_error_all cs :
  Forall (fun c => severity c = sev_error) cs ->
  List.filter WorkspaceAnalyzer.is_error cs = cs.
Proof.
  induction 1 as [|c cs Hc _ IH]; simpl; [reflexivity|].
  unfold WorkspaceAnalyzer.is_error at 1. rewrite Hc. f_equal. exact IH.
Qed.

Lemma all_conflicts_strictMode a strict tasks :
  WorkspaceAnalyzer.all_conflicts (WorkspaceAnalyzer.with_strictMode a strict)
    tasks
  = WorkspaceAnalyzer.all_conflicts a tasks.
Proof.
  induction tasks as [|task1 later IH]; simpl; [reflexivity|].
  rewrite IH. reflexivity.
Qed.

(** C8.  Every conflict reported by [validateAssignments] has severity
    [error]; hence [isValid] says whether there is no conflict at all, and,
    the other options and the platform being equal, it is the same with
    [strictMode] on and off. *)
Theorem validateAssignments_strictMode_irrelevant :
  forall (a : WorkspaceAnalyzer.t) (tasks : list WorkspaceTask),
    Forall (fun c => severity c = sev_error)
           (WorkspaceAnalyzer.conflicts
              (WorkspaceAnalyzer.validateAssignments a tasks))
    /\ WorkspaceAnalyzer.isValid
         (WorkspaceAnalyzer.validateAssignments
            (WorkspaceAnalyzer.with_strictMode a true) tasks)
       = WorkspaceAnalyzer.isValid
           (WorkspaceAnalyzer.validateAssignments
              (WorkspaceAnalyzer.with_strictMode a false) tasks)
    /\ WorkspaceAnalyzer.isValid (WorkspaceAnalyzer.validateAssignments a tasks)
       = (length (WorkspaceAnalyzer.conflicts
                    (WorkspaceAnalyzer.validateAssignments a tasks)) =? 0)%nat.
Proof.
  intros a tasks. split; [apply all_conflicts_severity|].
  unfold WorkspaceAnalyzer.validateAssignments. cbn -[WorkspaceAnalyzer.all_conflicts].
  rewrite !all_conflicts_strictMode.
  rewrite !filter_is_error_all by apply all_conflicts_severity.
  split; [reflexivity|].
  destruct (WorkspaceAnalyzer.strictMode _); reflexivity.
Qed.

(** The nested pair [/src], [/src/auth] is reported once, as an error, in
    both modes. *)
Lemma nested_workspaces_conflict strict :
  let v := WorkspaceAnalyzer.validateAssignments
             (WorkspaceAnalyzer.new (Some strict) None None false)
             nested_workspaces in
  WorkspaceAnalyzer.isValid v = false
  /\ map taskIds (WorkspaceAnalyzer.conflicts v) = [("A", "B")].
Proof. destruct strict; split; reflexivity. Qed.

(** ** ParallelInstanceManager *)

Lemma terminateWorker_absent workerId m :
  ParallelInstanceManager.workers m !! workerId = None ->
  ParallelInstanceManager.terminateWorker workerId m = m.
Proof.
  intros H. unfold ParallelInstanceManager.terminateWorker. rewrite H.
  reflexivity.
Qed.

Lemma terminateWorker_idempotent workerId m :
  ParallelInstanceManager.terminateWorker workerId
    (ParallelInstanceManager.terminateWorker workerId m)
  = ParallelInstanceManager.terminateWorker workerId m.
Proof.
  destruct (ParallelInstanceManager.workers m !! workerId) eqn:H.
  - apply terminateWorker_absent.
    unfold ParallelInstanceManager.terminateWorker. rewrite H. simpl.
    apply lookup_delete_eq.
  - rewrite !(terminateWorker_absent workerId m H). reflexivity.
Qed.




(** ** ReviewCoordinator: requests that overlap *)

(** A call suspended on the pool stays as it is until it is resumed. *)
Lemma run_keeps_wait ticket w steps s :
  PoolRun.waits s !! ticket = Some w ->
  Forall (fun st => PoolRun.resumes ticket st = false) steps ->
  PoolRun.waits (PoolRun.run steps s) !! ticket = Some w.
Proof.
  revert s. induction steps as [|st steps IH]; intros s Hw Hall; [exact Hw|].
  apply Forall_cons in Hall as [Hst Hall].
  cbn [PoolRun.run fold_left]. apply IH; [|exact Hall].
  assert (Hsus : forall w' m,
             PoolRun.waits (snd (PoolRun.suspend w' m s)) !! ticket = Some w).
  { intros w' m. unfold PoolRun.suspend. simpl.
    rewrite lookup_app_l by (eapply lookup_lt_Some; exact Hw). exact Hw. }
  destruct st as [params|workerId| | |workerId ev|ticket' r now];
    cbn [PoolRun.run_step].
  - destruct (ParallelInstanceManager.spawn_refused _ _); [exact Hw|apply Hsus].
  - destruct (ParallelInstanceManager.terminate_begin _ _);
      [apply Hsus | exact Hw].
  - apply Hsus.
  - exact Hw.
  - exact Hw.
  - simpl in Hst. apply Nat.eqb_neq in Hst.
    assert (Hpro : forall w' m,
               PoolRun.waits (PoolRun.proceed ticket' w' m s) !! ticket
               = Some w).
    { intros w' m. unfold PoolRun.proceed. simpl.
      rewrite list_lookup_insert_ne by exact Hst. exact Hw. }
    destruct (PoolRun.waits s !! ticket') as [[params|workerId rethrow|ids|]|];
      try exact Hw.
    + destruct (ParallelInstanceManager.spawn_settled _ _ _ _) as [[e|w0] m];
        [|apply Hpro].
      destruct (ParallelInstanceManager.autoCleanup _); [|apply Hpro].
      destruct (ParallelInstanceManager.terminate_begin _ _); apply Hpro.
    + apply Hpro.
    + destruct ids; apply Hpro.
Qed.

Lemma fresh_reviewerId_nonempty specialization uuid :
  String.eqb (ReviewCoordinator.fresh_reviewerId specialization uuid) EmptyString
  = false.
Proof. reflexivity. Qed.















(** ** IPCChannel *)

Lemma JsMap_get_set_eq {V : Type} (k : string) (v : V) (m : JsMap.t V) :
  JsMap.get k (JsMap.set k v m) = Some v.
Proof.
  induction m as [|[k' v'] m IH]; simpl.
  - rewrite String.eqb_refl. reflexivity.
  - destruct (String.eqb k k') eqn:E; simpl; rewrite E; [reflexivity | exact IH].
Qed.

Lemma JsMap_get_set_ne {V : Type} (k k' : string) (v : V) (m : JsMap.t V) :
  k <> k' -> JsMap.get k' (JsMap.set k v m) = JsMap.get k' m.
Proof.
  intros Hne. induction m as [|[k0 v0] m IH]; simpl.
  - destruct (String.eqb_spec k' k); [congruence | reflexivity].
  - destruct (String.eqb_spec k k0) as [->|Hk]; simpl.
    + destruct (String.eqb_spec k' k0); [congruence | reflexivity].
    + destruct (String.eqb_spec k' k0); [reflexivity | exact IH].
Qed.

Lemma take_first_None filter queue :
  IPCChannel.take_first filter queue = None <->
  forall x, x ∈ queue -> filter x = false.
Proof.
  induction queue as [|m queue IH]; simpl.
  - split; [intros _ x Hx; inversion Hx | reflexivity].
  - destruct (filter m) eqn:Hm.
    + split; [discriminate|]. intros H.
      rewrite (H m) in Hm by left. discriminate.
    + destruct (IPCChannel.take_first filter queue) as [[found rest]|].
      * split; [discriminate|]. intros H.
        assert (None = Some (found, rest)) as Habs; [|discriminate Habs].
        symmetry. apply IH. intros x Hx. apply H. right. exact Hx.
      * split; [|reflexivity]. intros _ x Hx.
        apply elem_of_cons in Hx as [->|Hx]; [exact Hm|].
        apply IH; [reflexivity | exact Hx].
Qed.

Lemma take_first_snoc filter queue m :
  (forall x, x ∈ queue -> filter x = false) ->
  filter m = true ->
  IPCChannel.take_first filter (queue ++ [m]) = Some (m, queue).
Proof.
  intros Hq Hm. induction queue as [|x queue IH]; simpl.
  - rewrite Hm. reflexivity.
  - rewrite (Hq x) by left. rewrite IH; [reflexivity|].
    intros y Hy. apply Hq. right. exact Hy.
Qed.

(** What [take_first] finds satisfies the filter, was in the queue, and the
    rest is the queue with that one occurrence taken out. *)
Lemma take_first_Some filter queue found rest :
  IPCChannel.take_first filter queue = Some (found, rest) ->
  filter found = true
  /\ exists before after,
      queue = before ++ found :: after /\ rest = before ++ after
      /\ forall x, x ∈ before -> filter x = false.
Proof.
  revert rest. induction queue as [|m queue IH]; intros rest; simpl;
    [discriminate|].
  destruct (filter m) eqn:Hm.
  - intros [= <- <-]. split; [exact Hm|].
    exists [], queue. repeat split. intros x Hx. inversion Hx.
  - destruct (IPCChannel.take_first filter queue) as [[found' rest']|];
      [|discriminate].
    intros [= <- <-].
    destruct (IH rest' eq_refl) as (Hf & before & after & -> & -> & Hb).
    split; [exact Hf|].
    exists (m :: before), after. repeat split.
    intros x Hx. apply elem_of_cons in Hx as [->|Hx]; [exact Hm | auto].
Qed.

Lemma scan_None filter queues :
  IPCChannel.scan filter queues = None <->
  forall x, x ∈ concat (JsMap.values queues) -> filter x = false.
Proof.
  induction queues as [|[destination queue] queues IH]; simpl.
  - split; [intros _ x Hx; inversion Hx | reflexivity].
  - destruct (IPCChannel.take_first filter queue) as [[found rest]|] eqn:Hq.
    + split; [discriminate|]. intros H.
      assert (IPCChannel.take_first filter queue = None) as Habs.
      { apply take_first_None. intros x Hx. apply H.
        apply elem_of_app. left. exact Hx. }
      congruence.
    + destruct (IPCChannel.scan filter queues) as [[found rest]|].
      * split; [discriminate|]. intros H.
        assert (None = Some (found, rest)) as Habs; [|discriminate Habs].
        symmetry. apply IH. intros x Hx. apply H. apply elem_of_app.
        right. exact Hx.
      * split; [|reflexivity]. intros _ x Hx.
        apply elem_of_app in Hx as [Hx|Hx].
        -- eapply take_first_None; eassumption.
        -- apply IH; [reflexivity | exact Hx].
Qed.

Lemma JsMap_get_in_values {V : Type} (k : string) (v : V) (m : JsMap.t V) :
  JsMap.get k m = Some v -> v ∈ JsMap.values m.
Proof.
  induction m as [|[k' v'] m IH]; simpl; [discriminate|].
  destruct (String.eqb k k').
  - intros [= ->]. left.
  - intros H. right. apply IH. exact H.
Qed.

(** Scanning after [m] was pushed to the queue of [k]: when nothing that was
    queued before satisfies the filter, the scan finds [m] and takes it out
    again. *)
Lemma scan_after_push filter k m queues dropped :
  (forall x, x ∈ concat (JsMap.values queues) -> filter x = false) ->
  (forall x, x ∈ dropped -> filter x = false) ->
  filter m = true ->
  IPCChannel.scan filter (JsMap.set k (dropped ++ [m]) queues)
  = Some (m, JsMap.set k dropped queues).
Proof.
  intros Hqs Hd Hm. induction queues as [|[k' queue] queues IH]; simpl.
  - rewrite take_first_snoc by assumption. reflexivity.
  - destruct (String.eqb k k'); simpl.
    + rewrite take_first_snoc by assumption. reflexivity.
    + assert (IPCChannel.take_first filter queue = None) as ->.
      { apply take_first_None. intros x Hx. apply Hqs. simpl.
        apply elem_of_app. left. exact Hx. }
      rewrite IH; [reflexivity|].
      intros x Hx. apply Hqs. simpl. apply elem_of_app. right. exact Hx.
Qed.

Lemma settle_keeps_fulfilled p v ps q m :
  ps !! q = Some (Fulfilled m) ->
  IPCChannel.settle p v ps !! q = Some (Fulfilled m).
Proof.
  intros H. unfold IPCChannel.settle.
  destruct (ps !! p) as [[]|] eqn:Hp; try exact H.
  destruct (decide (p = q)) as [->|Hne]; [congruence|].
  rewrite list_lookup_insert_ne by assumption. exact H.
Qed.

Lemma settle_pending p v ps :
  ps !! p = Some Pending -> IPCChannel.settle p v ps !! p = Some v.
Proof.
  intros H. unfold IPCChannel.settle. rewrite H.
  apply list_lookup_insert_eq. eapply lookup_lt_Some. exact H.
Qed.

Lemma settle_other p q v ps :
  p <> q -> IPCChannel.settle p v ps !! q = ps !! q.
Proof.
  intros Hne. unfold IPCChannel.settle.
  destruct (ps !! p) as [[]|]; try reflexivity.
  apply list_lookup_insert_ne. exact Hne.
Qed.

Lemma run_listener_queue message w c :
  IPCChannel.messageQueue (IPCChannel.run_listener message w c)
  = IPCChannel.messageQueue c.
Proof.
  unfold IPCChannel.run_listener. destruct (waiter_filter w message); reflexivity.
Qed.

Lemma emit_listeners_queue message ws c :
  IPCChannel.messageQueue
    (fold_left (fun c w => IPCChannel.run_listener message w c) ws c)
  = IPCChannel.messageQueue c.
Proof.
  revert c. induction ws as [|w ws IH]; intros c; simpl; [reflexivity|].
  rewrite IH. apply run_listener_queue.
Qed.

Lemma emit_listeners_keeps_fulfilled message ws c q :
  IPCChannel.promises c !! q = Some (Fulfilled message) ->
  IPCChannel.promises
    (fold_left (fun c w => IPCChannel.run_listener message w c) ws c) !! q
  = Some (Fulfilled message).
Proof.
  revert c. induction ws as [|w ws IH]; intros c H; simpl; [exact H|].
  apply IH. unfold IPCChannel.run_listener.
  destruct (waiter_filter w message); [|exact H]. simpl.
  apply settle_keeps_fulfilled. exact H.
Qed.

(** A listener whose filter accepts the message has its pending promise
    fulfilled with that message by the emission. *)
Lemma emit_listeners_fulfils message ws c w :
  w ∈ ws ->
  waiter_filter w message = true ->
  IPCChannel.promises c !! waiter_promise w = Some Pending ->
  IPCChannel.promises
    (fold_left (fun c w => IPCChannel.run_listener message w c) ws c)
    !! waiter_promise w
  = Some (Fulfilled message).
Proof.
  intros Hin Hf. revert c.
  induction ws as [|w0 ws IH]; intros c Hp; [inversion Hin|].
  simpl. apply elem_of_cons in Hin as [<-|Hin].
  - apply emit_listeners_keeps_fulfilled.
    unfold IPCChannel.run_listener. rewrite Hf. simpl.
    apply settle_pending. exact Hp.
  - unfold IPCChannel.run_listener at 2.
    destruct (waiter_filter w0 message); [|apply IH; assumption].
    destruct (decide (waiter_promise w0 = waiter_promise w)) as [Heq|Hne].
    + apply emit_listeners_keeps_fulfilled. simpl. rewrite Heq.
      apply settle_pending. exact Hp.
    + apply IH; [exact Hin|]. simpl. rewrite settle_other by exact Hne.
      exact Hp.
Qed.

Lemma enqueue_spec maxQueueSize message queue :
  exists kept,
    IPCChannel.enqueue maxQueueSize message queue = kept ++ [message]
    /\ forall x, x ∈ kept -> x ∈ queue.
Proof.
  unfold IPCChannel.enqueue.
  destruct (_ <=? _)%Z.
  - exists (tail queue). split; [reflexivity|].
    destruct queue; simpl; [auto|]. intros x Hx. right. exact Hx.
  - exists queue. auto.
Qed.

Lemma elem_of_concat_in {A : Type} (x : A) (q : list A) (qs : list (list A)) :
  x ∈ q -> q ∈ qs -> x ∈ concat qs.
Proof.
  intros Hx Hq. induction qs as [|q' qs IH]; [inversion Hq|].
  simpl. apply elem_of_app. apply elem_of_cons in Hq as [<-|Hq]; auto.
Qed.

Lemma queue_of_queued destination c x :
  x ∈ IPCChannel.queue_of destination c -> x ∈ IPCChannel.queued c.
Proof.
  unfold IPCChannel.queue_of, IPCChannel.queued.
  destruct (JsMap.get destination (IPCChannel.messageQueue c)) as [q|] eqn:E;
    simpl; [|intros Hx; inversion Hx].
  intros Hx. eapply elem_of_concat_in; [exact Hx|].
  eapply JsMap_get_in_values. exact E.
Qed.

(** C10 (counterexample).  The queue holds a heartbeat; a wait for a
    completion is suspended and then fulfilled by the completion message
    that arrives.  A later wait with a filter that accepts every message,
    the completion included, returns the older heartbeat, not the
    completion. *)
Lemma later_wait_returns_older_message :
  exists c1 c3,
    IPCChannel.waitForMessage is_task_completed "wait-1" channel_with_heartbeat
    = (Suspended 0, c1)
    /\ IPCChannel.promises (IPCChannel.handleMessage completion_message c1) !! 0
       = Some (Fulfilled completion_message)
    /\ any_message completion_message = true
    /\ IPCChannel.waitForMessage any_message "wait-2"
         (IPCChannel.handleMessage completion_message c1)
       = (Returned heartbeat_message, c3)
    /\ heartbeat_message <> completion_message.
Proof.
  eexists. eexists. split; [vm_compute; reflexivity|].
  split; [vm_compute; reflexivity|].
  split; [reflexivity|].
  split; [vm_compute; reflexivity | discriminate].
Qed.

(** C10 (amended).  Let a [waitForMessage] with filter [f] be suspended, and
    let a message [m] accepted by [f] arrive whose correlation id names no
    pending entry.  Then the promise of the wait is fulfilled with [m]; [m]
    is the last element of its destination's queue and stays there; a later
    [waitForMessage] whose filter accepts [m] and none of the messages
    queued before [m] arrived (in particular one with the filter [f] again)
    returns [m] from its queue scan, which takes [m] out of the queue.  A
    message whose correlation id does name a pending entry resolves that
    entry: the entry's promise is fulfilled with the message, the entry is
    deleted, no listener runs, and the message is not queued.  In
    particular a message that carries the key of the suspended wait as its
    correlation id fulfils that wait, whatever the filter [f] says of
    it. *)
Theorem waitForMessage_listener_leaves_message_queued
    (c c1 : IPCChannel.t) (f : IPCMessage -> bool) (key : string) (p : nat)
    (m : IPCMessage) :
  IPCChannel.waitForMessage f key c = (Suspended p, c1) ->
  f m = true ->
  IPCChannel.pending_for m c1 = None ->
  let c2 := IPCChannel.handleMessage m c1 in
  IPCChannel.promises c1 !! p = Some Pending
  /\ IPCChannel.promises c2 !! p = Some (Fulfilled m)
  /\ (exists kept, IPCChannel.queue_of (to m) c2 = kept ++ [m])
  /\ (forall g key',
        g m = true ->
        (forall x, x ∈ IPCChannel.queued c1 -> g x = false) ->
        exists c3,
          IPCChannel.waitForMessage g key' c2 = (Returned m, c3)
          /\ IPCChannel.queue_of (to m) c3 ++ [m] = IPCChannel.queue_of (to m) c2)
  /\ (forall key',
        exists c3,
          IPCChannel.waitForMessage f key' c2 = (Returned m, c3)
          /\ IPCChannel.queue_of (to m) c3 ++ [m] = IPCChannel.queue_of (to m) c2)
  /\ (forall m' : IPCMessage,
        IPCChannel.pending_for m' c1 <> None ->
        IPCChannel.messageQueue (IPCChannel.handleMessage m' c1)
        = IPCChannel.messageQueue c1)
  /\ (forall (m' : IPCMessage) (cid : string) (q : nat),
        IPCChannel.pending_for m' c1 = Some (cid, q) ->
        let c' := IPCChannel.handleMessage m' c1 in
        correlationId m' = Some cid
        /\ IPCChannel.pendingMessages c1 !! cid = Some q
        /\ (IPCChannel.promises c1 !! q = Some Pending ->
            IPCChannel.promises c' !! q = Some (Fulfilled m'))
        /\ (forall q', q' <> q ->
              IPCChannel.promises c' !! q' = IPCChannel.promises c1 !! q')
        /\ IPCChannel.pendingMessages c'
           = delete cid (IPCChannel.pendingMessages c1)
        /\ IPCChannel.listeners c' = IPCChannel.listeners c1
        /\ IPCChannel.messageQueue c' = IPCChannel.messageQueue c1)
  /\ (forall m' : IPCMessage,
        correlationId m' = Some key ->
        key <> EmptyString ->
        let c' := IPCChannel.handleMessage m' c1 in
        IPCChannel.promises c' !! p = Some (Fulfilled m')
        /\ IPCChannel.pendingMessages c' !! key = None
        /\ IPCChannel.messageQueue c' = IPCChannel.messageQueue c1).
Proof.
  intros Hwait Hf Hpend c2.
  unfold IPCChannel.waitForMessage in Hwait.
  destruct (IPCChannel.scan f (IPCChannel.messageQueue c)) as [[x qs]|] eqn:Hscan;
    [discriminate|].
  injection Hwait as <- <-.
  pose proof (proj1 (scan_None _ _) Hscan) as Hnone.
  set (c1 := {| IPCChannel.maxQueueSize := IPCChannel.maxQueueSize c;
                IPCChannel.messageQueue := IPCChannel.messageQueue c;
                IPCChannel.pendingMessages :=
                  <[key := length (IPCChannel.promises c)]>
                    (IPCChannel.pendingMessages c);
                IPCChannel.listeners :=
                  IPCChannel.listeners c
                  ++ [{| waiter_promise := length (IPCChannel.promises c);
                         waiter_filter := f; waiter_key := key |}];
                IPCChannel.promises := IPCChannel.promises c ++ [Pending] |})
    in *.
  assert (Hp1 : IPCChannel.promises c1 !! length (IPCChannel.promises c)
                = Some Pending).
  { simpl. rewrite lookup_app_r by lia. rewrite Nat.sub_diag. reflexivity. }
  destruct (enqueue_spec (IPCChannel.maxQueueSize c1) m
              (IPCChannel.queue_of (to m) c1)) as (kept & Hkept & Hsub).
  assert (Hq2 : IPCChannel.messageQueue c2
                = JsMap.set (to m) (kept ++ [m]) (IPCChannel.messageQueue c1)).
  { unfold c2, IPCChannel.handleMessage. rewrite Hpend.
    unfold IPCChannel.emit_message. rewrite emit_listeners_queue. simpl.
    unfold IPCChannel.queue_of in Hkept. simpl in Hkept. rewrite Hkept.
    reflexivity. }
  assert (Hscan2 : forall g,
             g m = true ->
             (forall x, x ∈ IPCChannel.queued c1 -> g x = false) ->
             forall key',
             exists c3,
               IPCChannel.waitForMessage g key' c2 = (Returned m, c3)
               /\ IPCChannel.queue_of (to m) c3 ++ [m]
                  = IPCChannel.queue_of (to m) c2).
  { intros g Hg Hold key'. unfold IPCChannel.waitForMessage.
    rewrite Hq2.
    rewrite (scan_after_push g (to m) m (IPCChannel.messageQueue c1) kept);
      [|exact Hold | |exact Hg].
    - eexists. split; [reflexivity|].
      unfold IPCChannel.queue_of. simpl. rewrite Hq2.
      rewrite !JsMap_get_set_eq. reflexivity.
    - intros x Hx. apply Hold. eapply queue_of_queued. apply Hsub. exact Hx. }
  split; [exact Hp1|].
  split.
  { unfold c2, IPCChannel.handleMessage. rewrite Hpend.
    unfold IPCChannel.emit_message.
    apply (emit_listeners_fulfils m _ _
             {| waiter_promise := length (IPCChannel.promises c);
                waiter_filter := f; waiter_key := key |}).
    - simpl. apply elem_of_app. right. left.
    - exact Hf.
    - exact Hp1. }
  split.
  { exists kept. unfold IPCChannel.queue_of. rewrite Hq2.
    rewrite JsMap_get_set_eq. reflexivity. }
  split; [intros g key' Hg Hold; apply Hscan2; assumption|].
  split; [intros key'; apply Hscan2; [exact Hf | exact Hnone]|].
  split.
  { intros m' Hm'. unfold IPCChannel.handleMessage.
    destruct (IPCChannel.pending_for m' c1) as [[cid p']|]; [reflexivity|].
    congruence. }
  assert (Hnamed : forall (m' : IPCMessage) cid q,
             IPCChannel.pending_for m' c1 = Some (cid, q) ->
             correlationId m' = Some cid
             /\ IPCChannel.pendingMessages c1 !! cid = Some q).
  { intros m' cid q. unfold IPCChannel.pending_for.
    destruct (correlationId m') as [cid'|]; [|discriminate].
    destruct (String.eqb cid' EmptyString); [discriminate|].
    destruct (IPCChannel.pendingMessages c1 !! cid') as [q'|] eqn:Hq;
      [|discriminate].
    intros [= <- <-]. auto. }
  split.
  { intros m' cid q Hm'. cbv zeta.
    destruct (Hnamed m' cid q Hm') as [Hcid Hq].
    unfold IPCChannel.handleMessage. rewrite Hm'. cbn.
    split; [exact Hcid|]. split; [exact Hq|].
    split; [apply settle_pending|].
    split; [intros q' Hne; apply settle_other; congruence|].
    auto. }
  intros m' Hcid Hkey. cbv zeta.
  assert (Hm' : IPCChannel.pending_for m' c1
                = Some (key, length (IPCChannel.promises c))).
  { unfold IPCChannel.pending_for. rewrite Hcid.
    destruct (String.eqb_spec key EmptyString) as [->|_]; [congruence|].
    unfold c1. cbn. rewrite lookup_insert_eq. reflexivity. }
  unfold IPCChannel.handleMessage. rewrite Hm'. cbn.
  split; [apply settle_pending; exact Hp1|].
  split; [apply lookup_delete_eq | reflexivity].
Qed.

(** The suspended wait for a completion on the channel that holds a
    heartbeat, and the completion arriving. *)
Lemma waitForMessage_listener_leaves_message_queued_witness :
  is_task_completed completion_message = true
  /\ IPCChannel.promises
       (IPCChannel.handleMessage completion_message
          (snd (IPCChannel.waitForMessage is_task_completed "wait-1"
                  channel_with_heartbeat))) !! 0
     = Some (Fulfilled completion_message).
Proof.
  split; [reflexivity|].
  exact (proj1 (proj2
           (waitForMessage_listener_leaves_message_queued
              channel_with_heartbeat
              (snd (IPCChannel.waitForMessage is_task_completed "wait-1"
                      channel_with_heartbeat))
              is_task_completed "wait-1" 0 completion_message
              ltac:(vm_compute; reflexivity) ltac:(reflexivity)
              ltac:(vm_compute; reflexivity)))).
Defined.

(** ** TaskGraph: construction *)

(** *** Sets and maps *)

Lemma JsSet_has_true x s : JsSet.has x s = true <-> x ∈ s.
Proof.
  unfold JsSet.has. rewrite existsb_exists. split.
  - intros (y & Hy & Heq). apply String.eqb_eq in Heq. subst y.
    apply list_elem_of_In. exact Hy.
  - intros H. exists x. split; [apply list_elem_of_In; exact H|].
    apply String.eqb_refl.
Qed.

Lemma JsSet_has_false x s : JsSet.has x s = false <-> x ∉ s.
Proof.
  rewrite <- JsSet_has_true. destruct (JsSet.has x s); split; congruence.
Qed.

Lemma JsSet_add_elem x y s : y ∈ JsSet.add x s <-> y = x \/ y ∈ s.
Proof.
  unfold JsSet.add. destruct (JsSet.has x s) eqn:E.
  - apply JsSet_has_true in E. split; [auto | intros [->|]; auto].
  - rewrite elem_of_app, list_elem_of_singleton. tauto.
Qed.

Lemma JsSet_add_fresh x s : x ∉ s -> JsSet.add x s = s ++ [x].
Proof.
  intros H. unfold JsSet.add. apply JsSet_has_false in H. rewrite H.
  reflexivity.
Qed.

Lemma JsSet_delete_absent x s : x ∉ s -> JsSet.delete x s = s.
Proof.
  unfold JsSet.delete. induction s as [|y s IH]; intros H; simpl; [reflexivity|].
  apply not_elem_of_cons in H as [Hne Hs].
  destruct (String.eqb_spec x y); [congruence|]. simpl. f_equal. auto.
Qed.

Lemma JsSet_delete_added x s : x ∉ s -> JsSet.delete x (s ++ [x]) = s.
Proof.
  intros H. unfold JsSet.delete. rewrite List.filter_app. simpl.
  rewrite String.eqb_refl. simpl. rewrite app_nil_r.
  apply JsSet_delete_absent. exact H.
Qed.

Lemma JsSet_of_list_elem x xs : x ∈ JsSet.of_list xs <-> x ∈ xs.
Proof.
  unfold JsSet.of_list.
  assert (H : forall acc,
             x ∈ fold_left (fun s y => JsSet.add y s) xs acc <-> x ∈ acc \/ x ∈ xs).
  { induction xs as [|y xs IH]; intros acc; simpl.
    - rewrite elem_of_nil. tauto.
    - rewrite IH, JsSet_add_elem, elem_of_cons. tauto. }
  rewrite H, elem_of_nil. tauto.
Qed.

Lemma JsMap_get_None {V : Type} (k : string) (m : JsMap.t V) :
  JsMap.get k m = None <-> k ∉ JsMap.keys m.
Proof.
  unfold JsMap.keys. induction m as [|[k' v] m IH]; simpl.
  - rewrite elem_of_nil. tauto.
  - rewrite not_elem_of_cons.
    destruct (String.eqb_spec k k'); split; try tauto; try discriminate.
Qed.

Lemma JsMap_get_Some_key {V : Type} (k : string) (v : V) (m : JsMap.t V) :
  JsMap.get k m = Some v -> k ∈ JsMap.keys m.
Proof.
  intros H. destruct (decide (k ∈ JsMap.keys m)) as [|Hn]; [assumption|].
  apply JsMap_get_None in Hn. congruence.
Qed.

Lemma JsMap_set_fresh {V : Type} (k : string) (v : V) (m : JsMap.t V) :
  k ∉ JsMap.keys m -> JsMap.set k v m = m ++ [(k, v)].
Proof.
  unfold JsMap.keys. induction m as [|[k' v'] m IH]; intros H; simpl;
    [reflexivity|].
  simpl in H. apply not_elem_of_cons in H as [Hne Hm].
  destruct (String.eqb_spec k k'); [congruence|]. f_equal. auto.
Qed.

(** *** First pass *)

Lemma create_nodes_distinct tasks :
  NoDup (map task_id tasks) ->
  TaskGraph.create_nodes tasks
  = map (fun task => (task_id task, TaskGraph.mk_node task)) tasks.
Proof.
  unfold TaskGraph.create_nodes.
  assert (H : forall acc,
             NoDup (JsMap.keys acc ++ map task_id tasks) ->
             fold_left
               (fun nodes task =>
                  JsMap.set (task_id task) (TaskGraph.mk_node task) nodes)
               tasks acc
             = acc ++ map (fun task => (task_id task, TaskGraph.mk_node task))
                          tasks).
  { induction tasks as [|task tasks IH]; intros acc Hnd; simpl.
    - rewrite app_nil_r. reflexivity.
    - simpl in Hnd. rewrite IH.
      + rewrite JsMap_set_fresh.
        * rewrite <- app_assoc. reflexivity.
        * apply NoDup_app in Hnd as (_ & Hdisj & _).
          intros Hin. apply (Hdisj _ Hin). left.
      + rewrite JsMap_set_fresh.
        * unfold JsMap.keys. rewrite map_app. simpl. rewrite <- app_assoc.
          exact Hnd.
        * apply NoDup_app in Hnd as (_ & Hdisj & _).
          intros Hin. apply (Hdisj _ Hin). left. }
  intros Hnd. apply (H []). exact Hnd.
Qed.

Lemma created_get tasks task :
  NoDup (map task_id tasks) ->
  task ∈ tasks ->
  JsMap.get (task_id task)
    (map (fun task => (task_id task, TaskGraph.mk_node task)) tasks)
  = Some (TaskGraph.mk_node task).
Proof.
  induction tasks as [|t tasks IH]; intros Hnd Hin; [inversion Hin|].
  simpl in *. apply NoDup_cons in Hnd as [Hfresh Hnd].
  apply elem_of_cons in Hin as [->|Hin].
  - rewrite String.eqb_refl. reflexivity.
  - destruct (String.eqb_spec (task_id task) (task_id t)) as [Heq|_].
    + exfalso. apply Hfresh. rewrite <- Heq.
      apply list_elem_of_fmap. exists task. auto.
    + apply IH; assumption.
Qed.

Lemma created_get_inv tasks a node :
  JsMap.get a (map (fun task => (task_id task, TaskGraph.mk_node task)) tasks)
  = Some node ->
  exists task, task ∈ tasks /\ task_id task = a /\ node = TaskGraph.mk_node task.
Proof.
  induction tasks as [|t tasks IH]; simpl; [discriminate|].
  destruct (String.eqb_spec a (task_id t)) as [->|_].
  - intros [= <-]. exists t. split; [left | auto].
  - intros H. destruct (IH H) as (task & Hin & Hid & Hn).
    exists task. split; [right; exact Hin | auto].
Qed.

Lemma created_keys tasks :
  JsMap.keys (map (fun task => (task_id task, TaskGraph.mk_node task)) tasks)
  = map task_id tasks.
Proof.
  unfold JsMap.keys. rewrite map_map. reflexivity.
Qed.

(** *** Second pass *)

Lemma deps_of_shape nodes a : deps_of nodes a = JsMap.get a (shape nodes).
Proof.
  unfold deps_of, shape. induction nodes as [|[k v] nodes IH]; simpl;
    [reflexivity|].
  destruct (String.eqb a k); [reflexivity | exact IH].
Qed.

Lemma shape_keys nodes : JsMap.keys (shape nodes) = JsMap.keys nodes.
Proof. unfold JsMap.keys, shape. rewrite map_map. reflexivity. Qed.

Lemma shape_edge nodes nodes' a b :
  shape nodes' = shape nodes -> edge nodes' a b <-> edge nodes a b.
Proof.
  intros H. unfold edge. rewrite !deps_of_shape, H. reflexivity.
Qed.

Lemma shape_set k v v' nodes :
  JsMap.get k nodes = Some v ->
  dependencies v' = dependencies v ->
  shape (JsMap.set k v' nodes) = shape nodes.
Proof.
  unfold shape. intros Hget Hdeps.
  induction nodes as [|[k0 v0] nodes IH]; simpl in *; [discriminate|].
  destruct (String.eqb_spec k k0) as [->|Hne]; simpl.
  - injection Hget as ->. rewrite Hdeps. reflexivity.
  - f_equal. apply IH. exact Hget.
Qed.

Lemma add_dependent_spec nodeId depId nodes :
  (exists nodes',
      TaskGraph.add_dependent nodeId depId nodes = Ok nodes'
      /\ shape nodes' = shape nodes /\ depId ∈ JsMap.keys nodes)
  \/ ((depId ∉ JsMap.keys nodes)
      /\ TaskGraph.add_dependent nodeId depId nodes
         = Throw (MissingDependency nodeId depId)).
Proof.
  unfold TaskGraph.add_dependent.
  destruct (JsMap.get depId nodes) as [depNode|] eqn:Hget.
  - left. eexists. split; [reflexivity|]. split.
    + eapply shape_set; [exact Hget | reflexivity].
    + eapply JsMap_get_Some_key. exact Hget.
  - right. split; [apply JsMap_get_None; exact Hget | reflexivity].
Qed.

Lemma link_inner_spec nodeId deps nodes :
  (exists nodes',
      for_each (TaskGraph.add_dependent nodeId) deps nodes = Ok nodes'
      /\ shape nodes' = shape nodes
      /\ forall d, d ∈ deps -> d ∈ JsMap.keys nodes)
  \/ (exists d,
        d ∈ deps /\ (d ∉ JsMap.keys nodes)
        /\ for_each (TaskGraph.add_dependent nodeId) deps nodes
           = Throw (MissingDependency nodeId d)).
Proof.
  revert nodes. induction deps as [|d deps IH]; intros nodes; simpl.
  - left. exists nodes. repeat split. intros d Hd. inversion Hd.
  - destruct (add_dependent_spec nodeId d nodes)
      as [(nodes1 & -> & Hshape & Hd)|(Hd & ->)].
    + assert (Hkeys : JsMap.keys nodes1 = JsMap.keys nodes)
        by (rewrite <- !shape_keys, Hshape; reflexivity).
      destruct (IH nodes1) as [(nodes' & -> & Hshape' & Hall)|(d' & Hin & Hno & ->)].
      * left. exists nodes'. split; [reflexivity|]. split; [congruence|].
        intros x Hx. apply elem_of_cons in Hx as [->|Hx]; [exact Hd|].
        rewrite <- Hkeys. auto.
      * right. exists d'. split; [right; exact Hin|].
        split; [rewrite <- Hkeys; exact Hno | reflexivity].
    + right. exists d. split; [left | auto].
Qed.

Lemma link_outer_spec (vs : list TaskNode) nodes :
  (exists nodes',
      for_each
        (fun node =>
           for_each (TaskGraph.add_dependent (node_id node)) (dependencies node))
        vs nodes = Ok nodes'
      /\ shape nodes' = shape nodes
      /\ forall v d, v ∈ vs -> d ∈ dependencies v -> d ∈ JsMap.keys nodes)
  \/ (exists v d,
        v ∈ vs /\ d ∈ dependencies v /\ (d ∉ JsMap.keys nodes)
        /\ for_each
             (fun node =>
                for_each (TaskGraph.add_dependent (node_id node))
                         (dependencies node))
             vs nodes = Throw (MissingDependency (node_id v) d)).
Proof.
  revert nodes. induction vs as [|v vs IH]; intros nodes; simpl.
  - left. exists nodes. repeat split. intros v d Hv. inversion Hv.
  - destruct (link_inner_spec (node_id v) (dependencies v) nodes)
      as [(nodes1 & -> & Hshape & Hd)|(d & Hin & Hno & ->)].
    + assert (Hkeys : JsMap.keys nodes1 = JsMap.keys nodes)
        by (rewrite <- !shape_keys, Hshape; reflexivity).
      destruct (IH nodes1)
        as [(nodes' & -> & Hshape' & Hall)|(v' & d' & Hv' & Hin & Hno & ->)].
      * left. exists nodes'. split; [reflexivity|]. split; [congruence|].
        intros x d Hx Hdx. apply elem_of_cons in Hx as [->|Hx]; [auto|].
        rewrite <- Hkeys. eauto.
      * right. exists v', d'. split; [right; exact Hv'|].
        split; [exact Hin|]. split; [rewrite <- Hkeys; exact Hno | reflexivity].
    + right. exists v, d. split; [left | auto].
Qed.

(** [link_dependents] either keeps keys and dependency sets and finds every
    dependency among the keys, or throws for a dependency that is no key. *)
Lemma link_dependents_spec nodes :
  (exists nodes',
      TaskGraph.link_dependents nodes = Ok nodes'
      /\ shape nodes' = shape nodes
      /\ closed_graph nodes)
  \/ (exists v d,
        v ∈ JsMap.values nodes /\ d ∈ dependencies v /\ (d ∉ JsMap.keys nodes)
        /\ TaskGraph.link_dependents nodes
           = Throw (MissingDependency (node_id v) d)).
Proof.
  unfold TaskGraph.link_dependents.
  destruct (link_outer_spec (JsMap.values nodes) nodes)
    as [(nodes' & H & Hshape & Hall)|H]; [left | right; exact H].
  exists nodes'. split; [exact H|]. split; [exact Hshape|].
  intros a b (ds & Hds & Hb). unfold deps_of in Hds.
  destruct (JsMap.get a nodes) as [v|] eqn:Hget; [|discriminate].
  injection Hds as <-.
  eapply Hall; [|exact Hb]. eapply JsMap_get_in_values. exact Hget.
Qed.

(** *** Cycle detection *)

Section cycle_detection.

Variable nodes : TaskGraph.t.
Hypothesis nodes_closed : closed_graph nodes.

Local Abbreviation keys := (JsMap.keys nodes).

Lemma walk_snoc l a b :
  walk nodes (l ++ [a]) -> edge nodes a b -> walk nodes (l ++ [a; b]).
Proof.
  intros Hw He. induction l as [|x l IH]; simpl in *.
  - constructor; [exact He | constructor].
  - destruct l as [|y l]; simpl in *.
    + inversion Hw; subst. constructor; [assumption|].
      constructor; [exact He | constructor].
    + inversion Hw; subst. constructor; [assumption|]. apply IH. assumption.
Qed.

Lemma walk_suffix l1 l2 : walk nodes (l1 ++ l2) -> walk nodes l2.
Proof.
  induction l1 as [|x l1 IH]; simpl; [auto|].
  intros Hw. apply IH.
  inversion Hw as [|y Heq|y z l He Hw' Heq].
  - constructor.
  - exact Hw'.
Qed.

Lemma walk_tc a l b : walk nodes (a :: l ++ [b]) -> tc (edge nodes) a b.
Proof.
  revert a. induction l as [|x l IH]; intros a Hw; simpl in *.
  - inversion Hw; subst. apply tc_once. assumption.
  - inversion Hw; subst. eapply tc_l; [eassumption|]. apply IH. assumption.
Qed.

(** A node found on the recursion stack closes a cycle. *)
Lemma cycle_from_walk path n :
  walk nodes (path ++ [n]) -> n ∈ path -> tc (edge nodes) n n.
Proof.
  intros Hw Hin. apply list_elem_of_split in Hin as (l1 & l2 & ->).
  rewrite <- app_assoc in Hw. apply walk_suffix in Hw. simpl in Hw.
  apply walk_tc in Hw. exact Hw.
Qed.

Lemma settled_reach V v w :
  settled nodes V -> v ∈ V -> tc (edge nodes) v w -> w ∈ V.
Proof.
  intros [Hcl _] Hv Htc. induction Htc as [x y He|x y z He _ IH].
  - eapply Hcl; eassumption.
  - apply IH. eapply Hcl; eassumption.
Qed.

Lemma settled_add V n :
  settled nodes V ->
  (forall d, edge nodes n d -> d ∈ V) ->
  settled nodes (JsSet.add n V).
Proof.
  intros HV Hdeps. pose proof HV as [Hcl Hac]. split.
  - intros v d Hv He. apply JsSet_add_elem. right.
    apply JsSet_add_elem in Hv as [->|Hv]; [auto | eapply Hcl; eassumption].
  - intros v Hv Htc. apply JsSet_add_elem in Hv as [->|Hv];
      [|exact (Hac v Hv Htc)].
    assert (n ∈ V) as HnV.
    { inversion Htc as [x y He|x y z He Hrest]; subst.
      - apply Hdeps. exact He.
      - eapply settled_reach; [exact HV | apply Hdeps; exact He | exact Hrest]. }
    exact (Hac n HnV Htc).
Qed.

Lemma settled_empty : settled nodes [].
Proof.
  split.
  - intros v d Hv. inversion Hv.
  - intros v Hv. inversion Hv.
Qed.

Lemma stack_length path :
  NoDup path -> (forall x, x ∈ path -> x ∈ keys) -> length path <= length keys.
Proof.
  intros Hnd Hsub. apply submseteq_length. apply NoDup_submseteq; assumption.
Qed.

Lemma edge_deps n node d :
  JsMap.get n nodes = Some node -> edge nodes n d <-> d ∈ dependencies node.
Proof.
  intros Hget. unfold edge, deps_of. rewrite Hget. simpl. split.
  - intros (ds & [= <-] & Hd). exact Hd.
  - intros Hd. eauto.
Qed.

(** A loop of calls that each satisfy [dfs_post] for their own target
    satisfies it for all targets. *)
Lemma for_each_dfs_post (body : string -> TaskGraph.dfs_state ->
                                outcome GraphError TaskGraph.dfs_state)
    (stack : JsSet.t) (good : string -> Prop) :
  (forall d st,
      good d -> TaskGraph.visiting st = stack ->
      settled nodes (TaskGraph.visited st) ->
      dfs_post nodes [d] st (body d st)) ->
  forall ds st,
    (forall d, d ∈ ds -> good d) ->
    TaskGraph.visiting st = stack ->
    settled nodes (TaskGraph.visited st) ->
    dfs_post nodes ds st (for_each body ds st).
Proof.
  intros Hbody. induction ds as [|d ds IH]; intros st Hgood Hst Hset; simpl.
  - split; [reflexivity|]. split; [exact Hset|]. split; [auto|].
    intros d Hd. inversion Hd.
  - pose proof (Hbody d st (Hgood d ltac:(left)) Hst Hset) as Hd.
    destruct (body d st) as [st1|e|]; simpl in Hd; [|exact Hd|exact Hd].
    destruct Hd as (Hv1 & Hs1 & Hmono1 & Hd1).
    pose proof (IH st1 (fun x Hx => Hgood x ltac:(right; exact Hx))
                  ltac:(congruence) Hs1) as Hrest.
    destruct (for_each body ds st1) as [st2|e|]; simpl in *;
      [|exact Hrest|exact Hrest].
    destruct Hrest as (Hv2 & Hs2 & Hmono2 & Hd2).
    split; [congruence|]. split; [exact Hs2|]. split; [auto|].
    intros x Hx. apply elem_of_cons in Hx as [->|Hx]; [|auto].
    apply Hmono2, Hd1. left.
Qed.

Lemma dfs_correct fuel :
  forall n path st,
    n ∈ keys ->
    TaskGraph.visiting st = path ->
    walk nodes (path ++ [n]) ->
    NoDup path ->
    (forall x, x ∈ path -> x ∈ keys) ->
    length keys < fuel + length path ->
    settled nodes (TaskGraph.visited st) ->
    dfs_post nodes [n] st (TaskGraph.dfs fuel nodes n path st).
Proof.
  induction fuel as [|fuel IH]; intros n path st Hn Hstack Hwalk Hnd Hsub Hfuel Hset.
  { pose proof (stack_length path Hnd Hsub). lia. }
  simpl. destruct (JsSet.has n (TaskGraph.visiting st)) eqn:Hon.
  { simpl. split; [eauto|]. exists n. apply cycle_from_walk with path;
      [exact Hwalk|]. apply JsSet_has_true in Hon. rewrite <- Hstack.
    exact Hon. }
  apply JsSet_has_false in Hon. rewrite Hstack in Hon.
  destruct (JsSet.has n (TaskGraph.visited st)) eqn:Hseen.
  { simpl. split; [reflexivity|]. split; [exact Hset|]. split; [auto|].
    intros d Hd.
    apply list_elem_of_singleton in Hd as ->. apply JsSet_has_true. exact Hseen. }
  destruct (JsMap.get n nodes) as [node|] eqn:Hget.
  2:{ apply JsMap_get_None in Hget. contradiction. }
  rewrite Hstack, (JsSet_add_fresh n path Hon).
  pose proof (for_each_dfs_post
                (fun depId => TaskGraph.dfs fuel nodes depId (path ++ [n]))
                (path ++ [n]) (fun d => edge nodes n d)) as Hloop.
  specialize (Hloop ltac:(
    intros d st' He Hst' Hset'; apply IH;
    [ eapply nodes_closed; exact He
    | exact Hst'
    | rewrite <- app_assoc; apply walk_snoc; assumption
    | apply NoDup_app; repeat split;
        [ exact Hnd
        | intros x Hx Hx'; apply list_elem_of_singleton in Hx'; subst x;
          contradiction
        | apply NoDup_singleton ]
    | intros x Hx; apply elem_of_app in Hx as [Hx|Hx];
        [ auto | apply list_elem_of_singleton in Hx; subst x; exact Hn ]
    | rewrite length_app; simpl; lia
    | exact Hset' ])).
  specialize (Hloop (dependencies node)
                {| TaskGraph.visited := TaskGraph.visited st;
                   TaskGraph.visiting := path ++ [n] |}
                ltac:(intros d Hd; eapply edge_deps; eassumption)
                eq_refl Hset).
  destruct (for_each _ (dependencies node) _) as [st2|e|]; simpl in *;
    [|exact Hloop|exact Hloop].
  destruct Hloop as (Hv2 & Hs2 & Hmono2 & Hd2).
  split.
  { rewrite Hv2, Hstack. apply JsSet_delete_added. exact Hon. }
  split.
  { apply settled_add; [exact Hs2|]. intros d He. apply Hd2.
    eapply edge_deps; eassumption. }
  split.
  { intros v Hv. apply JsSet_add_elem. right. auto. }
  intros d Hd. apply list_elem_of_singleton in Hd as ->.
  apply JsSet_add_elem. left. reflexivity.
Qed.

Lemma validateNoCycles_post :
  dfs_post nodes keys
    {| TaskGraph.visited := []; TaskGraph.visiting := [] |}
    (TaskGraph.validateNoCycles nodes).
Proof.
  unfold TaskGraph.validateNoCycles.
  apply (for_each_dfs_post _ [] (fun k => k ∈ keys)); auto using settled_empty.
  intros k st Hk Hst Hset.
  destruct (JsSet.has k (TaskGraph.visited st)) eqn:Hseen.
  - simpl. split; [reflexivity|]. split; [exact Hset|]. split; [auto|].
    intros d Hd.
    apply list_elem_of_singleton in Hd as ->. apply JsSet_has_true. exact Hseen.
  - apply dfs_correct; auto.
    + constructor.
    + constructor.
    + intros x Hx. inversion Hx.
    + unfold TaskGraph.dfs_fuel, JsMap.keys. rewrite length_map. simpl. lia.
Qed.

(** On a graph without dangling dependencies, [validateNoCycles] throws
    exactly when there is a cycle, what it throws is the circular-dependency
    error, and otherwise it returns. *)
Lemma validateNoCycles_spec :
  match TaskGraph.validateNoCycles nodes with
  | Ok _ => ~ exists a, tc (edge nodes) a a
  | Throw e =>
      (exists cycle, e = CircularDependency cycle)
      /\ exists a, tc (edge nodes) a a
  | OutOfFuel => False
  end.
Proof.
  pose proof validateNoCycles_post as H.
  destruct (TaskGraph.validateNoCycles nodes) as [st|e|]; simpl in H;
    [|exact H|exact H].
  destruct H as (_ & [_ Hac] & _ & Hall).
  intros (a & Htc). apply (Hac a); [|exact Htc].
  apply Hall.
  assert (exists b, edge nodes a b) as (b & ds & Hds & _).
  { inversion Htc; subst; eauto. }
  unfold deps_of in Hds.
  destruct (JsMap.get a nodes) eqn:Hget; [|discriminate].
  eapply JsMap_get_Some_key. exact Hget.
Qed.

End cycle_detection.

(** *** The constructor *)

Lemma tc_mono {A : Type} (R S : relation A) :
  (forall x y, R x y -> S x y) -> forall x y, tc R x y -> tc S x y.
Proof.
  intros HRS x y H. induction H as [x y H|x y z H _ IH].
  - apply tc_once. auto.
  - eapply tc_l; [apply HRS; exact H | exact IH].
Qed.

Lemma created_edge tasks a b :
  NoDup (map task_id tasks) ->
  edge (map (fun task => (task_id task, TaskGraph.mk_node task)) tasks) a b
  <-> depends_on tasks a b.
Proof.
  intros Hnd. unfold edge, deps_of, depends_on. split.
  - intros (ds & Hds & Hb).
    destruct (JsMap.get a _) as [node|] eqn:Hget; [|discriminate].
    injection Hds as <-.
    apply created_get_inv in Hget as (task & Hin & Hid & ->).
    exists task. repeat split; try assumption.
    apply JsSet_of_list_elem. exact Hb.
  - intros (task & Hin & <- & Hb).
    rewrite (created_get tasks task Hnd Hin). simpl.
    eexists. split; [reflexivity|]. apply JsSet_of_list_elem. exact Hb.
Qed.

Lemma created_values tasks :
  JsMap.values (map (fun task => (task_id task, TaskGraph.mk_node task)) tasks)
  = map TaskGraph.mk_node tasks.
Proof. unfold JsMap.values. rewrite map_map. reflexivity. Qed.

(** Whatever the task list, the constructor returns a graph or throws one
    of its two errors: the fuel of the traversal suffices and no missing node
    is dereferenced. *)
Lemma TaskGraph_new_total tasks :
  (exists g, TaskGraph.new tasks = Ok g)
  \/ (exists e, TaskGraph.new tasks = Throw e /\ InvalidGraphError e).
Proof.
  unfold TaskGraph.new, TaskGraph.buildGraph.
  destruct (link_dependents_spec (TaskGraph.create_nodes tasks))
    as [(nodes' & -> & Hshape & Hclosed0)|(v & d & _ & _ & _ & ->)].
  - assert (Hclosed : closed_graph nodes').
    { intros a b He.
      assert (Hkeys : JsMap.keys nodes'
                      = JsMap.keys (TaskGraph.create_nodes tasks))
        by (rewrite <- !shape_keys, Hshape; reflexivity).
      rewrite Hkeys. apply (Hclosed0 a b).
      apply (shape_edge _ nodes' a b Hshape). exact He. }
    pose proof (validateNoCycles_spec nodes' Hclosed) as Hval.
    destruct (TaskGraph.validateNoCycles nodes') as [st|e|]; [| |contradiction].
    + left. eauto.
    + right. destruct Hval as ((cycle & ->) & _). eexists. split; [reflexivity|].
      exact I.
  - right. eexists. split; [reflexivity | exact I].
Qed.

(** For distinct ids the constructor either returns, and the list is free of
    dangling dependencies and cycles, or throws one of its two errors, and
    the list has a dangling dependency or a cycle. *)
Lemma TaskGraph_new_cases tasks :
  NoDup (map task_id tasks) ->
  (exists g, TaskGraph.new tasks = Ok g /\ ~ dangling tasks /\ ~ cyclic tasks)
  \/ (exists e,
        TaskGraph.new tasks = Throw e /\ InvalidGraphError e
        /\ (dangling tasks \/ cyclic tasks)).
Proof.
  intros Hnd. unfold TaskGraph.new, TaskGraph.buildGraph.
  rewrite (create_nodes_distinct tasks Hnd).
  set (nodes0 := map (fun task => (task_id task, TaskGraph.mk_node task)) tasks).
  destruct (link_dependents_spec nodes0)
    as [(nodes' & -> & Hshape & Hclosed0)|(v & d & Hv & Hd & Hno & ->)].
  - assert (Hkeys : JsMap.keys nodes' = JsMap.keys nodes0)
      by (rewrite <- !shape_keys, Hshape; reflexivity).
    assert (Hclosed : closed_graph nodes').
    { intros a b He. rewrite Hkeys. apply (Hclosed0 a b).
      apply (shape_edge nodes0 nodes' a b Hshape). exact He. }
    assert (Hedge : forall a b, edge nodes' a b <-> depends_on tasks a b).
    { intros a b. rewrite (shape_edge nodes0 nodes' a b Hshape).
      apply created_edge. exact Hnd. }
    assert (Hdang : ~ dangling tasks).
    { intros (task & dep & Hin & Hdep & Habs). apply Habs.
      rewrite <- created_keys. apply (Hclosed0 (task_id task) dep).
      apply created_edge; [exact Hnd|]. exists task. auto. }
    pose proof (validateNoCycles_spec nodes' Hclosed) as Hval.
    destruct (TaskGraph.validateNoCycles nodes') as [st|e|]; [| |contradiction].
    + left. exists nodes'. split; [reflexivity|]. split; [exact Hdang|].
      intros (a & Htc). apply Hval. exists a.
      eapply tc_mono; [|exact Htc]. intros x y. apply Hedge.
    + right. destruct Hval as ((cycle & ->) & a & Htc).
      exists (CircularDependency cycle). split; [reflexivity|].
      split; [exact I|]. right. exists a.
      eapply tc_mono; [|exact Htc]. intros x y. apply Hedge.
  - right. exists (MissingDependency (node_id v) d).
    split; [reflexivity|]. split; [exact I|]. left.
    unfold nodes0 in Hv, Hno. rewrite created_values in Hv.
    rewrite created_keys in Hno.
    apply list_elem_of_fmap in Hv as (task & -> & Hin).
    exists task, d. split; [exact Hin|]. split; [|exact Hno].
    apply JsSet_of_list_elem. exact Hd.
Qed.

(** C5 (counterexample).  The list names the absent [B] as a dependency, so
    it has a dangling dependency, yet the construction succeeds: the second
    entry for [A] replaces the first before dependencies are checked. *)
Lemma duplicate_id_hides_dangling_dependency :
  dangling duplicate_id_tasks
  /\ exists g, TaskGraph.new duplicate_id_tasks = Ok g.
Proof.
  split.
  - exists (mkTask "A" ["B"] "/a"), "B". split; [left|].
    split; [left|]. simpl. intros H.
    apply elem_of_cons in H as [H|H]; [discriminate|].
    apply elem_of_cons in H as [H|H]; [discriminate | inversion H].
  - eexists. vm_compute. reflexivity.
Qed.

(** C5 (amended).  For a task list with pairwise distinct ids, the
    construction throws one of its two errors exactly when some task lists a
    dependency that is absent from the list or the dependency relation has a
    cycle, and it succeeds exactly when the list has neither; in particular a
    task that lists itself is rejected. *)
Theorem TaskGraph_new_rejects_exactly_invalid (tasks : list TaskWithDependencies) :
  NoDup (map task_id tasks) ->
  ((exists e, TaskGraph.new tasks = Throw e /\ InvalidGraphError e)
   <-> dangling tasks \/ cyclic tasks)
  /\ ((exists g, TaskGraph.new tasks = Ok g)
      <-> ~ dangling tasks /\ ~ cyclic tasks)
  /\ (forall task,
        task ∈ tasks -> task_id task ∈ task_dependencies task ->
        exists e, TaskGraph.new tasks = Throw e /\ InvalidGraphError e).
Proof.
  intros Hnd.
  assert (H1 : (exists e, TaskGraph.new tasks = Throw e /\ InvalidGraphError e)
               <-> dangling tasks \/ cyclic tasks).
  { destruct (TaskGraph_new_cases tasks Hnd)
      as [(g & Hg & Hd & Hc)|(e & He & Hinv & Hbad)]; split.
    - intros (e & He & _). congruence.
    - tauto.
    - intros _. exact Hbad.
    - intros _. eauto. }
  split; [exact H1|]. split.
  - destruct (TaskGraph_new_cases tasks Hnd)
      as [(g & Hg & Hd & Hc)|(e & He & Hinv & Hbad)]; split.
    + auto.
    + eauto.
    + intros (g & Hg). congruence.
    + tauto.
  - intros task Hin Hself. apply H1. right. exists (task_id task).
    apply tc_once. exists task. auto.
Qed.

(** The self-dependency [[{id: A, deps: [A]}]]. *)
Lemma TaskGraph_new_rejects_exactly_invalid_witness :
  NoDup (map task_id [mkTask "A" ["A"] "/a"])
  /\ exists e,
      TaskGraph.new [mkTask "A" ["A"] "/a"] = Throw e /\ InvalidGraphError e.
Proof.
  assert (Hnd : NoDup (map task_id [mkTask "A" ["A"] "/a"])).
  { apply (bool_decide_unpack _). vm_compute. exact I. }
  split; [exact Hnd|].
  apply (proj2 (proj2 (TaskGraph_new_rejects_exactly_invalid
                         [mkTask "A" ["A"] "/a"] Hnd))
           (mkTask "A" ["A"] "/a")).
  - left.
  - simpl. left.
Defined.

Lemma self_dependency_error ws :
  TaskGraph.new [mkTask "A" ["A"] ws] = Throw (CircularDependency ["A"; "A"]).
Proof. reflexivity. Qed.

Lemma dangling_dependency_error ws :
  TaskGraph.new [mkTask "A" ["B"] ws] = Throw (MissingDependency "A" "B").
Proof. reflexivity. Qed.

(** * Further properties *)

(** ** TaskGraph: queries and updates *)

Lemma JsMap_set_set {V : Type} (k : string) (v v' : V) (m : JsMap.t V) :
  JsMap.set k v (JsMap.set k v' m) = JsMap.set k v m.
Proof.
  induction m as [|[k0 v0] m IH]; simpl.
  - rewrite String.eqb_refl. reflexivity.
  - destruct (String.eqb k k0) eqn:E; simpl; rewrite E; [reflexivity|].
    f_equal. exact IH.
Qed.

Lemma JsMap_keys_set {V : Type} (k : string) (v : V) (m : JsMap.t V) :
  JsMap.keys (JsMap.set k v m)
  = if JsMap.has k m then JsMap.keys m else JsMap.keys m ++ [k].
Proof.
  unfold JsMap.has, JsMap.keys. induction m as [|[k0 v0] m IH]; simpl;
    [reflexivity|].
  destruct (String.eqb k k0) eqn:E; simpl; [reflexivity|].
  rewrite IH. destruct (JsMap.get k m); reflexivity.
Qed.

Lemma JsMap_get_in {V : Type} (k : string) (v : V) (m : JsMap.t V) :
  JsMap.get k m = Some v -> (k, v) ∈ m.
Proof.
  induction m as [|[k0 v0] m IH]; simpl; [discriminate|].
  destruct (String.eqb_spec k k0) as [->|_].
  - intros [= ->]. left.
  - intros H. right. auto.
Qed.

Lemma JsMap_in_get {V : Type} (k : string) (v : V) (m : JsMap.t V) :
  NoDup (JsMap.keys m) -> (k, v) ∈ m -> JsMap.get k m = Some v.
Proof.
  unfold JsMap.keys. induction m as [|[k0 v0] m IH]; intros Hnd Hin;
    [inversion Hin|].
  simpl in *. apply NoDup_cons in Hnd as [Hfresh Hnd].
  apply elem_of_cons in Hin as [[= -> ->]|Hin].
  - rewrite String.eqb_refl. reflexivity.
  - destruct (String.eqb_spec k k0) as [->|_]; [|auto].
    exfalso. apply Hfresh. apply list_elem_of_fmap. exists (k0, v). auto.
Qed.

Lemma with_completed_twice n :
  with_completed (with_completed n true) true = with_completed n true.
Proof. reflexivity. Qed.

(** [markCompleted] is idempotent, ignores an id that is no node, keeps the
    keys and their order, and raises the completed flag of exactly the named
    node. *)
Theorem markCompleted_sets_one_flag (taskId : string) (g : TaskGraph.t) :
  TaskGraph.markCompleted taskId (TaskGraph.markCompleted taskId g)
  = TaskGraph.markCompleted taskId g
  /\ (JsMap.get taskId g = None -> TaskGraph.markCompleted taskId g = g)
  /\ JsMap.keys (TaskGraph.markCompleted taskId g) = JsMap.keys g
  /\ forall x,
      TaskGraph.node_completed (TaskGraph.markCompleted taskId g) x
      = TaskGraph.node_completed g x
        || (String.eqb x taskId && JsMap.has taskId g).
Proof.
  unfold TaskGraph.markCompleted, TaskGraph.node_completed, JsMap.has.
  destruct (JsMap.get taskId g) as [node|] eqn:Hget.
  - split.
    { rewrite JsMap_get_set_eq, JsMap_set_set. reflexivity. }
    split; [discriminate|]. split.
    { rewrite JsMap_keys_set. unfold JsMap.has. rewrite Hget. reflexivity. }
    intros x. destruct (String.eqb_spec x taskId) as [->|Hne].
    + rewrite JsMap_get_set_eq, Hget. simpl. rewrite orb_true_r. reflexivity.
    + rewrite JsMap_get_set_ne by congruence. rewrite orb_false_r. reflexivity.
  - rewrite Hget. split; [reflexivity|]. split; [reflexivity|].
    split; [reflexivity|]. intros x. rewrite andb_false_r, orb_false_r.
    reflexivity.
Qed.

Lemma forallb_filter_length {A : Type} (f : A -> bool) (l : list A) :
  forallb f l = true <-> length (List.filter f l) = length l.
Proof.
  assert (Hle : forall l', length (List.filter f l') <= length l').
  { induction l' as [|x l' IH]; simpl; [lia|]. destruct (f x); simpl; lia. }
  induction l as [|x l IH]; simpl; [tauto|].
  destruct (f x); simpl.
  - rewrite IH. lia.
  - split; [discriminate|]. pose proof (Hle l). lia.
Qed.

(** [allTasksComplete] holds exactly when the completed count equals the
    task count. *)
Theorem allTasksComplete_iff_counts (g : TaskGraph.t) :
  TaskGraph.allTasksComplete g = true
  <-> TaskGraph.getCompletedCount g = TaskGraph.getTaskCount g.
Proof.
  unfold TaskGraph.allTasksComplete, TaskGraph.getCompletedCount,
    TaskGraph.getTaskCount.
  rewrite forallb_filter_length. unfold JsMap.values. rewrite length_map.
  reflexivity.
Qed.

(** *** What the second pass of [buildGraph] writes *)

Lemma cores_set k v v' nodes :
  JsMap.get k nodes = Some v ->
  node_core v' = node_core v ->
  cores (JsMap.set k v' nodes) = cores nodes.
Proof.
  unfold cores. intros Hget Hcore.
  induction nodes as [|[k0 v0] nodes IH]; simpl in *; [discriminate|].
  destruct (String.eqb_spec k k0) as [->|Hne]; simpl.
  - injection Hget as ->. rewrite Hcore. reflexivity.
  - f_equal. apply IH. exact Hget.
Qed.

Lemma add_dependent_Ok nodeId depId nodes nodes' :
  TaskGraph.add_dependent nodeId depId nodes = Ok nodes' ->
  cores nodes' = cores nodes
  /\ forall x,
      dependents_of nodes' x
      = if String.eqb x depId then JsSet.add nodeId (dependents_of nodes x)
        else dependents_of nodes x.
Proof.
  unfold TaskGraph.add_dependent.
  destruct (JsMap.get depId nodes) as [depNode|] eqn:Hget; [|discriminate].
  intros [= <-]. split.
  - eapply cores_set; [exact Hget | reflexivity].
  - intros x. unfold dependents_of.
    destruct (String.eqb_spec x depId) as [->|Hne].
    + rewrite JsMap_get_set_eq, Hget. reflexivity.
    + rewrite JsMap_get_set_ne by congruence. reflexivity.
Qed.

Lemma link_inner_Ok nodeId deps nodes nodes' :
  for_each (TaskGraph.add_dependent nodeId) deps nodes = Ok nodes' ->
  cores nodes' = cores nodes
  /\ forall x y,
      y ∈ dependents_of nodes' x
      <-> y ∈ dependents_of nodes x \/ (y = nodeId /\ x ∈ deps).
Proof.
  revert nodes. induction deps as [|d deps IH]; intros nodes; simpl.
  - intros [= <-]. split; [reflexivity|]. intros x y.
    rewrite elem_of_nil. tauto.
  - destruct (TaskGraph.add_dependent nodeId d nodes) as [nodes1|e|] eqn:Hd;
      try discriminate.
    intros Hrest. apply add_dependent_Ok in Hd as [Hc1 Hd1].
    apply IH in Hrest as [Hc2 Hd2]. split; [congruence|].
    intros x y. rewrite Hd2, Hd1, elem_of_cons.
    destruct (String.eqb_spec x d) as [->|Hne].
    + rewrite JsSet_add_elem. tauto.
    + tauto.
Qed.

Lemma link_outer_Ok (vs : list TaskNode) nodes nodes' :
  for_each
    (fun node =>
       for_each (TaskGraph.add_dependent (node_id node)) (dependencies node))
    vs nodes = Ok nodes' ->
  cores nodes' = cores nodes
  /\ forall x y,
      y ∈ dependents_of nodes' x
      <-> y ∈ dependents_of nodes x
          \/ exists v, v ∈ vs /\ node_id v = y /\ x ∈ dependencies v.
Proof.
  revert nodes. induction vs as [|v vs IH]; intros nodes; simpl.
  - intros [= <-]. split; [reflexivity|]. intros x y. split; [auto|].
    intros [H|(v & Hv & _)]; [exact H | inversion Hv].
  - destruct (for_each (TaskGraph.add_dependent (node_id v)) (dependencies v)
                nodes) as [nodes1|e|] eqn:Hv; try discriminate.
    intros Hrest. apply link_inner_Ok in Hv as [Hc1 Hd1].
    apply IH in Hrest as [Hc2 Hd2]. split; [congruence|].
    intros x y. rewrite Hd2, Hd1. split.
    + intros [[H|[-> Hx]]|(w & Hw & Hid & Hx)].
      * left. exact H.
      * right. exists v. split; [left | auto].
      * right. exists w. split; [right; exact Hw | auto].
    + intros [H|(w & Hw & Hid & Hx)]; [auto|].
      apply elem_of_cons in Hw as [->|Hw]; [left; right; auto|].
      right. exists w. auto.
Qed.

(** *** What the first pass creates *)

Lemma set_Forall {V : Type} (P : string * V -> Prop) k v (m : JsMap.t V) :
  Forall P m -> P (k, v) -> Forall P (JsMap.set k v m).
Proof.
  intros Hm Hkv. induction m as [|[k0 v0] m IH]; simpl.
  - constructor; [exact Hkv | constructor].
  - apply Forall_cons in Hm as [H0 Hm].
    destruct (String.eqb_spec k k0) as [->|_].
    + constructor; assumption.
    + constructor; [exact H0 | auto].
Qed.

Lemma set_NoDup_keys {V : Type} k (v : V) (m : JsMap.t V) :
  NoDup (JsMap.keys m) -> NoDup (JsMap.keys (JsMap.set k v m)).
Proof.
  intros Hnd. rewrite JsMap_keys_set. unfold JsMap.has.
  destruct (JsMap.get k m) eqn:Hget; [exact Hnd|].
  apply NoDup_app. split; [exact Hnd|]. split; [|apply NoDup_singleton].
  intros x Hx Hx'. apply list_elem_of_singleton in Hx'. subst x.
  apply JsMap_get_None in Hget. contradiction.
Qed.

Lemma create_nodes_invariant (P : TaskGraph.t -> Prop) tasks :
  P [] ->
  (forall nodes task,
      P nodes -> P (JsMap.set (task_id task) (TaskGraph.mk_node task) nodes)) ->
  P (TaskGraph.create_nodes tasks).
Proof.
  intros Hnil Hstep. unfold TaskGraph.create_nodes.
  assert (H : forall acc, P acc ->
             P (fold_left
                  (fun nodes task =>
                     JsMap.set (task_id task) (TaskGraph.mk_node task) nodes)
                  tasks acc)).
  { induction tasks as [|task tasks IH]; intros acc Hacc; simpl; auto. }
  apply H. exact Hnil.
Qed.

Lemma create_nodes_well_keyed tasks : well_keyed (TaskGraph.create_nodes tasks).
Proof.
  apply create_nodes_invariant.
  - split; constructor.
  - intros nodes task [Hnd Hid]. split.
    + apply set_NoDup_keys. exact Hnd.
    + apply set_Forall; [exact Hid | reflexivity].
Qed.

Lemma create_nodes_no_dependents tasks x :
  dependents_of (TaskGraph.create_nodes tasks) x = [].
Proof.
  assert (H : Forall (fun kv => dependents (snd kv) = [])
                     (TaskGraph.create_nodes tasks)).
  { apply create_nodes_invariant; [constructor|].
    intros nodes task Hn. apply set_Forall; [exact Hn | reflexivity]. }
  unfold dependents_of.
  destruct (JsMap.get x _) as [node|] eqn:Hget; [|reflexivity].
  apply JsMap_get_in in Hget. rewrite Forall_forall in H.
  exact (H _ Hget).
Qed.

Lemma well_keyed_value nodes y (P : TaskNode -> Prop) :
  well_keyed nodes ->
  (exists v, v ∈ JsMap.values nodes /\ node_id v = y /\ P v)
  <-> exists v, JsMap.get y nodes = Some v /\ P v.
Proof.
  intros [Hnd Hid]. split.
  - intros (v & Hv & <- & HP).
    unfold JsMap.values in Hv.
    apply list_elem_of_fmap in Hv as ([k v'] & Hv & Hin). simpl in Hv. subst v'.
    rewrite Forall_forall in Hid. specialize (Hid _ Hin). simpl in Hid.
    exists v. split; [|exact HP].
    apply JsMap_in_get; [exact Hnd|]. rewrite Hid. exact Hin.
  - intros (v & Hget & HP). exists v. split.
    + eapply JsMap_get_in_values. exact Hget.
    + split; [|exact HP]. apply JsMap_get_in in Hget.
      rewrite Forall_forall in Hid. exact (Hid _ Hget).
Qed.

Lemma new_mirror tasks g :
  TaskGraph.new tasks = Ok g ->
  forall x y, y ∈ dependents_of g x <-> edge g y x.
Proof.
  unfold TaskGraph.new, TaskGraph.buildGraph.
  destruct (TaskGraph.link_dependents (TaskGraph.create_nodes tasks))
    as [nodes'|e|] eqn:Hlink; try discriminate.
  destruct (TaskGraph.validateNoCycles nodes'); try discriminate.
  intros [= <-] x y.
  destruct (link_dependents_spec (TaskGraph.create_nodes tasks))
    as [(nodes2 & H2 & Hshape & _)|(v & d & _ & _ & _ & Hthrow)];
    [|congruence].
  assert (nodes2 = nodes') as -> by congruence.
  unfold TaskGraph.link_dependents in Hlink.
  apply link_outer_Ok in Hlink as [_ Hdeps].
  rewrite Hdeps, create_nodes_no_dependents, elem_of_nil.
  rewrite (shape_edge _ nodes' y x Hshape).
  rewrite (well_keyed_value _ y (fun v => x ∈ dependencies v)
             (create_nodes_well_keyed tasks)).
  unfold edge, deps_of. split.
  - intros [[]|(v & Hget & Hx)]. rewrite Hget. simpl. eauto.
  - intros (ds & Hds & Hx). right.
    destruct (JsMap.get y _) as [v|]; [|discriminate].
    injection Hds as <-. eauto.
Qed.

(** In every graph the constructor returns, [y] is among the dependents of
    [x] exactly when [x] is among the dependencies of [y]. *)
Theorem dependents_mirror_dependencies (tasks : list TaskWithDependencies)
    (g : TaskGraph.t) :
  TaskGraph.new tasks = Ok g ->
  forall x y, y ∈ dependents_of g x <-> edge g y x.
Proof.
  exact (new_mirror tasks g).
Qed.

(** The diamond: [D] is a dependent of [B], and [B] a dependency of [D]. *)
Lemma dependents_mirror_dependencies_witness :
  exists g,
    TaskGraph.new diamond_tasks = Ok g
    /\ ("D" ∈ dependents_of g "B" <-> edge g "D" "B").
Proof.
  eexists. split; [vm_compute; reflexivity|].
  apply (dependents_mirror_dependencies diamond_tasks).
  vm_compute. reflexivity.
Defined.

(** *** Ready tasks *)

Lemma cores_get nodes k :
  JsMap.get k (cores nodes) = node_core <$> JsMap.get k nodes.
Proof.
  unfold cores. induction nodes as [|[k0 v0] nodes IH]; simpl; [reflexivity|].
  destruct (String.eqb k k0); [reflexivity | exact IH].
Qed.

Lemma cores_incomplete nodes d :
  TaskGraph.incomplete (cores nodes) d = TaskGraph.incomplete nodes d.
Proof.
  unfold TaskGraph.incomplete, TaskGraph.node_completed. rewrite cores_get.
  destruct (JsMap.get d nodes); reflexivity.
Qed.

Lemma getIndependentTasks_cores nodes :
  TaskGraph.getIndependentTasks (cores nodes) = TaskGraph.getIndependentTasks nodes.
Proof.
  unfold TaskGraph.getIndependentTasks.
  assert (Hex : forall ds,
             existsb (TaskGraph.incomplete (cores nodes)) ds
             = existsb (TaskGraph.incomplete nodes) ds).
  { induction ds as [|d ds IH]; simpl; [reflexivity|].
    rewrite cores_incomplete, IH. reflexivity. }
  assert (Hvals : JsMap.values (cores nodes) = map node_core (JsMap.values nodes)).
  { unfold JsMap.values, cores. rewrite !map_map. reflexivity. }
  rewrite Hvals. generalize (JsMap.values nodes) as vs.
  induction vs as [|v vs IH]; simpl; [reflexivity|].
  rewrite Hex. destruct (negb (completed v) && _); simpl; rewrite IH; reflexivity.
Qed.

Lemma link_dependents_cores nodes nodes' :
  TaskGraph.link_dependents nodes = Ok nodes' -> cores nodes' = cores nodes.
Proof.
  unfold TaskGraph.link_dependents. intros H.
  apply link_outer_Ok in H as [H _]. exact H.
Qed.

Lemma JsSet_of_list_nil xs : JsSet.of_list xs = [] <-> xs = [].
Proof.
  split; [|intros ->; reflexivity].
  destruct xs as [|x xs]; [reflexivity|]. intros H.
  assert (x ∈ JsSet.of_list (x :: xs)) as Hx
    by (apply JsSet_of_list_elem; left).
  rewrite H in Hx. inversion Hx.
Qed.

Lemma created_incomplete tasks d :
  TaskGraph.incomplete
    (map (fun task => (task_id task, TaskGraph.mk_node task)) tasks) d = true.
Proof.
  unfold TaskGraph.incomplete, TaskGraph.node_completed.
  destruct (JsMap.get d _) as [node|] eqn:Hget; [|reflexivity].
  apply created_get_inv in Hget as (task & _ & _ & ->). reflexivity.
Qed.

Lemma created_ready nodes0 tasks :
  (forall ds,
      existsb (TaskGraph.incomplete nodes0) ds
      = match ds with [] => false | _ :: _ => true end) ->
  map node_id
    (List.filter
       (fun node =>
          negb (completed node)
          && negb (existsb (TaskGraph.incomplete nodes0) (dependencies node)))
       (map TaskGraph.mk_node tasks))
  = map task_id (List.filter has_no_dependencies tasks).
Proof.
  intros Hex. induction tasks as [|task tasks IH]; simpl; [reflexivity|].
  rewrite Hex. unfold has_no_dependencies at 1.
  destruct (task_dependencies task) as [|d ds] eqn:Hd; simpl.
  - f_equal. exact IH.
  - destruct (JsSet.of_list (d :: ds)) eqn:Hs.
    + apply (proj1 (JsSet_of_list_nil (d :: ds))) in Hs. discriminate Hs.
    + simpl. exact IH.
Qed.

(** For distinct ids, the ready tasks of a freshly constructed graph are the
    tasks that list no dependency, in the order of the task list. *)
Theorem fresh_graph_ready_tasks (tasks : list TaskWithDependencies)
    (g : TaskGraph.t) :
  NoDup (map task_id tasks) ->
  TaskGraph.new tasks = Ok g ->
  TaskGraph.getIndependentTasks g
  = map task_id (List.filter has_no_dependencies tasks).
Proof.
  intros Hnd. unfold TaskGraph.new, TaskGraph.buildGraph.
  destruct (TaskGraph.link_dependents (TaskGraph.create_nodes tasks))
    as [nodes'|e|] eqn:Hlink; try discriminate.
  destruct (TaskGraph.validateNoCycles nodes'); try discriminate.
  intros [= <-].
  apply link_dependents_cores in Hlink.
  rewrite <- getIndependentTasks_cores, Hlink, getIndependentTasks_cores.
  rewrite (create_nodes_distinct tasks Hnd).
  unfold TaskGraph.getIndependentTasks. rewrite created_values.
  apply created_ready.
  intros [|d ds]; [reflexivity|]. simpl.
  rewrite created_incomplete. reflexivity.
Qed.

(** In the diamond only [A] is ready at the start. *)
Lemma fresh_graph_ready_tasks_witness :
  NoDup (map task_id diamond_tasks)
  /\ exists g,
      TaskGraph.new diamond_tasks = Ok g
      /\ TaskGraph.getIndependentTasks g = ["A"].
Proof.
  assert (Hnd : NoDup (map task_id diamond_tasks)).
  { apply (bool_decide_unpack _). vm_compute. exact I. }
  split; [exact Hnd|].
  eexists. split; [vm_compute; reflexivity|].
  exact (fresh_graph_ready_tasks diamond_tasks _ Hnd ltac:(vm_compute; reflexivity)).
Defined.

(** *** Critical path of a finished graph *)

Lemma all_complete_node_completed g k :
  TaskGraph.allTasksComplete g = true ->
  k ∈ JsMap.keys g ->
  TaskGraph.node_completed g k = true.
Proof.
  unfold TaskGraph.allTasksComplete, TaskGraph.node_completed.
  intros Hall Hk. destruct (JsMap.get k g) as [node|] eqn:Hget.
  - rewrite forallb_forall in Hall. apply Hall.
    apply list_elem_of_In. eapply JsMap_get_in_values. exact Hget.
  - apply JsMap_get_None in Hget. contradiction.
Qed.

Lemma filter_all_false {A : Type} (f : A -> bool) (l : list A) :
  (forall x, x ∈ l -> f x = false) -> List.filter f l = [].
Proof.
  intros H. induction l as [|x l IH]; simpl; [reflexivity|].
  rewrite (H x) by left. apply IH. intros y Hy. apply H. right. exact Hy.
Qed.

Lemma filter_all_true {A : Type} (f : A -> bool) (l : list A) :
  (forall x, x ∈ l -> f x = true) -> List.filter f l = l.
Proof.
  intros H. induction l as [|x l IH]; simpl; [reflexivity|].
  rewrite (H x) by left. f_equal. apply IH. intros y Hy. apply H. right.
  exact Hy.
Qed.

Lemma find_end_all_complete g st ks acc :
  (forall k, k ∈ ks -> TaskGraph.node_completed g k = true) ->
  fold_left
    (fun '(maxDist, endNode) nodeId =>
       if negb (TaskGraph.node_completed g nodeId)
          && (maxDist <? TaskGraph.dist_of st nodeId)%Z
       then (TaskGraph.dist_of st nodeId, Some nodeId)
       else (maxDist, endNode))
    ks acc = acc.
Proof.
  revert acc. induction ks as [|k ks IH]; intros [maxDist endNode] H; simpl;
    [reflexivity|].
  rewrite (H k) by left. simpl. apply IH. intros k' Hk'. apply H. right.
  exact Hk'.
Qed.

Lemma kahn_empty_queue fuel nodes st :
  TaskGraph.queue st = [] -> TaskGraph.kahn fuel nodes st = Ok st.
Proof. intros H. destruct fuel; simpl; rewrite H; reflexivity. Qed.

(** When every task is complete, whatever the graph, the critical path is
    empty. *)
Lemma getCriticalPath_finished (g : TaskGraph.t) :
  TaskGraph.allTasksComplete g = true ->
  TaskGraph.getCriticalPath g = Ok [].
Proof.
  intros Hall. unfold TaskGraph.getCriticalPath.
  assert (Hlive : List.filter (fun node => negb (completed node)) (JsMap.values g)
                  = []).
  { apply filter_all_false. intros node Hn.
    unfold TaskGraph.allTasksComplete in Hall. rewrite forallb_forall in Hall.
    rewrite (Hall node) by (apply list_elem_of_In; exact Hn). reflexivity. }
  assert (Hq : TaskGraph.queue (TaskGraph.kahn_init g) = []).
  { unfold TaskGraph.kahn_init. simpl. rewrite Hlive. reflexivity. }
  rewrite (kahn_empty_queue _ _ _ Hq).
  unfold TaskGraph.find_end.
  rewrite find_end_all_complete; [reflexivity|].
  intros k Hk. apply all_complete_node_completed; assumption.
Qed.

(** ** Strategies: what is selected *)

Lemma sort_insert_perm {A : Type} (cmp : A -> A -> Z) x l :
  sort_insert cmp x l ≡ₚ x :: l.
Proof.
  induction l as [|y l IH]; simpl; [reflexivity|].
  destruct (cmp x y <=? 0)%Z; [reflexivity|].
  rewrite IH. apply Permutation_swap.
Qed.

Lemma Array_sort_perm {A : Type} (cmp : A -> A -> Z) l :
  Array_sort cmp l ≡ₚ l.
Proof.
  unfold Array_sort. induction l as [|x l IH]; simpl; [reflexivity|].
  rewrite sort_insert_perm, IH. reflexivity.
Qed.

Lemma indexOf_bounds x l :
  includes x l = true -> (0 <= indexOf x l < Z.of_nat (length l))%Z.
Proof.
  unfold includes. induction l as [|y l IH]; simpl; [discriminate|].
  destruct (String.eqb x y); simpl; [lia|].
  intros H. specialize (IH H).
  destruct (Z.ltb_spec (indexOf x l) 0); lia.
Qed.

Lemma compare_path_rank cp a b :
  (CriticalPathStrategy.compare cp a b <=? 0)%Z
  = (path_rank cp a <=? path_rank cp b)%Z.
Proof.
  unfold CriticalPathStrategy.compare, path_rank.
  destruct (includes a cp) eqn:Ha, (includes b cp) eqn:Hb; simpl.
  - pose proof (indexOf_bounds a cp Ha). pose proof (indexOf_bounds b cp Hb).
    destruct (Z.leb_spec (indexOf a cp - indexOf b cp) 0),
             (Z.leb_spec (indexOf a cp) (indexOf b cp)); try reflexivity; lia.
  - pose proof (indexOf_bounds a cp Ha). symmetry. apply Z.leb_le. lia.
  - pose proof (indexOf_bounds b cp Hb). symmetry. apply Z.leb_gt. lia.
  - symmetry. apply Z.leb_le. lia.
Qed.

Section sort_by_key.

Context {A : Type} (cmp : A -> A -> Z) (key : A -> Z).
Hypothesis cmp_key : forall a b, (cmp a b <=? 0)%Z = (key a <=? key b)%Z.

Lemma sort_insert_sorted x l :
  StronglySorted (fun a b => (key a <= key b)%Z) l ->
  StronglySorted (fun a b => (key a <= key b)%Z) (sort_insert cmp x l).
Proof.
  induction 1 as [|y l Hs IH Hy]; simpl.
  - constructor; constructor.
  - rewrite cmp_key. destruct (Z.leb_spec (key x) (key y)).
    + constructor; [constructor; assumption|].
      constructor; [assumption|].
      eapply Forall_impl; [exact Hy|]. simpl. intros z Hz. lia.
    + constructor; [exact IH|].
      apply Forall_forall. intros z Hz.
      rewrite sort_insert_perm in Hz.
      apply elem_of_cons in Hz as [->|Hz]; [lia|].
      rewrite Forall_forall in Hy. specialize (Hy z Hz). lia.
Qed.

Lemma Array_sort_sorted l :
  StronglySorted (fun a b => (key a <= key b)%Z) (Array_sort cmp l).
Proof.
  unfold Array_sort. induction l as [|x l IH]; simpl; [constructor|].
  apply sort_insert_sorted. exact IH.
Qed.

(** Stability: the elements of one key keep their order. *)
Lemma sort_insert_stable k x l :
  List.filter (fun a => (key a =? k)%Z) (sort_insert cmp x l)
  = List.filter (fun a => (key a =? k)%Z) (x :: l).
Proof.
  induction l as [|y l IH]; simpl; [reflexivity|].
  rewrite cmp_key. destruct (Z.leb_spec (key x) (key y)); [reflexivity|].
  simpl. rewrite IH. simpl.
  destruct (Z.eqb_spec (key x) k), (Z.eqb_spec (key y) k); try reflexivity.
  lia.
Qed.

Lemma Array_sort_stable k l :
  List.filter (fun a => (key a =? k)%Z) (Array_sort cmp l)
  = List.filter (fun a => (key a =? k)%Z) l.
Proof.
  unfold Array_sort. induction l as [|x l IH]; simpl; [reflexivity|].
  rewrite sort_insert_stable. simpl. rewrite IH. reflexivity.
Qed.

(** A list sorted by key is its elements below a bound followed by its
    elements at the bound, when no key exceeds the bound. *)
Lemma sorted_split bound l :
  StronglySorted (fun a b => (key a <= key b)%Z) l ->
  (forall a, a ∈ l -> (key a <= bound)%Z) ->
  l = List.filter (fun a => (key a <? bound)%Z) l
      ++ List.filter (fun a => (key a =? bound)%Z) l.
Proof.
  induction 1 as [|y l Hs IH Hy]; intros Hb; simpl; [reflexivity|].
  assert (Hl : forall a, a ∈ l -> (key a <= bound)%Z)
    by (intros a Ha; apply Hb; right; exact Ha).
  destruct (Z.ltb_spec (key y) bound).
  - destruct (Z.eqb_spec (key y) bound); [lia|]. simpl. f_equal. auto.
  - assert (key y = bound) as Hyb by (specialize (Hb y ltac:(left)); lia).
    rewrite (proj2 (Z.eqb_eq _ _) Hyb).
    assert (List.filter (fun a => (key a <? bound)%Z) l = []) as ->.
    { apply filter_all_false. intros a Ha. apply Z.ltb_ge.
      rewrite Forall_forall in Hy. specialize (Hy a Ha). lia. }
    simpl. f_equal.
    symmetry. apply filter_all_true. intros a Ha. apply Z.eqb_eq.
    rewrite Forall_forall in Hy. specialize (Hy a Ha). specialize (Hl a Ha).
    lia.
Qed.

End sort_by_key.

Lemma path_rank_bound cp a : (path_rank cp a <= Z.of_nat (length cp))%Z.
Proof.
  unfold path_rank. destruct (includes a cp) eqn:H; [|lia].
  pose proof (indexOf_bounds a cp H). lia.
Qed.

Lemma off_path_rank cp a :
  off_path cp a = (path_rank cp a =? Z.of_nat (length cp))%Z.
Proof.
  unfold off_path, path_rank. destruct (includes a cp) eqn:H; simpl.
  - pose proof (indexOf_bounds a cp H). symmetry. apply Z.eqb_neq. lia.
  - symmetry. apply Z.eqb_refl.
Qed.

(** With a graph, [CriticalPathStrategy] hands back the ready ids sorted by
    their position on the critical path, the ids off the path last and in
    their input order, and selects from the front of that order. *)
Lemma CriticalPath_selectTasks_sorted (ready : list string)
    (availableWorkers : Z) (g : TaskGraph.t) (sel : selection) :
  CriticalPathStrategy.selectTasks ready availableWorkers (Some g) = Ok sel ->
  exists criticalPath,
    TaskGraph.getCriticalPath g = Ok criticalPath
    /\ availableTasks_after sel ≡ₚ ready
    /\ StronglySorted
         (fun a b => (path_rank criticalPath a <= path_rank criticalPath b)%Z)
         (availableTasks_after sel)
    /\ List.filter (off_path criticalPath) (availableTasks_after sel)
       = List.filter (off_path criticalPath) ready
    /\ selected sel = slice0 (availableTasks_after sel) (Num availableWorkers).
Proof.
  unfold CriticalPathStrategy.selectTasks.
  destruct (TaskGraph.getCriticalPath g) as [cp|e|]; try discriminate.
  intros [= <-]. exists cp. simpl.
  split; [reflexivity|]. split; [apply Array_sort_perm|].
  split; [apply Array_sort_sorted; apply compare_path_rank|].
  split; [|reflexivity].
  rewrite (List.filter_ext _ _ (off_path_rank cp)).
  rewrite (List.filter_ext _ _ (off_path_rank cp) ready).
  apply (Array_sort_stable (CriticalPathStrategy.compare cp) (path_rank cp)).
  apply compare_path_rank.
Qed.

Lemma slice0_elem {A : Type} (xs : list A) n x : x ∈ slice0 xs n -> x ∈ xs.
Proof.
  unfold slice0. intros H.
  match type of H with
  | _ ∈ firstn ?k _ => rewrite <- (firstn_skipn k xs)
  end.
  apply elem_of_app. left. exact H.
Qed.

Lemma slice0_length_le {A : Type} (xs : list A) k :
  (0 <= k)%Z -> (Z.of_nat (length (slice0 xs (Num k))) <= k)%Z.
Proof.
  intros Hk. rewrite slice0_firstn by exact Hk. rewrite length_firstn. lia.
Qed.

Lemma RateAware_count_bounded self ready availableWorkers currentRPM :
  (0 <= availableWorkers)%Z ->
  (0 <= RateAwareStrategy.estimatedRPMPerTask self)%Z ->
  (Z.of_nat
     (length (slice0 ready
                (RateAwareStrategy.tasksToSpawn self ready availableWorkers
                   currentRPM)))
   <= availableWorkers)%Z.
Proof.
  intros Haw Hest. unfold RateAwareStrategy.tasksToSpawn, floor_div.
  assert (Hh : (0 <= RateAwareStrategy.headroom self currentRPM)%Z)
    by (unfold RateAwareStrategy.headroom; lia).
  destruct (Z.eqb_spec (RateAwareStrategy.estimatedRPMPerTask self) 0).
  - destruct (Z.eqb_spec (RateAwareStrategy.headroom self currentRPM) 0).
    + simpl. lia.
    + destruct (Z.ltb_spec 0 (RateAwareStrategy.headroom self currentRPM));
        [|lia].
      cbn [Math_min3 number_min]. rewrite slice0_firstn by lia.
      rewrite length_firstn. lia.
  - cbn [Math_min3 number_min].
    assert (0 <= RateAwareStrategy.headroom self currentRPM
                 / RateAwareStrategy.estimatedRPMPerTask self)%Z
      by (apply Z.div_pos; lia).
    rewrite slice0_firstn by lia. rewrite length_firstn. lia.
Qed.

(** Whatever the strategy, for a non-negative worker count (and, for the
    rate-aware strategy, a non-negative estimate per task) the selection has
    at most [availableWorkers] ids and every one of them is a ready id. *)
Lemma selectTasks_bounds (strategy : SchedulingStrategy)
    (ready : list string) (availableWorkers : Z) (currentRPM : option Z)
    (graph : option TaskGraph.t) (sel : selection) :
  (0 <= availableWorkers)%Z ->
  sensible_estimate strategy ->
  selectTasks strategy ready availableWorkers currentRPM graph = Ok sel ->
  (Z.of_nat (length (selected sel)) <= availableWorkers)%Z
  /\ forall x, x ∈ selected sel -> x ∈ ready.
Proof.
  intros Haw Hest. destruct strategy as [|self|]; simpl.
  - intros [= <-]. simpl. split; [apply slice0_length_le; exact Haw|].
    intros x. apply slice0_elem.
  - intros [= <-]. simpl. split.
    + apply RateAware_count_bounded; assumption.
    + intros x. apply slice0_elem.
  - destruct graph as [g|].
    + unfold CriticalPathStrategy.selectTasks.
      destruct (TaskGraph.getCriticalPath g) as [cp|e|]; try discriminate.
      intros [= <-]. simpl. split; [apply slice0_length_le; exact Haw|].
      intros x Hx. apply slice0_elem in Hx.
      rewrite Array_sort_perm in Hx. exact Hx.
    + simpl. intros [= <-]. simpl. split; [apply slice0_length_le; exact Haw|].
      intros x. apply slice0_elem.
Qed.

(** ** Scheduler: assignment and completion *)

Lemma node_completed_markCompleted taskId g x :
  TaskGraph.node_completed (TaskGraph.markCompleted taskId g) x
  = TaskGraph.node_completed g x
    || (String.eqb x taskId && JsMap.has taskId g).
Proof.
  unfold TaskGraph.markCompleted, TaskGraph.node_completed, JsMap.has.
  destruct (JsMap.get taskId g) as [node|] eqn:Hget.
  - destruct (String.eqb_spec x taskId) as [->|Hne].
    + rewrite JsMap_get_set_eq, Hget. simpl. rewrite orb_true_r. reflexivity.
    + rewrite JsMap_get_set_ne by congruence. rewrite orb_false_r. reflexivity.
  - rewrite andb_false_r, orb_false_r. reflexivity.
Qed.

Lemma task_rpm_markCompleted s taskId :
  OrchestrationScheduler.task_rpm s
    (TaskGraph.getTaskDetails taskId
       (TaskGraph.markCompleted taskId (OrchestrationScheduler.graph s)))
  = OrchestrationScheduler.task_rpm s
      (TaskGraph.getTaskDetails taskId (OrchestrationScheduler.graph s)).
Proof.
  unfold TaskGraph.getTaskDetails, TaskGraph.markCompleted.
  destruct (JsMap.get taskId (OrchestrationScheduler.graph s)) as [node|] eqn:H.
  - rewrite JsMap_get_set_eq. destruct node. reflexivity.
  - rewrite H. reflexivity.
Qed.



(** A successful [assignTask] marks the task running, maps it to the worker
    of the same id, and adds the task's RPM; the completion or failure
    message for the task subtracts the same amount, so a non-negative
    estimate is back where it was. *)
Theorem assign_then_finish_restores_rpm (env : Environment) (taskId : string)
    (s s' : OrchestrationScheduler.t) :
  OrchestrationScheduler.assignTask env taskId s = (None, s') ->
  (0 <= OrchestrationScheduler.currentRPM s)%Z ->
  OrchestrationScheduler.executionState s' !! taskId = Some running
  /\ OrchestrationScheduler.workerMapping s' !! taskId = Some taskId
  /\ OrchestrationScheduler.currentRPM s'
     = (OrchestrationScheduler.currentRPM s
        + OrchestrationScheduler.task_rpm s
            (TaskGraph.getTaskDetails taskId (OrchestrationScheduler.graph s)))%Z
  /\ OrchestrationScheduler.currentRPM
       (OrchestrationScheduler.handleTaskCompleted taskId s')
     = OrchestrationScheduler.currentRPM s
  /\ OrchestrationScheduler.currentRPM
       (OrchestrationScheduler.handleTaskFailed taskId s')
     = OrchestrationScheduler.currentRPM s.
Proof.
  unfold OrchestrationScheduler.assignTask.
  destruct (TaskGraph.getTaskDetails taskId (OrchestrationScheduler.graph s))
    as [details|] eqn:Hdet; [|discriminate].
  destruct (ParallelInstanceManager.spawnWorker _ _ _ _) as [[se|worker] m] eqn:Hspawn;
    [discriminate|].
  assert (Hid : worker_id worker = taskId).
  { unfold ParallelInstanceManager.spawnWorker in Hspawn.
    destruct (ParallelInstanceManager.spawn_refused _ _); [discriminate|].
    unfold ParallelInstanceManager.spawn_settled in Hspawn.
    destruct (spawn_race env taskId); try discriminate.
    injection Hspawn as <- <-. reflexivity. }
  rewrite Hid. destruct (send_ok env taskId); [|discriminate].
  intros [= <-] Hrpm.
  split; [simpl; apply lookup_insert_eq|].
  split; [simpl; apply lookup_insert_eq|].
  split; [reflexivity|].
  unfold OrchestrationScheduler.handleTaskCompleted,
    OrchestrationScheduler.handleTaskFailed.
  cbn [OrchestrationScheduler.currentRPM OrchestrationScheduler.emit
       OrchestrationScheduler.set_rpm OrchestrationScheduler.set_state
       OrchestrationScheduler.set_graph OrchestrationScheduler.graph
       OrchestrationScheduler.set_mapping OrchestrationScheduler.set_manager].
  unfold TaskGraph.getTaskDetails in *.
  split.
  - unfold TaskGraph.markCompleted. rewrite Hdet, JsMap_get_set_eq.
    destruct details as [? ? ? ? ? ? ? [r|]]; cbn; lia.
  - rewrite Hdet. destruct details as [? ? ? ? ? ? ? [r|]]; cbn; lia.
Qed.

(** Task [A] of the diamond when everything succeeds. *)
Lemma assign_then_finish_restores_rpm_witness :
  (0 <= OrchestrationScheduler.currentRPM diamond_scheduler)%Z
  /\ OrchestrationScheduler.currentRPM
       (OrchestrationScheduler.handleTaskCompleted "A"
          (snd (OrchestrationScheduler.assignTask calm "A" diamond_scheduler)))
     = OrchestrationScheduler.currentRPM diamond_scheduler.
Proof.
  split; [vm_compute; discriminate|].
  exact (proj1 (proj2 (proj2 (proj2
           (assign_then_finish_restores_rpm calm "A" diamond_scheduler
              (snd (OrchestrationScheduler.assignTask calm "A" diamond_scheduler))
              ltac:(vm_compute; reflexivity)
              ltac:(vm_compute; discriminate)))))).
Defined.

(** With no tasks the run is over at once: [started], [completed], and the
    pool has not been touched. *)
Lemma start_with_no_tasks (options : OrchestrationScheduler.SchedulerOptions)
    (manager : ParallelInstanceManager.t) (env : Environment) :
  exists s s',
    OrchestrationScheduler.new [] options manager = Ok s
    /\ OrchestrationScheduler.start env s = OrchestrationScheduler.Resolved s'
    /\ OrchestrationScheduler.emitted s' = [ev_started; ev_completed]
    /\ OrchestrationScheduler.instanceManager s' = manager
    /\ OrchestrationScheduler.executionState s' = ∅.
Proof.
  eexists. eexists. split; [reflexivity|]. split; [reflexivity|].
  repeat split.
Qed.

(** *** Readiness *)

Lemma cores_keys nodes : JsMap.keys (cores nodes) = JsMap.keys nodes.
Proof. unfold JsMap.keys, cores. rewrite map_map. reflexivity. Qed.

Lemma cores_well_keyed nodes nodes' :
  cores nodes' = cores nodes -> well_keyed nodes -> well_keyed nodes'.
Proof.
  intros Hc [Hnd Hid]. split.
  - rewrite <- cores_keys, Hc, cores_keys. exact Hnd.
  - assert (H : Forall (fun kv => node_id (snd kv) = fst kv) (cores nodes')).
    { rewrite Hc. unfold cores. apply Forall_fmap.
      eapply Forall_impl; [exact Hid|]. intros [k v]. simpl. auto. }
    unfold cores in H. apply Forall_fmap in H.
    eapply Forall_impl; [exact H|]. intros [k v]. simpl. auto.
Qed.

Lemma new_well_keyed tasks g : TaskGraph.new tasks = Ok g -> well_keyed g.
Proof.
  unfold TaskGraph.new, TaskGraph.buildGraph.
  destruct (TaskGraph.link_dependents (TaskGraph.create_nodes tasks))
    as [nodes'|e|] eqn:Hlink; try discriminate.
  destruct (TaskGraph.validateNoCycles nodes'); try discriminate.
  intros [= <-]. apply link_dependents_cores in Hlink.
  eapply cores_well_keyed; [exact Hlink | apply create_nodes_well_keyed].
Qed.

Lemma markCompleted_well_keyed taskId g :
  well_keyed g -> well_keyed (TaskGraph.markCompleted taskId g).
Proof.
  intros [Hnd Hid]. unfold TaskGraph.markCompleted.
  destruct (JsMap.get taskId g) as [node|] eqn:Hget; [|split; assumption].
  split.
  - apply set_NoDup_keys. exact Hnd.
  - apply set_Forall; [exact Hid|]. simpl.
    apply JsMap_get_in in Hget. rewrite Forall_forall in Hid.
    exact (Hid _ Hget).
Qed.

(** An id is ready exactly when a node of that id is incomplete and all its
    dependencies are completed nodes. *)
Lemma getIndependentTasks_elem g t :
  t ∈ TaskGraph.getIndependentTasks g
  <-> exists node,
      node ∈ JsMap.values g /\ node_id node = t /\ completed node = false
      /\ forall d, d ∈ dependencies node -> TaskGraph.node_completed g d = true.
Proof.
  unfold TaskGraph.getIndependentTasks.
  rewrite list_elem_of_In, in_map_iff. split.
  - intros (node & Hid & Hin). apply filter_In in Hin as [Hin Hp].
    apply andb_true_iff in Hp as [Hc Hd]. exists node.
    split; [apply list_elem_of_In; exact Hin|]. split; [exact Hid|].
    split; [destruct (completed node); [discriminate | reflexivity]|].
    intros d Hdin. apply negb_true_iff in Hd.
    destruct (TaskGraph.node_completed g d) eqn:E; [reflexivity|].
    assert (existsb (TaskGraph.incomplete g) (dependencies node) = true)
      as Habs; [|congruence].
    apply existsb_exists. exists d. split; [apply list_elem_of_In; exact Hdin|].
    unfold TaskGraph.incomplete. rewrite E. reflexivity.
  - intros (node & Hin & Hid & Hc & Hd). exists node. split; [exact Hid|].
    apply filter_In. split; [apply list_elem_of_In; exact Hin|].
    rewrite Hc. simpl. apply negb_true_iff.
    destruct (existsb _ _) eqn:E; [|reflexivity].
    apply existsb_exists in E as (d & Hdin & Hinc).
    unfold TaskGraph.incomplete in Hinc.
    rewrite (Hd d) in Hinc by (apply list_elem_of_In; exact Hdin).
    discriminate.
Qed.

Lemma well_keyed_node g node :
  well_keyed g -> node ∈ JsMap.values g ->
  JsMap.get (node_id node) g = Some node.
Proof.
  intros Hwk Hin.
  destruct (proj1 (well_keyed_value g (node_id node) (fun v => v = node) Hwk))
    as (v & Hget & ->); [|exact Hget].
  exists node. auto.
Qed.

(** A task that depends on a task which has not completed is never
    available, and a failure message changes nothing about that: the graph
    is left as it is, so the dependents of a failed task stay blocked. *)
Theorem failed_task_blocks_dependents (s : OrchestrationScheduler.t)
    (taskId : string) (node : TaskNode) :
  well_keyed (OrchestrationScheduler.graph s) ->
  node ∈ JsMap.values (OrchestrationScheduler.graph s) ->
  taskId ∈ dependencies node ->
  TaskGraph.node_completed (OrchestrationScheduler.graph s) taskId = false ->
  OrchestrationScheduler.graph (OrchestrationScheduler.handleTaskFailed taskId s)
  = OrchestrationScheduler.graph s
  /\ (node_id node ∉ OrchestrationScheduler.availableTasks s)
  /\ (node_id node
        ∉ OrchestrationScheduler.availableTasks
            (OrchestrationScheduler.handleTaskFailed taskId s)).
Proof.
  intros Hwk Hin Hdep Hinc.
  assert (Hnot : node_id node
                   ∉ TaskGraph.getIndependentTasks (OrchestrationScheduler.graph s)).
  { intros Hready. apply getIndependentTasks_elem in Hready
      as (node' & Hin' & Hid & _ & Hd).
    assert (node' = node) as ->.
    { pose proof (well_keyed_node _ _ Hwk Hin) as H1.
      pose proof (well_keyed_node _ _ Hwk Hin') as H2.
      rewrite Hid in H2. congruence. }
    rewrite (Hd taskId Hdep) in Hinc. discriminate. }
  split; [reflexivity|].
  unfold OrchestrationScheduler.availableTasks. simpl.
  split; intros H; apply list_elem_of_In, filter_In in H as [H _];
    apply Hnot, list_elem_of_In; exact H.
Qed.

(** [B] of the diamond depends on [A], which has not completed. *)
Lemma failed_task_blocks_dependents_witness :
  well_keyed (OrchestrationScheduler.graph diamond_scheduler)
  /\ "B" ∉ OrchestrationScheduler.availableTasks
             (OrchestrationScheduler.handleTaskFailed "A" diamond_scheduler).
Proof.
  assert (Hwk : well_keyed (OrchestrationScheduler.graph diamond_scheduler)).
  { apply (new_well_keyed diamond_tasks). vm_compute. reflexivity. }
  split; [exact Hwk|].
  assert (Hget : JsMap.get "B" (OrchestrationScheduler.graph diamond_scheduler)
                 = Some
                     {| node_id := "B"; dependencies := ["A"];
                        dependents := ["D"]; completed := false;
                        instructions := EmptyString; workspacePath := "/b";
                        workerType := None; estimatedRPM := None |})
    by (vm_compute; reflexivity).
  exact (proj2 (proj2
           (failed_task_blocks_dependents diamond_scheduler "A" _ Hwk
              (JsMap_get_in_values _ _ _ Hget)
              ltac:(simpl; left) ltac:(vm_compute; reflexivity)))).
Defined.

(** When a task completes, a pending task whose other dependencies had all
    completed becomes available. *)
Theorem completion_releases_dependent (s : OrchestrationScheduler.t)
    (taskId t : string) (node : TaskNode) :
  JsMap.get t (OrchestrationScheduler.graph s) = Some node ->
  JsMap.has taskId (OrchestrationScheduler.graph s) = true ->
  t <> taskId ->
  node_id node = t ->
  completed node = false ->
  (forall d, d ∈ dependencies node ->
             d = taskId
             \/ TaskGraph.node_completed (OrchestrationScheduler.graph s) d = true) ->
  OrchestrationScheduler.executionState s !! t = Some pending ->
  t ∈ OrchestrationScheduler.availableTasks
        (OrchestrationScheduler.handleTaskCompleted taskId s).
Proof.
  intros Hget Hhas Hne Hid Hc Hdeps Hpending.
  unfold OrchestrationScheduler.availableTasks,
    OrchestrationScheduler.handleTaskCompleted. simpl.
  apply list_elem_of_In, filter_In. split.
  - apply list_elem_of_In, getIndependentTasks_elem. exists node.
    split.
    { apply (JsMap_get_in_values t). unfold TaskGraph.markCompleted.
      destruct (JsMap.get taskId (OrchestrationScheduler.graph s)) eqn:E;
        [|exact Hget].
      rewrite JsMap_get_set_ne by congruence. exact Hget. }
    split; [exact Hid|]. split; [exact Hc|].
    intros d Hd. rewrite node_completed_markCompleted.
    destruct (Hdeps d Hd) as [->|Hdone].
    + rewrite String.eqb_refl, Hhas, orb_true_r. reflexivity.
    + rewrite Hdone. reflexivity.
  - rewrite lookup_insert_ne by congruence. rewrite Hpending. reflexivity.
Qed.

(** [B] of the diamond once [A] completes. *)
Lemma completion_releases_dependent_witness :
  "B" <> "A"
  /\ "B" ∈ OrchestrationScheduler.availableTasks
             (OrchestrationScheduler.handleTaskCompleted "A" diamond_scheduler).
Proof.
  split; [discriminate|].
  apply (completion_releases_dependent diamond_scheduler "A" "B"
           {| node_id := "B"; dependencies := ["A"];
              dependents := ["D"]; completed := false;
              instructions := EmptyString; workspacePath := "/b";
              workerType := None; estimatedRPM := None |}).
  - vm_compute. reflexivity.
  - vm_compute. reflexivity.
  - discriminate.
  - reflexivity.
  - reflexivity.
  - intros d Hd. apply list_elem_of_singleton in Hd. left. exact Hd.
  - vm_compute. reflexivity.
Defined.

(** ** ParallelInstanceManager: the pool *)

Lemma with_workers_same m :
  ParallelInstanceManager.with_workers m (ParallelInstanceManager.workers m) = m.
Proof. destruct m. reflexivity. Qed.

Lemma terminateWorker_workers workerId m :
  ParallelInstanceManager.workers
    (ParallelInstanceManager.terminateWorker workerId m)
  = delete workerId (ParallelInstanceManager.workers m).
Proof.
  unfold ParallelInstanceManager.terminateWorker.
  destruct (ParallelInstanceManager.workers m !! workerId) eqn:H; simpl.
  - apply delete_insert_eq.
  - symmetry. apply delete_id. exact H.
Qed.

Lemma terminateWorker_config workerId m :
  ParallelInstanceManager.config
    (ParallelInstanceManager.terminateWorker workerId m)
  = ParallelInstanceManager.config m.
Proof.
  unfold ParallelInstanceManager.terminateWorker.
  destruct (ParallelInstanceManager.workers m !! workerId); reflexivity.
Qed.

(** [terminateWorker] removes the named worker and no other, a second call
    changes nothing, and session events that arrive for the removed worker
    are ignored. *)
Theorem terminateWorker_removes_one (workerId : string)
    (m : ParallelInstanceManager.t) :
  let m' := ParallelInstanceManager.terminateWorker workerId m in
  ParallelInstanceManager.getWorker workerId m' = None
  /\ (forall other, other <> workerId ->
        ParallelInstanceManager.getWorker other m'
        = ParallelInstanceManager.getWorker other m)
  /\ ParallelInstanceManager.terminateWorker workerId m' = m'
  /\ forall ev, ParallelInstanceManager.on_task_event workerId ev m' = m'.
Proof.
  intros m'. unfold ParallelInstanceManager.getWorker.
  assert (Hgone : ParallelInstanceManager.workers m' !! workerId = None).
  { unfold m'. rewrite terminateWorker_workers. apply lookup_delete_eq. }
  split; [exact Hgone|]. split.
  { intros other Hne. unfold m'. rewrite terminateWorker_workers.
    apply lookup_delete_ne. congruence. }
  split.
  - unfold ParallelInstanceManager.terminateWorker at 1. rewrite Hgone.
    reflexivity.
  - intros ev. unfold ParallelInstanceManager.on_task_event. rewrite Hgone.
    reflexivity.
Qed.

Lemma on_task_event_size workerId ev m :
  size (ParallelInstanceManager.workers
          (ParallelInstanceManager.on_task_event workerId ev m))
  = size (ParallelInstanceManager.workers m)
  /\ ParallelInstanceManager.config
       (ParallelInstanceManager.on_task_event workerId ev m)
     = ParallelInstanceManager.config m.
Proof.
  unfold ParallelInstanceManager.on_task_event.
  destruct (ParallelInstanceManager.workers m !! workerId) eqn:H; simpl;
    [|auto].
  split; [|reflexivity]. apply map_size_insert_Some. rewrite H. eauto.
Qed.

(** *** Calls that overlap *)

Lemma terminateWorker_alone workerId m :
  ParallelInstanceManager.terminateWorker workerId m
  = match ParallelInstanceManager.terminate_begin workerId m with
    | Some m1 => ParallelInstanceManager.terminate_end workerId m1
    | None => m
    end.
Proof.
  unfold ParallelInstanceManager.terminateWorker,
    ParallelInstanceManager.terminate_begin.
  destruct (ParallelInstanceManager.workers m !! workerId); reflexivity.
Qed.

(** [spawnWorker] written as one step is the call followed from [await] to
    [await] with nothing else running in between: the same result and the
    same pool. *)
Lemma spawnWorker_alone params r now s :
  match ParallelInstanceManager.spawn_refused params (PoolRun.pool s) with
  | Some e =>
      PoolRun.run_step s (PoolRun.call_spawnWorker params)
      = (PoolRun.spawn_failed e, s)
      /\ ParallelInstanceManager.spawnWorker params r now (PoolRun.pool s)
         = (inl e, PoolRun.pool s)
  | None =>
      let called := PoolRun.run_step s (PoolRun.call_spawnWorker params) in
      let resumed :=
        PoolRun.run_step (snd called)
          (PoolRun.resume (length (PoolRun.waits s)) r now) in
      fst called = PoolRun.suspended (length (PoolRun.waits s))
      /\ (fst resumed, PoolRun.pool (snd resumed))
         = match ParallelInstanceManager.spawnWorker params r now
                   (PoolRun.pool s) with
           | (inl e, m) => (PoolRun.spawn_failed e, m)
           | (inr w, m) => (PoolRun.spawned w, m)
           end
  end.
Proof.
  unfold ParallelInstanceManager.spawnWorker. cbn [PoolRun.run_step].
  destruct (ParallelInstanceManager.spawn_refused params (PoolRun.pool s))
    as [e|] eqn:Hrefused; [auto|].
  cbv zeta. unfold PoolRun.suspend. cbn [fst snd PoolRun.run_step PoolRun.waits].
  split; [reflexivity|].
  rewrite lookup_app_r by lia. rewrite Nat.sub_diag. cbn [lookup list_lookup].
  assert (Hfree : ParallelInstanceManager.workers (PoolRun.pool s)
                    !! taskId params = None).
  { unfold ParallelInstanceManager.spawn_refused in Hrefused.
    destruct (_ <=? _)%Z; [discriminate|].
    case_bool_decide as Hdup; [discriminate|].
    apply eq_None_not_Some. exact Hdup. }
  assert (Hbegin : ParallelInstanceManager.terminate_begin (taskId params)
                     (PoolRun.pool s) = None).
  { unfold ParallelInstanceManager.terminate_begin. rewrite Hfree.
    reflexivity. }
  unfold ParallelInstanceManager.spawn_settled.
  destruct r; cbn [PoolRun.pool]; [reflexivity| |];
    destruct (ParallelInstanceManager.autoCleanup _); cbn [PoolRun.pool];
    rewrite ?Hbegin, ?(terminateWorker_absent _ _ Hfree); reflexivity.
Qed.


Lemma terminate_begin_keeps workerId m m1 :
  ParallelInstanceManager.terminate_begin workerId m = Some m1 ->
  size (ParallelInstanceManager.workers m1)
  = size (ParallelInstanceManager.workers m)
  /\ ParallelInstanceManager.config m1 = ParallelInstanceManager.config m.
Proof.
  unfold ParallelInstanceManager.terminate_begin.
  destruct (ParallelInstanceManager.workers m !! workerId) eqn:H;
    [|discriminate].
  intros [= <-]. simpl. split; [|reflexivity].
  apply map_size_insert_Some. rewrite H. eauto.
Qed.

Lemma mark_all_keeps workerIds m :
  size (ParallelInstanceManager.workers (PoolRun.mark_all workerIds m))
  = size (ParallelInstanceManager.workers m)
  /\ ParallelInstanceManager.config (PoolRun.mark_all workerIds m)
     = ParallelInstanceManager.config m.
Proof.
  unfold PoolRun.mark_all. revert m.
  induction workerIds as [|id ids IH]; intros m; simpl; [auto|].
  destruct (IH (default m (ParallelInstanceManager.terminate_begin id m)))
    as [-> ->].
  destruct (ParallelInstanceManager.terminate_begin id m) as [m1|] eqn:H;
    simpl; [|auto].
  apply (terminate_begin_keeps _ _ _ H).
Qed.

Lemma terminate_end_le workerId m :
  (size (ParallelInstanceManager.workers
           (ParallelInstanceManager.terminate_end workerId m))
   <= size (ParallelInstanceManager.workers m))%nat.
Proof.
  unfold ParallelInstanceManager.terminate_end. simpl.
  rewrite map_size_delete.
  destruct (ParallelInstanceManager.workers m !! workerId); simpl; lia.
Qed.

Lemma insert_size_le (id : string) (w : WorkerInstance)
    (ws : gmap string WorkerInstance) :
  (size (<[id := w]> ws) <= S (size ws))%nat.
Proof.
  destruct (ws !! id) as [w0|] eqn:H.
  - rewrite map_size_insert_Some by (rewrite H; eauto). lia.
  - rewrite map_size_insert_None by exact H. lia.
Qed.

(** Replacing one entry of a list changes a count by what the two entries
    weigh. *)
Lemma count_insert {A : Type} (f : A -> bool) (l : list A) (i : nat) (x y : A) :
  l !! i = Some x ->
  (length (List.filter f (<[i := y]> l)) + (if f x then 1 else 0)
   = length (List.filter f l) + (if f y then 1 else 0))%nat.
Proof.
  revert i. induction l as [|a l IH]; intros i Hi; [discriminate|].
  destruct i as [|i]; simpl in *.
  - injection Hi as ->. destruct (f x), (f y); simpl; lia.
  - specialize (IH i Hi). destruct (f a); simpl; lia.
Qed.

Lemma racing_suspend w m s :
  PoolRun.racing (snd (PoolRun.suspend w m s))
  = (PoolRun.racing s + (if is_race_awaited w then 1 else 0))%nat.
Proof.
  unfold PoolRun.racing, PoolRun.suspend. simpl.
  rewrite List.filter_app, length_app. simpl.
  destruct (is_race_awaited w); reflexivity.
Qed.

Lemma pool_proceed ticket w m s :
  PoolRun.pool (PoolRun.proceed ticket w m s) = m.
Proof. reflexivity. Qed.

Lemma racing_proceed ticket w0 w m s :
  PoolRun.waits s !! ticket = Some w0 ->
  (PoolRun.racing (PoolRun.proceed ticket w m s)
   + (if is_race_awaited w0 then 1 else 0)
   = PoolRun.racing s + (if is_race_awaited w then 1 else 0))%nat.
Proof.
  intros H. unfold PoolRun.racing, PoolRun.proceed. simpl.
  apply count_insert. exact H.
Qed.

Lemma run_step_config s st :
  ParallelInstanceManager.config (PoolRun.pool (snd (PoolRun.run_step s st)))
  = ParallelInstanceManager.config (PoolRun.pool s).
Proof.
  destruct st as [params|workerId| | |workerId ev|ticket r now]; simpl.
  - destruct (ParallelInstanceManager.spawn_refused params (PoolRun.pool s));
      reflexivity.
  - destruct (ParallelInstanceManager.terminate_begin workerId (PoolRun.pool s))
      as [m|] eqn:H; simpl; [|reflexivity].
    apply (terminate_begin_keeps _ _ _ H).
  - apply mark_all_keeps.
  - reflexivity.
  - apply on_task_event_size.
  - destruct (PoolRun.waits s !! ticket) as [[params|workerId rethrow|ids|]|];
      try reflexivity.
    + unfold ParallelInstanceManager.spawn_settled.
      destruct r; simpl; try reflexivity;
        destruct (ParallelInstanceManager.autoCleanup _); try reflexivity;
        destruct (ParallelInstanceManager.terminate_begin _ _) as [m|] eqn:H;
        simpl; try reflexivity; apply (terminate_begin_keeps _ _ _ H).
    + destruct ids; reflexivity.
Qed.

(** One step: either the pool and the awaited races together do not grow, or
    the step is a [spawnWorker] call that found the pool below its limit and
    now awaits its race. *)
Lemma run_step_size s st :
  let s1 := snd (PoolRun.run_step s st) in
  (size (ParallelInstanceManager.workers (PoolRun.pool s1)) + PoolRun.racing s1
   <= size (ParallelInstanceManager.workers (PoolRun.pool s)) + PoolRun.racing s)%nat
  \/ (size (ParallelInstanceManager.workers (PoolRun.pool s1))
      = size (ParallelInstanceManager.workers (PoolRun.pool s))
      /\ PoolRun.racing s1 = S (PoolRun.racing s)
      /\ (Z.of_nat (size (ParallelInstanceManager.workers (PoolRun.pool s)))
          < ParallelInstanceManager.maxWorkers
              (ParallelInstanceManager.config (PoolRun.pool s)))%Z).
Proof.
  cbv zeta.
  destruct st as [params|workerId| | |workerId ev|ticket r now];
    cbn [PoolRun.run_step].
  - unfold ParallelInstanceManager.spawn_refused.
    destruct (Z.leb_spec
                (ParallelInstanceManager.maxWorkers
                   (ParallelInstanceManager.config (PoolRun.pool s)))
                (Z.of_nat (size (ParallelInstanceManager.workers
                                   (PoolRun.pool s))))); [left; simpl; lia|].
    case_bool_decide; [left; simpl; lia|].
    right. rewrite racing_suspend. simpl. split; [reflexivity|].
    split; [lia | assumption].
  - left.
    destruct (ParallelInstanceManager.terminate_begin workerId (PoolRun.pool s))
      as [m|] eqn:H; [|simpl; lia].
    rewrite racing_suspend. simpl.
    destruct (terminate_begin_keeps _ _ _ H) as [-> _]. lia.
  - left. rewrite racing_suspend. simpl.
    destruct (mark_all_keeps
                (map fst (map_to_list
                            (ParallelInstanceManager.workers (PoolRun.pool s))))
                (PoolRun.pool s)) as [-> _].
    lia.
  - left. simpl. rewrite map_size_empty. unfold PoolRun.racing. simpl. lia.
  - left. simpl.
    destruct (on_task_event_size workerId ev (PoolRun.pool s)) as [-> _].
    unfold PoolRun.racing. simpl. lia.
  - left.
    destruct (PoolRun.waits s !! ticket) as [[params|workerId rethrow|ids|]|]
      eqn:Hw; try (simpl; lia).
    + unfold ParallelInstanceManager.spawn_settled.
      destruct r; cbn [fst snd].
      * pose proof (racing_proceed ticket _ wait_over
                      (ParallelInstanceManager.with_workers (PoolRun.pool s)
                         (<[taskId params :=
                              {| worker_id := taskId params;
                                 worker_task :=
                                   ParallelInstanceManager.createTask params;
                                 workingDir := param_workingDir params;
                                 createdAt := now; status := idle |}]>
                            (ParallelInstanceManager.workers (PoolRun.pool s))))
                      s Hw) as Hr.
        simpl in Hr |- *.
        pose proof (insert_size_le (taskId params)
                      {| worker_id := taskId params;
                         worker_task :=
                           ParallelInstanceManager.createTask params;
                         workingDir := param_workingDir params;
                         createdAt := now; status := idle |}
                      (ParallelInstanceManager.workers (PoolRun.pool s))).
        lia.
      * destruct (ParallelInstanceManager.autoCleanup _);
          [destruct (ParallelInstanceManager.terminate_begin _ _) as [m|] eqn:H|];
          cbn [fst snd];
          match goal with
          | |- context [PoolRun.proceed ticket ?w ?m s] =>
              pose proof (racing_proceed ticket _ w m s Hw) as Hr
          end;
          simpl in Hr |- *;
          try (destruct (terminate_begin_keeps _ _ _ H) as [-> _]); lia.
      * destruct (ParallelInstanceManager.autoCleanup _);
          [destruct (ParallelInstanceManager.terminate_begin _ _) as [m|] eqn:H|];
          cbn [fst snd];
          match goal with
          | |- context [PoolRun.proceed ticket ?w ?m s] =>
              pose proof (racing_proceed ticket _ w m s Hw) as Hr
          end;
          simpl in Hr |- *;
          try (destruct (terminate_begin_keeps _ _ _ H) as [-> _]); lia.
    + cbn [fst snd].
      pose proof (racing_proceed ticket _ wait_over
                    (ParallelInstanceManager.terminate_end workerId
                       (PoolRun.pool s)) s Hw) as Hr.
      pose proof (terminate_end_le workerId (PoolRun.pool s)).
      cbn [is_race_awaited] in Hr. rewrite pool_proceed. lia.
    + destruct ids as [|id ids]; cbn [fst snd].
      * pose proof (racing_proceed ticket _ wait_over
                      (ParallelInstanceManager.dispose (PoolRun.pool s)) s Hw)
          as Hr.
        cbn [is_race_awaited] in Hr. rewrite pool_proceed. simpl.
        rewrite map_size_empty. lia.
      * pose proof (racing_proceed ticket _ (terminations_awaited ids)
                      (ParallelInstanceManager.terminate_end id
                         (PoolRun.pool s)) s Hw) as Hr.
        pose proof (terminate_end_le id (PoolRun.pool s)).
        cbn [is_race_awaited] in Hr. rewrite pool_proceed. lia.
Qed.

Lemma overlap_ge_racing steps s :
  (PoolRun.racing s <= PoolRun.overlap steps s)%nat.
Proof. destruct steps; simpl; lia. Qed.

Lemma run_bounded steps s (bound : nat) :
  (Z.of_nat (size (ParallelInstanceManager.workers (PoolRun.pool s)))
   + Z.of_nat (PoolRun.racing s)
   <= ParallelInstanceManager.maxWorkers
        (ParallelInstanceManager.config (PoolRun.pool s))
      - 1 + Z.of_nat bound)%Z ->
  (Z.of_nat (size (ParallelInstanceManager.workers
                     (PoolRun.pool (PoolRun.run steps s))))
   + Z.of_nat (PoolRun.racing (PoolRun.run steps s))
   <= ParallelInstanceManager.maxWorkers
        (ParallelInstanceManager.config (PoolRun.pool s))
      - 1 + Z.of_nat (Nat.max bound (PoolRun.overlap steps s)))%Z
  /\ ParallelInstanceManager.config (PoolRun.pool (PoolRun.run steps s))
     = ParallelInstanceManager.config (PoolRun.pool s).
Proof.
  revert s bound. induction steps as [|st steps IH]; intros s bound Hb.
  - simpl. split; [lia | reflexivity].
  - cbn [PoolRun.run fold_left PoolRun.overlap].
    fold (PoolRun.run steps (snd (PoolRun.run_step s st))).
    pose proof (run_step_config s st) as Hc.
    pose proof (overlap_ge_racing steps (snd (PoolRun.run_step s st))) as Hge.
    destruct (IH (snd (PoolRun.run_step s st))
                (Nat.max bound (PoolRun.racing (snd (PoolRun.run_step s st)))))
      as [Hb' Hc'].
    { rewrite Hc. destruct (run_step_size s st) as [Hle|(Hs & Hr & Hlt)]; lia. }
    rewrite Hc in Hb'. rewrite Hc', Hc. split; [lia | reflexivity].
Qed.

(** A [spawnWorker] call that passes its checks and whose session is ready
    when the race settles, with anything else running on the pool while the
    call awaits.  At the call the id was free and the pool below its limit,
    and nothing is registered yet.  When the call goes on it registers, under
    the requested id, an idle worker for the requested directory, replacing
    whatever an overlapping call has registered under that id meanwhile and
    touching no other worker; so the pool grows by one unless the id was
    taken meanwhile.  When nothing else ran during the await, the pool is one
    larger than at the call and within its limit, and terminating the worker
    gives back the pool as it was. *)
Theorem spawnWorker_success (params : SpawnParams) (now : Z)
    (s s1 : PoolRun.t) (ticket : nat) (between : list PoolRun.step) :
  PoolRun.run_step s (PoolRun.call_spawnWorker params)
  = (PoolRun.suspended ticket, s1) ->
  Forall (fun st => PoolRun.resumes ticket st = false) between ->
  let s2 := PoolRun.run between s1 in
  let w := {| worker_id := taskId params;
              worker_task := ParallelInstanceManager.createTask params;
              workingDir := param_workingDir params;
              createdAt := now;
              status := idle |} in
  let s' := snd (PoolRun.run_step s2 (PoolRun.resume ticket TaskReady now)) in
  ParallelInstanceManager.workers (PoolRun.pool s) !! taskId params = None
  /\ (Z.of_nat (size (ParallelInstanceManager.workers (PoolRun.pool s)))
      < ParallelInstanceManager.maxWorkers
          (ParallelInstanceManager.config (PoolRun.pool s)))%Z
  /\ PoolRun.pool s1 = PoolRun.pool s
  /\ fst (PoolRun.run_step s2 (PoolRun.resume ticket TaskReady now))
     = PoolRun.spawned w
  /\ ParallelInstanceManager.workers (PoolRun.pool s')
     = <[taskId params := w]> (ParallelInstanceManager.workers (PoolRun.pool s2))
  /\ (forall other, other <> taskId params ->
        ParallelInstanceManager.getWorker other (PoolRun.pool s')
        = ParallelInstanceManager.getWorker other (PoolRun.pool s2))
  /\ size (ParallelInstanceManager.workers (PoolRun.pool s'))
     = match ParallelInstanceManager.workers (PoolRun.pool s2) !! taskId params with
       | Some _ => size (ParallelInstanceManager.workers (PoolRun.pool s2))
       | None => S (size (ParallelInstanceManager.workers (PoolRun.pool s2)))
       end
  /\ (between = [] ->
      size (ParallelInstanceManager.workers (PoolRun.pool s'))
      = S (size (ParallelInstanceManager.workers (PoolRun.pool s)))
      /\ (Z.of_nat (size (ParallelInstanceManager.workers (PoolRun.pool s')))
          <= ParallelInstanceManager.maxWorkers
               (ParallelInstanceManager.config (PoolRun.pool s')))%Z
      /\ ParallelInstanceManager.terminateWorker (taskId params) (PoolRun.pool s')
         = PoolRun.pool s).
Proof.
  cbn [PoolRun.run_step]. unfold ParallelInstanceManager.spawn_refused.
  destruct (Z.leb_spec
              (ParallelInstanceManager.maxWorkers
                 (ParallelInstanceManager.config (PoolRun.pool s)))
              (Z.of_nat (size (ParallelInstanceManager.workers (PoolRun.pool s)))))
    as [|Hlt]; [discriminate|].
  case_bool_decide as Hdup; [discriminate|].
  apply eq_None_not_Some in Hdup.
  unfold PoolRun.suspend. intros [= <- <-] Hall. cbv zeta.
  assert (Hw : PoolRun.waits
                 (PoolRun.run between
                    {| PoolRun.pool := PoolRun.pool s;
                       PoolRun.waits :=
                         PoolRun.waits s ++ [race_awaited params] |})
                 !! length (PoolRun.waits s)
               = Some (race_awaited params)).
  { apply run_keeps_wait; [|exact Hall]. simpl.
    rewrite lookup_app_r by lia. rewrite Nat.sub_diag. reflexivity. }
  cbn [PoolRun.run_step]. rewrite Hw. cbn.
  split; [exact Hdup|]. split; [exact Hlt|]. split; [reflexivity|].
  split; [reflexivity|]. split; [reflexivity|].
  split.
  { intros other Hne. unfold ParallelInstanceManager.getWorker. simpl.
    apply lookup_insert_ne. congruence. }
  split.
  { match goal with
    | |- _ = match ?x with Some _ => _ | None => _ end => destruct x eqn:H
    end.
    - apply map_size_insert_Some. rewrite H. eauto.
    - apply map_size_insert_None. exact H. }
  intros ->. simpl.
  rewrite (map_size_insert_None _ _ _ Hdup).
  split; [reflexivity|]. split; [lia|].
  unfold ParallelInstanceManager.terminateWorker. simpl.
  rewrite lookup_insert_eq. unfold ParallelInstanceManager.with_workers. simpl.
  rewrite delete_insert_eq, (delete_insert_id _ _ _ Hdup).
  destruct s as [[ws cfg] waits]. reflexivity.
Qed.

(** The first worker of a pool of two, while two more spawns are started. *)
Lemma spawnWorker_success_witness :
  PoolRun.run_step (PoolRun.fresh (empty_pool 2))
    (PoolRun.call_spawnWorker (spawn_of "w1"))
  = (PoolRun.suspended 0,
     {| PoolRun.pool := empty_pool 2;
        PoolRun.waits := [race_awaited (spawn_of "w1")] |})
  /\ size (ParallelInstanceManager.workers
             (PoolRun.pool
                (snd (PoolRun.run_step
                        (PoolRun.run
                           [PoolRun.call_spawnWorker (spawn_of "w2");
                            PoolRun.call_spawnWorker (spawn_of "w3")]
                           {| PoolRun.pool := empty_pool 2;
                              PoolRun.waits :=
                                [race_awaited (spawn_of "w1")] |})
                        (PoolRun.resume 0 TaskReady 0)))))
     = 1%nat.
Proof.
  split; [reflexivity|].
  exact (proj1 (proj2 (proj2 (proj2 (proj2 (proj2 (proj2
           (spawnWorker_success (spawn_of "w1") 0
              (PoolRun.fresh (empty_pool 2))
              {| PoolRun.pool := empty_pool 2;
                 PoolRun.waits := [race_awaited (spawn_of "w1")] |}
              0
              [PoolRun.call_spawnWorker (spawn_of "w2");
               PoolRun.call_spawnWorker (spawn_of "w3")]
              ltac:(reflexivity)
              ltac:(repeat constructor))))))))).
Defined.

(** From construction on, whatever calls are made and however they overlap,
    the workers tracked and the spawns awaited together never exceed
    [maxWorkers - 1] plus the largest number of [spawnWorker] calls that
    awaited their race at one time: the limit is checked before the await
    and the worker registered after it, so calls started together all pass
    the check.  When no two spawns overlap the pool stays within
    [maxWorkers]; and [maxWorkers] stays the configured value between 2 and
    50. *)
Theorem pool_exceeds_limit_only_by_overlap
    (maxWorkers spawnTimeout : option Z) (autoCleanup : option bool)
    (m0 : ParallelInstanceManager.t) (steps : list PoolRun.step) :
  ParallelInstanceManager.new maxWorkers spawnTimeout autoCleanup = Some m0 ->
  let s := PoolRun.run steps (PoolRun.fresh m0) in
  let k := PoolRun.overlap steps (PoolRun.fresh m0) in
  (Z.of_nat (size (ParallelInstanceManager.workers (PoolRun.pool s)))
   + Z.of_nat (PoolRun.racing s)
   <= default 10%Z maxWorkers - 1 + Z.of_nat k)%Z
  /\ ((k <= 1)%nat ->
      (Z.of_nat (size (ParallelInstanceManager.workers (PoolRun.pool s)))
       <= default 10%Z maxWorkers)%Z)
  /\ ParallelInstanceManager.maxWorkers
       (ParallelInstanceManager.config (PoolRun.pool s))
     = default 10%Z maxWorkers
  /\ (2 <= default 10%Z maxWorkers <= 50)%Z.
Proof.
  unfold ParallelInstanceManager.new.
  destruct (Z.ltb_spec (default 10%Z maxWorkers) 2); [discriminate|].
  destruct (Z.ltb_spec 50 (default 10%Z maxWorkers)); [discriminate|].
  intros [= <-]. cbv zeta.
  match goal with
  | |- context [PoolRun.run steps ?s0] =>
      destruct (run_bounded steps s0 0) as [Hb Hc]
  end.
  { simpl. rewrite map_size_empty. unfold PoolRun.racing. simpl. lia. }
  rewrite Hc. simpl in Hb |- *.
  split; [lia|]. split; [lia|]. split; [reflexivity | lia].
Qed.

(** A pool of two: [w1] is spawned alone, then [w2] and [w3] are started
    together and both registered, which makes three workers and meets the
    bound. *)
Lemma pool_exceeds_limit_only_by_overlap_witness :
  ParallelInstanceManager.new (Some 2%Z) None None = Some (empty_pool 2)
  /\ size (ParallelInstanceManager.workers
             (PoolRun.pool
                (PoolRun.run overlapping_spawns (PoolRun.fresh (empty_pool 2)))))
     = 3%nat
  /\ PoolRun.overlap overlapping_spawns (PoolRun.fresh (empty_pool 2)) = 2%nat
  /\ (Z.of_nat
        (size (ParallelInstanceManager.workers
                 (PoolRun.pool
                    (PoolRun.run overlapping_spawns
                       (PoolRun.fresh (empty_pool 2))))))
      + Z.of_nat
          (PoolRun.racing
             (PoolRun.run overlapping_spawns (PoolRun.fresh (empty_pool 2))))
      <= 2 - 1
         + Z.of_nat
             (PoolRun.overlap overlapping_spawns
                (PoolRun.fresh (empty_pool 2))))%Z.
Proof.
  split; [reflexivity|].
  split; [vm_compute; reflexivity|].
  split; [vm_compute; reflexivity|].
  exact (proj1 (pool_exceeds_limit_only_by_overlap (Some 2%Z) None None
                  (empty_pool 2) overlapping_spawns ltac:(reflexivity))).
Defined.


(** ** RateLimiter: the sweep and the buckets *)

Lemma cleanup_history provider now l :
  history_of provider (RateLimiter.cleanup now l)
  = filter (in_window now) (history_of provider l).
Proof.
  unfold history_of, RateLimiter.cleanup. simpl. rewrite lookup_fmap.
  destruct (RateLimiter.requests l !! provider) as [h|]; simpl.
  - apply window_filter.
  - reflexivity.
Qed.

(** The sweep drops every bucket that is not strictly younger than 60 s, and
    no read at the time of the sweep or later can tell that it ran. *)
Theorem cleanup_is_invisible_to_later_reads (provider : string)
    (sweep now : Z) (l : RateLimiter.t) :
  (sweep <= now)%Z ->
  RateLimiter.getCurrentRPM provider now (RateLimiter.cleanup sweep l)
  = RateLimiter.getCurrentRPM provider now l
  /\ Forall (fun r => (sweep - 60000 < timestamp r)%Z)
            (history_of provider (RateLimiter.cleanup sweep l)).
Proof.
  intros Hle. rewrite !getCurrentRPM_sum, cleanup_history. split.
  - f_equal. induction (history_of provider l) as [|r h IH]; [reflexivity|].
    rewrite !filter_cons.
    destruct (decide (in_window sweep r)) as [Hs|Hs];
      destruct (decide (in_window now r)) as [Hn|Hn];
      unfold in_window in Hs, Hn; rewrite ?filter_cons;
      try rewrite decide_True by exact Hn;
      try rewrite decide_False by exact Hn;
      try (f_equal; exact IH); try exact IH.
    lia.
  - apply Forall_forall. intros r Hr.
    apply list_elem_of_filter in Hr as [Hr _]. exact Hr.
Qed.

(** A request at time 0, a sweep at 30 s, a read at 40 s. *)
Lemma cleanup_is_invisible_to_later_reads_witness :
  (30000 <= 40000)%Z
  /\ RateLimiter.getCurrentRPM "anthropic" 40000
       (RateLimiter.cleanup 30000
          (RateLimiter.track "anthropic" 1 0 (RateLimiter.new [])))
     = RateLimiter.getCurrentRPM "anthropic" 40000
         (RateLimiter.track "anthropic" 1 0 (RateLimiter.new [])).
Proof.
  split; [lia|].
  exact (proj1 (cleanup_is_invisible_to_later_reads "anthropic" 30000 40000
                  (RateLimiter.track "anthropic" 1 0 (RateLimiter.new []))
                  ltac:(lia))).
Defined.

Lemma record_request_timestamps second requestCount history :
  map timestamp (RateLimiter.record_request second requestCount history)
  = if bool_decide (second ∈ map timestamp history) then map timestamp history
    else map timestamp history ++ [second].
Proof.
  induction history as [|r h IH].
  - case_bool_decide as Hin; [inversion Hin | reflexivity].
  - cbn [RateLimiter.record_request map].
    destruct (Z.eqb_spec (timestamp r) second) as [Heq|Hne].
    + clear IH. cbn [map timestamp].
      case_bool_decide as Hin; [reflexivity|]. exfalso. apply Hin.
      rewrite Heq. left.
    + cbn [map]. rewrite IH.
      case_bool_decide as Hin; case_bool_decide as Hin'; try reflexivity.
      * exfalso. apply Hin'. right. exact Hin.
      * apply elem_of_cons in Hin' as [Heq|Hin']; [congruence | contradiction].
Qed.

Lemma NoDup_map_filter {A B : Type} (f : A -> B) (p : A -> bool) (l : list A) :
  NoDup (map f l) -> NoDup (map f (List.filter p l)).
Proof.
  induction l as [|x l IH]; simpl; [auto|].
  intros Hnd. apply NoDup_cons in Hnd as [Hx Hnd].
  destruct (p x); simpl; [|auto].
  apply NoDup_cons. split; [|auto].
  intros Hin. apply Hx. apply list_elem_of_fmap in Hin as (y & -> & Hy).
  apply list_elem_of_fmap. exists y. split; [reflexivity|].
  apply list_elem_of_In in Hy. apply filter_In in Hy as [Hy _].
  apply list_elem_of_In. exact Hy.
Qed.

(** From construction on, whatever is tracked, swept or reset, a provider's
    history holds at most one bucket per second, and every bucket timestamp
    is a whole second. *)
Theorem one_bucket_per_second (configs : list RateLimiter.RateLimitConfig)
    (ops : list limiter_op) (provider : string) :
  let history :=
    history_of provider (run_limiter_ops ops (RateLimiter.new configs)) in
  NoDup (map timestamp history)
  /\ Forall (fun r => (timestamp r mod 1000 = 0)%Z) history.
Proof.
  cbv zeta.
  assert (Hinv : forall ops l,
             (forall p, NoDup (map timestamp (history_of p l))
                        /\ Forall (fun r => (timestamp r mod 1000 = 0)%Z)
                                  (history_of p l)) ->
             forall p,
               NoDup (map timestamp (history_of p (run_limiter_ops ops l)))
               /\ Forall (fun r => (timestamp r mod 1000 = 0)%Z)
                         (history_of p (run_limiter_ops ops l))).
  { clear. induction ops as [|op ops IH]; intros l Hl; simpl; [exact Hl|].
    apply IH. intros p. destruct op as [q requestCount now|now|q]; simpl.
    - unfold history_of, RateLimiter.track. simpl.
      destruct (decide (q = p)) as [->|Hne].
      + rewrite lookup_insert_eq. simpl.
        destruct (Hl p) as [Hnd Hmod]. unfold history_of in Hnd, Hmod. split.
        * rewrite record_request_timestamps. case_bool_decide as Hin;
            [exact Hnd|].
          apply NoDup_app. split; [exact Hnd|].
          split; [|apply NoDup_singleton].
          intros x Hx Hx'. apply list_elem_of_singleton in Hx'. subst x.
          contradiction.
        * clear Hnd.
          induction (default [] (RateLimiter.requests l !! p)) as [|r h IHh];
            simpl.
          -- constructor; [|constructor]. simpl.
             unfold RateLimiter.currentSecond. apply Z.mod_mul. lia.
          -- apply Forall_cons in Hmod as [Hr Hh].
             destruct (timestamp r =? RateLimiter.currentSecond now)%Z.
             ++ constructor; [exact Hr | exact Hh].
             ++ constructor; [exact Hr | auto].
      + rewrite lookup_insert_ne by exact Hne. apply Hl.
    - destruct (Hl p) as [Hnd Hmod]. rewrite cleanup_history. split.
      + rewrite <- window_filter. apply NoDup_map_filter. exact Hnd.
      + apply Forall_forall. intros r Hr.
        apply list_elem_of_filter in Hr as [_ Hr].
        rewrite Forall_forall in Hmod. auto.
    - unfold history_of, RateLimiter.reset. simpl.
      destruct (decide (q = p)) as [->|Hne].
      + rewrite lookup_insert_eq. simpl. split; constructor.
      + rewrite lookup_insert_ne by exact Hne. apply Hl. }
  apply Hinv. intros p. rewrite new_history. split; constructor.
Qed.

(** ** WorkspaceAnalyzer: the verdict *)

Lemma pathsConflict_sym a path1 path2 :
  WorkspaceAnalyzer.pathsConflict a path1 path2
  = WorkspaceAnalyzer.pathsConflict a path2 path1.
Proof.
  unfold WorkspaceAnalyzer.pathsConflict, WorkspaceAnalyzer.nested,
    WorkspaceAnalyzer.wildcardConflict.
  rewrite (String.eqb_sym path2 path1).
  destruct (String.eqb path1 path2); [reflexivity|].
  destruct (WorkspaceAnalyzer.allowNestedDirs _),
    (WorkspaceAnalyzer.supportWildcards _),
    (String.eqb path1 "/"), (String.eqb path2 "/"),
    (startsWith (path2 ++ "/") path1), (startsWith (path1 ++ "/") path2);
    simpl; try reflexivity;
    destruct (str_includes "*" path1), (str_includes "*" path2);
    simpl; try reflexivity;
    destruct (WorkspaceAnalyzer.regex_test (WorkspaceAnalyzer.tokens path1)
                path2),
      (WorkspaceAnalyzer.regex_test (WorkspaceAnalyzer.tokens path2) path1);
    simpl; try reflexivity; apply orb_comm.
Qed.

Lemma clash_sym a task1 task2 : clash a task1 task2 = clash a task2 task1.
Proof.
  unfold clash. destruct (ws_path task1), (ws_path task2); try reflexivity.
  apply pathsConflict_sym.
Qed.

Lemma checkConflict_clash a task1 task2 :
  WorkspaceAnalyzer.checkConflict a task1 task2 = None
  <-> clash a task1 task2 = false.
Proof.
  unfold WorkspaceAnalyzer.checkConflict, clash.
  destruct (ws_path task1), (ws_path task2); try tauto.
  destruct (WorkspaceAnalyzer.pathsConflict _ _ _); split; congruence.
Qed.

Lemma conflicts_with_cons a task1 task2 later :
  length (WorkspaceAnalyzer.conflicts_with a task1 (task2 :: later))
  = ((if clash a task1 task2 then 1 else 0)
     + length (WorkspaceAnalyzer.conflicts_with a task1 later))%nat.
Proof.
  unfold WorkspaceAnalyzer.conflicts_with. cbn [omap list_omap].
  pose proof (checkConflict_clash a task1 task2) as Hc.
  unfold clash in *. unfold WorkspaceAnalyzer.checkConflict in *.
  destruct (ws_path task1), (ws_path task2); try reflexivity.
  destruct (WorkspaceAnalyzer.pathsConflict _ _ _); reflexivity.
Qed.

Lemma conflicts_with_nil a task1 later :
  WorkspaceAnalyzer.conflicts_with a task1 later = []
  <-> Forall (fun task2 => clash a task1 task2 = false) later.
Proof.
  induction later as [|task2 later IH].
  - split; [constructor | reflexivity].
  - rewrite Forall_cons, <- IH, <- !length_zero_iff_nil, conflicts_with_cons.
    destruct (clash a task1 task2); split; try lia; intros [? ?];
      try discriminate; lia.
Qed.

Lemma isValid_no_conflicts a tasks :
  WorkspaceAnalyzer.isValid (WorkspaceAnalyzer.validateAssignments a tasks)
  = (length (WorkspaceAnalyzer.all_conflicts a tasks) =? 0)%nat.
Proof.
  unfold WorkspaceAnalyzer.validateAssignments.
  cbn -[WorkspaceAnalyzer.all_conflicts].
  rewrite !filter_is_error_all by apply all_conflicts_severity.
  destruct (WorkspaceAnalyzer.strictMode _); reflexivity.
Qed.

(** The assignments are valid exactly when no two tasks at different
    positions of the list clash: both have a workspace path and the
    normalized paths conflict.  Tasks without a path never count. *)
Theorem validateAssignments_valid_iff (a : WorkspaceAnalyzer.t)
    (tasks : list WorkspaceTask) :
  WorkspaceAnalyzer.isValid (WorkspaceAnalyzer.validateAssignments a tasks)
  = true
  <-> forall (i j : nat) (task1 task2 : WorkspaceTask),
      i <> j -> tasks !! i = Some task1 -> tasks !! j = Some task2 ->
      clash a task1 task2 = false.
Proof.
  rewrite isValid_no_conflicts, Nat.eqb_eq, length_zero_iff_nil.
  induction tasks as [|task tasks IH].
  - split; [|reflexivity]. intros _ i j task1 task2 _ Hi. discriminate Hi.
  - cbn [WorkspaceAnalyzer.all_conflicts].
    rewrite app_nil, conflicts_with_nil, IH, Forall_forall. split.
    + intros [Hfirst Hrest] [|i] [|j] task1 task2 Hne Hi Hj;
        [contradiction | | |]; simpl in Hi, Hj.
      * injection Hi as <-. apply Hfirst. eapply list_elem_of_lookup_2, Hj.
      * injection Hj as <-. rewrite clash_sym. apply Hfirst.
        eapply list_elem_of_lookup_2, Hi.
      * apply (Hrest i j); [lia | exact Hi | exact Hj].
    + intros Hall. split.
      * intros task2 Hin. apply list_elem_of_lookup_1 in Hin as [j Hj].
        apply (Hall 0%nat (S j)); [lia | reflexivity | exact Hj].
      * intros i j task1 task2 Hne Hi Hj.
        apply (Hall (S i) (S j)); [lia | exact Hi | exact Hj].
Qed.

(** The number of reported conflicts, and with it the verdict, does not
    depend on the order in which the tasks are listed. *)
Theorem validateAssignments_order_independent (a : WorkspaceAnalyzer.t)
    (tasks tasks' : list WorkspaceTask) :
  tasks ≡ₚ tasks' ->
  length (WorkspaceAnalyzer.conflicts
            (WorkspaceAnalyzer.validateAssignments a tasks))
  = length (WorkspaceAnalyzer.conflicts
              (WorkspaceAnalyzer.validateAssignments a tasks'))
  /\ WorkspaceAnalyzer.isValid (WorkspaceAnalyzer.validateAssignments a tasks)
     = WorkspaceAnalyzer.isValid
         (WorkspaceAnalyzer.validateAssignments a tasks').
Proof.
  intros Hperm.
  assert (Hlen : length (WorkspaceAnalyzer.all_conflicts a tasks)
                 = length (WorkspaceAnalyzer.all_conflicts a tasks')).
  { induction Hperm as [|x l l' Hperm IH|x y l|l l' l'' _ IH1 _ IH2].
    - reflexivity.
    - cbn [WorkspaceAnalyzer.all_conflicts]. rewrite !length_app, IH.
      f_equal. apply Permutation_length.
      unfold WorkspaceAnalyzer.conflicts_with. rewrite Hperm. reflexivity.
    - cbn [WorkspaceAnalyzer.all_conflicts].
      rewrite !length_app, !conflicts_with_cons, (clash_sym a x y). lia.
    - congruence. }
  split; [exact Hlen|]. rewrite !isValid_no_conflicts, Hlen. reflexivity.
Qed.

(** The nested pair listed in both orders. *)
Lemma validateAssignments_order_independent_witness :
  nested_workspaces ≡ₚ rev nested_workspaces
  /\ WorkspaceAnalyzer.isValid
       (WorkspaceAnalyzer.validateAssignments
          (WorkspaceAnalyzer.new None None None false) nested_workspaces)
     = WorkspaceAnalyzer.isValid
         (WorkspaceAnalyzer.validateAssignments
            (WorkspaceAnalyzer.new None None None false)
            (rev nested_workspaces)).
Proof.
  assert (Hperm : nested_workspaces ≡ₚ rev nested_workspaces)
    by apply Permutation_swap.
  split; [exact Hperm|].
  exact (proj2 (validateAssignments_order_independent
                  (WorkspaceAnalyzer.new None None None false)
                  nested_workspaces (rev nested_workspaces) Hperm)).
Defined.

(** ** WorkspaceAnalyzer: normalized paths *)

Lemma lower_ascii_facts c :
  lower_ascii (lower_ascii c) = lower_ascii c
  /\ WorkspaceAnalyzer.is_slash (lower_ascii c) = WorkspaceAnalyzer.is_slash c
  /\ Ascii.eqb (lower_ascii c) "\" = Ascii.eqb c "\".
Proof. destruct c as [[] [] [] [] [] [] [] []]; repeat split. Qed.

Lemma is_slash_eq c : WorkspaceAnalyzer.is_slash c = true -> c = "/"%char.
Proof. apply Ascii.eqb_eq. Qed.

Lemma startsWith_slash s :
  startsWith "/" s = true <-> exists t, s = String "/" t.
Proof.
  unfold startsWith. destruct s as [|c s]; cbn [String.prefix].
  - split; [discriminate | intros [t Ht]; discriminate Ht].
  - destruct (ascii_dec "/" c) as [<-|Hne].
    + split; [eauto|]. intros _. destruct s; reflexivity.
    + split; [discriminate|]. intros [t Ht]. injection Ht as Hc _.
      congruence.
Qed.

Lemma collapse_cons c c' s :
  WorkspaceAnalyzer.collapse_slashes (String c (String c' s))
  = if WorkspaceAnalyzer.is_slash c && WorkspaceAnalyzer.is_slash c'
    then WorkspaceAnalyzer.collapse_slashes (String c' s)
    else String c (WorkspaceAnalyzer.collapse_slashes (String c' s)).
Proof. reflexivity. Qed.

Lemma collapse_first c s :
  exists t, WorkspaceAnalyzer.collapse_slashes (String c s) = String c t.
Proof.
  revert c. induction s as [|c' s IH]; intros c.
  - exists EmptyString. reflexivity.
  - rewrite collapse_cons.
    destruct (WorkspaceAnalyzer.is_slash c) eqn:Hc;
      destruct (WorkspaceAnalyzer.is_slash c') eqn:Hc'; simpl andb; cbv iota;
      eauto.
    apply is_slash_eq in Hc, Hc'. subst. apply IH.
Qed.

Lemma collapse_idempotent s :
  WorkspaceAnalyzer.collapse_slashes (WorkspaceAnalyzer.collapse_slashes s)
  = WorkspaceAnalyzer.collapse_slashes s.
Proof.
  induction s as [|c s IH]; [reflexivity|].
  destruct s as [|c' s]; [reflexivity|].
  rewrite collapse_cons.
  destruct (WorkspaceAnalyzer.is_slash c && WorkspaceAnalyzer.is_slash c')
    eqn:Hcc; [exact IH|].
  destruct (collapse_first c' s) as [t Ht]. rewrite Ht in IH |- *.
  rewrite collapse_cons, Hcc, IH. reflexivity.
Qed.

Lemma collapse_ends s :
  ends_in_slash (WorkspaceAnalyzer.collapse_slashes s) = ends_in_slash s.
Proof.
  induction s as [|c s IH]; [reflexivity|].
  destruct s as [|c' s]; [reflexivity|].
  rewrite collapse_cons.
  destruct (WorkspaceAnalyzer.is_slash c && WorkspaceAnalyzer.is_slash c');
    [exact IH|].
  destruct (collapse_first c' s) as [t Ht]. rewrite Ht in IH |- *.
  exact IH.
Qed.

Lemma collapse_backslash_free s :
  backslash_free s = true ->
  backslash_free (WorkspaceAnalyzer.collapse_slashes s) = true.
Proof.
  induction s as [|c s IH]; [reflexivity|].
  destruct s as [|c' s]; [auto|].
  intros Hbf. change (negb (Ascii.eqb c "\")
                      && backslash_free (String c' s) = true) in Hbf.
  apply andb_true_iff in Hbf as [Hc Hbf].
  rewrite collapse_cons.
  destruct (WorkspaceAnalyzer.is_slash c && WorkspaceAnalyzer.is_slash c');
    [auto|].
  change (negb (Ascii.eqb c "\")
          && backslash_free
               (WorkspaceAnalyzer.collapse_slashes (String c' s)) = true).
  rewrite Hc, IH by exact Hbf. reflexivity.
Qed.

Lemma collapse_toLowerCase s :
  toLowerCase (WorkspaceAnalyzer.collapse_slashes s)
  = WorkspaceAnalyzer.collapse_slashes (toLowerCase s).
Proof.
  induction s as [|c s IH]; [reflexivity|].
  destruct s as [|c' s]; [reflexivity|].
  change (toLowerCase (String c (String c' s)))
    with (String (lower_ascii c) (String (lower_ascii c') (toLowerCase s))).
  change (String (lower_ascii c') (toLowerCase s))
    with (toLowerCase (String c' s)) in IH.
  rewrite !collapse_cons.
  destruct (lower_ascii_facts c) as (_ & -> & _).
  destruct (lower_ascii_facts c') as (_ & -> & _).
  destruct (WorkspaceAnalyzer.is_slash c && WorkspaceAnalyzer.is_slash c');
    [exact IH|].
  cbn [toLowerCase]. f_equal. exact IH.
Qed.

Lemma toLowerCase_idempotent s : toLowerCase (toLowerCase s) = toLowerCase s.
Proof.
  induction s as [|c s IH]; simpl; [reflexivity|].
  destruct (lower_ascii_facts c) as (-> & _). rewrite IH. reflexivity.
Qed.

Lemma toLowerCase_ends s : ends_in_slash (toLowerCase s) = ends_in_slash s.
Proof.
  induction s as [|c s IH]; [reflexivity|].
  destruct s as [|c' s]; [|exact IH].
  simpl. destruct (lower_ascii_facts c) as (_ & -> & _). reflexivity.
Qed.

Lemma toLowerCase_backslash_free s :
  backslash_free (toLowerCase s) = backslash_free s.
Proof.
  induction s as [|c s IH]; simpl; [reflexivity|].
  destruct (lower_ascii_facts c) as (_ & _ & ->). rewrite IH. reflexivity.
Qed.

Lemma strip_ends s :
  ends_in_slash (WorkspaceAnalyzer.strip_trailing_slashes s) = false.
Proof.
  induction s as [|c s IH]; [reflexivity|].
  cbn [WorkspaceAnalyzer.strip_trailing_slashes].
  destruct (WorkspaceAnalyzer.strip_trailing_slashes s) as [|c' r].
  - destruct (WorkspaceAnalyzer.is_slash c) eqn:Hc; [reflexivity | exact Hc].
  - exact IH.
Qed.

Lemma strip_fixed s :
  ends_in_slash s = false -> WorkspaceAnalyzer.strip_trailing_slashes s = s.
Proof.
  induction s as [|c s IH]; [reflexivity|].
  destruct s as [|c' s].
  - simpl. intros ->. reflexivity.
  - intros Hends.
    change (WorkspaceAnalyzer.strip_trailing_slashes (String c (String c' s)))
      with (match WorkspaceAnalyzer.strip_trailing_slashes (String c' s) with
            | EmptyString =>
                if WorkspaceAnalyzer.is_slash c then EmptyString
                else String c EmptyString
            | String _ _ as r => String c r
            end).
    rewrite IH by exact Hends. reflexivity.
Qed.

Lemma strip_backslash_free s :
  backslash_free s = true ->
  backslash_free (WorkspaceAnalyzer.strip_trailing_slashes s) = true.
Proof.
  induction s as [|c s IH]; [reflexivity|].
  intros Hbf. cbn [backslash_free] in Hbf.
  apply andb_true_iff in Hbf as [Hc Hbf].
  cbn [WorkspaceAnalyzer.strip_trailing_slashes].
  destruct (WorkspaceAnalyzer.strip_trailing_slashes s) as [|c' r].
  - destruct (WorkspaceAnalyzer.is_slash c); [reflexivity|].
    simpl. rewrite Hc. reflexivity.
  - cbn [backslash_free]. rewrite Hc. simpl. exact (IH Hbf).
Qed.

Lemma backslashes_to_slashes_free s :
  backslash_free (WorkspaceAnalyzer.backslashes_to_slashes s) = true.
Proof.
  induction s as [|c s IH]; simpl; [reflexivity|].
  rewrite IH. destruct (Ascii.eqb c "\") eqn:Hc; simpl;
    [reflexivity | rewrite Hc; reflexivity].
Qed.

Lemma backslashes_to_slashes_fixed s :
  backslash_free s = true -> WorkspaceAnalyzer.backslashes_to_slashes s = s.
Proof.
  induction s as [|c s IH]; simpl; [reflexivity|].
  intros Hbf. apply andb_true_iff in Hbf as [Hc Hbf].
  rewrite IH by exact Hbf. destruct (Ascii.eqb c "\"); [discriminate Hc|].
  reflexivity.
Qed.

(** What the first four steps of [normalizePath] hand to the last one. *)
Lemma normalizePath_steps a path :
  path <> EmptyString ->
  exists n4,
    WorkspaceAnalyzer.normalizePath a path
    = WorkspaceAnalyzer.collapse_slashes n4
    /\ (exists t, n4 = String "/" t)
    /\ backslash_free n4 = true
    /\ (n4 = "/" \/ ends_in_slash n4 = false)
    /\ (WorkspaceAnalyzer.win32 a = true -> toLowerCase n4 = n4).
Proof.
  intros Hne. unfold WorkspaceAnalyzer.normalizePath.
  destruct (String.eqb_spec path EmptyString) as [->|_]; [contradiction|].
  cbv zeta.
  set (n1 := WorkspaceAnalyzer.backslashes_to_slashes path).
  assert (Hn1 : backslash_free n1 = true) by apply backslashes_to_slashes_free.
  assert (Hn1ne : n1 <> EmptyString).
  { subst n1. destruct path; [contradiction | discriminate]. }
  set (n2 := if (1 <? String.length n1)%nat
             then WorkspaceAnalyzer.strip_trailing_slashes n1 else n1).
  assert (Hn2 : backslash_free n2 = true).
  { subst n2. destruct (1 <? String.length n1)%nat;
      [apply strip_backslash_free|]; exact Hn1. }
  assert (Hn2e : ends_in_slash n2 = false \/ n2 = "/").
  { subst n2. destruct (1 <? String.length n1)%nat eqn:Hlen.
    - left. apply strip_ends.
    - destruct n1 as [|c [|c' n1]]; [contradiction | | discriminate Hlen].
      simpl. destruct (WorkspaceAnalyzer.is_slash c) eqn:Hc; [|auto].
      right. apply is_slash_eq in Hc. subst c. reflexivity. }
  clearbody n2. clear n1 Hn1 Hn1ne.
  set (n3 := if startsWith "/" n2 then n2 else ("/" ++ n2)%string).
  assert (Hn3 : (exists t, n3 = String "/" t)
                /\ backslash_free n3 = true
                /\ (n3 = "/" \/ ends_in_slash n3 = false)).
  { subst n3. destruct (startsWith "/" n2) eqn:Hstart.
    - split; [apply startsWith_slash; exact Hstart|].
      split; [exact Hn2|]. tauto.
    - split; [exists n2; reflexivity|]. split; [exact Hn2|].
      destruct Hn2e as [Hends| ->]; [|discriminate Hstart].
      destruct n2 as [|c n2]; [left; reflexivity|]. right. exact Hends. }
  clearbody n3. destruct Hn3 as ((t & Ht) & Hbf & Hends).
  destruct (WorkspaceAnalyzer.win32 a).
  - exists (toLowerCase n3). split; [reflexivity|].
    split; [exists (toLowerCase t); rewrite Ht; reflexivity|].
    split; [rewrite toLowerCase_backslash_free; exact Hbf|].
    split; [|intros _; apply toLowerCase_idempotent].
    destruct Hends as [->|Hends]; [left; reflexivity|].
    right. rewrite toLowerCase_ends. exact Hends.
  - exists n3. split; [reflexivity|]. split; [eauto|].
    split; [exact Hbf|]. split; [exact Hends | discriminate].
Qed.

(** [normalizePath] returns a canonical path: it starts with a slash, holds
    no backslash, does not end in a slash unless it is the root, and
    normalizing it again changes nothing. *)
Theorem normalizePath_canonical (a : WorkspaceAnalyzer.t) (path : string) :
  let normalized := WorkspaceAnalyzer.normalizePath a path in
  WorkspaceAnalyzer.normalizePath a normalized = normalized
  /\ startsWith "/" normalized = true
  /\ backslash_free normalized = true
  /\ (normalized = "/" \/ ends_in_slash normalized = false).
Proof.
  cbv zeta. destruct (String.eqb_spec path EmptyString) as [->|Hne].
  { destruct a as [cfg []];
      (split; [reflexivity|]); (split; [reflexivity|]);
      (split; [reflexivity | left; reflexivity]). }
  destruct (normalizePath_steps a path Hne)
    as (n4 & -> & (t & Ht) & Hbf & Hends & Hlow).
  set (r := WorkspaceAnalyzer.collapse_slashes n4).
  assert (Hstart : exists t', r = String "/" t').
  { subst r. rewrite Ht. apply collapse_first. }
  assert (Hrbf : backslash_free r = true)
    by (apply collapse_backslash_free; exact Hbf).
  assert (Hrends : r = "/" \/ ends_in_slash r = false).
  { subst r. destruct Hends as [->|Hends]; [left; reflexivity|].
    right. rewrite collapse_ends. exact Hends. }
  split; [|split; [apply startsWith_slash; exact Hstart | tauto]].
  unfold WorkspaceAnalyzer.normalizePath.
  destruct (String.eqb_spec r EmptyString) as [Hr|_].
  { destruct Hstart as [t' Ht']. congruence. }
  cbv zeta. rewrite (backslashes_to_slashes_fixed r Hrbf).
  assert (Hstrip : (if (1 <? String.length r)%nat
                    then WorkspaceAnalyzer.strip_trailing_slashes r else r)
                   = r).
  { destruct Hrends as [->|Hrends]; [reflexivity|].
    rewrite strip_fixed by exact Hrends.
    destruct (1 <? String.length r)%nat; reflexivity. }
  rewrite Hstrip.
  rewrite (proj2 (startsWith_slash r) Hstart).
  assert (Hlower : (if WorkspaceAnalyzer.win32 a then toLowerCase r else r)
                   = r).
  { destruct (WorkspaceAnalyzer.win32 a); [|reflexivity].
    subst r. rewrite collapse_toLowerCase, Hlow by reflexivity.
    reflexivity. }
  rewrite Hlower. apply collapse_idempotent.
Qed.

(** ** IPCChannel: the queues *)

Lemma emit_listeners_maxQueueSize message ws c :
  IPCChannel.maxQueueSize
    (fold_left (fun c w => IPCChannel.run_listener message w c) ws c)
  = IPCChannel.maxQueueSize c.
Proof.
  revert c. induction ws as [|w ws IH]; intros c; simpl; [reflexivity|].
  rewrite IH. unfold IPCChannel.run_listener.
  destruct (waiter_filter w message); reflexivity.
Qed.

Lemma handleMessage_maxQueueSize message c :
  IPCChannel.maxQueueSize (IPCChannel.handleMessage message c)
  = IPCChannel.maxQueueSize c.
Proof.
  unfold IPCChannel.handleMessage.
  destruct (IPCChannel.pending_for message c) as [[cid p]|]; [reflexivity|].
  unfold IPCChannel.emit_message. rewrite emit_listeners_maxQueueSize.
  reflexivity.
Qed.

Lemma handleMessage_queue message c :
  IPCChannel.pending_for message c = None ->
  IPCChannel.messageQueue (IPCChannel.handleMessage message c)
  = JsMap.set (to message)
      (IPCChannel.enqueue (IPCChannel.maxQueueSize c) message
         (IPCChannel.queue_of (to message) c))
      (IPCChannel.messageQueue c).
Proof.
  intros Hp. unfold IPCChannel.handleMessage. rewrite Hp.
  unfold IPCChannel.emit_message. rewrite emit_listeners_queue. reflexivity.
Qed.

Lemma take_first_length filter queue found rest :
  IPCChannel.take_first filter queue = Some (found, rest) ->
  length queue = S (length rest).
Proof.
  intros H. apply take_first_Some in H as (_ & before & after & -> & -> & _).
  rewrite !length_app. simpl. lia.
Qed.

Lemma scan_Forall (P : nat -> Prop) filter queues found queues' :
  (forall n, P (S n) -> P n) ->
  IPCChannel.scan filter queues = Some (found, queues') ->
  Forall (fun kv => P (length (snd kv))) queues ->
  Forall (fun kv => P (length (snd kv))) queues'.
Proof.
  intros Hdown. revert queues'.
  induction queues as [|[destination queue] queues IH]; intros queues';
    simpl; [discriminate|].
  intros Hscan Hall. apply Forall_cons in Hall as [Hq Hall].
  destruct (IPCChannel.take_first filter queue) as [[m rest]|] eqn:Htake.
  - injection Hscan as <- <-. constructor; [|exact Hall].
    simpl in *. apply Hdown. rewrite <- (take_first_length _ _ _ _ Htake).
    exact Hq.
  - destruct (IPCChannel.scan filter queues) as [[m rest]|]; [|discriminate].
    injection Hscan as <- <-. constructor; [exact Hq | auto].
Qed.

(** From construction on, whatever arrives, whoever waits and whichever
    timers fire, no destination's queue grows beyond [maxQueueSize]
    messages (beyond one, for a limit below one), and the limit stays the
    configured one. *)
Theorem queue_never_exceeds_maxQueueSize (maxQueueSize : option Z)
    (ops : list channel_op) (destination : string) :
  let c := run_channel_ops ops (IPCChannel.new maxQueueSize) in
  IPCChannel.maxQueueSize c = default 1000%Z maxQueueSize
  /\ (Z.of_nat (length (IPCChannel.queue_of destination c))
      <= Z.max (default 1000 maxQueueSize) 1)%Z.
Proof.
  cbv zeta. set (limit := default 1000%Z maxQueueSize).
  set (bounded := fun kv : string * list IPCMessage =>
                    (Z.of_nat (length (snd kv)) <= Z.max limit 1)%Z).
  assert (Hinv : forall ops c,
             IPCChannel.maxQueueSize c = limit ->
             Forall bounded (IPCChannel.messageQueue c) ->
             IPCChannel.maxQueueSize (run_channel_ops ops c) = limit
             /\ Forall bounded
                  (IPCChannel.messageQueue (run_channel_ops ops c))).
  { clear ops. induction ops as [|op ops IH]; intros c Hmax Hall; simpl;
      [auto|].
    apply IH; destruct op as [message|filter key|p key]; simpl;
      try assumption.
    - rewrite handleMessage_maxQueueSize. exact Hmax.
    - unfold IPCChannel.waitForMessage.
      destruct (IPCChannel.scan filter (IPCChannel.messageQueue c))
        as [[message queues]|]; simpl; exact Hmax.
    - unfold IPCChannel.handleMessage.
      destruct (IPCChannel.pending_for message c) as [[cid p]|] eqn:Hp;
        [exact Hall|].
      unfold IPCChannel.emit_message. rewrite emit_listeners_queue.
      cbn [IPCChannel.messageQueue IPCChannel.maxQueueSize].
      apply set_Forall; [exact Hall|].
      assert (Hq : (Z.of_nat
                      (length (default [] (JsMap.get (to message)
                                             (IPCChannel.messageQueue c))))
                    <= Z.max limit 1)%Z).
      { destruct (JsMap.get (to message) (IPCChannel.messageQueue c))
          as [queue|] eqn:Hget; simpl; [|lia].
        apply JsMap_get_in in Hget. rewrite Forall_forall in Hall.
        exact (Hall _ Hget). }
      unfold bounded. cbn [snd]. unfold IPCChannel.enqueue. rewrite Hmax.
      destruct (Z.leb_spec limit
                  (Z.of_nat (length (default [] (JsMap.get (to message)
                                        (IPCChannel.messageQueue c))))))
        as [Hfull|Hroom]; rewrite length_app; simpl.
      + destruct (default [] _) as [|oldest rest]; simpl in *; lia.
      + lia.
    - unfold IPCChannel.waitForMessage.
      destruct (IPCChannel.scan filter (IPCChannel.messageQueue c))
        as [[message queues]|] eqn:Hscan; simpl; [|exact Hall].
      eapply (scan_Forall (fun n => (Z.of_nat n <= Z.max limit 1)%Z));
        [intros n Hn; lia | exact Hscan | exact Hall]. }
  destruct (Hinv ops (IPCChannel.new maxQueueSize) eq_refl
              (List.Forall_nil bounded)) as [Hmax Hall].
  split; [exact Hmax|]. unfold IPCChannel.queue_of.
  destruct (JsMap.get destination _) as [queue|] eqn:Hget; simpl; [|lia].
  apply JsMap_get_in in Hget. rewrite Forall_forall in Hall.
  exact (Hall _ Hget).
Qed.

(** A message that answers no pending wait and arrives at a full queue
    takes the place of the oldest message there, which is dropped without
    any notice; the queues of the other destinations are left alone. *)
Theorem handleMessage_full_queue_drops_oldest (message oldest : IPCMessage)
    (rest : list IPCMessage) (c : IPCChannel.t) :
  IPCChannel.pending_for message c = None ->
  IPCChannel.queue_of (to message) c = oldest :: rest ->
  (IPCChannel.maxQueueSize c <= Z.of_nat (length (oldest :: rest)))%Z ->
  IPCChannel.queue_of (to message) (IPCChannel.handleMessage message c)
  = rest ++ [message]
  /\ forall destination,
      destination <> to message ->
      IPCChannel.queue_of destination (IPCChannel.handleMessage message c)
      = IPCChannel.queue_of destination c.
Proof.
  intros Hp Hq Hfull. split.
  - unfold IPCChannel.queue_of at 1. rewrite handleMessage_queue by exact Hp.
    rewrite JsMap_get_set_eq, Hq. simpl default. unfold IPCChannel.enqueue.
    destruct (Z.leb_spec (IPCChannel.maxQueueSize c)
                (Z.of_nat (length (oldest :: rest)))); [reflexivity | lia].
  - intros destination Hne. unfold IPCChannel.queue_of.
    rewrite handleMessage_queue by exact Hp.
    rewrite JsMap_get_set_ne by (intros Heq; apply Hne; symmetry; exact Heq).
    reflexivity.
Qed.

(** A channel of size one holding a heartbeat receives a completion. *)
Lemma handleMessage_full_queue_drops_oldest_witness :
  IPCChannel.pending_for completion_message tiny_channel = None
  /\ IPCChannel.queue_of "orchestrator" tiny_channel = [heartbeat_message]
  /\ IPCChannel.queue_of "orchestrator"
       (IPCChannel.handleMessage completion_message tiny_channel)
     = [completion_message].
Proof.
  split; [reflexivity|]. split; [reflexivity|].
  exact (proj1 (handleMessage_full_queue_drops_oldest completion_message
                  heartbeat_message [] tiny_channel
                  ltac:(reflexivity) ltac:(reflexivity)
                  ltac:(vm_compute; discriminate))).
Defined.

(** ** IPCServer and IPCClient: framing *)

Lemma string_app_cons (x : ascii) (a b : string) :
  (String x a ++ b)%string = String x (a ++ b).
Proof. reflexivity. Qed.

Lemma string_app_assoc (a b c : string) :
  ((a ++ b) ++ c)%string = (a ++ (b ++ c))%string.
Proof.
  induction a as [|x a IH]; [reflexivity|].
  rewrite !string_app_cons, IH. reflexivity.
Qed.

(** The segments of [a ++ b]: those of [a] but the last, then those of the
    last segment of [a] followed by [b]. *)
Lemma split_newline_app (a : string) :
  exists init l,
    split_newline a = init ++ [l]
    /\ forall b, split_newline (a ++ b) = init ++ split_newline (l ++ b).
Proof.
  induction a as [|c a (init & l & Ha & Hab)].
  - exists [], EmptyString. split; reflexivity.
  - destruct (Ascii.eqb c "010") eqn:Hc.
    + exists (EmptyString :: init), l. split.
      * cbn [split_newline]. rewrite Hc, Ha. reflexivity.
      * intros b. rewrite string_app_cons. cbn [split_newline].
        rewrite Hc, Hab. reflexivity.
    + destruct init as [|i0 init].
      * exists [], (String c l). split.
        -- cbn [split_newline]. rewrite Hc, Ha. reflexivity.
        -- intros b. rewrite !string_app_cons. cbn [split_newline].
           rewrite Hc, Hab. reflexivity.
      * exists (String c i0 :: init), l. split.
        -- cbn [split_newline]. rewrite Hc, Ha. reflexivity.
        -- intros b. rewrite string_app_cons. cbn [split_newline].
           rewrite Hc, Hab. reflexivity.
Qed.

Lemma client_with_buffer_same c :
  IPCClient.with_buffer (IPCClient.messageBuffer c) c = c.
Proof. destruct c. reflexivity. Qed.

Lemma client_process_with_buffer env buffer c line :
  IPCClient.process_line env (IPCClient.with_buffer buffer c) line
  = ended_map (IPCClient.with_buffer buffer) (IPCClient.process_line env c line).
Proof.
  unfold IPCClient.process_line, IPCClient.report.
  destruct (blank line); [reflexivity|].
  destruct (JSON_parse env line) as [message|].
  - destruct (message_returns env message); [reflexivity|].
    destruct (error_returns env line); reflexivity.
  - destruct (error_returns env line); reflexivity.
Qed.

Lemma client_lines_with_buffer env buffer lines c :
  IPCClient.process_lines env lines (IPCClient.with_buffer buffer c)
  = ended_map (IPCClient.with_buffer buffer)
      (IPCClient.process_lines env lines c).
Proof.
  revert c. induction lines as [|line lines IH]; intros c; [reflexivity|].
  cbn [IPCClient.process_lines]. rewrite client_process_with_buffer.
  destruct (IPCClient.process_line env c line) as [c'|c']; simpl;
    [apply IH | reflexivity].
Qed.

Lemma client_lines_app env lines1 lines2 c :
  IPCClient.process_lines env (lines1 ++ lines2) c
  = match IPCClient.process_lines env lines1 c with
    | Returns c' => IPCClient.process_lines env lines2 c'
    | Throws c' => Throws c'
    end.
Proof.
  revert c. induction lines1 as [|line lines1 IH]; intros c; [reflexivity|].
  simpl. destruct (IPCClient.process_line env c line) as [c'|c'];
    [apply IH | reflexivity].
Qed.

Lemma client_handleData_split env data c init l :
  split_newline (IPCClient.messageBuffer c ++ toString env data) = init ++ [l] ->
  IPCClient.handleData env data c
  = ended_map (IPCClient.with_buffer l) (IPCClient.process_lines env init c).
Proof.
  intros Hsplit. unfold IPCClient.handleData. cbv zeta.
  rewrite Hsplit, removelast_last, last_snoc.
  rewrite <- client_lines_with_buffer. reflexivity.
Qed.

(** A chunk cut in two where the decoder does not care: the second half
    continues where the first stopped, and a throw in the first half is the
    throw of the whole, up to the rest kept in the buffer. *)
Lemma client_handleData_app env a b c :
  toString env (a ++ b) = (toString env a ++ toString env b)%string ->
  exists l,
    IPCClient.handleData env (a ++ b) c
    = match IPCClient.handleData env a c with
      | Returns c1 => IPCClient.handleData env b c1
      | Throws c1 => Throws (IPCClient.with_buffer l c1)
      end.
Proof.
  intros Hcut.
  destruct (split_newline_app (IPCClient.messageBuffer c ++ toString env a))
    as (init1 & l1 & H1 & H1b).
  destruct (split_newline_app (l1 ++ toString env b)) as (init2 & l2 & H2 & _).
  exists l2.
  rewrite (client_handleData_split env a c init1 l1 H1).
  rewrite (client_handleData_split env (a ++ b) c (init1 ++ init2) l2);
    [|rewrite Hcut, <- string_app_assoc, H1b, H2, app_assoc; reflexivity].
  rewrite client_lines_app.
  destruct (IPCClient.process_lines env init1 c) as [c1|c1]; simpl;
    [|reflexivity].
  rewrite (client_handleData_split env b _ init2 l2) by exact H2.
  rewrite client_lines_with_buffer.
  destruct (IPCClient.process_lines env init2 c1); reflexivity.
Qed.

Lemma client_deliver_whole env chunk chunks c :
  cut_between_characters (toString env) (chunk :: chunks) ->
  exists l,
    IPCClient.handleData env (concat (chunk :: chunks)) c
    = match IPCClient.deliver env (chunk :: chunks) c with
      | Returns c' => Returns c'
      | Throws c' => Throws (IPCClient.with_buffer l c')
      end.
Proof.
  revert chunk c. induction chunks as [|chunk' chunks IH]; intros chunk c Hcut.
  - exists (IPCClient.messageBuffer
              (reached (IPCClient.handleData env chunk c))).
    simpl. rewrite app_nil_r.
    destruct (IPCClient.handleData env chunk c) as [c'|c']; simpl;
      [reflexivity|].
    rewrite client_with_buffer_same. reflexivity.
  - destruct Hcut as [Hhere Hrest].
    destruct (client_handleData_app env chunk (concat (chunk' :: chunks)) c
                Hhere) as (l & Hl).
    change (concat (chunk :: chunk' :: chunks))
      with (chunk ++ concat (chunk' :: chunks)).
    rewrite Hl.
    change (IPCClient.deliver env (chunk :: chunk' :: chunks) c)
      with (match IPCClient.handleData env chunk c with
            | Returns c1 => IPCClient.deliver env (chunk' :: chunks) c1
            | Throws c1 => Throws c1
            end).
    destruct (IPCClient.handleData env chunk c) as [c1|c1].
    + apply IH. exact Hrest.
    + exists l. reflexivity.
Qed.

(** However the stream a client receives is cut into chunks, as long as no
    cut falls inside a character: the chunks are all handled without an
    exception exactly when the whole text is, and then the client ends in
    the state it reaches when the whole text arrives at once, with the same
    events in the same order and the same unfinished line in the buffer.
    When an exception leaves a handler, the whole text throws as well, after
    the same events, and only the buffered rest differs. *)
Theorem client_handleData_ignores_chunking
    (env : LinkEnv) (chunk : Buffer) (chunks : list Buffer)
    (c : IPCClient.t) :
  cut_between_characters (toString env) (chunk :: chunks) ->
  (forall c',
      IPCClient.deliver env (chunk :: chunks) c = Returns c'
      <-> IPCClient.handleData env (concat (chunk :: chunks)) c = Returns c')
  /\ (forall c',
        IPCClient.deliver env (chunk :: chunks) c = Throws c' ->
        exists l,
          IPCClient.handleData env (concat (chunk :: chunks)) c
          = Throws (IPCClient.with_buffer l c')).
Proof.
  intros Hcut.
  destruct (client_deliver_whole env chunk chunks c Hcut) as (l & Hl).
  rewrite Hl. split.
  - intros c'.
    destruct (IPCClient.deliver env (chunk :: chunks) c); split; congruence.
  - intros c' Hthrow. rewrite Hthrow. exists l. reflexivity.
Qed.

(** Two messages in three chunks, the cuts inside the lines. *)
Lemma client_handleData_ignores_chunking_witness :
  cut_between_characters (toString sample_link)
    [bytes "h"; bytes ("b" ++ LF ++ "do"); bytes ("ne" ++ LF)]
  /\ IPCClient.emitted
       (reached
          (IPCClient.deliver sample_link
             [bytes "h"; bytes ("b" ++ LF ++ "do"); bytes ("ne" ++ LF)]
             (IPCClient.new None None)))
     = [message_received heartbeat_message;
        message_received completion_message].
Proof.
  assert (Hcut : cut_between_characters (toString sample_link)
                   [bytes "h"; bytes ("b" ++ LF ++ "do"); bytes ("ne" ++ LF)]).
  { repeat split; vm_compute; reflexivity. }
  split; [exact Hcut|].
  rewrite (proj2 (proj1 (client_handleData_ignores_chunking sample_link
                           (bytes "h")
                           [bytes ("b" ++ LF ++ "do"); bytes ("ne" ++ LF)]
                           (IPCClient.new None None) Hcut)
                    (reached
                       (IPCClient.handleData sample_link
                          (bytes ("hb" ++ LF ++ "done" ++ LF))
                          (IPCClient.new None None))))
             ltac:(vm_compute; reflexivity)).
  vm_compute. reflexivity.
Defined.

Lemma server_process_with_buffer env socket socket' buffer s line :
  IPCServer.process_line env socket (IPCServer.with_buffer socket' buffer s)
    line
  = ended_map (IPCServer.with_buffer socket' buffer)
      (IPCServer.process_line env socket s line).
Proof.
  unfold IPCServer.process_line, IPCServer.report.
  destruct (blank line); [reflexivity|].
  destruct (JSON_parse env line) as [message|].
  - destruct (message_returns env message); [reflexivity|].
    destruct (error_returns env line); reflexivity.
  - destruct (error_returns env line); reflexivity.
Qed.

Lemma server_lines_with_buffer env socket socket' buffer lines s :
  IPCServer.process_lines env socket lines
    (IPCServer.with_buffer socket' buffer s)
  = ended_map (IPCServer.with_buffer socket' buffer)
      (IPCServer.process_lines env socket lines s).
Proof.
  revert s. induction lines as [|line lines IH]; intros s; [reflexivity|].
  cbn [IPCServer.process_lines]. rewrite server_process_with_buffer.
  destruct (IPCServer.process_line env socket s line) as [s'|s']; simpl;
    [apply IH | reflexivity].
Qed.

Lemma server_lines_app env socket lines1 lines2 s :
  IPCServer.process_lines env socket (lines1 ++ lines2) s
  = match IPCServer.process_lines env socket lines1 s with
    | Returns s' => IPCServer.process_lines env socket lines2 s'
    | Throws s' => Throws s'
    end.
Proof.
  revert s. induction lines1 as [|line lines1 IH]; intros s; [reflexivity|].
  simpl. destruct (IPCServer.process_line env socket s line) as [s'|s'];
    [apply IH | reflexivity].
Qed.

Lemma server_handleData_split env socket data s init l :
  split_newline
    (default EmptyString (IPCServer.messageBuffer s !! socket)
     ++ toString env data)
  = init ++ [l] ->
  IPCServer.handleData env socket data s
  = ended_map (IPCServer.with_buffer socket l)
      (IPCServer.process_lines env socket init s).
Proof.
  intros Hsplit. unfold IPCServer.handleData. cbv zeta.
  rewrite Hsplit, removelast_last, last_snoc.
  rewrite <- server_lines_with_buffer. reflexivity.
Qed.

Lemma server_with_buffer_twice socket buffer buffer' s :
  IPCServer.with_buffer socket buffer (IPCServer.with_buffer socket buffer' s)
  = IPCServer.with_buffer socket buffer s.
Proof.
  unfold IPCServer.with_buffer. simpl. rewrite insert_insert_eq. reflexivity.
Qed.

Lemma server_handleData_app env socket a b s :
  toString env (a ++ b) = (toString env a ++ toString env b)%string ->
  exists l,
    IPCServer.handleData env socket (a ++ b) s
    = match IPCServer.handleData env socket a s with
      | Returns s1 => IPCServer.handleData env socket b s1
      | Throws s1 => Throws (IPCServer.with_buffer socket l s1)
      end.
Proof.
  intros Hcut.
  destruct (split_newline_app
              (default EmptyString (IPCServer.messageBuffer s !! socket)
               ++ toString env a))
    as (init1 & l1 & H1 & H1b).
  destruct (split_newline_app (l1 ++ toString env b)) as (init2 & l2 & H2 & _).
  exists l2.
  rewrite (server_handleData_split env socket a s init1 l1 H1).
  rewrite (server_handleData_split env socket (a ++ b) s (init1 ++ init2) l2);
    [|rewrite Hcut, <- string_app_assoc, H1b, H2, app_assoc; reflexivity].
  rewrite server_lines_app.
  destruct (IPCServer.process_lines env socket init1 s) as [s1|s1]; simpl;
    [|rewrite server_with_buffer_twice; reflexivity].
  rewrite (server_handleData_split env socket b _ init2 l2).
  - rewrite server_lines_with_buffer.
    destruct (IPCServer.process_lines env socket init2 s1); simpl;
      rewrite server_with_buffer_twice; reflexivity.
  - unfold IPCServer.with_buffer at 1. simpl. rewrite lookup_insert_eq.
    exact H2.
Qed.

Lemma server_deliver_whole env socket chunk chunks s :
  cut_between_characters (toString env) (chunk :: chunks) ->
  exists l,
    IPCServer.handleData env socket (concat (chunk :: chunks)) s
    = match IPCServer.deliver env socket (chunk :: chunks) s with
      | Returns s' => Returns s'
      | Throws s' => Throws (IPCServer.with_buffer socket l s')
      end.
Proof.
  revert chunk s. induction chunks as [|chunk' chunks IH]; intros chunk s Hcut.
  - destruct (split_newline_app
                (default EmptyString (IPCServer.messageBuffer s !! socket)
                 ++ toString env chunk))
      as (init & l & Hsplit & _).
    exists l. simpl. rewrite app_nil_r.
    rewrite (server_handleData_split env socket chunk s init l Hsplit).
    destruct (IPCServer.process_lines env socket init s); simpl;
      [reflexivity|].
    rewrite server_with_buffer_twice. reflexivity.
  - destruct Hcut as [Hhere Hrest].
    destruct (server_handleData_app env socket chunk
                (concat (chunk' :: chunks)) s Hhere) as (l & Hl).
    change (concat (chunk :: chunk' :: chunks))
      with (chunk ++ concat (chunk' :: chunks)).
    rewrite Hl.
    change (IPCServer.deliver env socket (chunk :: chunk' :: chunks) s)
      with (match IPCServer.handleData env socket chunk s with
            | Returns s1 => IPCServer.deliver env socket (chunk' :: chunks) s1
            | Throws s1 => Throws s1
            end).
    destruct (IPCServer.handleData env socket chunk s) as [s1|s1].
    + apply IH. exact Hrest.
    + exists l. reflexivity.
Qed.

(** The same on the server, socket by socket, as long as no cut falls
    inside a character: the chunks of a socket's stream are all handled
    without an exception exactly when the whole text is, and then the
    events, the registered workers and the buffered rest do not depend on
    how the stream was cut.  When an exception leaves a handler, the whole
    text throws as well, after the same events and registrations, and only
    the buffered rest of the socket differs. *)
Theorem server_handleData_ignores_chunking
    (env : LinkEnv) (socket : nat) (chunk : Buffer) (chunks : list Buffer)
    (s : IPCServer.t) :
  cut_between_characters (toString env) (chunk :: chunks) ->
  (forall s',
      IPCServer.deliver env socket (chunk :: chunks) s = Returns s'
      <-> IPCServer.handleData env socket (concat (chunk :: chunks)) s
          = Returns s')
  /\ (forall s',
        IPCServer.deliver env socket (chunk :: chunks) s = Throws s' ->
        exists l,
          IPCServer.handleData env socket (concat (chunk :: chunks)) s
          = Throws (IPCServer.with_buffer socket l s')).
Proof.
  intros Hcut.
  destruct (server_deliver_whole env socket chunk chunks s Hcut) as (l & Hl).
  rewrite Hl. split.
  - intros s'.
    destruct (IPCServer.deliver env socket (chunk :: chunks) s); split;
      congruence.
  - intros s' Hthrow. rewrite Hthrow. exists l. reflexivity.
Qed.

(** Socket 1 delivers two heartbeats in three chunks. *)
Lemma server_handleData_ignores_chunking_witness :
  cut_between_characters (toString sample_link)
    [bytes "h"; bytes ("b" ++ LF ++ "hb"); bytes ("2" ++ LF)]
  /\ IPCServer.workerSockets
       (reached
          (IPCServer.deliver sample_link 1
             [bytes "h"; bytes ("b" ++ LF ++ "hb"); bytes ("2" ++ LF)]
             (IPCServer.handleConnection 1 "127.0.0.1:5001" IPCServer.new)))
     = [("worker-1", 1%nat); ("worker-2", 1%nat)].
Proof.
  assert (Hcut : cut_between_characters (toString sample_link)
                   [bytes "h"; bytes ("b" ++ LF ++ "hb"); bytes ("2" ++ LF)]).
  { repeat split; vm_compute; reflexivity. }
  split; [exact Hcut|].
  rewrite (proj2 (proj1 (server_handleData_ignores_chunking sample_link 1
                           (bytes "h")
                           [bytes ("b" ++ LF ++ "hb"); bytes ("2" ++ LF)]
                           (IPCServer.handleConnection 1 "127.0.0.1:5001"
                              IPCServer.new) Hcut)
                    (reached
                       (IPCServer.handleData sample_link 1
                          (bytes ("hb" ++ LF ++ "hb2" ++ LF))
                          (IPCServer.handleConnection 1 "127.0.0.1:5001"
                             IPCServer.new))))
             ltac:(vm_compute; reflexivity)).
  vm_compute. reflexivity.
Defined.

(** ** IPCServer: which socket a worker is reached on *)

Lemma server_process_keeps_binding env socket s line w s0 :
  JsMap.get w (IPCServer.workerSockets s) = Some s0 ->
  JsMap.get w
    (IPCServer.workerSockets
       (reached (IPCServer.process_line env socket s line)))
  = Some s0.
Proof.
  intros Hw. unfold IPCServer.process_line, IPCServer.report.
  destruct (blank line); [exact Hw|].
  assert (Hbound : forall message,
             JsMap.get w
               (if JsMap.has (from message) (IPCServer.workerSockets s)
                then IPCServer.workerSockets s
                else JsMap.set (from message) socket
                       (IPCServer.workerSockets s))
             = Some s0).
  { intros message. unfold JsMap.has.
    destruct (JsMap.get (from message) (IPCServer.workerSockets s)) eqn:Hfrom;
      [exact Hw|].
    rewrite JsMap_get_set_ne; [exact Hw|]. intros Heq. congruence. }
  destruct (JSON_parse env line) as [message|].
  - destruct (message_returns env message); [apply Hbound|].
    destruct (error_returns env line); apply Hbound.
  - destruct (error_returns env line); exact Hw.
Qed.

Lemma server_process_written env socket s line :
  IPCServer.written (reached (IPCServer.process_line env socket s line))
  = IPCServer.written s.
Proof.
  unfold IPCServer.process_line, IPCServer.report.
  destruct (blank line); [reflexivity|].
  destruct (JSON_parse env line) as [message|].
  - destruct (message_returns env message); [reflexivity|].
    destruct (error_returns env line); reflexivity.
  - destruct (error_returns env line); reflexivity.
Qed.

(** A worker id stays bound to the first socket that used it: no data on
    any socket, not even messages that carry the same id, rebinds it,
    whether the handler returns or an exception leaves it, and [send] keeps
    writing to that first socket. *)
Theorem worker_binding_is_first_come
    (env : LinkEnv) (socket : nat) (data : Buffer)
    (s : IPCServer.t) (workerId : string) (first : nat)
    (message : IPCMessage) :
  JsMap.get workerId (IPCServer.workerSockets s) = Some first ->
  let s' := reached (IPCServer.handleData env socket data s) in
  JsMap.get workerId (IPCServer.workerSockets s') = Some first
  /\ fst (IPCServer.send workerId message s') = true
  /\ IPCServer.written (snd (IPCServer.send workerId message s'))
     = IPCServer.written s ++ [(first, message)].
Proof.
  intros Hw. cbv zeta.
  assert (Hfold : forall lines s1,
             JsMap.get workerId (IPCServer.workerSockets s1) = Some first ->
             IPCServer.written s1 = IPCServer.written s ->
             JsMap.get workerId
               (IPCServer.workerSockets
                  (reached (IPCServer.process_lines env socket lines s1)))
             = Some first
             /\ IPCServer.written
                  (reached (IPCServer.process_lines env socket lines s1))
                = IPCServer.written s).
  { induction lines as [|line lines IH]; intros s1 H1 Hwr; simpl; [auto|].
    pose proof (server_process_keeps_binding env socket s1 line _ _ H1) as Hk.
    pose proof (server_process_written env socket s1 line) as Hwk.
    destruct (IPCServer.process_line env socket s1 line) as [s2|s2];
      simpl in Hk, Hwk.
    - apply IH; [exact Hk | congruence].
    - simpl. split; [exact Hk | congruence]. }
  unfold IPCServer.handleData. cbv zeta.
  match goal with
  | |- context [IPCServer.process_lines _ _ ?lines ?s1] =>
      destruct (Hfold lines s1 Hw eq_refl) as [Hget Hwritten]
  end.
  split; [exact Hget|]. unfold IPCServer.send. rewrite Hget. simpl.
  rewrite Hwritten. auto.
Qed.

(** Socket 2 sends a message under the id that socket 1 registered. *)
Lemma worker_binding_is_first_come_witness :
  JsMap.get "worker-1" (IPCServer.workerSockets server_with_worker) = Some 1%nat
  /\ JsMap.get "worker-1"
       (IPCServer.workerSockets
          (reached
             (IPCServer.handleData sample_link 2 (bytes ("done" ++ LF))
                server_with_worker)))
     = Some 1%nat.
Proof.
  split; [reflexivity|].
  exact (proj1 (worker_binding_is_first_come sample_link 2
                  (bytes ("done" ++ LF))
                  server_with_worker "worker-1" 1 heartbeat_message
                  ltac:(reflexivity))).
Defined.

Lemma unbind_first_bound socket workers :
  map fst (List.filter (fun kv : string * nat => (snd kv =? socket)%nat)
             (IPCServer.unbind_first socket workers))
  = tail (map fst (List.filter (fun kv : string * nat =>
                                  (snd kv =? socket)%nat) workers)).
Proof.
  induction workers as [|[w sock] workers IH]; [reflexivity|].
  simpl. destruct (Nat.eqb_spec sock socket) as [->|Hne]; simpl.
  - reflexivity.
  - destruct (Nat.eqb_spec sock socket); [contradiction | exact IH].
Qed.

Lemma unbind_first_other socket other workers :
  other <> socket ->
  List.filter (fun kv : string * nat => (snd kv =? other)%nat)
    (IPCServer.unbind_first socket workers)
  = List.filter (fun kv : string * nat => (snd kv =? other)%nat) workers.
Proof.
  intros Hne. induction workers as [|[w sock] workers IH]; [reflexivity|].
  simpl. destruct (Nat.eqb_spec sock socket) as [->|Hs]; simpl.
  - destruct (Nat.eqb_spec socket other); [congruence | reflexivity].
  - rewrite IH. reflexivity.
Qed.

Lemma unbind_first_sub socket workers kv :
  kv ∈ IPCServer.unbind_first socket workers -> kv ∈ workers.
Proof.
  induction workers as [|[w sock] workers IH]; simpl; [auto|].
  destruct (sock =? socket)%nat.
  - intros H. right. exact H.
  - intros H. apply elem_of_cons in H as [->|H]; [left | right; auto].
Qed.

Lemma unbind_first_NoDup socket workers :
  NoDup (JsMap.keys workers) ->
  NoDup (JsMap.keys (IPCServer.unbind_first socket workers)).
Proof.
  unfold JsMap.keys. induction workers as [|[w sock] workers IH]; simpl;
    [auto|].
  intros Hnd. apply NoDup_cons in Hnd as [Hw Hnd].
  destruct (sock =? socket)%nat; [exact Hnd|]. simpl.
  apply NoDup_cons. split; [|auto].
  intros Hin. apply Hw. apply list_elem_of_fmap in Hin as ([w' sock'] & -> & Hin).
  apply list_elem_of_fmap. exists (w', sock'). split; [reflexivity|].
  eapply unbind_first_sub. exact Hin.
Qed.

(** When a socket closes, only the first worker id it registered is
    unbound.  Every further id of that socket stays bound to it, so [send]
    still reports success for it and writes to the closed socket; the
    workers of the other sockets are not touched. *)
Theorem close_unbinds_one_worker (socket : nat) (clientId : string)
    (s : IPCServer.t) :
  NoDup (JsMap.keys (IPCServer.workerSockets s)) ->
  let s' := IPCServer.close socket clientId s in
  IPCServer.bound_to socket s' = tail (IPCServer.bound_to socket s)
  /\ (forall other, other <> socket ->
        IPCServer.bound_to other s' = IPCServer.bound_to other s)
  /\ (forall workerId message,
        workerId ∈ IPCServer.bound_to socket s' ->
        fst (IPCServer.send workerId message s') = true
        /\ IPCServer.written (snd (IPCServer.send workerId message s'))
           = IPCServer.written s ++ [(socket, message)]).
Proof.
  intros Hnd. cbv zeta. unfold IPCServer.bound_to, IPCServer.close. simpl.
  split; [apply unbind_first_bound|].
  split; [intros other Hne; rewrite unbind_first_other by exact Hne;
          reflexivity|].
  intros workerId message Hin.
  apply list_elem_of_fmap in Hin as ([w sock] & -> & Hin).
  apply list_elem_of_In, filter_In in Hin as [Hin Hsock]. simpl in Hsock.
  apply Nat.eqb_eq in Hsock. subst sock. apply list_elem_of_In in Hin.
  unfold IPCServer.send. simpl.
  rewrite (JsMap_in_get w socket _ (unbind_first_NoDup socket _ Hnd) Hin).
  simpl. auto.
Qed.

(** Socket 1, shared by two workers, closes: [worker-2] stays bound. *)
Lemma close_unbinds_one_worker_witness :
  NoDup (JsMap.keys (IPCServer.workerSockets server_with_shared_socket))
  /\ IPCServer.bound_to 1
       (IPCServer.close 1 "127.0.0.1:5001" server_with_shared_socket)
     = ["worker-2"].
Proof.
  assert (Hnd : NoDup (JsMap.keys
                         (IPCServer.workerSockets server_with_shared_socket))).
  { apply (bool_decide_unpack _). vm_compute. exact I. }
  split; [exact Hnd|].
  exact (proj1 (close_unbinds_one_worker 1 "127.0.0.1:5001"
                  server_with_shared_socket Hnd)).
Defined.

(** ** IPCClient: reconnection *)



(** ** ReviewCoordinator: waits and verdicts *)

Lemma resolve_other p q result ps :
  p <> q ->
  PendingReviews.resolve q result ps !! p = ps !! p.
Proof.
  intros Hne. unfold PendingReviews.resolve.
  destruct (ps !! q) as [[]|]; try reflexivity.
  apply list_lookup_insert_ne. congruence.
Qed.

(** A promise no record of [pendingReviews] points to is out of reach of
    every verdict. *)
Lemma verdicts_keep_orphan messages s p :
  PendingReviews.promises s !! p = Some AwaitingVerdict ->
  (forall taskId, PendingReviews.pendingReviews s !! taskId <> Some p) ->
  PendingReviews.promises (verdicts messages s) !! p = Some AwaitingVerdict.
Proof.
  revert s. induction messages as [|message messages IH]; intros s Hp Hfree;
    simpl; [exact Hp|].
  assert (Hstep : forall result,
             PendingReviews.promises
               (PendingReviews.settle_review message result s) !! p
             = Some AwaitingVerdict
             /\ forall taskId,
                 PendingReviews.pendingReviews
                   (PendingReviews.settle_review message result s) !! taskId
                 <> Some p).
  { intros result. unfold PendingReviews.settle_review.
    destruct (v_taskId (rm_payload message)) as [taskId|]; [|auto].
    destruct (PendingReviews.pendingReviews s !! taskId) as [q|] eqn:Hq;
      [|auto].
    simpl. split.
    - rewrite resolve_other; [exact Hp|].
      intros <-. exact (Hfree taskId Hq).
    - intros taskId'. destruct (decide (taskId = taskId')) as [<-|Hne].
      + rewrite lookup_delete_eq. discriminate.
      + rewrite lookup_delete_ne by exact Hne. apply Hfree. }
  apply IH; unfold PendingReviews.on_message,
    PendingReviews.handleReviewApproved, PendingReviews.handleReviewRejected;
    destruct (rm_type message); try assumption; apply Hstep.
Qed.

Lemma run_review_ops_bounded ops :
  forall taskId p,
    PendingReviews.pendingReviews (run_review_ops ops PendingReviews.new)
      !! taskId = Some p ->
    (p < length (PendingReviews.promises
                   (run_review_ops ops PendingReviews.new)))%nat.
Proof.
  assert (Hinv : forall ops s,
             (forall taskId p,
                 PendingReviews.pendingReviews s !! taskId = Some p ->
                 (p < length (PendingReviews.promises s))%nat) ->
             forall taskId p,
               PendingReviews.pendingReviews (run_review_ops ops s) !! taskId
               = Some p ->
               (p < length (PendingReviews.promises (run_review_ops ops s)))%nat).
  { clear ops. induction ops as [|op ops IH]; intros s Hs; simpl; [exact Hs|].
    apply IH. intros taskId p.
    assert (Hsettle : forall message result,
               PendingReviews.pendingReviews
                 (PendingReviews.settle_review message result s) !! taskId
               = Some p ->
               (p < length (PendingReviews.promises
                              (PendingReviews.settle_review message result s)))
                 %nat).
    { intros message result. unfold PendingReviews.settle_review.
      destruct (v_taskId (rm_payload message)) as [taskId'|]; [|apply Hs].
      destruct (PendingReviews.pendingReviews s !! taskId') as [q|];
        [|apply Hs].
      simpl. intros Hget. apply lookup_delete_Some in Hget as [_ Hget].
      apply Hs in Hget. unfold PendingReviews.resolve.
      destruct (PendingReviews.promises s !! q) as [[]|];
        rewrite ?length_insert; exact Hget. }
    destruct op as [taskId'|message|q taskId']; simpl.
    - rewrite length_app. simpl.
      destruct (decide (taskId' = taskId)) as [->|Hne].
      + rewrite lookup_insert_eq. intros [= <-]. lia.
      + rewrite lookup_insert_ne by exact Hne. intros Hget.
        apply Hs in Hget. lia.
    - unfold PendingReviews.on_message, PendingReviews.handleReviewApproved,
        PendingReviews.handleReviewRejected.
      destruct (rm_type message); try apply Hs; apply Hsettle.
    - unfold PendingReviews.timeout_fires.
      destruct (PendingReviews.promises s !! q) as [[]|]; try apply Hs.
      simpl. rewrite length_insert. intros Hget.
      apply lookup_delete_Some in Hget as [_ Hget].
      exact (Hs taskId p Hget). }
  apply Hinv. intros taskId p Hget. simpl in Hget.
  rewrite lookup_empty in Hget. discriminate Hget.
Qed.

(** A verdict resolves the wait registered last for its task, with the
    sender as the reviewer and [approved] taken from the type of the
    message alone; the record is then gone, so that a further verdict for
    the task changes nothing.  A verdict for a task nobody waits for is
    dropped: it is not kept for a wait that comes later. *)
Theorem verdict_settles_the_wait (taskId : string) (message : ReviewMessage)
    (s : PendingReviews.t) :
  v_taskId (rm_payload message) = Some taskId ->
  rm_type message = review_approved \/ rm_type message = review_rejected ->
  let p := fst (PendingReviews.waitForReviewApproval taskId s) in
  let s1 := snd (PendingReviews.waitForReviewApproval taskId s) in
  let s2 := PendingReviews.on_message message s1 in
  (exists result,
      PendingReviews.promises s2 !! p = Some (Settled result)
      /\ approved result
         = match rm_type message with review_approved => true | _ => false end
      /\ res_reviewerId result = rm_from message)
  /\ PendingReviews.pendingReviews s2 !! taskId = None
  /\ (forall message',
         v_taskId (rm_payload message') = Some taskId ->
         PendingReviews.on_message message' s2 = s2)
  /\ (PendingReviews.pendingReviews s !! taskId = None ->
      PendingReviews.on_message message s = s).
Proof.
  intros Htask Htype. cbv zeta.
  assert (Hsettle : forall result,
             PendingReviews.settle_review message result
               (snd (PendingReviews.waitForReviewApproval taskId s))
             = {| PendingReviews.pendingReviews :=
                    delete taskId (PendingReviews.pendingReviews s);
                  PendingReviews.promises :=
                    PendingReviews.promises s ++ [Settled result] |}).
  { intros result. unfold PendingReviews.settle_review. rewrite Htask. simpl.
    rewrite lookup_insert_eq, delete_insert_eq.
    unfold PendingReviews.resolve.
    rewrite lookup_app_r, Nat.sub_diag by lia. simpl.
    rewrite insert_app_r_alt, Nat.sub_diag by lia. reflexivity. }
  assert (Hdropped : forall message' s',
             v_taskId (rm_payload message') = Some taskId ->
             PendingReviews.pendingReviews s' !! taskId = None ->
             PendingReviews.on_message message' s' = s').
  { intros message' s' Htask' Hnone.
    unfold PendingReviews.on_message, PendingReviews.handleReviewApproved,
      PendingReviews.handleReviewRejected, PendingReviews.settle_review.
    rewrite Htask', Hnone. destruct (rm_type message'); reflexivity. }
  simpl fst.
  assert (Hs2 : exists result,
             PendingReviews.on_message message
               (snd (PendingReviews.waitForReviewApproval taskId s))
             = {| PendingReviews.pendingReviews :=
                    delete taskId (PendingReviews.pendingReviews s);
                  PendingReviews.promises :=
                    PendingReviews.promises s ++ [Settled result] |}
             /\ approved result
                = match rm_type message with
                  | review_approved => true
                  | _ => false
                  end
             /\ res_reviewerId result = rm_from message).
  { unfold PendingReviews.on_message, PendingReviews.handleReviewApproved,
      PendingReviews.handleReviewRejected.
    destruct Htype as [-> | ->]; eexists; (split; [apply Hsettle|]);
      split; reflexivity. }
  destruct Hs2 as (result & -> & Happroved & Hreviewer).
  split; [|split; [|split]].
  - exists result. simpl. rewrite lookup_app_r, Nat.sub_diag by lia. auto.
  - simpl. apply lookup_delete_eq.
  - intros message' Htask'. apply Hdropped; [exact Htask'|].
    simpl. apply lookup_delete_eq.
  - apply Hdropped. exact Htask.
Qed.

(** [reviewer-1] approves [task-1] without feedback. *)
Lemma verdict_settles_the_wait_witness :
  v_taskId (rm_payload bare_approval) = Some "task-1"
  /\ exists result,
      PendingReviews.promises
        (PendingReviews.on_message bare_approval
           (snd (PendingReviews.waitForReviewApproval "task-1"
                   PendingReviews.new))) !! 0%nat
      = Some (Settled result).
Proof.
  split; [reflexivity|].
  destruct (proj1 (verdict_settles_the_wait "task-1" bare_approval
                     PendingReviews.new ltac:(reflexivity)
                     ltac:(left; reflexivity)))
    as (result & Hresult & _).
  exists result. exact Hresult.
Defined.

(** Waits are keyed by the task alone.  When a second wait is registered
    for a task before the first is settled, no verdict can reach the first
    any more: it stays pending until its timer fires.  That timer then
    removes the record of the second wait, after which no verdict can reach
    the second either. *)
Theorem second_wait_orphans_first (ops : list review_op) (taskId : string)
    (messages : list ReviewMessage) :
  let s := run_review_ops ops PendingReviews.new in
  let first := fst (PendingReviews.waitForReviewApproval taskId s) in
  let s1 := snd (PendingReviews.waitForReviewApproval taskId s) in
  let second := fst (PendingReviews.waitForReviewApproval taskId s1) in
  let s2 := snd (PendingReviews.waitForReviewApproval taskId s1) in
  let s3 := PendingReviews.timeout_fires first taskId s2 in
  first <> second
  /\ PendingReviews.promises (verdicts messages s2) !! first
     = Some AwaitingVerdict
  /\ PendingReviews.promises s3 !! first = Some ReviewTimedOut
  /\ PendingReviews.promises (verdicts messages s3) !! second
     = Some AwaitingVerdict.
Proof.
  cbv zeta. set (s := run_review_ops ops PendingReviews.new).
  pose proof (run_review_ops_bounded ops) as Hbound. fold s in Hbound.
  simpl fst. simpl snd.
  set (n := length (PendingReviews.promises s)).
  assert (Hlen : length (PendingReviews.promises s ++ [AwaitingVerdict])
                 = S n) by (rewrite length_app; simpl; lia).
  rewrite Hlen.
  assert (Hfirst : ((PendingReviews.promises s ++ [AwaitingVerdict])
                    ++ [AwaitingVerdict]) !! n = Some AwaitingVerdict).
  { rewrite lookup_app_l by (rewrite Hlen; lia).
    rewrite lookup_app_r by lia. subst n. rewrite Nat.sub_diag. reflexivity. }
  assert (Hsecond : ((PendingReviews.promises s ++ [AwaitingVerdict])
                     ++ [AwaitingVerdict]) !! S n = Some AwaitingVerdict).
  { rewrite lookup_app_r by (rewrite Hlen; lia).
    rewrite Hlen, Nat.sub_diag. reflexivity. }
  split; [lia|]. split; [|split].
  - apply verdicts_keep_orphan; simpl; [exact Hfirst|].
    intros taskId'. destruct (decide (taskId = taskId')) as [<-|Hne].
    + rewrite lookup_insert_eq. intros [= Heq]. lia.
    + rewrite !lookup_insert_ne by exact Hne. intros Hget.
      apply Hbound in Hget. lia.
  - unfold PendingReviews.timeout_fires. simpl. rewrite Hfirst. simpl.
    apply list_lookup_insert_eq. rewrite !length_app. simpl. lia.
  - apply verdicts_keep_orphan.
    + unfold PendingReviews.timeout_fires. simpl. rewrite Hfirst. simpl.
      rewrite list_lookup_insert_ne by lia. exact Hsecond.
    + intros taskId'. unfold PendingReviews.timeout_fires. simpl.
      rewrite Hfirst. simpl.
      destruct (decide (taskId = taskId')) as [<-|Hne].
      * rewrite lookup_delete_eq. discriminate.
      * rewrite lookup_delete_ne, !lookup_insert_ne by exact Hne.
        intros Hget. apply Hbound in Hget. lia.
Qed.

(** ** IPCChannel: where a message is sent *)

Lemma sendLocal_frame message s :
  let s' := snd (IPCSender.sendLocal message s) in
  IPCSender.enableRemoteFallback s' = IPCSender.enableRemoteFallback s
  /\ IPCSender.remoteWorkers s' = IPCSender.remoteWorkers s
  /\ IPCSender.remote_messages s' = IPCSender.remote_messages s
  /\ IPCSender.bridgeOrchestrator s' = IPCSender.bridgeOrchestrator s
  /\ IPCSender.messageCount s' = IPCSender.messageCount s.
Proof.
  unfold IPCSender.sendLocal.
  destruct (IPCSender.isServer s), (IPCSender.server s) as [srv|],
    (IPCSender.client s) as [c|];
    try destruct (IPCServer.send _ _ srv); try destruct (IPCClient.send _ c);
    simpl; auto.
Qed.

Lemma sendViaBridge_frame getInstance message s :
  let s' := snd (IPCSender.sendViaBridge getInstance message s) in
  IPCSender.enableRemoteFallback s' = IPCSender.enableRemoteFallback s
  /\ IPCSender.remoteWorkers s' = IPCSender.remoteWorkers s
  /\ IPCSender.server s' = IPCSender.server s
  /\ IPCSender.client s' = IPCSender.client s.
Proof.
  unfold IPCSender.sendViaBridge.
  destruct (IPCSender.bridgeOrchestrator s || getInstance); simpl; auto.
Qed.

Lemma JsSet_has_add x y s :
  JsSet.has y s = true -> JsSet.has y (JsSet.add x s) = true.
Proof.
  rewrite !JsSet_has_true, JsSet_add_elem. auto.
Qed.

Lemma JsSet_has_added x s : JsSet.has x (JsSet.add x s) = true.
Proof. rewrite JsSet_has_true, JsSet_add_elem. auto. Qed.

Lemma send_keeps_remote message now_id now_timestamp getInstance s :
  let s' := snd (IPCSender.send message now_id now_timestamp getInstance s) in
  IPCSender.enableRemoteFallback s' = IPCSender.enableRemoteFallback s
  /\ forall workerId,
      JsSet.has workerId (IPCSender.remoteWorkers s) = true ->
      JsSet.has workerId (IPCSender.remoteWorkers s') = true.
Proof.
  cbv zeta. unfold IPCSender.send. cbv zeta.
  set (full := IPCSender.fullMessage _ _ _ _).
  set (s0 := {| IPCSender.enableRemoteFallback := _ |}).
  destruct (IPCSender.enableRemoteFallback s
            && JsSet.has (to message) (IPCSender.remoteWorkers s)).
  - destruct (sendViaBridge_frame getInstance full s0) as (-> & -> & _).
    auto.
  - destruct (sendLocal_frame full s0) as (Hflag & Hremote & _).
    destruct (IPCSender.sendLocal full s0) as [sent s1]. simpl in Hflag, Hremote.
    destruct (negb sent && IPCSender.enableRemoteFallback s).
    + destruct (sendViaBridge_frame getInstance full
                  (IPCSender.markWorkerRemote (to message) s1))
        as (-> & -> & _).
      simpl. rewrite Hflag, Hremote. split; [reflexivity|].
      intros workerId. apply JsSet_has_add.
    + destruct (negb sent); simpl; rewrite Hflag, Hremote; auto.
Qed.

Lemma run_sender_ops_keep_remote ops s :
  IPCSender.enableRemoteFallback (run_sender_ops ops s)
  = IPCSender.enableRemoteFallback s
  /\ forall workerId,
      JsSet.has workerId (IPCSender.remoteWorkers s) = true ->
      JsSet.has workerId (IPCSender.remoteWorkers (run_sender_ops ops s))
      = true.
Proof.
  revert s. induction ops as [|op ops IH]; intros s; simpl; [auto|].
  destruct (IH (run_sender_op s op)) as [-> Hmono].
  destruct op as [message now_id now_timestamp getInstance|workerId'|srv c];
    simpl.
  - destruct (send_keeps_remote message now_id now_timestamp getInstance s)
      as [-> Hsend].
    auto.
  - split; [reflexivity|]. intros workerId Hin. apply Hmono. simpl.
    apply JsSet_has_add. exact Hin.
  - split; [reflexivity|]. intros workerId Hin. apply Hmono. exact Hin.
Qed.

(** With the remote fallback on, a destination that was once sent to the
    bridge stays there.  Whatever is sent and however the local link
    changes afterwards, the destination remains marked remote, and a
    message for it goes to the bridge without the local link being tried:
    server and client are left as they are.  A message for any other
    destination is either written to the local link or marks its
    destination remote, and [send] never reports a failed local send. *)
Theorem remote_fallback_is_sticky (ops : list sender_op)
    (message : IPCMessage) (now_id now_timestamp : Z) (getInstance : bool)
    (s : IPCSender.t) :
  IPCSender.enableRemoteFallback s = true ->
  let s1 := run_sender_ops ops s in
  let sent := IPCSender.send message now_id now_timestamp getInstance s1 in
  let full :=
    IPCSender.fullMessage message (S (IPCSender.messageCount s1)) now_id
      now_timestamp in
  (forall workerId,
      JsSet.has workerId (IPCSender.remoteWorkers s) = true ->
      JsSet.has workerId (IPCSender.remoteWorkers s1) = true)
  /\ (JsSet.has (to message) (IPCSender.remoteWorkers s1) = true ->
      IPCSender.server (snd sent) = IPCSender.server s1
      /\ IPCSender.client (snd sent) = IPCSender.client s1
      /\ (fst sent = Ok tt
          /\ IPCSender.remote_messages (snd sent)
             = IPCSender.remote_messages s1 ++ [full]
          \/ fst sent = Throw BridgeUnavailable
             /\ IPCSender.remote_messages (snd sent)
                = IPCSender.remote_messages s1))
  /\ (JsSet.has (to message) (IPCSender.remoteWorkers s1) = false ->
      fst sent = Ok tt
      /\ IPCSender.remoteWorkers (snd sent) = IPCSender.remoteWorkers s1
      /\ IPCSender.remote_messages (snd sent) = IPCSender.remote_messages s1
      \/ JsSet.has (to message) (IPCSender.remoteWorkers (snd sent)) = true)
  /\ fst sent <> Throw (SendFailedTo (to message)).
Proof.
  intros Hflag. cbv zeta.
  destruct (run_sender_ops_keep_remote ops s) as [Hflag1 Hmono].
  rewrite Hflag in Hflag1.
  set (s1 := run_sender_ops ops s) in *.
  split; [exact Hmono|].
  unfold IPCSender.send. cbv zeta. rewrite Hflag1.
  set (full := IPCSender.fullMessage _ _ _ _).
  set (s0 := {| IPCSender.enableRemoteFallback := _ |}).
  destruct (JsSet.has (to message) (IPCSender.remoteWorkers s1)) eqn:Hhas;
    simpl andb; cbv iota.
  - split; [|split; [discriminate|]].
    + intros _. unfold IPCSender.sendViaBridge.
      destruct (IPCSender.bridgeOrchestrator s0 || getInstance); simpl; auto.
    + unfold IPCSender.sendViaBridge.
      destruct (IPCSender.bridgeOrchestrator s0 || getInstance); simpl;
        discriminate.
  - split; [discriminate|].
    destruct (sendLocal_frame full s0) as (_ & Hremote & Hmsgs & _).
    destruct (IPCSender.sendLocal full s0) as [[] s2]; simpl in *.
    + split; [|discriminate]. intros _. left. auto.
    + split.
      * intros _. right.
        destruct (sendViaBridge_frame getInstance full
                    (IPCSender.markWorkerRemote (to message) s2))
          as (_ & -> & _).
        simpl. apply JsSet_has_added.
      * unfold IPCSender.sendViaBridge.
        destruct (IPCSender.bridgeOrchestrator _ || getInstance); simpl;
          discriminate.
Qed.

(** A fresh channel without any link sends to [orchestrator] twice. *)
Lemma remote_fallback_is_sticky_witness :
  IPCSender.enableRemoteFallback (IPCSender.new None) = true
  /\ fst (IPCSender.send heartbeat_message 0 0 true
            (run_sender_ops [op_send completion_message 0 0 true]
               (IPCSender.new None)))
     <> Throw (SendFailedTo "orchestrator").
Proof.
  split; [reflexivity|].
  exact (proj2 (proj2 (proj2
           (remote_fallback_is_sticky [op_send completion_message 0 0 true]
              heartbeat_message 0 0 true (IPCSender.new None)
              ltac:(reflexivity))))).
Defined.

(** ** TaskGraph: the critical path *)

Lemma JsSet_add_NoDup x s : NoDup s -> NoDup (JsSet.add x s).
Proof.
  intros Hnd. unfold JsSet.add. destruct (JsSet.has x s) eqn:Hhas;
    [exact Hnd|].
  apply JsSet_has_false in Hhas. apply NoDup_app.
  split; [exact Hnd|]. split; [|apply NoDup_singleton].
  intros y Hy Hy'. apply list_elem_of_singleton in Hy'. subst y.
  contradiction.
Qed.

Lemma JsSet_of_list_NoDup xs : NoDup (JsSet.of_list xs).
Proof.
  unfold JsSet.of_list.
  assert (H : forall s, NoDup s ->
                        NoDup (fold_left (fun s x => JsSet.add x s) xs s)).
  { induction xs as [|x xs IH]; intros s Hs; simpl; [exact Hs|].
    apply IH. apply JsSet_add_NoDup. exact Hs. }
  apply H. constructor.
Qed.

Lemma link_outer_NoDup (vs : list TaskNode) nodes nodes' :
  for_each
    (fun node =>
       for_each (TaskGraph.add_dependent (node_id node)) (dependencies node))
    vs nodes = Ok nodes' ->
  (forall x, NoDup (dependents_of nodes x)) ->
  forall x, NoDup (dependents_of nodes' x).
Proof.
  assert (Hinner : forall nodeId deps nodes nodes',
             for_each (TaskGraph.add_dependent nodeId) deps nodes = Ok nodes' ->
             (forall x, NoDup (dependents_of nodes x)) ->
             forall x, NoDup (dependents_of nodes' x)).
  { clear. intros nodeId deps.
    induction deps as [|d deps IH]; intros nodes nodes'; simpl.
    - intros [= <-] H. exact H.
    - destruct (TaskGraph.add_dependent nodeId d nodes) as [nodes1|e|] eqn:Hd;
        try discriminate.
      intros Hrest Hnd. apply (IH _ _ Hrest).
      apply add_dependent_Ok in Hd as [_ Hd]. intros x. rewrite Hd.
      destruct (String.eqb x d); [apply JsSet_add_NoDup|]; apply Hnd. }
  revert nodes. induction vs as [|v vs IH]; intros nodes; simpl.
  - intros [= <-] H. exact H.
  - destruct (for_each (TaskGraph.add_dependent (node_id v)) (dependencies v)
                nodes) as [nodes1|e|] eqn:Hv; try discriminate.
    intros Hrest Hnd. apply (IH _ Hrest). eapply Hinner; eassumption.
Qed.

Lemma cores_dependencies nodes nodes' x node' :
  cores nodes' = cores nodes ->
  JsMap.get x nodes' = Some node' ->
  exists node, JsMap.get x nodes = Some node
               /\ dependencies node = dependencies node'.
Proof.
  intros Hc Hget.
  pose proof (cores_get nodes' x) as H'. pose proof (cores_get nodes x) as H.
  rewrite Hc, H in H'. rewrite Hget in H'.
  destruct (JsMap.get x nodes) as [node|]; [|discriminate].
  exists node. split; [reflexivity|].
  assert (Heq : node_core node = node_core node')
    by (simpl in H'; congruence).
  apply (f_equal dependencies) in Heq. exact Heq.
Qed.

Lemma new_sound tasks g : TaskGraph.new tasks = Ok g -> sound_graph g.
Proof.
  intros Hnew. split; [eapply new_well_keyed; exact Hnew|].
  split; [eapply new_mirror; exact Hnew|].
  revert Hnew. unfold TaskGraph.new, TaskGraph.buildGraph.
  destruct (TaskGraph.link_dependents (TaskGraph.create_nodes tasks))
    as [nodes'|e|] eqn:Hlink; try discriminate.
  destruct (TaskGraph.validateNoCycles nodes'); try discriminate.
  intros [= <-]. split.
  - unfold TaskGraph.link_dependents in Hlink.
    eapply link_outer_NoDup; [exact Hlink|].
    intros x. rewrite create_nodes_no_dependents. constructor.
  - intros x node' Hget. apply link_dependents_cores in Hlink.
    destruct (cores_dependencies _ _ x node' Hlink Hget)
      as (node & Hnode & <-).
    assert (Hall : Forall (fun kv : string * TaskNode =>
                             NoDup (dependencies (snd kv)))
                     (TaskGraph.create_nodes tasks)).
    { apply create_nodes_invariant; [constructor|].
      intros nodes task Hnodes. apply set_Forall; [exact Hnodes|].
      simpl. apply JsSet_of_list_NoDup. }
    apply JsMap_get_in in Hnode. rewrite Forall_forall in Hall.
    exact (Hall _ Hnode).
Qed.

Lemma markCompleted_get taskId g x :
  JsMap.get x (TaskGraph.markCompleted taskId g)
  = (fun node => if String.eqb x taskId then with_completed node true
                 else node) <$> JsMap.get x g.
Proof.
  unfold TaskGraph.markCompleted.
  destruct (JsMap.get taskId g) as [node|] eqn:Hget.
  - destruct (String.eqb_spec x taskId) as [->|Hne].
    + rewrite JsMap_get_set_eq, Hget. reflexivity.
    + rewrite JsMap_get_set_ne by congruence.
      destruct (JsMap.get x g); reflexivity.
  - destruct (String.eqb_spec x taskId) as [->|Hne].
    + rewrite Hget. reflexivity.
    + destruct (JsMap.get x g); reflexivity.
Qed.

Lemma markCompleted_sound taskId g :
  sound_graph g -> sound_graph (TaskGraph.markCompleted taskId g).
Proof.
  intros (Hwk & Hmirror & Hdependents & Hdependencies).
  assert (Hdo : forall x, dependents_of (TaskGraph.markCompleted taskId g) x
                          = dependents_of g x).
  { intros x. unfold dependents_of. rewrite markCompleted_get.
    destruct (JsMap.get x g) as [node|]; simpl; [|reflexivity].
    destruct (String.eqb x taskId); reflexivity. }
  assert (Hde : forall x, deps_of (TaskGraph.markCompleted taskId g) x
                          = deps_of g x).
  { intros x. unfold deps_of. rewrite markCompleted_get.
    destruct (JsMap.get x g) as [node|]; simpl; [|reflexivity].
    destruct (String.eqb x taskId); reflexivity. }
  split; [apply markCompleted_well_keyed; exact Hwk|]. split; [|split].
  - intros x y. rewrite Hdo, Hmirror. unfold edge. rewrite Hde. reflexivity.
  - intros x. rewrite Hdo. apply Hdependents.
  - intros x node Hget. rewrite markCompleted_get in Hget.
    destruct (JsMap.get x g) as [node0|] eqn:Hget0; [|discriminate].
    simpl in Hget. injection Hget as <-.
    specialize (Hdependencies x node0 Hget0).
    destruct (String.eqb x taskId); exact Hdependencies.
Qed.

Lemma marked_sound finished g : sound_graph g -> sound_graph (marked finished g).
Proof.
  revert g. induction finished as [|taskId finished IH]; intros g Hg; simpl;
    [exact Hg|].
  apply IH, markCompleted_sound, Hg.
Qed.

Lemma values_ids g : well_keyed g -> map node_id (JsMap.values g) = JsMap.keys g.
Proof.
  intros [_ Hid]. unfold JsMap.values, JsMap.keys.
  induction Hid as [|[k v] g Hkv _ IH]; simpl; [reflexivity|].
  simpl in Hkv. rewrite Hkv, IH. reflexivity.
Qed.

Lemma fold_insert_lookup {A V : Type} (key : A -> string) (val : A -> V)
    (l : list A) (m : gmap string V) (k : string) :
  NoDup (map key l) ->
  fold_left (fun m a => <[key a := val a]> m) l m !! k
  = match List.find (fun a => String.eqb (key a) k) l with
    | Some a => Some (val a)
    | None => m !! k
    end.
Proof.
  revert m. induction l as [|a l IH]; intros m Hnd; simpl; [reflexivity|].
  apply NoDup_cons in Hnd as [Ha Hnd]. rewrite IH by exact Hnd.
  destruct (String.eqb_spec (key a) k) as [<-|Hne].
  - destruct (List.find _ l) as [b|] eqn:Hfind.
    + apply find_some in Hfind as [Hb Heq]. apply String.eqb_eq in Heq.
      exfalso. apply Ha. rewrite <- Heq. apply list_elem_of_fmap.
      exists b. split; [reflexivity | apply list_elem_of_In; exact Hb].
    + apply lookup_insert_eq.
  - destruct (List.find _ l); [reflexivity|].
    apply lookup_insert_ne. exact Hne.
Qed.

Lemma fold_insert_const {V : Type} (v : V) (keys : list string)
    (m : gmap string V) (k : string) :
  fold_left (fun m k => <[k := v]> m) keys m !! k
  = if bool_decide (k ∈ keys) then Some v else m !! k.
Proof.
  revert m. induction keys as [|k0 keys IH]; intros m; cbn [fold_left].
  - case_bool_decide as Hin; [inversion Hin | reflexivity].
  - rewrite IH. case_bool_decide as Hin; case_bool_decide as Hin'.
    + reflexivity.
    + exfalso. apply Hin'. right. exact Hin.
    + apply elem_of_cons in Hin' as [->|Hin']; [|contradiction].
      apply lookup_insert_eq.
    + apply lookup_insert_ne. intros ->. apply Hin'. left.
Qed.

Lemma is_live_incomplete g x :
  is_live g x -> TaskGraph.incomplete g x = true.
Proof.
  intros (node & Hget & Hc). unfold TaskGraph.incomplete,
    TaskGraph.node_completed. rewrite Hget, Hc. reflexivity.
Qed.

Lemma is_live_key g x : is_live g x -> x ∈ JsMap.keys g.
Proof. intros (node & Hget & _). eapply JsMap_get_Some_key. exact Hget. Qed.

Lemma kahn_init_inv g :
  sound_graph g -> kahn_inv g [] [] (TaskGraph.kahn_init g).
Proof.
  intros (Hwk & _).
  set (live := List.filter (fun node => negb (completed node))
                           (JsMap.values g)).
  assert (Hids : NoDup (map node_id (JsMap.values g))).
  { rewrite values_ids by exact Hwk. apply Hwk. }
  assert (Hlive_ids : NoDup (map node_id live))
    by (apply NoDup_map_filter; exact Hids).
  assert (Hdeg : forall d node,
             JsMap.get d g = Some node -> completed node = false ->
             TaskGraph.inDegree (TaskGraph.kahn_init g) !! d
             = Some (Z.of_nat (length (TaskGraph.incompleteDeps g node)))).
  { intros d node Hget Hc. unfold TaskGraph.kahn_init. cbv zeta. simpl.
    fold live. rewrite fold_insert_lookup by exact Hlive_ids.
    assert (Hin : node ∈ JsMap.values g)
      by (eapply JsMap_get_in_values; exact Hget).
    assert (Hid : node_id node = d).
    { destruct Hwk as [_ Hall]. rewrite Forall_forall in Hall.
      apply JsMap_get_in in Hget. exact (Hall _ Hget). }
    destruct (List.find _ live) as [node'|] eqn:Hfind.
    - apply find_some in Hfind as [Hin' Heq]. apply String.eqb_eq in Heq.
      subst live. apply filter_In in Hin' as [Hin' _].
      apply list_elem_of_In in Hin'.
      pose proof (well_keyed_node g node' Hwk Hin') as Hget'.
      rewrite Heq, Hget in Hget'. injection Hget' as <-. reflexivity.
    - exfalso. eapply find_none in Hfind.
      + rewrite Hid, String.eqb_refl in Hfind. discriminate Hfind.
      + subst live. apply filter_In. split.
        * apply list_elem_of_In. exact Hin.
        * rewrite Hc. reflexivity. }
  assert (Hqueue : forall x,
             x ∈ TaskGraph.queue (TaskGraph.kahn_init g) ->
             exists node, JsMap.get x g = Some node /\ completed node = false
                          /\ length (TaskGraph.incompleteDeps g node) = 0%nat).
  { intros x Hx. unfold TaskGraph.kahn_init in Hx. cbv zeta in Hx.
    simpl in Hx. apply list_elem_of_fmap in Hx as (node & -> & Hx).
    apply list_elem_of_In, filter_In in Hx as [Hx Hzero].
    apply filter_In in Hx as [Hx Hc]. apply list_elem_of_In in Hx.
    exists node. split; [apply well_keyed_node; assumption|].
    split; [destruct (completed node); [discriminate | reflexivity]|].
    apply Nat.eqb_eq. exact Hzero. }
  assert (Hdist : forall x, TaskGraph.dist_of (TaskGraph.kahn_init g) x = 0%Z).
  { intros x. unfold TaskGraph.dist_of, TaskGraph.kahn_init. cbv zeta. simpl.
    rewrite fold_insert_const. case_bool_decide; reflexivity. }
  split.
  - simpl. unfold TaskGraph.kahn_init. cbv zeta. simpl. fold live.
    apply NoDup_map_filter. exact Hlive_ids.
  - intros x Hx. destruct (Hqueue x Hx) as (node & Hget & Hc & _).
    exists node. auto.
  - intros x Hx. destruct (Hqueue x Hx) as (node & Hget & Hc & Hzero).
    unfold degree_of. rewrite (Hdeg x node Hget Hc), Hzero. simpl. lia.
  - constructor.
  - intros m d Hin. inversion Hin.
  - intros d (node & Hget & Hc). unfold degree_of, initial_degree.
    rewrite (Hdeg d node Hget Hc), Hget. simpl. lia.
  - intros x. rewrite Hdist. simpl. lia.
  - intros d n Hpred. exfalso. unfold TaskGraph.kahn_init in Hpred.
    cbv zeta in Hpred. simpl in Hpred. rewrite fold_insert_const in Hpred.
    case_bool_decide; [discriminate Hpred|].
    rewrite lookup_empty in Hpred. discriminate Hpred.
  - intros x Hx. unfold TaskGraph.kahn_init. cbv zeta. simpl.
    rewrite fold_insert_const, bool_decide_true by exact Hx. eauto.
  - intros m d Hm. inversion Hm.
  - intros m d Hin. inversion Hin.
  - intros x (node & Hget & Hc) Hout. unfold degree_of.
    rewrite (Hdeg x node Hget Hc). simpl.
    destruct (length (TaskGraph.incompleteDeps g node)) as [|n] eqn:Hlen;
      [|lia].
    exfalso. apply Hout. simpl. unfold TaskGraph.kahn_init. cbv zeta. simpl.
    apply list_elem_of_fmap. exists node. split.
    + destruct Hwk as [_ Hall]. rewrite Forall_forall in Hall.
      apply JsMap_get_in in Hget. symmetry. exact (Hall _ Hget).
    + apply list_elem_of_In, filter_In. split.
      * apply filter_In. split.
        -- apply list_elem_of_In. eapply JsMap_get_in_values. exact Hget.
        -- rewrite Hc. reflexivity.
      * rewrite Hlen. reflexivity.
  - intros x _. apply Hdist.
Qed.

Lemma relaxed_into_elem relaxed d m :
  m ∈ relaxed_into relaxed d <-> (m, d) ∈ relaxed.
Proof.
  unfold relaxed_into. rewrite list_elem_of_fmap. split.
  - intros ([m' d'] & -> & Hin).
    apply list_elem_of_In, filter_In in Hin as [Hin Heq].
    apply String.eqb_eq in Heq. simpl in Heq. subst d'.
    apply list_elem_of_In. exact Hin.
  - intros Hin. exists (m, d). split; [reflexivity|].
    apply list_elem_of_In, filter_In. split.
    + apply list_elem_of_In. exact Hin.
    + apply String.eqb_refl.
Qed.

Lemma relaxed_into_NoDup relaxed d :
  NoDup relaxed -> NoDup (relaxed_into relaxed d).
Proof.
  induction relaxed as [|[m d'] relaxed IH]; intros Hnd; [constructor|].
  apply NoDup_cons in Hnd as [Hfresh Hnd]. unfold relaxed_into. simpl.
  destruct (String.eqb_spec d' d) as [->|Hne]; [|apply IH; exact Hnd].
  simpl. apply NoDup_cons. split; [|apply IH; exact Hnd].
  intros Hin. apply Hfresh. apply relaxed_into_elem. exact Hin.
Qed.

Lemma relaxed_into_snoc relaxed m d x :
  relaxed_into (relaxed ++ [(m, d)]) x
  = relaxed_into relaxed x ++ (if String.eqb d x then [m] else []).
Proof.
  unfold relaxed_into. rewrite List.filter_app, map_app. simpl.
  destruct (String.eqb d x); reflexivity.
Qed.

(** One pass through the body of the inner loop keeps the invariant; the
    dependent it looks at has not been queued before. *)
Lemma relax_inv g relaxed pending st cur d pre :
  sound_graph g ->
  kahn_inv g relaxed ((cur, d) :: pending) st ->
  cur ∈ TaskGraph.sorted st ->
  d ∈ dependents_of g cur ->
  (forall x, (cur, x) ∈ relaxed -> x ∈ pre) ->
  d ∉ pre ->
  (TaskGraph.dist_of st cur < Z.of_nat (length (TaskGraph.sorted st)))%Z ->
  exists relaxed' st',
    TaskGraph.relax g cur d st = Ok st'
    /\ kahn_inv g relaxed' pending st'
    /\ TaskGraph.sorted st' = TaskGraph.sorted st
    /\ (forall x, (cur, x) ∈ relaxed' -> x ∈ pre ++ [d])
    /\ TaskGraph.dist_of st' cur = TaskGraph.dist_of st cur.
Proof.
  intros (Hwk & Hmirror & Hdependents & Hdependencies) Hinv Hcur Hdep Hpre
    Hfresh Hroom.
  pose proof (proj1 (Hmirror cur d) Hdep) as (ds & Hds & Hcur_dep).
  unfold deps_of in Hds.
  destruct (JsMap.get d g) as [node|] eqn:Hget; [|discriminate].
  simpl in Hds. injection Hds as <-.
  unfold TaskGraph.relax. rewrite Hget.
  destruct (completed node) eqn:Hc.
  { exists relaxed, st. split; [reflexivity|]. split.
    { destruct Hinv. split; try assumption.
      intros m x Hm Hx Hlive.
      destruct (inv_done0 m x Hm Hx Hlive) as [Hin|Hin]; [auto|].
      apply elem_of_cons in Hin as [Heq|Hin]; [|auto].
      injection Heq as -> ->. destruct Hlive as (node' & Hget' & Hc').
      congruence. }
    split; [reflexivity|]. split; [|reflexivity].
    intros x Hx. apply elem_of_app. left. auto. }
  assert (Hlive : is_live g d) by (exists node; auto).
  assert (Hcount : (Z.of_nat (length (relaxed_into relaxed d)) + 1
                    <= initial_degree g d)%Z).
  { unfold initial_degree. rewrite Hget.
    assert (Hsub : cur :: relaxed_into relaxed d
                   ⊆+ TaskGraph.incompleteDeps g node).
    { apply NoDup_submseteq.
      - apply NoDup_cons. split.
        + rewrite relaxed_into_elem. intros Hin. apply Hfresh, Hpre, Hin.
        + apply relaxed_into_NoDup. apply Hinv.
      - intros m Hm. unfold TaskGraph.incompleteDeps.
        apply list_elem_of_In, filter_In.
        assert (Hm' : m ∈ TaskGraph.sorted st /\ d ∈ dependents_of g m).
        { apply elem_of_cons in Hm as [->|Hm]; [auto|].
          apply relaxed_into_elem in Hm.
          apply (inv_relaxed _ _ _ _ Hinv). exact Hm. }
        destruct Hm' as [Hsorted Hdm]. split.
        + apply list_elem_of_In.
          apply Hmirror in Hdm as (ds & Hds & Hin). unfold deps_of in Hds.
          rewrite Hget in Hds. simpl in Hds. injection Hds as <-. exact Hin.
        + apply is_live_incomplete. apply (inv_live _ _ _ _ Hinv).
          apply elem_of_app. left. exact Hsorted. }
    apply submseteq_length in Hsub. simpl in Hsub. lia. }
  assert (Hdeg : (1 <= degree_of st d)%Z)
    by (rewrite (inv_degree _ _ _ _ Hinv d Hlive); lia).
  assert (Hout : d ∉ TaskGraph.sorted st ++ TaskGraph.queue st).
  { intros Hin. apply (inv_zero _ _ _ _ Hinv) in Hin. lia. }
  assert (Hne : cur <> d).
  { intros ->. apply Hout. apply elem_of_app. left. exact Hcur. }
  cbv zeta. fold (degree_of st d).
  set (newDist := (TaskGraph.dist_of st cur + 1)%Z).
  set (improved := (TaskGraph.dist_of st d <? newDist)%Z).
  match goal with |- context [Ok ?s] => set (st' := s) end.
  assert (Hsorted' : TaskGraph.sorted st' = TaskGraph.sorted st)
    by reflexivity.
  assert (Hqueue' : forall x,
             x ∈ TaskGraph.queue st' ->
             x ∈ TaskGraph.queue st \/ (x = d /\ degree_of st d = 1%Z)).
  { intros x. subst st'. simpl.
    destruct (Z.eqb_spec (degree_of st d - 1) 0) as [Hz|Hz]; [|auto].
    rewrite elem_of_app, list_elem_of_singleton. intros [H|H]; [auto|].
    right. split; [exact H | lia]. }
  assert (Hdist_other : forall x,
             x <> d -> TaskGraph.dist_of st' x = TaskGraph.dist_of st x).
  { intros x Hx. subst st'. unfold TaskGraph.dist_of. simpl.
    destruct improved; [|reflexivity].
    rewrite lookup_insert_ne by congruence. reflexivity. }
  assert (Hdist_d : TaskGraph.dist_of st' d
                    = if improved then newDist else TaskGraph.dist_of st d).
  { subst st'. unfold TaskGraph.dist_of. simpl.
    destruct improved; [|reflexivity]. rewrite lookup_insert_eq. reflexivity. }
  assert (Hdeg_other : forall x, x <> d -> degree_of st' x = degree_of st x).
  { intros x Hx. subst st'. unfold degree_of. simpl.
    rewrite lookup_insert_ne by congruence. reflexivity. }
  assert (Hdeg_d : degree_of st' d = (degree_of st d - 1)%Z).
  { subst st'. unfold degree_of. simpl. rewrite lookup_insert_eq.
    reflexivity. }
  exists (relaxed ++ [(cur, d)]), st'. split; [reflexivity|].
  split; [|split; [exact Hsorted'|split]].
  - split.
    + rewrite Hsorted'. subst st'. simpl.
      destruct (Z.eqb_spec (degree_of st d - 1) 0); [|apply Hinv].
      rewrite app_assoc. apply NoDup_app. split; [apply Hinv|].
      split; [|apply NoDup_singleton].
      intros x Hx Hx'. apply list_elem_of_singleton in Hx'. subst x.
      contradiction.
    + intros x Hx. rewrite Hsorted' in Hx.
      apply elem_of_app in Hx as [Hx|Hx].
      * apply (inv_live _ _ _ _ Hinv). apply elem_of_app. auto.
      * apply Hqueue' in Hx as [Hx|[-> _]]; [|exact Hlive].
        apply (inv_live _ _ _ _ Hinv). apply elem_of_app. auto.
    + intros x Hx. rewrite Hsorted' in Hx.
      destruct (decide (x = d)) as [->|Hxd].
      * rewrite Hdeg_d. apply elem_of_app in Hx as [Hx|Hx].
        -- exfalso. apply Hout. apply elem_of_app. auto.
        -- apply Hqueue' in Hx as [Hx|[_ Hone]]; [|lia].
           exfalso. apply Hout. apply elem_of_app. auto.
      * rewrite Hdeg_other by exact Hxd. apply (inv_zero _ _ _ _ Hinv).
        apply elem_of_app in Hx as [Hx|Hx]; apply elem_of_app; [auto|].
        apply Hqueue' in Hx as [Hx|[-> _]]; [auto | contradiction].
    + apply NoDup_app. split; [apply Hinv|]. split; [|apply NoDup_singleton].
      intros e He He'. apply list_elem_of_singleton in He'. subst e.
      apply Hfresh, Hpre, He.
    + intros m x Hin. rewrite Hsorted'.
      apply elem_of_app in Hin as [Hin|Hin].
      * apply (inv_relaxed _ _ _ _ Hinv). exact Hin.
      * apply list_elem_of_singleton in Hin. injection Hin as -> ->. auto.
    + intros x Hx. rewrite relaxed_into_snoc, length_app.
      destruct (String.eqb_spec d x) as [<-|Hxd].
      * rewrite Hdeg_d, (inv_degree _ _ _ _ Hinv d Hlive). simpl. lia.
      * rewrite Hdeg_other by congruence.
        rewrite (inv_degree _ _ _ _ Hinv x Hx). simpl. lia.
    + intros x. rewrite Hsorted'. destruct (decide (x = d)) as [->|Hxd].
      * rewrite Hdist_d. pose proof (inv_dist _ _ _ _ Hinv d) as Hd.
        pose proof (inv_dist _ _ _ _ Hinv cur) as Hcd.
        destruct improved; subst newDist; lia.
      * rewrite Hdist_other by exact Hxd. apply Hinv.
    + intros x n Hpred. rewrite Hsorted'.
      assert (Hcases : (x = d /\ n = cur /\ improved = true)
                       \/ (TaskGraph.predecessors st !! x = Some (Some n)
                           /\ (x = d -> improved = false))).
      { subst st'. simpl in Hpred. destruct improved; [|auto].
        destruct (decide (x = d)) as [->|Hxd].
        - rewrite lookup_insert_eq in Hpred. injection Hpred as <-. auto.
        - rewrite lookup_insert_ne in Hpred by congruence.
          right. split; [exact Hpred | contradiction]. }
      destruct Hcases as [(-> & -> & Himp)|[Hold Hkeep]].
      * split; [exact Hcur|]. rewrite Hdist_d, Himp.
        rewrite Hdist_other by exact Hne. auto.
      * destruct (inv_pred _ _ _ _ Hinv x n Hold) as (Hn & Hdx & Hxn & Hxl).
        split; [exact Hn|]. split; [|auto].
        assert (Hnd : n <> d).
        { intros ->. apply Hout. apply elem_of_app. auto. }
        rewrite (Hdist_other n Hnd).
        destruct (decide (x = d)) as [->|Hxd].
        -- rewrite Hdist_d, (Hkeep eq_refl). exact Hdx.
        -- rewrite Hdist_other by exact Hxd. exact Hdx.
    + intros x Hx. pose proof (inv_pred_dom _ _ _ _ Hinv x Hx) as Hdom.
      subst st'. simpl. destruct improved; [|exact Hdom].
      destruct (decide (x = d)) as [->|Hxd].
      * rewrite lookup_insert_eq. eauto.
      * rewrite lookup_insert_ne by congruence. exact Hdom.
    + intros m x Hm Hx Hxl. rewrite Hsorted' in Hm.
      destruct (inv_done _ _ _ _ Hinv m x Hm Hx Hxl) as [Hin|Hin].
      * left. apply elem_of_app. auto.
      * apply elem_of_cons in Hin as [Heq|Hin]; [|auto].
        left. apply elem_of_app. right. rewrite Heq. left.
    + assert (Hgrow : (TaskGraph.dist_of st d <= TaskGraph.dist_of st' d)%Z
                      /\ (newDist <= TaskGraph.dist_of st' d)%Z).
      { rewrite Hdist_d. unfold improved.
        destruct (Z.ltb_spec (TaskGraph.dist_of st d) newDist); lia. }
      intros m x Hin. apply elem_of_app in Hin as [Hin|Hin].
      * pose proof (inv_edge _ _ _ _ Hinv m x Hin) as Hmx.
        destruct (inv_relaxed _ _ _ _ Hinv m x Hin) as [Hm _].
        assert (Hmd : m <> d).
        { intros ->. apply Hout. apply elem_of_app. auto. }
        rewrite (Hdist_other m Hmd).
        destruct (decide (x = d)) as [->|Hxd]; [lia|].
        rewrite Hdist_other by exact Hxd. exact Hmx.
      * apply list_elem_of_singleton in Hin. injection Hin as -> ->.
        rewrite (Hdist_other cur Hne). subst newDist. lia.
    + intros x Hx Hnot. rewrite Hsorted' in Hnot.
      assert (Hnot0 : x ∉ TaskGraph.sorted st ++ TaskGraph.queue st).
      { intros Hin. apply Hnot. apply elem_of_app in Hin as [Hin|Hin];
          apply elem_of_app; [auto|]. right. subst st'. simpl.
        destruct (_ =? 0)%Z; [apply elem_of_app|]; auto. }
      pose proof (inv_wait _ _ _ _ Hinv x Hx Hnot0) as Hw.
      destruct (decide (x = d)) as [->|Hxd].
      * rewrite Hdeg_d.
        destruct (Z.eqb_spec (degree_of st d - 1) 0) as [Hz|Hz]; [|lia].
        exfalso. apply Hnot. apply elem_of_app. right. subst st'. simpl.
        apply elem_of_app. right. left.
      * rewrite Hdeg_other by exact Hxd. exact Hw.
    + intros x Hroot.
      assert (Hold : TaskGraph.predecessors st !! x = Some None
                     /\ TaskGraph.dist_of st' x = TaskGraph.dist_of st x).
      { subst st'. unfold TaskGraph.dist_of in *. simpl in *.
        destruct improved; [|auto].
        destruct (decide (x = d)) as [->|Hxd].
        - rewrite lookup_insert_eq in Hroot. discriminate Hroot.
        - rewrite lookup_insert_ne in Hroot by congruence.
          rewrite lookup_insert_ne by congruence. auto. }
      destruct Hold as [Hold ->]. apply (inv_root _ _ _ _ Hinv). exact Hold.
  - intros x Hin. apply elem_of_app in Hin as [Hin|Hin].
    + apply elem_of_app. left. auto.
    + apply list_elem_of_singleton in Hin. injection Hin as ->.
      apply elem_of_app. right. left.
  - apply Hdist_other. exact Hne.
Qed.

(** The inner loop over the dependents of a node just taken from the
    queue. *)
Lemma relax_all_inv g cur rest :
  sound_graph g ->
  forall relaxed st pre,
    kahn_inv g relaxed (map (pair cur) rest) st ->
    cur ∈ TaskGraph.sorted st ->
    NoDup (pre ++ rest) ->
    (forall d, d ∈ rest -> d ∈ dependents_of g cur) ->
    (forall x, (cur, x) ∈ relaxed -> x ∈ pre) ->
    (TaskGraph.dist_of st cur < Z.of_nat (length (TaskGraph.sorted st)))%Z ->
    exists relaxed' st',
      for_each (TaskGraph.relax g cur) rest st = Ok st'
      /\ kahn_inv g relaxed' [] st'
      /\ TaskGraph.sorted st' = TaskGraph.sorted st.
Proof.
  intros Hsound. induction rest as [|d rest IH];
    intros relaxed st pre Hinv Hcur Hnd Hdeps Hpre Hroom.
  - exists relaxed, st. auto.
  - assert (Hfresh : d ∉ pre).
    { apply NoDup_app in Hnd as (_ & Hdisj & _). intros Hin.
      apply (Hdisj d Hin). left. }
    destruct (relax_inv g relaxed (map (pair cur) rest) st cur d pre Hsound
                Hinv Hcur
                (Hdeps d ltac:(left)) Hpre Hfresh Hroom)
      as (relaxed1 & st1 & Hrelax & Hinv1 & Hsorted1 & Hpre1 & Hdist1).
    destruct (IH relaxed1 st1 (pre ++ [d])) as (relaxed2 & st2 & H2 & Hinv2 & Hs2).
    + exact Hinv1.
    + rewrite Hsorted1. exact Hcur.
    + rewrite <- app_assoc. exact Hnd.
    + intros x Hx. apply Hdeps. right. exact Hx.
    + exact Hpre1.
    + rewrite Hdist1, Hsorted1. exact Hroom.
    + exists relaxed2, st2. simpl. rewrite Hrelax.
      split; [exact H2|]. split; [exact Hinv2|]. congruence.
Qed.

Lemma kahn_inv_bound g relaxed pending st :
  kahn_inv g relaxed pending st ->
  (length (TaskGraph.sorted st ++ TaskGraph.queue st) <= length g)%nat.
Proof.
  intros Hinv.
  assert (Hsub : TaskGraph.sorted st ++ TaskGraph.queue st ⊆+ JsMap.keys g).
  { apply NoDup_submseteq; [apply Hinv|].
    intros x Hx. apply is_live_key. apply (inv_live _ _ _ _ Hinv). exact Hx. }
  apply submseteq_length in Hsub. unfold JsMap.keys in Hsub.
  rewrite length_map in Hsub. exact Hsub.
Qed.

(** The [while] loop ends with the invariant in place. *)
Lemma kahn_total g :
  sound_graph g ->
  forall fuel relaxed st,
    kahn_inv g relaxed [] st ->
    (length g - length (TaskGraph.sorted st) < fuel)%nat ->
    exists relaxed' st',
      TaskGraph.kahn fuel g st = Ok st'
      /\ kahn_inv g relaxed' [] st'
      /\ TaskGraph.queue st' = [].
Proof.
  intros Hsound. induction fuel as [|fuel IH]; intros relaxed st Hinv Hfuel;
    [lia|].
  destruct (TaskGraph.queue st) as [|cur rest] eqn:Hqueue.
  { exists relaxed, st. simpl. rewrite Hqueue. auto. }
  cbn [TaskGraph.kahn]. rewrite Hqueue.
  set (st1 := {| TaskGraph.inDegree := TaskGraph.inDegree st;
                 TaskGraph.distances := TaskGraph.distances st;
                 TaskGraph.predecessors := TaskGraph.predecessors st;
                 TaskGraph.queue := rest;
                 TaskGraph.sorted := TaskGraph.sorted st ++ [cur] |}).
  pose proof (inv_once _ _ _ _ Hinv) as Honce. rewrite Hqueue in Honce.
  assert (Hsame : forall x,
             x ∈ TaskGraph.sorted st1 ++ TaskGraph.queue st1
             <-> x ∈ TaskGraph.sorted st ++ TaskGraph.queue st).
  { intros x. subst st1. simpl. rewrite Hqueue, <- app_assoc. reflexivity. }
  assert (Hcur_live : is_live g cur).
  { apply (inv_live _ _ _ _ Hinv). rewrite Hqueue. apply elem_of_app.
    right. left. }
  assert (Hcur_new : cur ∉ TaskGraph.sorted st).
  { apply NoDup_app in Honce as (_ & Hdisj & _). intros Hin.
    apply (Hdisj cur Hin). left. }
  destruct Hcur_live as (node & Hget & Hc).
  assert (Hnode : dependents_of g cur = dependents node)
    by (unfold dependents_of; rewrite Hget; reflexivity).
  assert (Hinv1 : kahn_inv g relaxed (map (pair cur) (dependents node)) st1).
  { split.
    - subst st1. simpl. rewrite <- app_assoc. exact Honce.
    - intros x Hx. apply (inv_live _ _ _ _ Hinv), Hsame, Hx.
    - intros x Hx. apply (inv_zero _ _ _ _ Hinv), Hsame, Hx.
    - apply Hinv.
    - intros m d Hin. destruct (inv_relaxed _ _ _ _ Hinv m d Hin) as [Hm Hd].
      split; [|exact Hd]. subst st1. simpl. apply elem_of_app. auto.
    - apply (inv_degree _ _ _ _ Hinv).
    - intros x. pose proof (inv_dist _ _ _ _ Hinv x) as Hx. subst st1.
      unfold TaskGraph.dist_of in *. simpl. rewrite length_app. simpl. lia.
    - intros d n Hpred.
      destruct (inv_pred _ _ _ _ Hinv d n Hpred) as (Hn & Hdist & Hrest).
      split; [|split; [exact Hdist | exact Hrest]].
      subst st1. simpl. apply elem_of_app. auto.
    - apply (inv_pred_dom _ _ _ _ Hinv).
    - intros m d Hm Hd Hdl. subst st1. simpl in Hm.
      apply elem_of_app in Hm as [Hm|Hm].
      + destruct (inv_done _ _ _ _ Hinv m d Hm Hd Hdl) as [Hin|Hin];
          [auto | inversion Hin].
      + apply list_elem_of_singleton in Hm. subst m. right.
        apply list_elem_of_fmap. exists d. split; [reflexivity|].
        rewrite <- Hnode. exact Hd.
    - apply (inv_edge _ _ _ _ Hinv).
    - intros x Hx Hnot. apply (inv_wait _ _ _ _ Hinv x Hx).
      intros Hin. apply Hnot, Hsame, Hin.
    - apply (inv_root _ _ _ _ Hinv). }
  rewrite Hget.
  destruct Hsound as (Hwk & Hmirror & Hdependents & Hdependencies).
  destruct (relax_all_inv g cur (dependents node)
              (conj Hwk (conj Hmirror (conj Hdependents Hdependencies)))
              relaxed st1 [])
    as (relaxed2 & st2 & Hloop & Hinv2 & Hsorted2).
  - exact Hinv1.
  - subst st1. simpl. apply elem_of_app. right. left.
  - simpl. rewrite <- Hnode. apply Hdependents.
  - intros d Hd. rewrite Hnode. exact Hd.
  - intros x Hin. exfalso. apply Hcur_new.
    apply (inv_relaxed _ _ _ _ Hinv cur x Hin).
  - pose proof (inv_dist _ _ _ _ Hinv cur) as Hd. subst st1.
    unfold TaskGraph.dist_of in *. simpl. rewrite length_app. simpl. lia.
  - rewrite Hloop.
    apply (IH relaxed2 st2 Hinv2).
    pose proof (kahn_inv_bound g relaxed _ st1 Hinv1) as Hbound.
    rewrite Hsorted2. subst st1. simpl in *.
    rewrite !length_app in Hbound. rewrite length_app. simpl in *. lia.
Qed.

(** The scan for the end node. *)
Lemma find_end_fold g st ks acc :
  (forall x, (0 <= TaskGraph.dist_of st x)%Z) ->
  (snd acc = None -> fst acc = (-1)%Z) ->
  let r :=
    fold_left
      (fun '(maxDist, endNode) nodeId =>
         if negb (TaskGraph.node_completed g nodeId)
            && (maxDist <? TaskGraph.dist_of st nodeId)%Z
         then (TaskGraph.dist_of st nodeId, Some nodeId)
         else (maxDist, endNode))
      ks acc in
  match snd r with
  | Some e =>
      snd acc = Some e
      \/ (e ∈ ks /\ TaskGraph.node_completed g e = false)
  | None =>
      snd acc = None
      /\ forall k, k ∈ ks -> TaskGraph.node_completed g k = true
  end.
Proof.
  intros Hdist. revert acc.
  induction ks as [|k ks IH]; intros [maxDist endNode] Hacc; simpl.
  - destruct endNode as [e|]; [auto|]. split; [reflexivity|].
    intros k Hk. inversion Hk.
  - destruct (TaskGraph.node_completed g k) eqn:Hk; simpl.
    + specialize (IH (maxDist, endNode) Hacc). simpl in IH.
      destruct (snd (fold_left _ ks (maxDist, endNode))) as [e|].
      * destruct IH as [IH|[IH1 IH2]]; [auto|]. right. split; [right|]; auto.
      * destruct IH as [IH1 IH2]. split; [exact IH1|].
        intros k' Hk'. apply elem_of_cons in Hk' as [->|Hk']; auto.
    + destruct (Z.ltb_spec maxDist (TaskGraph.dist_of st k)) as [Hlt|Hge].
      * specialize (IH (TaskGraph.dist_of st k, Some k)
                      ltac:(simpl; discriminate)).
        simpl in IH.
        destruct (snd (fold_left _ ks (TaskGraph.dist_of st k, Some k)))
          as [e|].
        -- destruct IH as [[= <-]|[IH1 IH2]].
           ++ right. split; [left | exact Hk].
           ++ right. split; [right|]; auto.
        -- destruct IH as [IH _]. discriminate IH.
      * specialize (IH (maxDist, endNode) Hacc). simpl in IH.
        destruct (snd (fold_left _ ks (maxDist, endNode))) as [e|].
        -- destruct IH as [IH|[IH1 IH2]]; [auto|].
           right. split; [right|]; auto.
        -- destruct IH as [IH1 IH2]. simpl in Hacc.
           specialize (Hacc IH1). specialize (Hdist k). lia.
Qed.

Lemma key_live g e :
  e ∈ JsMap.keys g -> TaskGraph.node_completed g e = false -> is_live g e.
Proof.
  intros Hkey Hc. unfold TaskGraph.node_completed in Hc.
  destruct (JsMap.get e g) as [node|] eqn:Hget.
  - exists node. auto.
  - apply JsMap_get_None in Hget. contradiction.
Qed.

Lemma keys_completed_all g :
  (forall k, k ∈ JsMap.keys g -> TaskGraph.node_completed g k = true) ->
  well_keyed g ->
  TaskGraph.allTasksComplete g = true.
Proof.
  intros Hall Hwk. unfold TaskGraph.allTasksComplete.
  apply forallb_forall. intros node Hin. apply list_elem_of_In in Hin.
  pose proof (well_keyed_node g node Hwk Hin) as Hget.
  specialize (Hall (node_id node) (JsMap_get_Some_key _ _ _ Hget)).
  unfold TaskGraph.node_completed in Hall. rewrite Hget in Hall. exact Hall.
Qed.

(** The walk back along the predecessors ends, and what it collects is a
    chain of live tasks. *)
Lemma reconstruct_total g relaxed st :
  sound_graph g ->
  kahn_inv g relaxed [] st ->
  forall fuel c acc,
    is_live g c ->
    (TaskGraph.dist_of st c < Z.of_nat fuel)%Z ->
    Forall (fun y => (TaskGraph.dist_of st c < TaskGraph.dist_of st y)%Z) acc ->
    NoDup acc ->
    Forall (is_live g) acc ->
    dependency_chain g (c :: acc) ->
    exists path,
      TaskGraph.reconstruct fuel (TaskGraph.predecessors st) (Some c) acc
      = Ok path
      /\ Z.of_nat (length path)
         = (TaskGraph.dist_of st c + 1 + Z.of_nat (length acc))%Z
      /\ NoDup path
      /\ Forall (is_live g) path
      /\ dependency_chain g path.
Proof.
  intros (_ & Hmirror & _) Hinv.
  induction fuel as [|fuel IH]; intros c acc Hlive Hdist Hacc Hnd Hall Hchain.
  { pose proof (inv_dist _ _ _ _ Hinv c). simpl in Hdist. lia. }
  cbn [TaskGraph.reconstruct].
  destruct (inv_pred_dom _ _ _ _ Hinv c (is_live_key g c Hlive)) as [next Hnext].
  rewrite Hnext.
  assert (Hfresh : NoDup (c :: acc)).
  { apply NoDup_cons. split; [|exact Hnd]. intros Hin.
    rewrite Forall_forall in Hacc. specialize (Hacc c Hin). lia. }
  destruct next as [n|].
  - destruct (inv_pred _ _ _ _ Hinv c n Hnext) as (Hn & Hstep & Hdep & _).
    destruct (IH n (c :: acc)) as (path & Hpath & Hlen & Hrest).
    + apply (inv_live _ _ _ _ Hinv). apply elem_of_app. auto.
    + lia.
    + constructor; [lia|]. eapply Forall_impl; [exact Hacc|].
      simpl. intros y Hy. lia.
    + exact Hfresh.
    + constructor; assumption.
    + constructor; [|exact Hchain]. apply Hmirror. exact Hdep.
    + exists path. split; [exact Hpath|]. split; [|exact Hrest].
      rewrite Hlen. simpl length. lia.
  - exists (c :: acc). split; [destruct fuel; reflexivity|].
    split; [|split; [exact Hfresh|
                     split; [constructor; assumption | exact Hchain]]].
    rewrite (inv_root _ _ _ _ Hinv c Hnext). simpl length. lia.
Qed.

Lemma getCriticalPath_sound g :
  sound_graph g ->
  exists path,
    TaskGraph.getCriticalPath g = Ok path
    /\ NoDup path
    /\ (forall x, x ∈ path -> is_live g x)
    /\ dependency_chain g path
    /\ (path = [] ->
        TaskGraph.allTasksComplete g = true \/ EmptyString ∈ JsMap.keys g).
Proof.
  intros Hsound.
  destruct (kahn_total g Hsound (S (length g)) [] (TaskGraph.kahn_init g)
              (kahn_init_inv g Hsound) ltac:(simpl; lia))
    as (relaxed & st & Hkahn & Hinv & _).
  unfold TaskGraph.getCriticalPath. rewrite Hkahn.
  pose proof (find_end_fold g st (JsMap.keys g) ((-1)%Z, None)
                (fun x => proj1 (inv_dist _ _ _ _ Hinv x))
                (fun _ => eq_refl)) as Hend.
  cbv zeta in Hend. fold (TaskGraph.find_end g st) in Hend.
  destruct (snd (TaskGraph.find_end g st)) as [e|].
  - destruct Hend as [Hend|[Hkey Hc]]; [discriminate Hend|].
    destruct (String.eqb_spec e EmptyString) as [->|Hne].
    { exists []. split; [reflexivity|]. split; [constructor|].
      split; [intros x Hx; inversion Hx|]. split; [constructor|]. auto. }
    pose proof (key_live g e Hkey Hc) as Hlive.
    destruct (reconstruct_total g relaxed st Hsound Hinv (S (length g)) e [])
      as (path & Hpath & Hlen & Hnd & Hall & Hchain).
    + exact Hlive.
    + pose proof (inv_dist _ _ _ _ Hinv e) as Hd.
      pose proof (kahn_inv_bound g relaxed _ st Hinv) as Hb.
      rewrite length_app in Hb. lia.
    + constructor.
    + constructor.
    + constructor.
    + constructor.
    + exists path. split; [exact Hpath|]. split; [exact Hnd|].
      split; [rewrite Forall_forall in Hall; exact Hall|].
      split; [exact Hchain|]. intros ->. simpl in Hlen.
      pose proof (inv_dist _ _ _ _ Hinv e). lia.
  - destruct Hend as [_ Hall]. exists []. split; [reflexivity|].
    split; [constructor|]. split; [intros x Hx; inversion Hx|].
    split; [constructor|]. intros _. left.
    apply keys_completed_all; [exact Hall | apply Hsound].
Qed.

(** *** The path is a longest one *)

Lemma markCompleted_keys taskId g :
  JsMap.keys (TaskGraph.markCompleted taskId g) = JsMap.keys g.
Proof.
  unfold TaskGraph.markCompleted.
  destruct (JsMap.get taskId g) as [node|] eqn:Hget; [|reflexivity].
  rewrite JsMap_keys_set. unfold JsMap.has. rewrite Hget. reflexivity.
Qed.

Lemma markCompleted_edge taskId g a b :
  edge (TaskGraph.markCompleted taskId g) a b <-> edge g a b.
Proof.
  unfold edge, deps_of. rewrite markCompleted_get.
  destruct (JsMap.get a g) as [node|]; simpl; [|reflexivity].
  destruct (String.eqb a taskId); reflexivity.
Qed.

Lemma new_dag tasks g :
  TaskGraph.new tasks = Ok g ->
  closed_graph g /\ ~ exists a, tc (edge g) a a.
Proof.
  unfold TaskGraph.new, TaskGraph.buildGraph.
  destruct (link_dependents_spec (TaskGraph.create_nodes tasks))
    as [(nodes' & -> & Hshape & Hclosed0)|(v & d & _ & _ & _ & ->)];
    [|discriminate].
  assert (Hclosed : closed_graph nodes').
  { intros a b He. rewrite <- shape_keys, Hshape, shape_keys.
    apply (Hclosed0 a b). apply (shape_edge _ nodes' a b Hshape). exact He. }
  pose proof (validateNoCycles_spec nodes' Hclosed) as Hval.
  destruct (TaskGraph.validateNoCycles nodes'); try discriminate.
  intros [= <-]. auto.
Qed.

Lemma constructed_dag g :
  constructed g -> closed_graph g /\ ~ exists a, tc (edge g) a a.
Proof.
  intros (tasks & finished & g0 & Hnew & ->).
  apply new_dag in Hnew. clear tasks. revert g0 Hnew.
  induction finished as [|taskId finished IH]; intros g0 Hg0; [exact Hg0|].
  apply IH. destruct Hg0 as [Hclosed Hacyclic]. split.
  - intros a b He. rewrite markCompleted_keys. apply (Hclosed a b).
    apply markCompleted_edge in He. exact He.
  - intros (a & Htc). apply Hacyclic. exists a.
    eapply tc_mono; [|exact Htc]. intros x y. apply markCompleted_edge.
Qed.

(** In a finite graph without cycles no set of nodes can offer, to each of
    its members, a further member to depend on. *)
Lemma no_endless_descent g (U : string -> Prop) :
  ~ (exists a, tc (edge g) a a) ->
  (forall x, U x -> x ∈ JsMap.keys g) ->
  (forall x, U x -> exists m, edge g x m /\ U m) ->
  forall x, ~ U x.
Proof.
  intros Hacyclic Hkeys Hstep x Hx.
  assert (Hwalk : forall n,
             exists l z,
               length l = n /\ walk g (l ++ [z]) /\ NoDup (l ++ [z]) /\ U z
               /\ forall y, y ∈ l ++ [z] -> y ∈ JsMap.keys g).
  { induction n as [|n (l & z & Hlen & Hw & Hnd & Hz & Hall)].
    - exists [], x. split; [reflexivity|]. split; [constructor|].
      split; [apply NoDup_singleton|]. split; [exact Hx|].
      intros y Hy. apply list_elem_of_singleton in Hy. subst y. auto.
    - destruct (Hstep z Hz) as (m & He & Hm).
      assert (Hw' : walk g ((l ++ [z]) ++ [m])).
      { rewrite <- app_assoc. apply walk_snoc; assumption. }
      exists (l ++ [z]), m. split; [rewrite length_app; simpl; lia|].
      split; [exact Hw'|]. split.
      + apply NoDup_app. split; [exact Hnd|]. split; [|apply NoDup_singleton].
        intros y Hy Hy'. apply list_elem_of_singleton in Hy'. subst y.
        apply Hacyclic. exists m. eapply cycle_from_walk; eassumption.
      + split; [exact Hm|]. intros y Hy.
        apply elem_of_app in Hy as [Hy|Hy]; [auto|].
        apply list_elem_of_singleton in Hy. subst y. auto. }
  destruct (Hwalk (length g)) as (l & z & Hlen & _ & Hnd & _ & Hall).
  assert (Hsub : l ++ [z] ⊆+ JsMap.keys g)
    by (apply NoDup_submseteq; assumption).
  apply submseteq_length in Hsub. unfold JsMap.keys in Hsub.
  rewrite length_app, length_map in Hsub. simpl in Hsub. lia.
Qed.

Lemma exists_fresh (l k : list string) :
  NoDup k -> (length l < length k)%nat -> exists y, y ∈ k /\ y ∉ l.
Proof.
  intros Hnd Hlen. destruct (decide (Forall (fun y => y ∈ l) k)) as [Hall|Hex].
  - exfalso. rewrite Forall_forall in Hall.
    assert (Hsub : k ⊆+ l) by (apply NoDup_submseteq; assumption).
    apply submseteq_length in Hsub. lia.
  - apply not_Forall_Exists in Hex; [|intros y; apply _].
    apply Exists_exists in Hex as (y & Hy & Hny). eauto.
Qed.

(** When the loop is over, every task that is not completed has been taken
    from the queue. *)
Lemma kahn_all_popped g relaxed st :
  sound_graph g ->
  closed_graph g ->
  ~ (exists a, tc (edge g) a a) ->
  kahn_inv g relaxed [] st ->
  TaskGraph.queue st = [] ->
  forall x, is_live g x -> x ∈ TaskGraph.sorted st.
Proof.
  intros (Hwk & Hmirror & Hdependents & Hdependencies) Hclosed Hacyclic Hinv
    Hqueue x Hx.
  destruct (decide (x ∈ TaskGraph.sorted st)) as [Hin|Hout]; [exact Hin|].
  exfalso.
  apply (no_endless_descent g
           (fun y => is_live g y /\ y ∉ TaskGraph.sorted st) Hacyclic)
    with (x := x); [| |auto].
  - intros y [Hy _]. apply is_live_key. exact Hy.
  - intros y [Hy Hny].
    assert (Hny' : y ∉ TaskGraph.sorted st ++ TaskGraph.queue st)
      by (rewrite Hqueue, app_nil_r; exact Hny).
    pose proof (inv_wait _ _ _ _ Hinv y Hy Hny') as Hwait.
    rewrite (inv_degree _ _ _ _ Hinv y Hy) in Hwait.
    destruct Hy as (node & Hget & Hc). unfold initial_degree in Hwait.
    rewrite Hget in Hwait.
    destruct (exists_fresh (relaxed_into relaxed y)
                (TaskGraph.incompleteDeps g node)) as (m & Hm & Hfresh).
    + unfold TaskGraph.incompleteDeps. apply NoDup_ListNoDup.
      apply List.NoDup_filter. apply NoDup_ListNoDup.
      eapply Hdependencies. exact Hget.
    + lia.
    + unfold TaskGraph.incompleteDeps in Hm.
      apply list_elem_of_In, filter_In in Hm as [Hm Hinc].
      apply list_elem_of_In in Hm.
      assert (He : edge g y m).
      { exists (dependencies node). split; [|exact Hm].
        unfold deps_of. rewrite Hget. reflexivity. }
      assert (Hlive : is_live g m).
      { apply key_live; [apply (Hclosed y m He)|].
        unfold TaskGraph.incomplete in Hinc.
        destruct (TaskGraph.node_completed g m); [discriminate | reflexivity]. }
      exists m. split; [exact He|]. split; [exact Hlive|].
      intros Hsorted. apply Hfresh. apply relaxed_into_elem.
      destruct (inv_done _ _ _ _ Hinv m y Hsorted) as [Hin|Hin];
        [apply Hmirror; exact He | exists node; auto | exact Hin
         | inversion Hin].
Qed.

(** Along a chain of tasks that are not completed, the distance grows by one
    at least with every step. *)
Lemma chain_dist g relaxed st :
  sound_graph g ->
  kahn_inv g relaxed [] st ->
  (forall x, is_live g x -> x ∈ TaskGraph.sorted st) ->
  forall l a b,
    dependency_chain g (a :: l) ->
    Forall (is_live g) (a :: l) ->
    last (a :: l) = Some b ->
    (TaskGraph.dist_of st a + Z.of_nat (length l) <= TaskGraph.dist_of st b)%Z.
Proof.
  intros (_ & Hmirror & _) Hinv Hpopped.
  induction l as [|y l IH]; intros a b Hchain Hlive Hlast.
  - simpl in Hlast. injection Hlast as <-. simpl. lia.
  - inversion Hchain as [| |x y' l' He Hrest]; subst.
    apply Forall_cons in Hlive as [Ha Hlive].
    pose proof (Forall_inv Hlive) as Hy.
    assert (Hstep : (TaskGraph.dist_of st a + 1 <= TaskGraph.dist_of st y)%Z).
    { apply (inv_edge _ _ _ _ Hinv).
      destruct (inv_done _ _ _ _ Hinv a y (Hpopped a Ha)
                  (proj2 (Hmirror a y) He) Hy) as [Hin|Hin];
        [exact Hin | inversion Hin]. }
    specialize (IH y b Hrest Hlive Hlast). simpl length. lia.
Qed.

Lemma find_end_max g st ks acc :
  (forall e, snd acc = Some e -> fst acc = TaskGraph.dist_of st e) ->
  let r :=
    fold_left
      (fun '(maxDist, endNode) nodeId =>
         if negb (TaskGraph.node_completed g nodeId)
            && (maxDist <? TaskGraph.dist_of st nodeId)%Z
         then (TaskGraph.dist_of st nodeId, Some nodeId)
         else (maxDist, endNode))
      ks acc in
  (fst acc <= fst r)%Z
  /\ (forall k, k ∈ ks -> TaskGraph.node_completed g k = false ->
                (TaskGraph.dist_of st k <= fst r)%Z)
  /\ (forall e, snd r = Some e -> fst r = TaskGraph.dist_of st e).
Proof.
  revert acc. induction ks as [|k ks IH]; intros [maxDist endNode] Hacc; simpl.
  - split; [lia|]. split; [intros k Hk; inversion Hk | exact Hacc].
  - destruct (TaskGraph.node_completed g k) eqn:Hk; simpl.
    + destruct (IH (maxDist, endNode) Hacc) as (H1 & H2 & H3).
      split; [exact H1|]. split; [|exact H3].
      intros k' Hk' Hc. apply elem_of_cons in Hk' as [->|Hk']; [congruence|].
      auto.
    + destruct (Z.ltb_spec maxDist (TaskGraph.dist_of st k)) as [Hlt|Hge].
      * destruct (IH (TaskGraph.dist_of st k, Some k)) as (H1 & H2 & H3).
        { simpl. intros e [= <-]. reflexivity. }
        simpl in H1. split; [lia|]. split; [|exact H3].
        intros k' Hk' Hc. apply elem_of_cons in Hk' as [->|Hk']; auto.
      * destruct (IH (maxDist, endNode) Hacc) as (H1 & H2 & H3).
        simpl in H1. split; [exact H1|]. split; [|exact H3].
        intros k' Hk' Hc. apply elem_of_cons in Hk' as [->|Hk']; [lia|].
        auto.
Qed.

Lemma getCriticalPath_longest g path :
  sound_graph g ->
  closed_graph g ->
  ~ (exists a, tc (edge g) a a) ->
  TaskGraph.getCriticalPath g = Ok path ->
  EmptyString ∉ JsMap.keys g ->
  forall chain,
    dependency_chain g chain ->
    (forall x, x ∈ chain -> is_live g x) ->
    (length chain <= length path)%nat.
Proof.
  intros Hsound Hclosed Hacyclic Hpath Hnonempty chain Hchain Hlive.
  destruct chain as [|a l]; [simpl; lia|].
  destruct (kahn_total g Hsound (S (length g)) [] (TaskGraph.kahn_init g)
              (kahn_init_inv g Hsound) ltac:(simpl; lia))
    as (relaxed & st & Hkahn & Hinv & Hqueue).
  unfold TaskGraph.getCriticalPath in Hpath. rewrite Hkahn in Hpath.
  pose proof (kahn_all_popped g relaxed st Hsound Hclosed Hacyclic Hinv Hqueue)
    as Hpopped.
  destruct (last (a :: l)) as [b|] eqn:Hlast;
    [|apply last_None in Hlast; discriminate Hlast].
  assert (Hall : Forall (is_live g) (a :: l))
    by (apply Forall_forall; exact Hlive).
  pose proof (chain_dist g relaxed st Hsound Hinv Hpopped l a b Hchain Hall
                Hlast) as Hdist.
  assert (Hb : is_live g b).
  { apply Hlive. apply last_Some in Hlast as (l' & ->).
    apply elem_of_app. right. left. }
  pose proof (find_end_fold g st (JsMap.keys g) ((-1)%Z, None)
                (fun x => proj1 (inv_dist _ _ _ _ Hinv x))
                (fun _ => eq_refl)) as Hend.
  destruct (find_end_max g st (JsMap.keys g) ((-1)%Z, None))
    as (_ & Hmax & Hfst); [simpl; discriminate|].
  cbv zeta in Hend. fold (TaskGraph.find_end g st) in Hend, Hmax, Hfst.
  assert (Hbmax : (TaskGraph.dist_of st b <= fst (TaskGraph.find_end g st))%Z).
  { apply Hmax; [apply is_live_key; exact Hb|].
    destruct Hb as (node & Hget & Hc). unfold TaskGraph.node_completed.
    rewrite Hget. exact Hc. }
  destruct (snd (TaskGraph.find_end g st)) as [e|] eqn:Hsnd.
  - destruct Hend as [Hend|[Hkey Hc]]; [discriminate Hend|].
    destruct (String.eqb_spec e EmptyString) as [->|Hne]; [contradiction|].
    destruct (reconstruct_total g relaxed st Hsound Hinv (S (length g)) e [])
      as (path' & Hpath' & Hlen & _).
    + apply key_live; assumption.
    + pose proof (inv_dist _ _ _ _ Hinv e) as Hd.
      pose proof (kahn_inv_bound g relaxed _ st Hinv) as Hbd.
      rewrite length_app in Hbd. lia.
    + constructor.
    + constructor.
    + constructor.
    + constructor.
    + rewrite Hpath' in Hpath. injection Hpath as <-.
      rewrite (Hfst e eq_refl) in Hbmax.
      pose proof (inv_dist _ _ _ _ Hinv a). simpl length in *. lia.
  - destruct Hend as [_ Hcompleted]. exfalso.
    destruct Hb as (node & Hget & Hc).
    specialize (Hcompleted b (JsMap_get_Some_key _ _ _ Hget)).
    unfold TaskGraph.node_completed in Hcompleted. rewrite Hget in Hcompleted.
    congruence.
Qed.


Lemma constructed_sound g : constructed g -> sound_graph g.
Proof.
  intros (tasks & finished & g0 & Hnew & ->).
  apply marked_sound. eapply new_sound. exact Hnew.
Qed.

(** On every graph the constructor returns, whichever tasks have been marked
    completed since, [getCriticalPath] returns, and what it returns is a
    chain of distinct tasks that are not completed, each of which depends
    on the one before it.  It is empty when every task is completed, and,
    provided no task has the empty id, no chain of tasks that are not
    completed is longer. *)
Theorem getCriticalPath_is_longest_chain (g : TaskGraph.t) :
  constructed g ->
  exists path,
    TaskGraph.getCriticalPath g = Ok path
    /\ NoDup path
    /\ (forall x, x ∈ path -> is_live g x)
    /\ dependency_chain g path
    /\ (TaskGraph.allTasksComplete g = true -> path = [])
    /\ (EmptyString ∉ JsMap.keys g ->
        forall chain,
          dependency_chain g chain ->
          (forall x, x ∈ chain -> is_live g x) ->
          (length chain <= length path)%nat).
Proof.
  intros Hg.
  pose proof (constructed_sound g Hg) as Hsound.
  destruct (constructed_dag g Hg) as [Hclosed Hacyclic].
  destruct (getCriticalPath_sound g Hsound)
    as (path & Hpath & Hnd & Hlive & Hchain & _).
  exists path. split; [exact Hpath|]. split; [exact Hnd|].
  split; [exact Hlive|]. split; [exact Hchain|]. split.
  - intros Hall. rewrite (getCriticalPath_finished g Hall) in Hpath.
    congruence.
  - apply getCriticalPath_longest; assumption.
Qed.

(** The diamond after [A] has completed, where the path is [B; D]. *)
Lemma getCriticalPath_is_longest_chain_witness :
  constructed (marked ["A"] diamond_graph)
  /\ exists path,
      TaskGraph.getCriticalPath (marked ["A"] diamond_graph) = Ok path
      /\ dependency_chain (marked ["A"] diamond_graph) path.
Proof.
  assert (Hg : constructed (marked ["A"] diamond_graph)).
  { exists diamond_tasks, ["A"], diamond_graph.
    split; [vm_compute|]; reflexivity. }
  split; [exact Hg|].
  destruct (getCriticalPath_is_longest_chain _ Hg)
    as (path & Hpath & _ & _ & Hchain & _).
  exists path. split; [exact Hpath | exact Hchain].
Defined.

(** ** Strategies on the scheduler's graph *)

(** On a constructed graph [CriticalPathStrategy] always returns.  It hands
    back the ready ids sorted by their position on the critical path, the
    ids off the path last and in their input order, no id lost or doubled,
    and selects from the front of that order. *)
Theorem CriticalPath_selectTasks_order (ready : list string)
    (availableWorkers : Z) (g : TaskGraph.t) :
  constructed g ->
  exists sel criticalPath,
    CriticalPathStrategy.selectTasks ready availableWorkers (Some g) = Ok sel
    /\ TaskGraph.getCriticalPath g = Ok criticalPath
    /\ availableTasks_after sel ≡ₚ ready
    /\ StronglySorted
         (fun a b => (path_rank criticalPath a <= path_rank criticalPath b)%Z)
         (availableTasks_after sel)
    /\ List.filter (off_path criticalPath) (availableTasks_after sel)
       = List.filter (off_path criticalPath) ready
    /\ selected sel = slice0 (availableTasks_after sel) (Num availableWorkers).
Proof.
  intros Hg.
  destruct (getCriticalPath_sound g (constructed_sound g Hg))
    as (path & Hpath & _).
  assert (Hsel : exists sel,
             CriticalPathStrategy.selectTasks ready availableWorkers (Some g)
             = Ok sel).
  { unfold CriticalPathStrategy.selectTasks. rewrite Hpath. eauto. }
  destruct Hsel as [sel Hsel]. exists sel.
  destruct (CriticalPath_selectTasks_sorted ready availableWorkers g sel Hsel)
    as (criticalPath & H). exists criticalPath. auto.
Qed.

(** The diamond after [A] has completed, with the ready ids [C] and [B]. *)
Lemma CriticalPath_selectTasks_order_witness :
  constructed (marked ["A"] diamond_graph)
  /\ exists sel,
      CriticalPathStrategy.selectTasks ["C"; "B"] 1
        (Some (marked ["A"] diamond_graph)) = Ok sel
      /\ availableTasks_after sel ≡ₚ ["C"; "B"].
Proof.
  assert (Hg : constructed (marked ["A"] diamond_graph)).
  { exists diamond_tasks, ["A"], diamond_graph.
    split; [vm_compute|]; reflexivity. }
  split; [exact Hg|].
  destruct (CriticalPath_selectTasks_order ["C"; "B"] 1 _ Hg)
    as (sel & criticalPath & Hsel & _ & Hperm & _).
  exists sel. split; [exact Hsel | exact Hperm].
Defined.

(** Whatever the strategy, for a non-negative worker count, a non-negative
    estimate per task of the rate-aware strategy and a graph that is absent
    or constructed, [selectTasks] returns a selection of at most
    [availableWorkers] ids, every one of them a ready id. *)
Theorem selectTasks_within_workers (strategy : SchedulingStrategy)
    (ready : list string) (availableWorkers : Z) (currentRPM : option Z)
    (graph : option TaskGraph.t) :
  (0 <= availableWorkers)%Z ->
  sensible_estimate strategy ->
  (forall g, graph = Some g -> constructed g) ->
  exists sel,
    selectTasks strategy ready availableWorkers currentRPM graph = Ok sel
    /\ (Z.of_nat (length (selected sel)) <= availableWorkers)%Z
    /\ forall x, x ∈ selected sel -> x ∈ ready.
Proof.
  intros Haw Hest Hgraph.
  assert (Hsel : exists sel,
             selectTasks strategy ready availableWorkers currentRPM graph
             = Ok sel).
  { destruct strategy as [|self|]; simpl; eauto.
    destruct graph as [g|]; simpl; [|eauto].
    destruct (getCriticalPath_sound g
                (constructed_sound g (Hgraph g eq_refl)))
      as (path & Hpath & _).
    unfold CriticalPathStrategy.selectTasks. rewrite Hpath. eauto. }
  destruct Hsel as [sel Hsel]. exists sel. split; [exact Hsel|].
  exact (selectTasks_bounds strategy ready availableWorkers currentRPM graph
           sel Haw Hest Hsel).
Qed.

(** The critical-path strategy on the diamond after [A] has completed. *)
Lemma selectTasks_within_workers_witness :
  (0 <= 1)%Z
  /\ sensible_estimate CriticalPath
  /\ exists sel,
      selectTasks CriticalPath ["C"; "B"] 1 None
        (Some (marked ["A"] diamond_graph)) = Ok sel
      /\ (Z.of_nat (length (selected sel)) <= 1)%Z.
Proof.
  split; [lia|]. split; [exact I|].
  destruct (selectTasks_within_workers CriticalPath ["C"; "B"] 1 None
              (Some (marked ["A"] diamond_graph))
              ltac:(lia) ltac:(exact I))
    as (sel & Hsel & Hlen & _).
  - intros g [= <-]. exists diamond_tasks, ["A"], diamond_graph.
    split; [vm_compute|]; reflexivity.
  - exists sel. split; [exact Hsel | exact Hlen].
Defined.

(** ** OrchestrationScheduler: the loop of [start] comes to rest *)










